(** * SDL3 render back ends: Vita GXM command translator and PSP render-target residency

    A shallow embedding of the two render back ends of the repository:

    - [Gxm]: the PS Vita back end ([SDL_render_vita_gxm.c]): the draw-state
      cache ([SetDrawState]), the clip-rectangle clamp and the command-queue
      translator with its batch merge ([VITA_GXM_RunCommandQueue]);
    - [Psp]: the PSP back end: the LRU list of render targets, the
      swizzle / unswizzle codec and the spill / promote residency manager;
    - [GxmPixels] and [GxmPresent]: the read-back of the Vita frame buffer
      ([read_pixels]) and the buffer ring of [VITA_GXM_RenderPresent];
    - [GxmUpdate]: the texture updates of the Vita, packed and planar
      ([VITA_GXM_UpdateTexture], [VITA_GXM_UpdateTextureYUV],
      [VITA_GXM_UpdateTextureNV]);
    - [PspDraw]: the PSP drawing path: [StartDrawing], the blend-state
      cache, [PSP_RunCommandQueue], [PSP_RenderPresent] and
      [PSP_UpdateTexture].

    Native calls are recorded as a trace of events, C pointers are addresses
    in [Z] (0 is NULL) or keys of a finite map, and every function that can
    run into undefined behaviour in C (a dangling pointer, a write through
    NULL) returns [None] there. *)

From Stdlib Require Import ZArith Lia List Bool.
From stdpp Require Import base option list gmap.

Open Scope Z_scope.

(** ** A state, trace and error monad

    [M S E A] threads a state [S], appends the native calls of type [E]
    that were issued, and is [None] on undefined behaviour. *)

Definition M (S E A : Type) : Type := S -> option (A * S * list E).

Definition ret {S E A} (a : A) : M S E A := fun s => Some (a, s, []).

Definition bind {S E A B} (m : M S E A) (k : A -> M S E B) : M S E B :=
  fun s =>
    match m s with
    | None => None
    | Some (a, s1, t1) =>
        match k a s1 with
        | None => None
        | Some (b, s2, t2) => Some (b, s2, t1 ++ t2)
        end
    end.

Definition get {S E} : M S E S := fun s => Some (s, s, []).
Definition put {S E} (s : S) : M S E unit := fun _ => Some (tt, s, []).
Definition modify {S E} (f : S -> S) : M S E unit := fun s => Some (tt, f s, []).
Definition emit {S E} (e : E) : M S E unit := fun s => Some (tt, s, [e]).
Definition undefined {S E A} : M S E A := fun _ => None.
Definition when {S E} (b : bool) (m : M S E unit) : M S E unit :=
  if b then m else ret tt.

Declare Scope m_scope.
Delimit Scope m_scope with m.
Notation "x <- m ;; k" := (bind m (fun x => k))
  (at level 100, m at next level, right associativity) : m_scope.
Notation "m ;;; k" := (bind m (fun _ => k))
  (at level 100, right associativity) : m_scope.

(** C integer types: [int] is 32-bit two's complement, [size_t] and
    [unsigned int] are 32 bits on both consoles. *)

Definition wrap_int (z : Z) : Z := (z + 2^31) mod 2^32 - 2^31.
Definition wrap_uint (z : Z) : Z := z mod 2^32.

(** ** The Vita GXM back end *)

Module Gxm.

Record SDL_Rect := mkRect { x : Z; y : Z; w : Z; h : Z }.

Definition rect_eqb (a b : SDL_Rect) : bool :=
  (x a =? x b) && (y a =? y b) && (w a =? w b) && (h a =? h b).

Inductive SDL_RenderCommandType :=
| SDL_RENDERCMD_NO_OP
| SDL_RENDERCMD_SETVIEWPORT
| SDL_RENDERCMD_SETCLIPRECT
| SDL_RENDERCMD_SETDRAWCOLOR
| SDL_RENDERCMD_CLEAR
| SDL_RENDERCMD_DRAW_POINTS
| SDL_RENDERCMD_DRAW_LINES
| SDL_RENDERCMD_FILL_RECTS
| SDL_RENDERCMD_COPY
| SDL_RENDERCMD_COPY_EX
| SDL_RENDERCMD_GEOMETRY.

#[global] Instance cmdtype_eq_dec : EqDecision SDL_RenderCommandType.
Proof. solve_decision. Defined.

(** [SDL_BlendMode] is a [Uint32]; the named modes are these constants. *)
Definition SDL_BlendMode := Z.
Definition SDL_BLENDMODE_NONE : SDL_BlendMode := 0.
Definition SDL_BLENDMODE_BLEND : SDL_BlendMode := 1.
Definition SDL_BLENDMODE_BLEND_PREMULTIPLIED : SDL_BlendMode := 16.
Definition SDL_BLENDMODE_ADD : SDL_BlendMode := 2.
Definition SDL_BLENDMODE_ADD_PREMULTIPLIED : SDL_BlendMode := 32.
Definition SDL_BLENDMODE_MOD : SDL_BlendMode := 4.
Definition SDL_BLENDMODE_MUL : SDL_BlendMode := 8.
Definition SDL_BLENDMODE_INVALID : SDL_BlendMode := 2147483647.

Inductive SDL_ScaleMode :=
| SDL_SCALEMODE_INVALID
| SDL_SCALEMODE_NEAREST
| SDL_SCALEMODE_LINEAR
| SDL_SCALEMODE_PIXELART.

#[global] Instance scalemode_eq_dec : EqDecision SDL_ScaleMode.
Proof. solve_decision. Defined.

Inductive SDL_TextureAddressMode :=
| SDL_TEXTURE_ADDRESS_INVALID
| SDL_TEXTURE_ADDRESS_AUTO
| SDL_TEXTURE_ADDRESS_CLAMP
| SDL_TEXTURE_ADDRESS_WRAP.

#[global] Instance addrmode_eq_dec : EqDecision SDL_TextureAddressMode.
Proof. solve_decision. Defined.

Inductive SceGxmTextureAddrMode :=
| SCE_GXM_TEXTURE_ADDR_CLAMP
| SCE_GXM_TEXTURE_ADDR_REPEAT.

Inductive SceGxmTextureFilter :=
| SCE_GXM_TEXTURE_FILTER_POINT
| SCE_GXM_TEXTURE_FILTER_LINEAR.

Inductive SceGxmPrimitiveType :=
| SCE_GXM_PRIMITIVE_TRIANGLES
| SCE_GXM_PRIMITIVE_LINES
| SCE_GXM_PRIMITIVE_POINTS.

Inductive SceGxmPolygonMode :=
| SCE_GXM_POLYGON_MODE_TRIANGLE_FILL
| SCE_GXM_POLYGON_MODE_LINE
| SCE_GXM_POLYGON_MODE_POINT.

(** Pointers to shader programs and to textures are addresses; 0 is NULL. *)
Definition ptr := Z.
Definition NULL : ptr := 0.

(** [cmd->data.draw]; the float [color_scale] and the vertex floats are not
    modelled, [first] is the address of the command's vertices. *)
Record draw_data := mkDraw {
  first : Z;
  count : Z;
  blend : SDL_BlendMode;
  texture : ptr;
  texture_scale_mode : SDL_ScaleMode;
  texture_address_mode_u : SDL_TextureAddressMode;
  texture_address_mode_v : SDL_TextureAddressMode
}.

(** [SDL_RenderCommand]: the tag and the members of the [data] union that
    the translator reads; the queue's [next] links are the list order. *)
Record SDL_RenderCommand := mkCmd {
  command : SDL_RenderCommandType;
  viewport_rect : SDL_Rect;
  cliprect_enabled_ : bool;
  cliprect_rect : SDL_Rect;
  draw : draw_data
}.

Record fragment_programs := mkFP { fp_color : ptr; fp_texture : ptr }.

Record blend_fragment_programs := mkBFP {
  blend_mode_none : fragment_programs;
  blend_mode_blend : fragment_programs;
  blend_mode_add : fragment_programs;
  blend_mode_mod : fragment_programs;
  blend_mode_mul : fragment_programs
}.

(** [last_command] is the C [int], with [None] for -1. *)
Record gxm_drawstate_cache := mkCache {
  viewport : SDL_Rect;
  viewport_dirty : bool;
  viewport_is_set : bool;
  ds_texture : ptr;
  ds_target : ptr;
  fragment_program : ptr;
  vertex_program : ptr;
  last_command : option SDL_RenderCommandType;
  cliprect_enabled_dirty : bool;
  cliprect_enabled : bool;
  cliprect_dirty : bool;
  cliprect : SDL_Rect;
  drawablew : Z;
  drawableh : Z
}.

(** [VITA_GXM_TextureData] with what the back end reads of its
    [gxm_texture] (the data pointer and the render target) and of the owning
    [SDL_Texture] ([SDL_BYTESPERPIXEL] of its format). [last_command] is the
    C [int] with [None] for -1. *)
Record VITA_GXM_TextureData := mkTex {
  pitch : Z;
  datap : Z;
  bytespp : Z;
  gxm_rendertarget : ptr;
  scale_mode : SDL_ScaleMode;
  address_mode_u : SDL_TextureAddressMode;
  address_mode_v : SDL_TextureAddressMode
}.

(** [VITA_GXM_RenderData] together with what the translator reads from the
    [SDL_Renderer]: the target, the window size in pixels, the size of the
    target texture ([None] when [SDL_GetTextureSize] fails), and the
    textures reachable through [SDL_Texture::internal]. [ortho_matrix] is
    kept as the width and height it was last built from. *)
Record VITA_GXM_RenderData := mkData {
  drawing : bool;
  currentBlendMode : Z;
  renderTarget : ptr;
  clearVertices : ptr;
  ortho_matrix : Z * Z;
  colorVertexProgram : ptr;
  colorFragmentProgram : ptr;
  textureVertexProgram : ptr;
  textureFragmentProgram : ptr;
  clearVertexProgram : ptr;
  clearFragmentProgram : ptr;
  blendFragmentPrograms : blend_fragment_programs;
  drawstate : gxm_drawstate_cache;
  target : ptr;
  window_size : Z * Z;
  target_size : option (Z * Z);
  textures : gmap Z VITA_GXM_TextureData
}.

(** The native calls of the back end (libgxm and the helpers of
    [SDL_render_vita_gxm_tools.c] that wrap it). *)
Inductive GxmCall :=
| sceGxmBeginScene (rendertarget : ptr)
| sceGxmEndScene
| sceGxmSetViewport (vp : SDL_Rect)
| unset_clip_rectangle
| set_clip_rectangle (x_min y_min x_max y_max : Z)
| sceGxmSetVertexProgram (p : ptr)
| sceGxmSetFragmentProgram (p : ptr)
| sceGxmReserveVertexDefaultUniformBuffer
| sceGxmReserveFragmentDefaultUniformBuffer
| sceGxmSetUniformDataF_wvp (textured : bool) (matrix : Z * Z)
| sceGxmSetUniformDataF_clearColor
| gxm_texture_set_filters (tex : ptr) (f : SceGxmTextureFilter)
| gxm_texture_set_address_mode (tex : ptr) (mu mv : SceGxmTextureAddrMode)
| sceGxmSetFragmentTexture (tex : ptr)
| sceGxmSetVertexStream (vertices : Z)
| sceGxmSetFrontPolygonMode (m : SceGxmPolygonMode)
| sceGxmDraw (op : SceGxmPrimitiveType) (indexCount : Z)
| sceGxmFinish.

Definition G := M VITA_GXM_RenderData GxmCall.

(** Field updates of the two mutable structures. *)
Definition set_viewport v (c : gxm_drawstate_cache) :=
  mkCache v (viewport_dirty c) (viewport_is_set c) (ds_texture c) (ds_target c)
    (fragment_program c) (vertex_program c) (last_command c)
    (cliprect_enabled_dirty c) (cliprect_enabled c) (cliprect_dirty c)
    (cliprect c) (drawablew c) (drawableh c).
Definition set_viewport_dirty v (c : gxm_drawstate_cache) :=
  mkCache (viewport c) v (viewport_is_set c) (ds_texture c) (ds_target c)
    (fragment_program c) (vertex_program c) (last_command c)
    (cliprect_enabled_dirty c) (cliprect_enabled c) (cliprect_dirty c)
    (cliprect c) (drawablew c) (drawableh c).
Definition set_viewport_is_set v (c : gxm_drawstate_cache) :=
  mkCache (viewport c) (viewport_dirty c) v (ds_texture c) (ds_target c)
    (fragment_program c) (vertex_program c) (last_command c)
    (cliprect_enabled_dirty c) (cliprect_enabled c) (cliprect_dirty c)
    (cliprect c) (drawablew c) (drawableh c).
Definition set_ds_texture v (c : gxm_drawstate_cache) :=
  mkCache (viewport c) (viewport_dirty c) (viewport_is_set c) v (ds_target c)
    (fragment_program c) (vertex_program c) (last_command c)
    (cliprect_enabled_dirty c) (cliprect_enabled c) (cliprect_dirty c)
    (cliprect c) (drawablew c) (drawableh c).
Definition set_ds_target v (c : gxm_drawstate_cache) :=
  mkCache (viewport c) (viewport_dirty c) (viewport_is_set c) (ds_texture c) v
    (fragment_program c) (vertex_program c) (last_command c)
    (cliprect_enabled_dirty c) (cliprect_enabled c) (cliprect_dirty c)
    (cliprect c) (drawablew c) (drawableh c).
Definition set_fragment_program v (c : gxm_drawstate_cache) :=
  mkCache (viewport c) (viewport_dirty c) (viewport_is_set c) (ds_texture c)
    (ds_target c) v (vertex_program c) (last_command c)
    (cliprect_enabled_dirty c) (cliprect_enabled c) (cliprect_dirty c)
    (cliprect c) (drawablew c) (drawableh c).
Definition set_vertex_program v (c : gxm_drawstate_cache) :=
  mkCache (viewport c) (viewport_dirty c) (viewport_is_set c) (ds_texture c)
    (ds_target c) (fragment_program c) v (last_command c)
    (cliprect_enabled_dirty c) (cliprect_enabled c) (cliprect_dirty c)
    (cliprect c) (drawablew c) (drawableh c).
Definition set_last_command v (c : gxm_drawstate_cache) :=
  mkCache (viewport c) (viewport_dirty c) (viewport_is_set c) (ds_texture c)
    (ds_target c) (fragment_program c) (vertex_program c) v
    (cliprect_enabled_dirty c) (cliprect_enabled c) (cliprect_dirty c)
    (cliprect c) (drawablew c) (drawableh c).
Definition set_cliprect_enabled_dirty v (c : gxm_drawstate_cache) :=
  mkCache (viewport c) (viewport_dirty c) (viewport_is_set c) (ds_texture c)
    (ds_target c) (fragment_program c) (vertex_program c) (last_command c)
    v (cliprect_enabled c) (cliprect_dirty c)
    (cliprect c) (drawablew c) (drawableh c).
Definition set_cliprect_enabled v (c : gxm_drawstate_cache) :=
  mkCache (viewport c) (viewport_dirty c) (viewport_is_set c) (ds_texture c)
    (ds_target c) (fragment_program c) (vertex_program c) (last_command c)
    (cliprect_enabled_dirty c) v (cliprect_dirty c)
    (cliprect c) (drawablew c) (drawableh c).
Definition set_cliprect_dirty v (c : gxm_drawstate_cache) :=
  mkCache (viewport c) (viewport_dirty c) (viewport_is_set c) (ds_texture c)
    (ds_target c) (fragment_program c) (vertex_program c) (last_command c)
    (cliprect_enabled_dirty c) (cliprect_enabled c) v
    (cliprect c) (drawablew c) (drawableh c).
Definition set_cliprect v (c : gxm_drawstate_cache) :=
  mkCache (viewport c) (viewport_dirty c) (viewport_is_set c) (ds_texture c)
    (ds_target c) (fragment_program c) (vertex_program c) (last_command c)
    (cliprect_enabled_dirty c) (cliprect_enabled c) (cliprect_dirty c)
    v (drawablew c) (drawableh c).
Definition set_drawable vw vh (c : gxm_drawstate_cache) :=
  mkCache (viewport c) (viewport_dirty c) (viewport_is_set c) (ds_texture c)
    (ds_target c) (fragment_program c) (vertex_program c) (last_command c)
    (cliprect_enabled_dirty c) (cliprect_enabled c) (cliprect_dirty c)
    (cliprect c) vw vh.

Definition set_drawing v (d : VITA_GXM_RenderData) :=
  mkData v (currentBlendMode d) (renderTarget d) (clearVertices d)
    (ortho_matrix d) (colorVertexProgram d) (colorFragmentProgram d)
    (textureVertexProgram d) (textureFragmentProgram d)
    (clearVertexProgram d) (clearFragmentProgram d)
    (blendFragmentPrograms d) (drawstate d) (target d) (window_size d)
    (target_size d) (textures d).
Definition set_blend (mode : Z) (fc ft : ptr) (d : VITA_GXM_RenderData) :=
  mkData (drawing d) mode (renderTarget d) (clearVertices d)
    (ortho_matrix d) (colorVertexProgram d) fc
    (textureVertexProgram d) ft
    (clearVertexProgram d) (clearFragmentProgram d)
    (blendFragmentPrograms d) (drawstate d) (target d) (window_size d)
    (target_size d) (textures d).
Definition set_ortho_matrix v (d : VITA_GXM_RenderData) :=
  mkData (drawing d) (currentBlendMode d) (renderTarget d) (clearVertices d)
    v (colorVertexProgram d) (colorFragmentProgram d)
    (textureVertexProgram d) (textureFragmentProgram d)
    (clearVertexProgram d) (clearFragmentProgram d)
    (blendFragmentPrograms d) (drawstate d) (target d) (window_size d)
    (target_size d) (textures d).
Definition set_drawstate v (d : VITA_GXM_RenderData) :=
  mkData (drawing d) (currentBlendMode d) (renderTarget d) (clearVertices d)
    (ortho_matrix d) (colorVertexProgram d) (colorFragmentProgram d)
    (textureVertexProgram d) (textureFragmentProgram d)
    (clearVertexProgram d) (clearFragmentProgram d)
    (blendFragmentPrograms d) v (target d) (window_size d)
    (target_size d) (textures d).
Definition set_textures v (d : VITA_GXM_RenderData) :=
  mkData (drawing d) (currentBlendMode d) (renderTarget d) (clearVertices d)
    (ortho_matrix d) (colorVertexProgram d) (colorFragmentProgram d)
    (textureVertexProgram d) (textureFragmentProgram d)
    (clearVertexProgram d) (clearFragmentProgram d)
    (blendFragmentPrograms d) (drawstate d) (target d) (window_size d)
    (target_size d) v.

Definition set_scale_mode v (t : VITA_GXM_TextureData) :=
  mkTex (pitch t) (datap t) (bytespp t) (gxm_rendertarget t) v
    (address_mode_u t) (address_mode_v t).
Definition set_address_mode vu vv (t : VITA_GXM_TextureData) :=
  mkTex (pitch t) (datap t) (bytespp t) (gxm_rendertarget t) (scale_mode t)
    vu vv.

(** [data->drawstate.f = v] *)
Definition upd_ds (f : gxm_drawstate_cache -> gxm_drawstate_cache) : G unit :=
  modify (fun d => set_drawstate (f (drawstate d)) d).

(** [texture->internal]: reading through a pointer that holds no texture is
    undefined. *)
Definition vita_texture_of (texture : ptr) : G VITA_GXM_TextureData :=
  fun d => match textures d !! texture with
           | Some t => Some (t, d, [])
           | None => None
           end.

Local Open Scope m_scope.

Definition StartDrawing : G unit :=
  data <- get ;;
  if drawing data then ret tt else
  upd_ds (fun c =>
    set_viewport_dirty true (set_last_command None
      (set_fragment_program NULL (set_vertex_program NULL
        (set_ds_texture NULL c))))) ;;;
  (if target data =? NULL then
     emit (sceGxmBeginScene (renderTarget data))
   else
     vita_texture <- vita_texture_of (target data) ;;
     emit (sceGxmBeginScene (gxm_rendertarget vita_texture))) ;;;
  modify (set_drawing true).

Definition VITA_GXM_LockTexture (texture : ptr) (rect : SDL_Rect)
  : G (Z * Z) :=
  vita_texture <- vita_texture_of texture ;;
  let pixels := datap vita_texture + y rect * pitch vita_texture
                + x rect * bytespp vita_texture in
  let pitch_out := pitch vita_texture in
  (* make sure that rendering is finished on render target textures *)
  when (negb (gxm_rendertarget vita_texture =? NULL)) (emit sceGxmFinish) ;;;
  ret (pixels, pitch_out).

Definition VITA_GXM_SetBlendMode (blendMode : Z) : G unit :=
  data <- get ;;
  if negb (blendMode =? currentBlendMode data) then
    let in_ :=
      if blendMode =? SDL_BLENDMODE_NONE then blend_mode_none (blendFragmentPrograms data)
      else if blendMode =? SDL_BLENDMODE_BLEND then blend_mode_blend (blendFragmentPrograms data)
      else if blendMode =? SDL_BLENDMODE_ADD then blend_mode_add (blendFragmentPrograms data)
      else if blendMode =? SDL_BLENDMODE_MOD then blend_mode_mod (blendFragmentPrograms data)
      else if blendMode =? SDL_BLENDMODE_MUL then blend_mode_mul (blendFragmentPrograms data)
      else blend_mode_blend (blendFragmentPrograms data) in
    modify (set_blend blendMode (fp_color in_) (fp_texture in_))
  else ret tt.

(** [count] points give [count - 1] segments of two vertices each; [vertex]
    is what [pool_malloc] returned. The [int] product is stored into the
    [size_t] field. *)
Definition VITA_GXM_QueueDrawLines (vertex : Z) (cmd : SDL_RenderCommand)
    (npoints : Z) : SDL_RenderCommand :=
  let d := draw cmd in
  mkCmd (command cmd) (viewport_rect cmd) (cliprect_enabled_ cmd) (cliprect_rect cmd)
    (mkDraw vertex (wrap_uint (wrap_int ((npoints - 1) * 2)))
       (blend d) (texture d) (texture_scale_mode d)
       (texture_address_mode_u d) (texture_address_mode_v d)).

Definition VITA_GXM_RenderClear : G bool :=
  emit unset_clip_rectangle ;;;
  data <- get ;;
  (* set clear shaders *)
  upd_ds (fun c => set_vertex_program (clearVertexProgram data)
                     (set_fragment_program (clearFragmentProgram data) c)) ;;;
  emit (sceGxmSetVertexProgram (clearVertexProgram data)) ;;;
  emit (sceGxmSetFragmentProgram (clearFragmentProgram data)) ;;;
  emit sceGxmReserveFragmentDefaultUniformBuffer ;;;
  emit sceGxmSetUniformDataF_clearColor ;;;
  (* draw the clear triangle *)
  emit (sceGxmSetVertexStream (clearVertices data)) ;;;
  emit (sceGxmDraw SCE_GXM_PRIMITIVE_TRIANGLES 3) ;;;
  upd_ds (set_cliprect_dirty true) ;;;
  ret true.

(** The default branch of the C function asserts first; this is the release
    build, where [SDL_assert] is empty. *)
Definition TranslateAddressMode (mode : SDL_TextureAddressMode)
  : SceGxmTextureAddrMode :=
  match mode with
  | SDL_TEXTURE_ADDRESS_CLAMP => SCE_GXM_TEXTURE_ADDR_CLAMP
  | SDL_TEXTURE_ADDRESS_WRAP => SCE_GXM_TEXTURE_ADDR_REPEAT
  | _ => SCE_GXM_TEXTURE_ADDR_CLAMP
  end.

Definition ClampCliprectToViewport (clip viewport : SDL_Rect) : SDL_Rect :=
  let clip :=
    if x clip <? 0 then mkRect 0 (y clip) (wrap_int (w clip + x clip)) (h clip)
    else clip in
  let clip :=
    if y clip <? 0 then mkRect (x clip) 0 (w clip) (wrap_int (h clip + y clip))
    else clip in
  let max_x_c := wrap_int (x clip + w clip) in
  let max_y_c := wrap_int (y clip + h clip) in
  let max_x_v := wrap_int (x viewport + w viewport) in
  let max_y_v := wrap_int (y viewport + h viewport) in
  let clip :=
    if max_x_c >? max_x_v then
      mkRect (x clip) (y clip)
        (wrap_int (w clip - wrap_int (max_x_v - max_x_c))) (h clip)
    else clip in
  let clip :=
    if max_y_c >? max_y_v then
      mkRect (x clip) (y clip) (w clip)
        (wrap_int (h clip - wrap_int (max_y_v - max_y_c)))
    else clip in
  clip.

Definition is_nearest (m : SDL_ScaleMode) : bool :=
  match m with
  | SDL_SCALEMODE_PIXELART | SDL_SCALEMODE_NEAREST => true
  | _ => false
  end.

Definition SetDrawState (cmd : SDL_RenderCommand) : G bool :=
  let texture := texture (draw cmd) in
  let blend := blend (draw cmd) in
  data <- get ;;
  matrix_updated <-
    (if viewport_dirty (drawstate data) then
       let viewport := viewport (drawstate data) in
       emit (sceGxmSetViewport viewport) ;;;
       updated <-
         (if negb (w viewport =? 0) && negb (h viewport =? 0) then
            modify (set_ortho_matrix (w viewport, h viewport)) ;;; ret true
          else ret false) ;;
       upd_ds (set_viewport_dirty false) ;;;
       ret updated
     else ret false) ;;
  data <- get ;;
  when (cliprect_enabled_dirty (drawstate data))
    (when (negb (cliprect_enabled (drawstate data))) (emit unset_clip_rectangle) ;;;
     upd_ds (set_cliprect_enabled_dirty false)) ;;;
  data <- get ;;
  when ((cliprect_enabled (drawstate data) || viewport_is_set (drawstate data))
        && cliprect_dirty (drawstate data))
    (let rect := cliprect (drawstate data) in
     let rect :=
       if viewport_is_set (drawstate data)
       then ClampCliprectToViewport rect (viewport (drawstate data))
       else rect in
     emit (set_clip_rectangle (x rect) (y rect)
             (wrap_int (x rect + w rect)) (wrap_int (y rect + h rect))) ;;;
     upd_ds (set_cliprect_dirty false)) ;;;
  (* do that first, to select appropriate shaders *)
  VITA_GXM_SetBlendMode blend ;;;
  data <- get ;;
  let vertex_program_ :=
    if negb (texture =? NULL) then textureVertexProgram data
    else colorVertexProgram data in
  let fragment_program_ :=
    if negb (texture =? NULL) then textureFragmentProgram data
    else colorFragmentProgram data in
  updated_v <-
    (if negb (vertex_program (drawstate data) =? vertex_program_) then
       upd_ds (set_vertex_program vertex_program_) ;;;
       emit (sceGxmSetVertexProgram vertex_program_) ;;;
       ret true
     else ret false) ;;
  data <- get ;;
  updated_f <-
    (if negb (fragment_program (drawstate data) =? fragment_program_) then
       upd_ds (set_fragment_program fragment_program_) ;;;
       emit (sceGxmSetFragmentProgram fragment_program_) ;;;
       ret true
     else ret false) ;;
  let program_updated := updated_v || updated_f in
  data <- get ;;
  when (program_updated || matrix_updated)
    (if fragment_program (drawstate data) =? textureFragmentProgram data then
       emit sceGxmReserveVertexDefaultUniformBuffer ;;;
       emit (sceGxmSetUniformDataF_wvp true (ortho_matrix data))
     else
       emit sceGxmReserveVertexDefaultUniformBuffer ;;;
       emit (sceGxmSetUniformDataF_wvp false (ortho_matrix data))) ;;;
  when (negb (texture =? NULL))
    (vita_texture <- vita_texture_of texture ;;
     vita_texture <-
       (if decide (texture_scale_mode (draw cmd) <> scale_mode vita_texture) then
          (match texture_scale_mode (draw cmd) with
           | SDL_SCALEMODE_PIXELART | SDL_SCALEMODE_NEAREST =>
               emit (gxm_texture_set_filters texture SCE_GXM_TEXTURE_FILTER_POINT)
           | SDL_SCALEMODE_LINEAR =>
               emit (gxm_texture_set_filters texture SCE_GXM_TEXTURE_FILTER_LINEAR)
           | _ => ret tt
           end) ;;;
          ret (set_scale_mode (texture_scale_mode (draw cmd)) vita_texture)
        else ret vita_texture) ;;
     vita_texture <-
       (if decide (texture_address_mode_u (draw cmd) <> address_mode_u vita_texture
                   \/ texture_address_mode_v (draw cmd) <> address_mode_v vita_texture) then
          let mode_u := TranslateAddressMode (texture_address_mode_u (draw cmd)) in
          let mode_v := TranslateAddressMode (texture_address_mode_v (draw cmd)) in
          emit (gxm_texture_set_address_mode texture mode_u mode_v) ;;;
          ret (set_address_mode (texture_address_mode_u (draw cmd))
                 (texture_address_mode_v (draw cmd)) vita_texture)
        else ret vita_texture) ;;
     modify (fun d => set_textures (<[texture := vita_texture]> (textures d)) d)) ;;;
  data <- get ;;
  when (negb (texture =? ds_texture (drawstate data)))
    (when (negb (texture =? NULL))
       (_ <- vita_texture_of texture ;;
        emit (sceGxmSetFragmentTexture texture)) ;;;
     upd_ds (set_ds_texture texture)) ;;;
  (* all drawing commands use this *)
  emit (sceGxmSetVertexStream (first (draw cmd))) ;;;
  ret true.

(** The batch merge of [VITA_GXM_RunCommandQueue]: walks [nextcmd] while the
    commands have the type, texture and blend mode of the first one, adding
    their counts in [size_t]; returns the count and [finalcmd->next]. *)
Fixpoint merge_scan (thiscmdtype : SDL_RenderCommandType) (thistexture : ptr)
    (thisblend : SDL_BlendMode) (nextcmd : list SDL_RenderCommand) (count_ : Z)
  : Z * list SDL_RenderCommand :=
  match nextcmd with
  | [] => (count_, [])
  | n :: rest =>
      if decide (command n <> thiscmdtype) then (count_, nextcmd)
      else if negb (texture (draw n) =? thistexture)
              || negb (blend (draw n) =? thisblend) then (count_, nextcmd)
      else merge_scan thiscmdtype thistexture thisblend rest
             (wrap_uint (count_ + count (draw n)))
  end.

(** One iteration of the [while (cmd)] loop on the command at the head of the
    queue; returns the queue from [cmd->next] on. *)
Definition run_command (cmd : SDL_RenderCommand) (next : list SDL_RenderCommand)
  : G (list SDL_RenderCommand) :=
  next' <-
    (match command cmd with
     | SDL_RENDERCMD_SETVIEWPORT =>
         data <- get ;;
         (if negb (rect_eqb (viewport (drawstate data)) (viewport_rect cmd)) then
            let viewport := viewport_rect cmd in
            let is_set :=
              negb (x viewport =? 0) || negb (y viewport =? 0)
              || negb (w viewport =? drawablew (drawstate data))
              || negb (h viewport =? drawableh (drawstate data)) in
            upd_ds (fun c => set_viewport_is_set is_set
                     (set_cliprect_dirty true (set_viewport_dirty true
                        (set_viewport viewport c)))) ;;;
            when (negb (cliprect_enabled (drawstate data)))
              (if is_set then
                 upd_ds (set_cliprect (mkRect 0 0 (w viewport) (h viewport)))
               else
                 upd_ds (set_cliprect_enabled_dirty true))
          else ret tt) ;;;
         ret next
     | SDL_RENDERCMD_SETCLIPRECT =>
         let rect := cliprect_rect cmd in
         data <- get ;;
         let viewport := viewport (drawstate data) in
         when (negb (eqb (cliprect_enabled (drawstate data)) (cliprect_enabled_ cmd)))
           (upd_ds (fun c => set_cliprect_enabled_dirty true
                      (set_cliprect_enabled (cliprect_enabled_ cmd) c)) ;;;
            when (negb (cliprect_enabled_ cmd) && viewport_is_set (drawstate data))
              (upd_ds (set_cliprect (mkRect 0 0 (w viewport) (h viewport))))) ;;;
         data <- get ;;
         when (negb (rect_eqb (cliprect (drawstate data)) rect))
           (upd_ds (fun c => set_cliprect_dirty true (set_cliprect rect c))) ;;;
         ret next
     | SDL_RENDERCMD_SETDRAWCOLOR => ret next
     | SDL_RENDERCMD_CLEAR => VITA_GXM_RenderClear ;;; ret next
     | SDL_RENDERCMD_FILL_RECTS => ret next (* unused *)
     | SDL_RENDERCMD_COPY => ret next (* unused *)
     | SDL_RENDERCMD_COPY_EX => ret next (* unused *)
     | SDL_RENDERCMD_DRAW_POINTS
     | SDL_RENDERCMD_DRAW_LINES
     | SDL_RENDERCMD_GEOMETRY =>
         let thistexture := texture (draw cmd) in
         let thisblend := blend (draw cmd) in
         let thiscmdtype := command cmd in
         let '(count_, after_final) :=
           merge_scan thiscmdtype thistexture thisblend next (count (draw cmd)) in
         ret_ <- SetDrawState cmd ;;
         when ret_
           (let op :=
              if decide (thiscmdtype = SDL_RENDERCMD_DRAW_POINTS) then SCE_GXM_PRIMITIVE_POINTS
              else if decide (thiscmdtype = SDL_RENDERCMD_DRAW_LINES) then SCE_GXM_PRIMITIVE_LINES
              else SCE_GXM_PRIMITIVE_TRIANGLES in
            (if decide (thiscmdtype = SDL_RENDERCMD_DRAW_POINTS) then
               emit (sceGxmSetFrontPolygonMode SCE_GXM_POLYGON_MODE_POINT)
             else if decide (thiscmdtype = SDL_RENDERCMD_DRAW_LINES) then
               emit (sceGxmSetFrontPolygonMode SCE_GXM_POLYGON_MODE_LINE)
             else ret tt) ;;;
            emit (sceGxmDraw op count_) ;;;
            when (bool_decide (thiscmdtype = SDL_RENDERCMD_DRAW_POINTS
                               \/ thiscmdtype = SDL_RENDERCMD_DRAW_LINES))
              (emit (sceGxmSetFrontPolygonMode SCE_GXM_POLYGON_MODE_TRIANGLE_FILL))) ;;;
         (* skip any copy commands we just combined in here *)
         ret after_final
     | SDL_RENDERCMD_NO_OP => ret next
     end) ;;
  upd_ds (set_last_command (Some (command cmd))) ;;;
  ret next'.

(** The [while (cmd)] loop; every iteration consumes at least the head of
    the queue, so [length cmd] iterations always suffice. *)
Fixpoint run_loop (fuel : nat) (cmd : list SDL_RenderCommand) : G unit :=
  match cmd with
  | [] => ret tt
  | c :: next =>
      match fuel with
      | O => undefined
      | S fuel' => next' <- run_command c next ;; run_loop fuel' next'
      end
  end.

Definition VITA_GXM_RunCommandQueue (cmd : list SDL_RenderCommand) : G bool :=
  StartDrawing ;;;
  data <- get ;;
  upd_ds (set_ds_target (target data)) ;;;
  let '(w_, h_) :=
    if target data =? NULL then window_size data
    else match target_size data with
         | None => (drawablew (drawstate data), drawableh (drawstate data))
         | Some sz => sz
         end in
  data <- get ;;
  when (negb (w_ =? drawablew (drawstate data)) || negb (h_ =? drawableh (drawstate data)))
    (upd_ds (fun c => set_drawable w_ h_
               (set_cliprect_dirty true (set_viewport_dirty true c)))) ;;;
  run_loop (length cmd) cmd ;;;
  emit sceGxmEndScene ;;;
  modify (set_drawing false) ;;;
  ret true.

End Gxm.

(** ** The PSP back end *)

Module Psp.

(** Addresses are integers. *)
#[warnings="-notation-for-abbreviation"] Notation ptr := Z (only parsing).
Definition NULL : ptr := 0.

(** [InVram]: video memory lies below [0x04200000]. *)
Definition VRAM_END : Z := 69206016.
Definition InVram (data : ptr) : bool := data <? VRAM_END.

Inductive SDL_TextureAccess :=
| SDL_TEXTUREACCESS_STATIC
| SDL_TEXTUREACCESS_STREAMING
| SDL_TEXTUREACCESS_TARGET.

#[global] Instance access_eq_dec : EqDecision SDL_TextureAccess.
Proof. solve_decision. Defined.

(** The four formats the renderer registers, and any other format with its
    [SDL_BYTESPERPIXEL]. *)
Inductive SDL_PixelFormat :=
| SDL_PIXELFORMAT_BGR565
| SDL_PIXELFORMAT_ABGR1555
| SDL_PIXELFORMAT_ABGR4444
| SDL_PIXELFORMAT_ABGR8888
| SDL_PIXELFORMAT_OTHER (bytes_per_pixel : Z).

Definition SDL_BYTESPERPIXEL (format : SDL_PixelFormat) : Z :=
  match format with
  | SDL_PIXELFORMAT_BGR565 | SDL_PIXELFORMAT_ABGR1555
  | SDL_PIXELFORMAT_ABGR4444 => 2
  | SDL_PIXELFORMAT_ABGR8888 => 4
  | SDL_PIXELFORMAT_OTHER n => n
  end.

Definition GU_PSM_5650 : Z := 0.
Definition GU_PSM_5551 : Z := 1.
Definition GU_PSM_4444 : Z := 2.
Definition GU_PSM_8888 : Z := 3.

Definition PixelFormatToPSPFMT (format : SDL_PixelFormat) : Z :=
  match format with
  | SDL_PIXELFORMAT_BGR565 => GU_PSM_5650
  | SDL_PIXELFORMAT_ABGR1555 => GU_PSM_5551
  | SDL_PIXELFORMAT_ABGR4444 => GU_PSM_4444
  | SDL_PIXELFORMAT_ABGR8888 => GU_PSM_8888
  | _ => GU_PSM_8888
  end.

(** *** The swizzle codec on pixel buffers

    A buffer is the list of its 32-bit words, which is how both loops
    access it; a pointer into it is a word index. A read or a write outside
    the buffer is undefined behaviour. *)

Definition load (m : list Z) (p : Z) : option Z :=
  if 0 <=? p then m !! Z.to_nat p else None.

Definition store (m : list Z) (p : Z) (v : Z) : option (list Z) :=
  if (0 <=? p) && (p <? Z.of_nat (length m))
  then Some (<[Z.to_nat p := v]> m) else None.

(** [*block++ = *src++] *)
Definition copy_word (src : list Z) (s : Z) (dst : list Z) (block : Z)
  : option (list Z) :=
  v ← load src s; store dst block v.

(** The four copies of one 16-byte block line. *)
Definition copy4 (src : list Z) (s : Z) (dst : list Z) (block : Z)
  : option (list Z) :=
  d ← copy_word src s dst block;
  d ← copy_word src (s + 1) d (block + 1);
  d ← copy_word src (s + 2) d (block + 2);
  copy_word src (s + 3) d (block + 3).

(** [for (i = 0; i < rowblocks; i++)] of [TextureSwizzle]: [block] advances
    by 4 + 28 words, [src] by 4. Returns the buffer and [src]. *)
Fixpoint swizzle_row (n : nat) (src : list Z) (s : Z) (dst : list Z) (block : Z)
  : option (list Z * Z) :=
  match n with
  | O => Some (dst, s)
  | S n' =>
      d ← copy4 src s dst block;
      swizzle_row n' src (s + 4) d (block + 4 + 28)
  end.

(** [for (j = 0; j < height; j++, blockaddress += 16)] of [TextureSwizzle];
    [blockaddress] is the [unsigned int] byte offset into [data]. *)
Fixpoint swizzle_rows (n : nat) (j : Z) (rowblocks rowblocksadd : Z)
    (src : list Z) (s : Z) (dst : list Z) (blockaddress : Z)
  : option (list Z) :=
  match n with
  | O => Some dst
  | S n' =>
      '(d, s') ← swizzle_row (Z.to_nat rowblocks) src s dst (blockaddress / 4);
      let blockaddress :=
        if Z.land j 7 =? 7 then wrap_uint (blockaddress + rowblocksadd)
        else blockaddress in
      swizzle_rows n' (j + 1) rowblocks rowblocksadd src s' d
        (wrap_uint (blockaddress + 16))
  end.

(** The loops of [TextureSwizzle] for a texture of [bytewidth] bytes per
    row and [height] rows. *)
Definition swizzle_pixels (bytewidth height : Z) (src dst : list Z)
  : option (list Z) :=
  let rowblocks := Z.shiftr bytewidth 4 in
  let rowblocksadd := wrap_int (Z.shiftl (rowblocks - 1) 7) in
  swizzle_rows (Z.to_nat height) 0 rowblocks rowblocksadd src 0 dst 0.

(** [for (j = 0; j < 8; ++j)] of [TextureUnswizzle]. *)
Fixpoint unswizzle_block (n : nat) (dstpitch : Z) (src : list Z) (s : Z)
    (dst : list Z) (block : Z) : option (list Z * Z) :=
  match n with
  | O => Some (dst, s)
  | S n' =>
      d ← copy4 src s dst block;
      unswizzle_block n' dstpitch src (s + 4) d (block + 4 + dstpitch)
  end.

(** [for (blockx = 0; blockx < widthblocks; ++blockx)]; [xdst] is a byte
    offset into [data]. *)
Fixpoint unswizzle_blockrow (n : nat) (dstpitch : Z) (src : list Z) (s : Z)
    (dst : list Z) (xdst : Z) : option (list Z * Z) :=
  match n with
  | O => Some (dst, s)
  | S n' =>
      '(d, s') ← unswizzle_block 8 dstpitch src s dst (xdst / 4);
      unswizzle_blockrow n' dstpitch src s' d (xdst + 16)
  end.

(** [for (blocky = 0; blocky < heightblocks; ++blocky)]. *)
Fixpoint unswizzle_rows (n : nat) (widthblocks dstpitch dstrow : Z)
    (src : list Z) (s : Z) (dst : list Z) (ydst : Z) : option (list Z) :=
  match n with
  | O => Some dst
  | S n' =>
      '(d, s') ← unswizzle_blockrow (Z.to_nat widthblocks) dstpitch src s dst ydst;
      unswizzle_rows n' widthblocks dstpitch dstrow src s' d (ydst + dstrow)
  end.

(** The loops of [TextureUnswizzle]; the divisions are C's on [int]. *)
Definition unswizzle_pixels (bytewidth height : Z) (src dst : list Z)
  : option (list Z) :=
  let widthblocks := Z.quot bytewidth 16 in
  let heightblocks := Z.quot height 8 in
  let dstpitch := Z.quot (bytewidth - 16) 4 in
  let dstrow := wrap_int (bytewidth * 8) in
  unswizzle_rows (Z.to_nat heightblocks) widthblocks dstpitch dstrow src 0 dst 0.

(** [SDL_memcpy (dst, src, n)] for [n] bytes: whole words are copied; reading
    or writing past either buffer is undefined. *)
Definition memcpy (dst src : list Z) (n : Z) : option (list Z) :=
  let k := Z.to_nat (n / 4) in
  if decide (k <= length src /\ k <= length dst)%nat
  then Some (take k src ++ drop k dst) else None.

(** *** The allocators

    [vram.h] ([vramalloc], [vfree], [vlargestblock]) and the C heap
    ([SDL_malloc], [SDL_free]) are libraries outside the repository. They are
    an interface here: a failed allocation returns [NULL]; video memory lies
    below [VRAM_END] and the C heap above it; a request no larger than the
    largest free block of video memory succeeds. *)
Class Allocators := {
  vram_t : Type;
  sram_t : Type;
  vlargestblock : vram_t -> Z;
  vramalloc : Z -> vram_t -> ptr * vram_t;
  vfree : ptr -> vram_t -> vram_t;
  SDL_malloc : Z -> sram_t -> ptr * sram_t;
  SDL_free : ptr -> sram_t -> sram_t;
  vramalloc_range : forall n v, 0 <= fst (vramalloc n v) < VRAM_END;
  vramalloc_fits : forall n v, n <= vlargestblock v -> fst (vramalloc n v) <> NULL;
  SDL_malloc_range : forall n s,
    fst (SDL_malloc n s) = NULL \/ VRAM_END <= fst (SDL_malloc n s)
}.

(** [PSP_TextureData], with the fields of the owning [SDL_Texture] that the
    back end reads ([sdl_w], [sdl_h], [sdl_format], [sdl_access]); [pixels]
    is the contents of the block [data] points to. A texture is named by the
    address of this structure, which is [SDL_Texture::internal]. *)
Record PSP_TextureData := mkTexData {
  data : ptr;
  pixels : list Z;
  size : Z;
  width : Z;
  height : Z;
  textureWidth : Z;
  textureHeight : Z;
  bits : Z;
  format : Z;
  pitch : Z;
  swizzled : bool;
  prevhotw : ptr;
  nexthotw : ptr;
  sdl_w : Z;
  sdl_h : Z;
  sdl_format : SDL_PixelFormat;
  sdl_access : SDL_TextureAccess
}.

Definition set_data (p : ptr) (px : list Z) (t : PSP_TextureData) :=
  mkTexData p px (size t) (width t) (height t) (textureWidth t)
    (textureHeight t) (bits t) (format t) (pitch t) (swizzled t)
    (prevhotw t) (nexthotw t) (sdl_w t) (sdl_h t) (sdl_format t) (sdl_access t).
Definition set_swizzled (b : bool) (t : PSP_TextureData) :=
  mkTexData (data t) (pixels t) (size t) (width t) (height t) (textureWidth t)
    (textureHeight t) (bits t) (format t) (pitch t) b
    (prevhotw t) (nexthotw t) (sdl_w t) (sdl_h t) (sdl_format t) (sdl_access t).
Definition set_prevhotw (p : ptr) (t : PSP_TextureData) :=
  mkTexData (data t) (pixels t) (size t) (width t) (height t) (textureWidth t)
    (textureHeight t) (bits t) (format t) (pitch t) (swizzled t)
    p (nexthotw t) (sdl_w t) (sdl_h t) (sdl_format t) (sdl_access t).
Definition set_nexthotw (p : ptr) (t : PSP_TextureData) :=
  mkTexData (data t) (pixels t) (size t) (width t) (height t) (textureWidth t)
    (textureHeight t) (bits t) (format t) (pitch t) (swizzled t)
    (prevhotw t) p (sdl_w t) (sdl_h t) (sdl_format t) (sdl_access t).

Inductive GuState := GU_STENCIL_TEST | GU_ALPHA_TEST.

(** The native calls of the residency manager and of texture activation. *)
Inductive GuCall :=
| sceGuDrawBufferList (psm : Z) (fbp : ptr) (fbw : Z)
| sceGuEnable (s : GuState)
| sceGuDisable (s : GuState)
| sceGuStencilOp
| sceGuStencilFunc
| sceGuAlphaFunc
| sceGuTexMode (tpsm : Z) (swizzle : bool)
| sceGuTexImage (tw th tbw : Z) (tbp : ptr)
| sceKernelDcacheWritebackRange (p : ptr) (n : Z)
| SDL_SetError_could_not_spill (wanted : Z).

Section WithAllocators.
Context `{Alloc : Allocators}.

(** [PSP_RenderData] (the two ends of the LRU list) with the memory it
    works on: the texture structures by address, the two allocators, and
    [junk], the contents of memory that was allocated and not yet written. *)
Record World := mkWorld {
  heap : gmap Z PSP_TextureData;
  most_recent_target : ptr;
  least_recent_target : ptr;
  vram : vram_t;
  sram : sram_t;
  junk : nat -> Z
}.

Definition set_heap v (W : World) :=
  mkWorld v (most_recent_target W) (least_recent_target W) (vram W) (sram W) (junk W).
Definition set_most_recent_target v (W : World) :=
  mkWorld (heap W) v (least_recent_target W) (vram W) (sram W) (junk W).
Definition set_least_recent_target v (W : World) :=
  mkWorld (heap W) (most_recent_target W) v (vram W) (sram W) (junk W).
Definition set_vram v (W : World) :=
  mkWorld (heap W) (most_recent_target W) (least_recent_target W) v (sram W) (junk W).
Definition set_sram v (W : World) :=
  mkWorld (heap W) (most_recent_target W) (least_recent_target W) (vram W) v (junk W).

Definition P := M World GuCall.

Local Open Scope m_scope.

(** Reading the structure at [p], and updating it in place; undefined when
    [p] holds no texture. *)
Definition deref (p : ptr) : P PSP_TextureData :=
  fun W => match heap W !! p with
           | Some c => Some (c, W, [])
           | None => None
           end.

Definition assign (p : ptr) (f : PSP_TextureData -> PSP_TextureData) : P unit :=
  c <- deref p ;;
  modify (fun W => set_heap (<[p := f c]> (heap W)) W).

Definition lift {A} (o : option A) : P A :=
  fun W => match o with Some a => Some (a, W, []) | None => None end.

(** A block of [n] bytes of uninitialised memory. *)
Definition junk_block (W : World) (n : Z) : list Z :=
  map (junk W) (seq 0 (Z.to_nat (n / 4))).

(** The allocator calls; an allocation returns the address and the block. *)
Definition do_vramalloc (n : Z) : P (ptr * list Z) :=
  fun W => let '(a, v) := vramalloc n (vram W) in
           Some ((a, junk_block W n), set_vram v W, []).
Definition do_vfree (p : ptr) : P unit :=
  modify (fun W => set_vram (vfree p (vram W)) W).
Definition do_SDL_malloc (n : Z) : P (ptr * list Z) :=
  fun W => let '(a, s) := SDL_malloc n (sram W) in
           Some ((a, junk_block W n), set_sram s W, []).
Definition do_SDL_calloc (n : Z) : P (ptr * list Z) :=
  fun W => let '(a, s) := SDL_malloc n (sram W) in
           Some ((a, repeat 0 (Z.to_nat (n / 4))), set_sram s W, []).
Definition do_SDL_free (p : ptr) : P unit :=
  modify (fun W => set_sram (SDL_free p (sram W)) W).

(** SECTION render target LRU management *)
Definition LRUTargetRelink (psp_texture : ptr) : P unit :=
  t <- deref psp_texture ;;
  when (negb (prevhotw t =? NULL))
    (assign (prevhotw t) (set_nexthotw (nexthotw t))) ;;;
  t <- deref psp_texture ;;
  when (negb (nexthotw t =? NULL))
    (assign (nexthotw t) (set_prevhotw (prevhotw t))).

Definition LRUTargetPushFront (psp_texture : ptr) : P unit :=
  W <- get ;;
  assign psp_texture (set_nexthotw (most_recent_target W)) ;;;
  when (negb (most_recent_target W =? NULL))
    (assign (most_recent_target W) (set_prevhotw psp_texture)) ;;;
  modify (set_most_recent_target psp_texture) ;;;
  W <- get ;;
  when (least_recent_target W =? NULL)
    (modify (set_least_recent_target psp_texture)).

Definition LRUTargetRemove (psp_texture : ptr) : P unit :=
  LRUTargetRelink psp_texture ;;;
  W <- get ;;
  t <- deref psp_texture ;;
  when (most_recent_target W =? psp_texture)
    (modify (set_most_recent_target (nexthotw t))) ;;;
  when (least_recent_target W =? psp_texture)
    (modify (set_least_recent_target (prevhotw t))) ;;;
  assign psp_texture (set_prevhotw NULL) ;;;
  assign psp_texture (set_nexthotw NULL).

Definition LRUTargetBringFront (psp_texture : ptr) : P unit :=
  W <- get ;;
  if most_recent_target W =? psp_texture then ret tt (* nothing to do *)
  else
    LRUTargetRemove psp_texture ;;;
    LRUTargetPushFront psp_texture.

Definition TextureStorageFree (storage : ptr) : P unit :=
  if InVram storage then do_vfree storage else do_SDL_free storage.

(** [bytewidth] and [height] as both codec functions compute them: an
    [unsigned] product and an [unsigned] quotient stored into [int]s; the
    division by a zero [bytewidth] is undefined. *)
Definition codec_dims (t : PSP_TextureData) : option (Z * Z) :=
  let bytewidth := wrap_int (wrap_uint (textureWidth t * Z.shiftr (bits t) 3)) in
  if wrap_uint bytewidth =? 0 then None
  else Some (bytewidth, wrap_int (size t / wrap_uint bytewidth)).

(** [dst] is the destination block and its contents, [NULL] to have the
    function allocate one in system memory. *)
Definition TextureSwizzle (psp_texture : ptr) (dst : ptr * list Z) : P bool :=
  t <- deref psp_texture ;;
  if swizzled t then ret true else
  dims <- lift (codec_dims t) ;;
  let '(bytewidth, height_) := dims in
  data_ <- (if fst dst =? NULL then do_SDL_malloc (size t) else ret dst) ;;
  if fst data_ =? NULL then ret false else
  px <- lift (swizzle_pixels bytewidth height_ (pixels t) (snd data_)) ;;
  TextureStorageFree (data t) ;;;
  assign psp_texture (fun t => set_swizzled true (set_data (fst data_) px t)) ;;;
  emit (sceKernelDcacheWritebackRange (fst data_) (size t)) ;;;
  ret true.

Definition TextureUnswizzle (psp_texture : ptr) (dst : ptr * list Z) : P bool :=
  t <- deref psp_texture ;;
  if negb (swizzled t) then ret true else
  dims <- lift (codec_dims t) ;;
  let '(bytewidth, height_) := dims in
  data_ <- (if fst dst =? NULL then do_SDL_malloc (size t) else ret dst) ;;
  if fst data_ =? NULL then ret false else
  px <- lift (unswizzle_pixels bytewidth height_ (pixels t) (snd data_)) ;;
  TextureStorageFree (data t) ;;;
  assign psp_texture (fun t => set_swizzled false (set_data (fst data_) px t)) ;;;
  emit (sceKernelDcacheWritebackRange (fst data_) (size t)) ;;;
  ret true.

(** Assumes the texture is in VRAM. *)
Definition TextureSpillToSram (psp_texture : ptr) : P bool :=
  t <- deref psp_texture ;;
  if swizzled t then
    (* Texture was swizzled in vram, just copy to system memory *)
    sdata <- do_SDL_malloc (size t) ;;
    if fst sdata =? NULL then ret false else
    px <- lift (memcpy (snd sdata) (pixels t) (size t)) ;;
    do_vfree (data t) ;;;
    assign psp_texture (set_data (fst sdata) px) ;;;
    ret true
  else
    TextureSwizzle psp_texture (NULL, []). (* Will realloc in sysram *)

(** Assumes texture in sram and a large enough continuous block in vram;
    without one [tdata] is [NULL] and the copy through it is undefined. *)
Definition TexturePromoteToVram (psp_texture : ptr) (target : bool) : P bool :=
  t <- deref psp_texture ;;
  tdata <- do_vramalloc (size t) ;;
  if swizzled t && target then
    TextureUnswizzle psp_texture tdata
  else
    if fst tdata =? NULL then undefined else
    px <- lift (memcpy (snd tdata) (pixels t) (size t)) ;;
    do_SDL_free (data t) ;;;
    assign psp_texture (set_data (fst tdata) px) ;;;
    ret true.

Definition TextureSpillLRU (wanted : Z) : P bool :=
  W <- get ;;
  let lru := least_recent_target W in
  if negb (lru =? NULL) then
    ok <- TextureSpillToSram lru ;;
    if negb ok then ret false else
    LRUTargetRemove lru ;;;
    ret true
  else
    (* Asked to spill but there nothing to spill *)
    emit (SDL_SetError_could_not_spill wanted) ;;;
    ret false.

(** [while (vlargestblock() < size)]: [fuel] bounds the iterations; an
    iteration unlinks one texture, so one more than the number of textures
    is always enough on a well-formed list. *)
Fixpoint TextureSpillTargetsForSpace (fuel : nat) (size_ : Z) : P bool :=
  W <- get ;;
  if vlargestblock (vram W) <? size_ then
    match fuel with
    | O => undefined
    | S fuel' =>
        ok <- TextureSpillLRU size_ ;;
        if negb ok then ret false
        else TextureSpillTargetsForSpace fuel' size_
    end
  else ret true.

Definition spill_fuel (W : World) : nat := S (base.size (heap W)).

Definition TextureBindAsTarget (psp_texture : ptr) : P bool :=
  t <- deref psp_texture ;;
  ok <-
    (if negb (InVram (data t)) then
       (* Bring back the texture in vram *)
       W <- get ;;
       ok <- TextureSpillTargetsForSpace (spill_fuel W) (size t) ;;
       if negb ok then ret false
       else TexturePromoteToVram psp_texture true
     else ret true) ;;
  if negb ok then ret false else
  LRUTargetBringFront psp_texture ;;;
  t <- deref psp_texture ;;
  emit (sceGuDrawBufferList (format t) (data t) (textureWidth t)) ;;;
  (* Stencil alpha dst hack *)
  (if format t =? GU_PSM_5551 then
     emit (sceGuEnable GU_STENCIL_TEST) ;;;
     emit sceGuStencilOp ;;;
     emit sceGuStencilFunc ;;;
     emit (sceGuEnable GU_ALPHA_TEST) ;;;
     emit sceGuAlphaFunc
   else
     emit (sceGuDisable GU_STENCIL_TEST) ;;;
     emit (sceGuDisable GU_ALPHA_TEST)) ;;;
  ret true.

(** [while (w > n) n <<= 1] on [unsigned int]: once [n] has wrapped to 0 the
    loop never ends, which is [None]. *)
Fixpoint next_pow2_loop (fuel : nat) (w n : Z) : option Z :=
  if w >? n then
    match fuel with
    | O => None
    | S fuel' => next_pow2_loop fuel' w (wrap_uint (Z.shiftl n 1))
    end
  else Some n.

(** [return n]: the function returns [int], so that a result of 2^31 comes
    back negative. *)
Definition TextureNextPow2 (w : Z) : option Z :=
  if w =? 0 then Some 0 else wrap_int <$> next_pow2_loop 33 w 2.

(** [psp_texture] is the address [SDL_calloc] returned for the structure
    ([NULL] when it failed); [w], [h], [format_] and [access] are the fields
    of the [SDL_Texture]. [textureHeight] and [textureWidth] are
    [unsigned int]s, to which the result of [TextureNextPow2] is converted. *)
Definition PSP_CreateTexture (psp_texture : ptr) (w h : Z)
    (format_ : SDL_PixelFormat) (access : SDL_TextureAccess) : P bool :=
  if psp_texture =? NULL then ret false else
  th <- lift (wrap_uint <$> TextureNextPow2 (wrap_uint h)) ;;
  tw <- lift (wrap_uint <$> TextureNextPow2 (wrap_uint w)) ;;
  let fmt := PixelFormatToPSPFMT format_ in
  let bits_ :=
    if (fmt =? GU_PSM_5650) || (fmt =? GU_PSM_5551) || (fmt =? GU_PSM_4444)
    then 16 else 32 in
  let pitch_ := wrap_uint (tw * SDL_BYTESPERPIXEL format_) in
  let size_ := wrap_uint (th * pitch_) in
  let t := mkTexData NULL [] size_ (wrap_uint w) (wrap_uint h) tw th bits_ fmt
             pitch_ false NULL NULL w h format_ access in
  modify (fun W => set_heap (<[psp_texture := t]> (heap W)) W) ;;;
  ok <-
    (if decide (access = SDL_TEXTUREACCESS_TARGET) then
       W <- get ;;
       ok <- TextureSpillTargetsForSpace (spill_fuel W) size_ ;;
       if negb ok then ret false else
       d <- do_vramalloc size_ ;;
       assign psp_texture (set_data (fst d) (snd d)) ;;;
       when (negb (fst d =? NULL)) (LRUTargetPushFront psp_texture) ;;;
       ret true
     else
       d <- do_SDL_calloc size_ ;;
       assign psp_texture (set_data (fst d) (snd d)) ;;;
       ret true) ;;
  t <- deref psp_texture ;;
  if negb ok || (data t =? NULL) then
    (* SDL_free(psp_texture) *)
    modify (fun W => set_heap (delete psp_texture (heap W)) W) ;;;
    ret false
  else ret true.

Definition TextureShouldSwizzle (t : PSP_TextureData) : bool :=
  negb (bool_decide (sdl_access t = SDL_TEXTUREACCESS_TARGET) && InVram (data t))
  && negb (bool_decide (sdl_access t = SDL_TEXTUREACCESS_STREAMING))
  && ((sdl_w t >=? 16) || (sdl_h t >=? 16)).

Definition TextureActivate (texture : ptr) : P unit :=
  t <- deref texture ;;
  (* Swizzling is useless with small textures. *)
  when (TextureShouldSwizzle t)
    (_ <- TextureSwizzle texture (NULL, []) ;; ret tt) ;;;
  t <- deref texture ;;
  emit (sceGuTexMode (format t) (swizzled t)) ;;;
  emit (sceGuTexImage (textureWidth t) (textureHeight t) (textureWidth t) (data t)).

(** Returns [*pixels] and [*pitch]; [x] and [y] are the corner of the
    locked rectangle. No native call is made. *)
Definition PSP_LockTexture (texture : ptr) (x y : Z) : P (ptr * Z) :=
  t <- deref texture ;;
  ret (wrap_uint (data t + wrap_uint (y * pitch t)
                  + wrap_uint (x * SDL_BYTESPERPIXEL (sdl_format t))),
       wrap_int (pitch t)).

Definition PSP_DestroyTexture (texture : ptr) : P unit :=
  if texture =? NULL then ret tt else
  LRUTargetRemove texture ;;;
  t <- deref texture ;;
  TextureStorageFree (data t) ;;;
  modify (fun W => set_heap (delete texture (heap W)) W).

(** Pixel writes through a locked pointer ([PSP_UpdateTexture], or the
    application between lock and unlock) replace the contents of the block
    and nothing else. *)
Definition write_pixels (texture : ptr) (px : list Z) : P unit :=
  t <- deref texture ;;
  if decide (length px = length (pixels t))
  then assign texture (set_data (data t) px) else undefined.

End WithAllocators.

End Psp.

(** ** Blocks of bytes

    The texture updates of both back ends copy bytes with [SDL_memcpy]. A
    block is the list of its bytes and a pointer into it is an offset. *)

Module Bytes.

(** [SDL_memcpy (dst, src, n)] on blocks of bytes: [d] and [s] are the
    offsets of the two pointers in their blocks, [n] is the [size_t] count
    as an integer (a negative [int] converts to a count no block holds);
    reading or writing past a block is undefined. *)
Definition SDL_memcpy (dst : list Z) (d : Z) (src : list Z) (s n : Z)
  : option (list Z) :=
  if (0 <=? d) && (0 <=? s) && (0 <=? n)
     && (d + n <=? Z.of_nat (length dst)) && (s + n <=? Z.of_nat (length src))
  then Some (take (Z.to_nat d) dst ++ take (Z.to_nat n) (drop (Z.to_nat s) src)
             ++ drop (Z.to_nat (d + n)) dst)
  else None.

(** [for (row = 0; row < rect->h; ++row)] of the texture updates: a row of
    [length] bytes is copied, then [src] advances by [pitch] and [dst] by
    [dpitch]. *)
Fixpoint copy_rows (n : nat) (block : list Z) (dst dpitch : Z) (pixels : list Z)
    (src pitch length_ : Z) : option (list Z) :=
  match n with
  | O => Some block
  | S n' =>
      b ← SDL_memcpy block dst pixels src length_;
      copy_rows n' b (dst + dpitch) dpitch pixels (src + pitch) pitch length_
  end.

End Bytes.

(** ** Reading back the Vita frame buffer *)

Module GxmPixels.
Import Psp.

(** The frame buffer and the output block are lists of 32-bit words, read
    and written with [copy_word]; an index outside a block is undefined. *)

(** [for (j = 0; j < width; j++) out32[(height - (i + 1)) * width + j] = in32[j]]:
    [row] is the [size_t] product, [in32] a word index into the frame
    buffer. [j] is an [int]: incrementing it past [INT_MAX] is undefined. *)
Fixpoint read_row (n : nat) (j : Z) (fb : list Z) (in32 : Z) (out32 : list Z)
    (row : Z) : option (list Z) :=
  match n with
  | O => Some out32
  | S n' =>
      if 2147483647 <=? j then None else
      o ← copy_word fb (in32 + j) out32 (wrap_uint (row + j));
      read_row n' (j + 1) fb in32 o row
  end.

(** [for (i = 0; i < height; i++)], with [in32 += pParam.pitch] at the end
    of each iteration; [i + 1] is an [int] sum. *)
Fixpoint read_rows (n : nat) (i : Z) (width height : Z) (fb : list Z) (in32 pitch : Z)
    (out32 : list Z) : option (list Z) :=
  match n with
  | O => Some out32
  | S n' =>
      if 2147483647 <=? i then None else
      o ← read_row (Z.to_nat width) 0 fb in32 out32
            (wrap_uint (wrap_uint (height - (i + 1)) * width));
      read_rows n' (i + 1) width height fb (in32 + pitch) pitch o
  end.

(** [read_pixels]: [fb] and [pitch] are the frame buffer and the pitch that
    [sceDisplayGetFrameBuf] reports, [out32] the block [data] points to;
    [width] and [height] are [size_t]. *)
Definition read_pixels (x y : Z) (width height : Z) (fb : list Z) (pitch : Z)
    (out32 : list Z) : option (list Z) :=
  read_rows (Z.to_nat height) 0 width height fb (wrap_uint (x + y * pitch)) pitch out32.

End GxmPixels.

(** ** Presenting a frame on the Vita *)

Module GxmPresent.

Definition VITA_GXM_BUFFERS : Z := 3.

(** The members of [VITA_GXM_RenderData] that [VITA_GXM_RenderPresent]
    reads and writes; the arrays are lists, and an index past their end is
    undefined. *)
Record DisplayData := mkDisplay {
  displayBufferData : list Z;
  displayBufferSync : list Z;
  depthBufferData : Z;
  backBufferIndex : Z;
  frontBufferIndex : Z;
  pool_index : Z;
  current_pool : Z;
  displayData_address : Z
}.

Inductive PresentCall :=
| sceCommonDialogUpdate (colorSurfaceData depthSurfaceData displaySyncObject : Z)
| sceGxmDisplayQueueAddEntry (oldBuffer newBuffer : Z) (address : Z).

Definition index (a : list Z) (i : Z) : M DisplayData PresentCall Z :=
  fun s => if 0 <=? i then
             match a !! Z.to_nat i with Some v => Some (v, s, []) | None => None end
           else None.

Local Open Scope m_scope.

Definition VITA_GXM_RenderPresent : M DisplayData PresentCall bool :=
  data <- get ;;
  address <- index (displayBufferData data) (backBufferIndex data) ;;
  newsync <- index (displayBufferSync data) (backBufferIndex data) ;;
  emit (sceCommonDialogUpdate address (depthBufferData data) newsync) ;;;
  oldsync <- index (displayBufferSync data) (frontBufferIndex data) ;;
  emit (sceGxmDisplayQueueAddEntry oldsync newsync address) ;;;
  (* update buffer indices *)
  put (mkDisplay (displayBufferData data) (displayBufferSync data)
         (depthBufferData data)
         (wrap_uint (backBufferIndex data + 1) mod VITA_GXM_BUFFERS)
         (backBufferIndex data) 0
         (wrap_uint (current_pool data + 1) mod 2) address) ;;;
  ret true.

End GxmPresent.

(** ** The PSP drawing path

    [StartDrawing], the blend-state cache, the command-queue translator,
    [PSP_RenderPresent] and [PSP_UpdateTexture], on top of the residency
    manager of [Psp]. *)

Module PspDraw.
Import Psp Bytes.

(** [GU_FLAT] and [GU_SMOOTH] are the two values the back end stores in
    [PSP_BlendState::shadeModel]. *)
Inductive GuShadeModel := GU_FLAT | GU_SMOOTH.

#[global] Instance shade_eq_dec : EqDecision GuShadeModel.
Proof. solve_decision. Defined.

Inductive GuFeature := GU_BLEND | GU_TEXTURE_2D | GU_SCISSOR_TEST.
Inductive GuTexEffect := GU_TFX_REPLACE | GU_TFX_MODULATE.
Inductive GuBlendFactor :=
| GU_SRC_COLOR | GU_DST_COLOR | GU_SRC_ALPHA | GU_ONE_MINUS_SRC_ALPHA | GU_FIX.
Inductive GuFilter := GU_NEAREST | GU_LINEAR.
Inductive GuWrap := GU_CLAMP | GU_REPEAT.
Inductive GuPrimitive :=
| GU_POINTS | GU_LINE_STRIP | GU_TRIANGLES | GU_TRIANGLE_FAN | GU_SPRITES.
Inductive GuVertexFlag :=
| GU_TEXTURE_32BITF | GU_COLOR_8888 | GU_VERTEX_32BITF | GU_TRANSFORM_2D.

(** [PSP_BlendState]; [texture] is the texture's [PSP_TextureData], which
    is how [Psp] names a texture. *)
Record PSP_BlendState := mkBlendState {
  mode : Gxm.SDL_BlendMode;
  color : Z;
  shadeModel : GuShadeModel;
  texture : ptr;
  texture_scale_mode : Gxm.SDL_ScaleMode;
  texture_address_mode_u : Gxm.SDL_TextureAddressMode;
  texture_address_mode_v : Gxm.SDL_TextureAddressMode
}.

(** [SDL_RenderCommand] as the PSP translator reads it. The colour of the
    command is kept as the two integers the translator derives from its
    floats: [color_rgba] is [GU_RGBA (r, g, b, a)] and [color_a] is [a];
    the float arithmetic itself is not modelled. *)
Record SDL_RenderCommand := mkCmd {
  command : Gxm.SDL_RenderCommandType;
  viewport_rect : Gxm.SDL_Rect;
  cliprect_enabled : bool;
  cliprect_rect : Gxm.SDL_Rect;
  color_rgba : Z;
  color_a : Z;
  draw : Gxm.draw_data
}.

(** The native calls of the drawing path; [residency] wraps the calls of
    the residency manager and of [TextureActivate]. The arguments that are
    the same at every call site ([GU_DIRECT], [GU_TCC_RGBA], [GU_ADD], the
    buffer bits of [sceGuClear]) are left out. *)
Inductive GuDrawCall :=
| residency (e : GuCall)
| sceGuStart
| sceGuColor (c : Z)
| sceGuShadeModel (m : GuShadeModel)
| sceGuTexFunc (tfx : GuTexEffect)
| sceGuBlendFunc (src dest : GuBlendFactor) (srcfix destfix : Z)
| sceGuEnable (f : GuFeature)
| sceGuDisable (f : GuFeature)
| sceGuTexFilter (min mag : GuFilter)
| sceGuTexWrap (u v : GuWrap)
| sceGuOffset (x y : Z)
| sceGuViewport (cx cy width height : Z)
| sceGuScissor (x y w h : Z)
| sceGuClearColor (c : Z)
| sceGuClearStencil (s : Z)
| sceGuClear
| sceGuGetMemory (size : Z)
| sceGuDrawArray (prim : GuPrimitive) (vtype : list GuVertexFlag) (count : Z)
    (vertices : ptr)
| sceGuFinish
| sceGuSync
| sceDisplayWaitVblankStart
| sceGuSwapBuffers
| SDL_SetError_vertex_buffer (vertsize : Z)
| sceKernelDcacheWritebackAll.

(** [PSP_FRAME_BUFFER_WIDTH] of [SDL_render_psp_c.h]. *)
Definition PSP_FRAME_BUFFER_WIDTH : Z := 512.

Section WithAllocators.
Context `{Alloc : Allocators}.

(** [PSP_RenderData] with [renderer->target]; [world] holds the two ends of
    the LRU list and the memory the residency manager works on. *)
Record PSP_RenderData := mkRender {
  world : World;
  frontbuffer : ptr;
  backbuffer : ptr;
  boundTarget : ptr;
  displayListAvail : bool;
  psm : Z;
  vsync : bool;
  blendState : PSP_BlendState;
  vblank_not_reached : bool;
  target : ptr
}.

Definition set_world v (r : PSP_RenderData) :=
  mkRender v (frontbuffer r) (backbuffer r) (boundTarget r) (displayListAvail r)
    (psm r) (vsync r) (blendState r) (vblank_not_reached r) (target r).
Definition set_buffers f b (r : PSP_RenderData) :=
  mkRender (world r) f b (boundTarget r) (displayListAvail r)
    (psm r) (vsync r) (blendState r) (vblank_not_reached r) (target r).
Definition set_boundTarget v (r : PSP_RenderData) :=
  mkRender (world r) (frontbuffer r) (backbuffer r) v (displayListAvail r)
    (psm r) (vsync r) (blendState r) (vblank_not_reached r) (target r).
Definition set_displayListAvail v (r : PSP_RenderData) :=
  mkRender (world r) (frontbuffer r) (backbuffer r) (boundTarget r) v
    (psm r) (vsync r) (blendState r) (vblank_not_reached r) (target r).
Definition set_blendState v (r : PSP_RenderData) :=
  mkRender (world r) (frontbuffer r) (backbuffer r) (boundTarget r)
    (displayListAvail r) (psm r) (vsync r) v (vblank_not_reached r) (target r).
Definition set_vblank_not_reached v (r : PSP_RenderData) :=
  mkRender (world r) (frontbuffer r) (backbuffer r) (boundTarget r)
    (displayListAvail r) (psm r) (vsync r) (blendState r) v (target r).

Definition R := M PSP_RenderData GuDrawCall.

(** A call into the residency manager. *)
Definition in_world {A} (m : P A) : R A :=
  fun r => match m (world r) with
           | Some (a, W', tr) => Some (a, set_world W' r, map residency tr)
           | None => None
           end.

Local Open Scope m_scope.

Definition ResetBlendState : R unit :=
  emit (sceGuColor 4294967295) ;;;
  modify (fun r =>
    let s := blendState r in
    set_blendState
      (mkBlendState Gxm.SDL_BLENDMODE_INVALID 4294967295 (shadeModel s) NULL
         (texture_scale_mode s) (texture_address_mode_u s)
         (texture_address_mode_v s)) r) ;;;
  emit (sceGuDisable GU_TEXTURE_2D) ;;;
  emit (sceGuShadeModel GU_SMOOTH) ;;;
  modify (fun r =>
    let s := blendState r in
    set_blendState
      (mkBlendState (mode s) (color s) GU_SMOOTH (texture s)
         (texture_scale_mode s) (texture_address_mode_u s)
         (texture_address_mode_v s)) r).

Definition StartDrawing : R unit :=
  data <- get ;;
  (* Check if we need to start GU displaylist *)
  when (negb (displayListAvail data))
    (emit sceGuStart ;;; modify (set_displayListAvail true)) ;;;
  (* Check if we need a draw buffer change *)
  data <- get ;;
  when (negb (target data =? boundTarget data))
    (let texture := target data in
     (if negb (texture =? NULL) then
        (* Set target, registering LRU *)
        _ <- in_world (TextureBindAsTarget texture) ;; ret tt
      else
        (* Set target back to screen *)
        emit (residency (sceGuDrawBufferList (psm data) (frontbuffer data)
                           PSP_FRAME_BUFFER_WIDTH))) ;;;
     modify (set_boundTarget texture)).

Definition SetTextureScaleMode (scaleMode : Gxm.SDL_ScaleMode) : R unit :=
  match scaleMode with
  | Gxm.SDL_SCALEMODE_PIXELART | Gxm.SDL_SCALEMODE_NEAREST =>
      emit (sceGuTexFilter GU_NEAREST GU_NEAREST)
  | Gxm.SDL_SCALEMODE_LINEAR => emit (sceGuTexFilter GU_LINEAR GU_LINEAR)
  | _ => ret tt
  end.

(** The default branch asserts first; [SDL_assert] is empty in a release
    build. *)
Definition TranslateAddressMode (mode : Gxm.SDL_TextureAddressMode) : GuWrap :=
  match mode with
  | Gxm.SDL_TEXTURE_ADDRESS_CLAMP => GU_CLAMP
  | Gxm.SDL_TEXTURE_ADDRESS_WRAP => GU_REPEAT
  | _ => GU_CLAMP
  end.

Definition SetTextureAddressMode (addressModeU addressModeV : Gxm.SDL_TextureAddressMode)
  : R unit :=
  emit (sceGuTexWrap (TranslateAddressMode addressModeU)
          (TranslateAddressMode addressModeV)).

(** The [switch (state->mode)]; a value that is none of the named modes
    matches no case. *)
Definition blend_mode_calls (m : Gxm.SDL_BlendMode) : list GuDrawCall :=
  if m =? Gxm.SDL_BLENDMODE_NONE then
    [sceGuTexFunc GU_TFX_REPLACE; sceGuDisable GU_BLEND]
  else if m =? Gxm.SDL_BLENDMODE_BLEND then
    [sceGuTexFunc GU_TFX_MODULATE;
     sceGuBlendFunc GU_SRC_ALPHA GU_ONE_MINUS_SRC_ALPHA 0 0; sceGuEnable GU_BLEND]
  else if m =? Gxm.SDL_BLENDMODE_BLEND_PREMULTIPLIED then
    [sceGuTexFunc GU_TFX_MODULATE;
     sceGuBlendFunc GU_FIX GU_ONE_MINUS_SRC_ALPHA 16777215 0; sceGuEnable GU_BLEND]
  else if m =? Gxm.SDL_BLENDMODE_ADD then
    [sceGuTexFunc GU_TFX_MODULATE;
     sceGuBlendFunc GU_SRC_ALPHA GU_FIX 0 16777215; sceGuEnable GU_BLEND]
  else if m =? Gxm.SDL_BLENDMODE_ADD_PREMULTIPLIED then
    [sceGuTexFunc GU_TFX_MODULATE;
     sceGuBlendFunc GU_FIX GU_FIX 0 16777215; sceGuEnable GU_BLEND]
  else if m =? Gxm.SDL_BLENDMODE_MOD then
    [sceGuTexFunc GU_TFX_MODULATE;
     sceGuBlendFunc GU_FIX GU_SRC_COLOR 0 0; sceGuEnable GU_BLEND]
  else if m =? Gxm.SDL_BLENDMODE_MUL then
    [sceGuTexFunc GU_TFX_MODULATE;
     sceGuBlendFunc GU_DST_COLOR GU_ONE_MINUS_SRC_ALPHA 0 0; sceGuEnable GU_BLEND]
  else [].

Fixpoint emit_all (l : list GuDrawCall) : R unit :=
  match l with
  | [] => ret tt
  | e :: l' => emit e ;;; emit_all l'
  end.

Definition PSP_SetBlendState (state : PSP_BlendState) : R unit :=
  data <- get ;;
  let current := blendState data in
  when (negb (mode state =? mode current)) (emit_all (blend_mode_calls (mode state))) ;;;
  when (negb (color state =? color current)) (emit (sceGuColor (color state))) ;;;
  when (bool_decide (shadeModel state <> shadeModel current))
    (emit (sceGuShadeModel (shadeModel state))) ;;;
  when (negb (texture state =? texture current))
    (if negb (texture state =? NULL) then
       in_world (TextureActivate (texture state)) ;;;
       emit (sceGuEnable GU_TEXTURE_2D)
     else emit (sceGuDisable GU_TEXTURE_2D)) ;;;
  when (negb (texture state =? NULL))
    (SetTextureScaleMode (texture_scale_mode state) ;;;
     SetTextureAddressMode (texture_address_mode_u state)
       (texture_address_mode_v state)) ;;;
  modify (set_blendState state).

(** The blend state of an untextured and of a textured draw command. *)
Definition untextured_state (color_ : Z) (cmd : SDL_RenderCommand) : PSP_BlendState :=
  mkBlendState (Gxm.blend (draw cmd)) color_ GU_FLAT NULL
    Gxm.SDL_SCALEMODE_INVALID Gxm.SDL_TEXTURE_ADDRESS_INVALID
    Gxm.SDL_TEXTURE_ADDRESS_INVALID.
Definition textured_state (color_ : Z) (cmd : SDL_RenderCommand) : PSP_BlendState :=
  mkBlendState (Gxm.blend (draw cmd)) color_ GU_SMOOTH (Gxm.texture (draw cmd))
    (Gxm.texture_scale_mode (draw cmd)) (Gxm.texture_address_mode_u (draw cmd))
    (Gxm.texture_address_mode_v (draw cmd)).

(** One iteration of the [while (cmd)] loop; [color_] is
    [drawstate.color], and the new value of it is returned. [gpumem] is the
    vertex buffer. *)
Definition run_command (gpumem : ptr) (color_ : Z) (cmd : SDL_RenderCommand) : R Z :=
  let count := Gxm.count (draw cmd) in
  let verts := wrap_uint (gpumem + Gxm.first (draw cmd)) in
  match command cmd with
  | Gxm.SDL_RENDERCMD_SETDRAWCOLOR => ret (color_rgba cmd)
  | Gxm.SDL_RENDERCMD_SETVIEWPORT =>
      let viewport := viewport_rect cmd in
      emit (sceGuOffset (wrap_int (2048 - Z.shiftr (Gxm.w viewport) 1))
              (wrap_int (2048 - Z.shiftr (Gxm.h viewport) 1))) ;;;
      emit (sceGuViewport 2048 2048 (Gxm.w viewport) (Gxm.h viewport)) ;;;
      emit (sceGuScissor (Gxm.x viewport) (Gxm.y viewport)
              (Gxm.w viewport) (Gxm.h viewport)) ;;;
      ret color_
  | Gxm.SDL_RENDERCMD_SETCLIPRECT =>
      let rect := cliprect_rect cmd in
      (if cliprect_enabled cmd then
         emit (sceGuEnable GU_SCISSOR_TEST) ;;;
         emit (sceGuScissor (Gxm.x rect) (Gxm.y rect) (Gxm.w rect) (Gxm.h rect))
       else emit (sceGuDisable GU_SCISSOR_TEST)) ;;;
      ret color_
  | Gxm.SDL_RENDERCMD_CLEAR =>
      emit (sceGuClearColor (color_rgba cmd)) ;;;
      emit (sceGuClearStencil (color_a cmd)) ;;;
      emit sceGuClear ;;;
      ret color_
  | Gxm.SDL_RENDERCMD_DRAW_POINTS =>
      PSP_SetBlendState (untextured_state color_ cmd) ;;;
      emit (sceGuDrawArray GU_POINTS [GU_VERTEX_32BITF; GU_TRANSFORM_2D]
              count verts) ;;;
      ret color_
  | Gxm.SDL_RENDERCMD_DRAW_LINES =>
      PSP_SetBlendState (untextured_state color_ cmd) ;;;
      emit (sceGuDrawArray GU_LINE_STRIP [GU_VERTEX_32BITF; GU_TRANSFORM_2D]
              count verts) ;;;
      ret color_
  | Gxm.SDL_RENDERCMD_FILL_RECTS =>
      PSP_SetBlendState (untextured_state color_ cmd) ;;;
      emit (sceGuDrawArray GU_SPRITES [GU_VERTEX_32BITF; GU_TRANSFORM_2D]
              (wrap_uint (2 * count)) verts) ;;;
      ret color_
  | Gxm.SDL_RENDERCMD_COPY =>
      PSP_SetBlendState (textured_state color_ cmd) ;;;
      emit (sceGuDrawArray GU_SPRITES
              [GU_TEXTURE_32BITF; GU_VERTEX_32BITF; GU_TRANSFORM_2D]
              (wrap_uint (2 * count)) verts) ;;;
      ret color_
  | Gxm.SDL_RENDERCMD_COPY_EX =>
      PSP_SetBlendState (textured_state color_ cmd) ;;;
      emit (sceGuDrawArray GU_TRIANGLE_FAN
              [GU_TEXTURE_32BITF; GU_VERTEX_32BITF; GU_TRANSFORM_2D] 4 verts) ;;;
      ret color_
  | Gxm.SDL_RENDERCMD_GEOMETRY =>
      (if Gxm.texture (draw cmd) =? NULL then
         emit (sceGuDisable GU_TEXTURE_2D) ;;;
         (* In GU_SMOOTH mode *)
         emit (sceGuDrawArray GU_TRIANGLES
                 [GU_COLOR_8888; GU_VERTEX_32BITF; GU_TRANSFORM_2D] count verts) ;;;
         emit (sceGuEnable GU_TEXTURE_2D)
       else
         PSP_SetBlendState (textured_state color_ cmd) ;;;
         emit (sceGuDrawArray GU_TRIANGLES
                 [GU_TEXTURE_32BITF; GU_COLOR_8888; GU_VERTEX_32BITF; GU_TRANSFORM_2D]
                 count verts)) ;;;
      ret color_
  | Gxm.SDL_RENDERCMD_NO_OP => ret color_
  end.

(** The [while (cmd)] loop: the queue is walked one command at a time. *)
Fixpoint run_commands (gpumem : ptr) (color_ : Z) (cmd : list SDL_RenderCommand)
  : R unit :=
  match cmd with
  | [] => ret tt
  | c :: next => color' <- run_command gpumem color_ c ;; run_commands gpumem color' next
  end.

(** [gpumem] is what [sceGuGetMemory (vertsize)] returns. Vertices are
    named by their address in that buffer, so the [SDL_memcpy] that fills
    it leaves no trace here. *)
Definition PSP_RunCommandQueue (cmd : list SDL_RenderCommand) (gpumem : ptr)
    (vertsize : Z) : R bool :=
  StartDrawing ;;;
  emit (sceGuGetMemory vertsize) ;;;
  if gpumem =? NULL then
    emit (SDL_SetError_vertex_buffer (wrap_int vertsize)) ;;; ret false
  else
    run_commands gpumem 0 cmd ;;;
    ret true.

(** [swapped] is [vabsptr (sceGuSwapBuffers ())]. *)
Definition PSP_RenderPresent (swapped : ptr) : R bool :=
  data <- get ;;
  if negb (displayListAvail data) then ret false else
  modify (set_displayListAvail false) ;;;
  emit sceGuFinish ;;;
  emit sceGuSync ;;;
  when (vsync data && vblank_not_reached data) (emit sceDisplayWaitVblankStart) ;;;
  modify (set_vblank_not_reached true) ;;;
  emit sceGuSwapBuffers ;;;
  modify (fun r => set_buffers swapped (frontbuffer r) r) ;;;
  ret true.

(** [PSP_UpdateTexture]: [pixels] is the block the caller's pointer points
    into, at its start, and [block] the bytes of the block [psp_texture->data]
    points to, which is returned updated. *)
Definition PSP_UpdateTexture (texture : ptr) (rect : Gxm.SDL_Rect)
    (pixels : list Z) (pitch : Z) (block : list Z) : R (bool * list Z) :=
  lock <- in_world (PSP_LockTexture texture (Gxm.x rect) (Gxm.y rect)) ;;
  t <- in_world (deref texture) ;;
  let dst := fst lock - data t in
  let dpitch := snd lock in
  let length_ := wrap_int (Gxm.w rect * SDL_BYTESPERPIXEL (sdl_format t)) in
  b <- (fun r =>
          match
            (if (length_ =? pitch) && (length_ =? dpitch) then
               SDL_memcpy block dst pixels 0 (wrap_int (length_ * Gxm.h rect))
             else
               copy_rows (Z.to_nat (Gxm.h rect)) block dst dpitch pixels 0 pitch length_)
          with
          | Some b => Some (b, r, [])
          | None => None
          end) ;;
  emit sceKernelDcacheWritebackAll ;;;
  ret (true, b).

End WithAllocators.

End PspDraw.

(** ** Updating a Vita texture

    [VITA_GXM_UpdateTexture] and its planar variants. The texture's data
    block is a list of bytes, returned updated; the planes of a YUV texture
    follow one another in it. *)

Module GxmUpdate.
Import Gxm Bytes.

Inductive SceGxmYuvProfile :=
| SCE_GXM_YUV_PROFILE_BT601_STANDARD
| SCE_GXM_YUV_PROFILE_BT601_FULL_RANGE
| SCE_GXM_YUV_PROFILE_BT709_STANDARD
| SCE_GXM_YUV_PROFILE_BT709_FULL_RANGE.

(** What [SDL_ISCOLORSPACE_MATRIX_BT601] and [SDL_ISCOLORSPACE_MATRIX_BT709]
    say of a colorspace. *)
Inductive ColorMatrix := MATRIX_BT601 | MATRIX_BT709 | MATRIX_OTHER.

(** What the updates read of the [SDL_Texture]: its [VITA_GXM_TextureData]
    ([internal]), whether its format is [SDL_PIXELFORMAT_YV12], and its
    colorspace; and the members [h], [yuv] and [nv12] of the
    [VITA_GXM_TextureData], which the translator does not read. *)
Record SDL_Texture := mkTexture {
  internal : ptr;
  format_is_YV12 : bool;
  colorspace_matrix : ColorMatrix;
  colorspace_limited_range : bool;
  vita_h : Z;
  vita_yuv : bool;
  vita_nv12 : bool
}.

(** The native calls of an update: those of the translator, the YUV
    profile, and the log of an unsupported colorspace. The result of
    [sceGxmSetYuvProfile] is only logged and is not modelled. *)
Inductive UpdateCall :=
| gxm (e : GxmCall)
| sceGxmSetYuvProfile (profile : SceGxmYuvProfile)
| SDL_LogError_unsupported_colorspace.

Definition U := M VITA_GXM_RenderData UpdateCall.

Definition in_gxm {A} (m : G A) : U A :=
  fun d => match m d with
           | Some (a, d', tr) => Some (a, d', map gxm tr)
           | None => None
           end.

Definition defined_or_ub {A} (o : option A) : U A :=
  fun d => match o with Some a => Some (a, d, []) | None => None end.

Local Open Scope m_scope.

Definition VITA_GXM_SetYUVProfile (texture : SDL_Texture) : U unit :=
  match colorspace_matrix texture with
  | MATRIX_BT601 =>
      if colorspace_limited_range texture
      then emit (sceGxmSetYuvProfile SCE_GXM_YUV_PROFILE_BT601_STANDARD)
      else emit (sceGxmSetYuvProfile SCE_GXM_YUV_PROFILE_BT601_FULL_RANGE)
  | MATRIX_BT709 =>
      if colorspace_limited_range texture
      then emit (sceGxmSetYuvProfile SCE_GXM_YUV_PROFILE_BT709_STANDARD)
      else emit (sceGxmSetYuvProfile SCE_GXM_YUV_PROFILE_BT709_FULL_RANGE)
  | MATRIX_OTHER => emit SDL_LogError_unsupported_colorspace
  end.

(** The copy of one plane, which all three functions spell out for each
    plane: one [SDL_memcpy] when the rows are contiguous on both sides, a
    row loop otherwise. [src] is the offset of the source pointer in
    [pixels]; the offset it has afterwards is returned with the block. *)
Definition copy_plane (block : list Z) (dst dpitch : Z) (pixels : list Z)
    (src pitch length_ h : Z) : option (list Z * Z) :=
  if (length_ =? pitch) && (length_ =? dpitch) then
    b ← SDL_memcpy block dst pixels src (wrap_int (length_ * h));
    Some (b, src + wrap_int (pitch * h))
  else
    b ← copy_rows (Z.to_nat h) block dst dpitch pixels src pitch length_;
    Some (b, src + pitch * Z.of_nat (Z.to_nat h)).

(** [SDL_Rect UVrect = { rect->x / 2, rect->y / 2, (rect->w + 1) / 2,
    (rect->h + 1) / 2 }] *)
Definition UVrect_of (rect : SDL_Rect) : SDL_Rect :=
  mkRect (Z.quot (x rect) 2) (Z.quot (y rect) 2)
    (Z.quot (wrap_int (w rect + 1)) 2) (Z.quot (wrap_int (h rect + 1)) 2).

(** The offset in the data block of the end of the Y plane:
    [vita_texture->pitch * vita_texture->h], an [unsigned] product. *)
Definition skip_Y_plane (vita_texture : VITA_GXM_TextureData) (texture : SDL_Texture) : Z :=
  wrap_uint (pitch vita_texture * vita_h texture).

(** The offset of the second chroma plane from the first:
    [uv_pitch * ((vita_texture->h + 1) / 2)], [unsigned] too. *)
Definition chroma_plane_size (uv_pitch : Z) (texture : SDL_Texture) : Z :=
  wrap_uint (uv_pitch * (wrap_uint (vita_h texture + 1) / 2)).

(** [pixels] is the block the caller's pointer points to, at its start, and
    [block] the data block of the texture, at which
    [gxm_texture_get_datap] points. *)
Definition VITA_GXM_UpdateTexture (texture : SDL_Texture) (rect : SDL_Rect)
    (pixels : list Z) (pitch_ : Z) (block : list Z) : U (bool * list Z) :=
  vita_texture <- in_gxm (vita_texture_of (internal texture)) ;;
  when (vita_yuv texture || vita_nv12 texture) (VITA_GXM_SetYUVProfile texture) ;;;
  lock <- in_gxm (VITA_GXM_LockTexture (internal texture) rect) ;;
  let dst := fst lock - datap vita_texture in
  let dpitch := snd lock in
  let length_ := wrap_int (w rect * bytespp vita_texture) in
  Y <- defined_or_ub (copy_plane block dst dpitch pixels 0 pitch_ length_ (h rect)) ;;
  if vita_yuv texture then
    let uv_pitch := Z.quot (wrap_int (dpitch + 1)) 2 in
    let uv_src_pitch := Z.quot (wrap_int (pitch_ + 1)) 2 in
    let UVrect := UVrect_of rect in
    (* skip Y plane *)
    let Dpixels := skip_Y_plane vita_texture texture in
    let Udst := Dpixels + wrap_int (y UVrect * uv_pitch) + x UVrect in
    let Vdst := Dpixels + chroma_plane_size uv_pitch texture
                + wrap_int (y UVrect * uv_pitch) + x UVrect in
    let length_ := w UVrect in
    (* U plane *)
    Up <- defined_or_ub
            (copy_plane (fst Y) Udst uv_pitch pixels (snd Y) uv_src_pitch length_
               (h UVrect)) ;;
    (* V plane *)
    Vp <- defined_or_ub
            (copy_plane (fst Up) Vdst uv_pitch pixels (snd Up) uv_src_pitch length_
               (h UVrect)) ;;
    ret (true, fst Vp)
  else if vita_nv12 texture then
    let uv_pitch := wrap_int (2 * Z.quot (wrap_int (dpitch + 1)) 2) in
    let uv_src_pitch := wrap_int (2 * Z.quot (wrap_int (pitch_ + 1)) 2) in
    let UVrect := UVrect_of rect in
    (* skip Y plane *)
    let Dpixels := skip_Y_plane vita_texture texture in
    let UVdst := Dpixels + wrap_int (y UVrect * uv_pitch) + x UVrect in
    let length_ := wrap_int (w UVrect * 2) in
    (* UV plane *)
    UVp <- defined_or_ub
             (copy_plane (fst Y) UVdst uv_pitch pixels (snd Y) uv_src_pitch length_
                (h UVrect)) ;;
    ret (true, fst UVp)
  else ret (true, fst Y).

(** The three planes come from three blocks of the caller. *)
Definition VITA_GXM_UpdateTextureYUV (texture : SDL_Texture) (rect : SDL_Rect)
    (Yplane : list Z) (Ypitch : Z) (Uplane : list Z) (Upitch : Z)
    (Vplane : list Z) (Vpitch : Z) (block : list Z) : U (bool * list Z) :=
  let UVrect := UVrect_of rect in
  VITA_GXM_SetYUVProfile texture ;;;
  (* copy Y plane
     obtain pixels via locking so that texture is flushed *)
  lock <- in_gxm (VITA_GXM_LockTexture (internal texture) rect) ;;
  vita_texture <- in_gxm (vita_texture_of (internal texture)) ;;
  let dst := fst lock - datap vita_texture in
  let dpitch := snd lock in
  let length_ := w rect in
  Y <- defined_or_ub (copy_plane block dst dpitch Yplane 0 Ypitch length_ (h rect)) ;;
  (* U/V planes *)
  let uv_pitch := Z.quot (wrap_int (dpitch + 1)) 2 in
  (* skip Y plane *)
  let pixels := skip_Y_plane vita_texture texture in
  let first_ := pixels + wrap_int (y UVrect * uv_pitch) + x UVrect in
  let second_ := pixels + chroma_plane_size uv_pitch texture
                 + wrap_int (y UVrect * uv_pitch) + x UVrect in
  let Vdst := if format_is_YV12 texture then first_ else second_ in
  let Udst := if format_is_YV12 texture then second_ else first_ in
  let length_ := w UVrect in
  (* U plane *)
  Up <- defined_or_ub
          (copy_plane (fst Y) Udst uv_pitch Uplane 0 Upitch length_ (h UVrect)) ;;
  (* V plane *)
  Vp <- defined_or_ub
          (copy_plane (fst Up) Vdst uv_pitch Vplane 0 Vpitch length_ (h UVrect)) ;;
  ret (true, fst Vp).

Definition VITA_GXM_UpdateTextureNV (texture : SDL_Texture) (rect : SDL_Rect)
    (Yplane : list Z) (Ypitch : Z) (UVplane : list Z) (UVpitch : Z)
    (block : list Z) : U (bool * list Z) :=
  let UVrect := UVrect_of rect in
  VITA_GXM_SetYUVProfile texture ;;;
  (* copy Y plane *)
  lock <- in_gxm (VITA_GXM_LockTexture (internal texture) rect) ;;
  vita_texture <- in_gxm (vita_texture_of (internal texture)) ;;
  let dst := fst lock - datap vita_texture in
  let dpitch := snd lock in
  let length_ := wrap_int (w rect * bytespp vita_texture) in
  Y <- defined_or_ub (copy_plane block dst dpitch Yplane 0 Ypitch length_ (h rect)) ;;
  (* UV plane *)
  let uv_pitch := wrap_int (2 * Z.quot (wrap_int (dpitch + 1)) 2) in
  (* skip Y plane *)
  let pixels := skip_Y_plane vita_texture texture in
  let UVdst := pixels + wrap_int (y UVrect * uv_pitch) + x UVrect in
  let length_ := wrap_int (w UVrect * 2) in
  UVp <- defined_or_ub
           (copy_plane (fst Y) UVdst uv_pitch UVplane 0 UVpitch length_ (h UVrect)) ;;
  ret (true, fst UVp).

End GxmUpdate.

(** ** Reasoning about the monad *)

Lemma bind_Some {S E A B} (m : M S E A) (k : A -> M S E B) s b s2 tr :
  bind m k s = Some (b, s2, tr) <->
  exists a s1 t1 t2,
    m s = Some (a, s1, t1) /\ k a s1 = Some (b, s2, t2) /\ tr = t1 ++ t2.
Proof.
  unfold bind. split.
  - destruct (m s) as [[[a s1] t1]|]; [|discriminate].
    destruct (k a s1) as [[[b' s2'] t2]|] eqn:Hk; [|discriminate].
    intros [= <- <- <-]. exists a, s1, t1, t2. split; [reflexivity|split; [exact Hk|reflexivity]].
  - intros (a & s1 & t1 & t2 & -> & -> & ->). reflexivity.
Qed.

Lemma bind_eq {S E A B} (m : M S E A) (k : A -> M S E B) s a s1 t1 :
  m s = Some (a, s1, t1) ->
  bind m k s =
  match k a s1 with
  | None => None
  | Some (b, s2, t2) => Some (b, s2, t1 ++ t2)
  end.
Proof. unfold bind. intros ->. reflexivity. Qed.

Lemma when_Some {S E} (b : bool) (m : M S E unit) s u s' tr :
  when b m s = Some (u, s', tr) <->
  (b = true /\ m s = Some (u, s', tr)) \/ (b = false /\ s' = s /\ tr = []).
Proof.
  destruct b, u; simpl; unfold ret; split.
  - intros H. left. split; [reflexivity|exact H].
  - intros [[_ H]|[H _]]; [exact H|discriminate].
  - intros [= <- <-]. right. split; [reflexivity|split; reflexivity].
  - intros [[H _]|(_ & -> & ->)]; [discriminate|reflexivity].
Qed.

(** Stepping through a computation that is known to succeed: [step_m H]
    splits the first bind of [H], [prim_m H] resolves a primitive. *)
Ltac step_m H :=
  let Hs := fresh "Hs" in
  apply bind_Some in H as (? & ? & ? & ? & Hs & H & ->); cbv beta in H.

Ltac prim_m H :=
  unfold ret, get, put, modify, emit in H; injection H as ? ? ?; subst.

(** [step_as] is [step_m] with the names of the intermediate value, state
    and trace. *)
Ltac step_as H a W tr Hs :=
  let t2 := fresh "tr" in
  apply bind_Some in H as (a & W & tr & t2 & Hs & H & ->); cbv beta in H.

Lemma bind_get {S E A} (k : S -> M S E A) s : bind get k s = k s s.
Proof. unfold bind, get. destruct (k s s) as [[[? ?] ?]|]; reflexivity. Qed.

(** [frame f phi m]: a successful run of [m] leaves the projection [f] of
    the state as it was and issues no call in the class [phi]. *)
Definition frame {S E A X} (f : S -> X) (phi : E -> bool) (m : M S E A) : Prop :=
  forall s a s' tr, m s = Some (a, s', tr) ->
    f s' = f s /\ Forall (fun e => phi e = false) tr.

(** [defined I m]: from a state in [I], [m] succeeds and ends in [I]. *)
Definition defined {S E A} (I : S -> Prop) (m : M S E A) : Prop :=
  forall s, I s -> exists a s' tr, m s = Some (a, s', tr) /\ I s'.

Section Rules.
Context {S E X : Type} (f : S -> X) (phi : E -> bool) (I : S -> Prop).

Lemma frame_ret {A} (a : A) : frame f phi (ret a).
Proof. intros s a' s' tr [= <- <- <-]. split; [reflexivity|constructor]. Qed.

Lemma frame_get : frame f phi get.
Proof. intros s a' s' tr [= <- <- <-]. split; [reflexivity|constructor]. Qed.

Lemma frame_undefined {A} : frame f phi (@undefined S E A).
Proof. intros s a' s' tr [=]. Qed.

Lemma frame_emit e : phi e = false -> frame f phi (emit e).
Proof.
  intros He s a' s' tr [= <- <- <-]. split; [reflexivity|].
  constructor; [exact He|constructor].
Qed.

Lemma frame_modify (g : S -> S) : (forall s, f (g s) = f s) -> frame f phi (modify g).
Proof. intros Hg s a' s' tr [= <- <- <-]. split; [apply Hg|constructor]. Qed.

Lemma frame_bind {A B} (m : M S E A) (k : A -> M S E B) :
  frame f phi m -> (forall a, frame f phi (k a)) -> frame f phi (bind m k).
Proof.
  intros Hm Hk s b s2 tr H.
  apply bind_Some in H as (a & s1 & t1 & t2 & H1 & H2 & ->).
  destruct (Hm _ _ _ _ H1) as [E1 F1]. destruct (Hk _ _ _ _ _ H2) as [E2 F2].
  split; [congruence|]. apply Forall_app. split; assumption.
Qed.

Lemma frame_when (b : bool) (m : M S E unit) :
  (b = true -> frame f phi m) -> frame f phi (when b m).
Proof. destruct b; simpl; intros H; [apply H; reflexivity|apply frame_ret]. Qed.

Lemma defined_ret {A} (a : A) : defined I (@ret S E A a).
Proof. intros s Hs. exists a, s, []. split; [reflexivity|exact Hs]. Qed.

Lemma defined_get : defined I (@get S E).
Proof. intros s Hs. exists s, s, []. split; [reflexivity|exact Hs]. Qed.

Lemma defined_emit (e : E) : defined I (@emit S E e).
Proof. intros s Hs. exists tt, s, [e]. split; [reflexivity|exact Hs]. Qed.

Lemma defined_modify (g : S -> S) :
  (forall s, I s -> I (g s)) -> defined I (@modify S E g).
Proof. intros Hg s Hs. exists tt, (g s), []. split; [reflexivity|auto]. Qed.

Lemma defined_bind {A B} (m : M S E A) (k : A -> M S E B) :
  defined I m -> (forall a, defined I (k a)) -> defined I (bind m k).
Proof.
  intros Hm Hk s Hs.
  destruct (Hm s Hs) as (a & s1 & t1 & H1 & Hs1).
  destruct (Hk a s1 Hs1) as (b & s2 & t2 & H2 & Hs2).
  exists b, s2, (t1 ++ t2). split; [|exact Hs2].
  rewrite (bind_eq _ _ _ _ _ _ H1), H2. reflexivity.
Qed.

Lemma defined_when (b : bool) (m : M S E unit) :
  (b = true -> defined I m) -> defined I (when b m).
Proof. destruct b; simpl; intros H; [apply H; reflexivity|apply defined_ret]. Qed.

End Rules.

Lemma Forall_false_filter {E} (phi : E -> bool) (tr : list E) :
  Forall (fun e => phi e = false) tr -> filter (fun e => phi e = true) tr = [].
Proof.
  induction 1 as [|e tr He _ IH]; [reflexivity|].
  rewrite filter_cons. destruct (decide (phi e = true)) as [Ht|_]; [congruence|exact IH].
Qed.

Module GxmSpec.
Import Gxm.

(** The draw calls in a trace, as (primitive, index count). *)
Definition draw_calls (tr : list GxmCall) : list (SceGxmPrimitiveType * Z) :=
  omap (fun e => match e with sceGxmDraw op n => Some (op, n) | _ => None end) tr.

(** Binding a shader program, and binding a texture. *)
Definition is_program_bind (e : GxmCall) : bool :=
  match e with
  | sceGxmSetVertexProgram _ | sceGxmSetFragmentProgram _ => true
  | _ => false
  end.
Definition is_texture_bind (e : GxmCall) : bool :=
  match e with sceGxmSetFragmentTexture _ => true | _ => false end.
Definition is_drain (e : GxmCall) : bool :=
  match e with sceGxmFinish => true | _ => false end.

Definition program_binds (tr : list GxmCall) : list GxmCall :=
  filter (fun e => is_program_bind e = true) tr.
Definition texture_binds (tr : list GxmCall) : list GxmCall :=
  filter (fun e => is_texture_bind e = true) tr.

Definition is_draw_call (e : GxmCall) : bool :=
  match e with sceGxmDraw _ _ => true | _ => false end.

(** Every texture in [T] that is not NULL is a texture of the renderer. *)
Definition valid_in (T : ptr -> Prop) (d : VITA_GXM_RenderData) : Prop :=
  forall t, T t -> t <> NULL -> is_Some (textures d !! t).

Definition compatible (c n : SDL_RenderCommand) : Prop :=
  command n = command c /\ texture (draw n) = texture (draw c)
  /\ blend (draw n) = blend (draw c).

Definition is_draw_cmd (ty : SDL_RenderCommandType) : Prop :=
  ty = SDL_RENDERCMD_DRAW_POINTS \/ ty = SDL_RENDERCMD_DRAW_LINES
  \/ ty = SDL_RENDERCMD_GEOMETRY.

Definition primitive_of (ty : SDL_RenderCommandType) : SceGxmPrimitiveType :=
  match ty with
  | SDL_RENDERCMD_DRAW_POINTS => SCE_GXM_PRIMITIVE_POINTS
  | SDL_RENDERCMD_DRAW_LINES => SCE_GXM_PRIMITIVE_LINES
  | _ => SCE_GXM_PRIMITIVE_TRIANGLES
  end.

Definition total_count (l : list SDL_RenderCommand) : Z :=
  foldr (fun c acc => count (draw c) + acc) 0 l.

Definition ends_run (c : SDL_RenderCommand) (tail : list SDL_RenderCommand) : Prop :=
  match tail with [] => True | n :: _ => ~ compatible c n end.

(** [joint pre q]: the last command of [pre] cannot be merged with the
    first of [q]. *)
Definition joint (pre q : list SDL_RenderCommand) : Prop :=
  match last pre, q with
  | Some l, c :: _ => ~ compatible l c
  | _, _ => True
  end.

(** The part of the state that decides which programs and texture get bound. *)
Definition progs (d : VITA_GXM_RenderData) :=
  (currentBlendMode d, colorVertexProgram d, colorFragmentProgram d,
   textureVertexProgram d, textureFragmentProgram d, blendFragmentPrograms d,
   vertex_program (drawstate d), fragment_program (drawstate d),
   ds_texture (drawstate d)).

Definition is_bind (e : GxmCall) : bool := is_program_bind e || is_texture_bind e.

(** The fragment programs [VITA_GXM_SetBlendMode] selects for a mode. *)
Definition programs_for (b : blend_fragment_programs) (mode : Z) : fragment_programs :=
  if mode =? SDL_BLENDMODE_NONE then blend_mode_none b
  else if mode =? SDL_BLENDMODE_BLEND then blend_mode_blend b
  else if mode =? SDL_BLENDMODE_ADD then blend_mode_add b
  else if mode =? SDL_BLENDMODE_MOD then blend_mode_mod b
  else if mode =? SDL_BLENDMODE_MUL then blend_mode_mul b
  else blend_mode_blend b.

Definition after_blend (mode : Z) (d : VITA_GXM_RenderData) : VITA_GXM_RenderData :=
  if mode =? currentBlendMode d then d
  else set_blend mode (fp_color (programs_for (blendFragmentPrograms d) mode))
         (fp_texture (programs_for (blendFragmentPrograms d) mode)) d.

(** The programs a command needs, given the mode's programs are selected. *)
Definition wanted_vertex_program (c : SDL_RenderCommand) (d : VITA_GXM_RenderData) : ptr :=
  if negb (texture (draw c) =? NULL) then textureVertexProgram d else colorVertexProgram d.
Definition wanted_fragment_program (c : SDL_RenderCommand) (d : VITA_GXM_RenderData) : ptr :=
  if negb (texture (draw c) =? NULL) then textureFragmentProgram d else colorFragmentProgram d.

Definition example_programs : blend_fragment_programs :=
  mkBFP (mkFP 20 21) (mkFP 22 23) (mkFP 24 25) (mkFP 26 27) (mkFP 28 29).

Definition example_cache : gxm_drawstate_cache :=
  mkCache (mkRect 0 0 960 544) false false NULL NULL NULL NULL None
    false false false (mkRect 0 0 0 0) 960 544.

(** A renderer on a 960x544 window with two textures, the second of which
    is a render target. *)
Definition example_data : VITA_GXM_RenderData :=
  mkData false SDL_BLENDMODE_BLEND 1 2 (960, 544) 10 22 11 23 12 13
    example_programs example_cache NULL (960, 544) None
    (<[100 := mkTex 1024 4096 4 NULL SDL_SCALEMODE_INVALID
                SDL_TEXTURE_ADDRESS_INVALID SDL_TEXTURE_ADDRESS_INVALID]>
      (<[200 := mkTex 1024 8192 4 300 SDL_SCALEMODE_INVALID
                  SDL_TEXTURE_ADDRESS_INVALID SDL_TEXTURE_ADDRESS_INVALID]> ∅)).

Definition example_draw (ty : SDL_RenderCommandType) (n : Z) (mode : SDL_BlendMode)
    (tex : ptr) : SDL_RenderCommand :=
  mkCmd ty (mkRect 0 0 0 0) false (mkRect 0 0 0 0)
    (mkDraw 4096 n mode tex SDL_SCALEMODE_LINEAR
       SDL_TEXTURE_ADDRESS_CLAMP SDL_TEXTURE_ADDRESS_CLAMP).

(** The textures of the commands of a queue. *)
Definition textures_of (q : list SDL_RenderCommand) (t : ptr) : Prop :=
  exists n, n ∈ q /\ t = texture (draw n).



(** [C8] The clamp of the clip rectangle does not clamp: for the clip
    rectangle (0,0,100,100) under the viewport (0,0,50,50), both of which lie
    at the origin, [ClampCliprectToViewport] returns (0,0,150,150); the
    excess over the viewport is added to the extent where it should be
    taken off, and the rectangle handed to [set_clip_rectangle] by
    [SetDrawState] reaches (150,150), outside the viewport. *)
Theorem clamp_cliprect_exceeds_viewport :
  let clip := mkRect 0 0 100 100 in
  let vp := mkRect 0 0 50 50 in
  let applied := ClampCliprectToViewport clip vp in
  applied = mkRect 0 0 150 150 /\
  ~ (x applied + w applied <= x vp + w vp) /\
  ~ (y applied + h applied <= y vp + h vp) /\
  exists d' tr,
    SetDrawState (example_draw SDL_RENDERCMD_GEOMETRY 3 SDL_BLENDMODE_BLEND NULL)
      (set_drawstate
         (set_cliprect clip (set_cliprect_dirty true (set_cliprect_enabled true
            (set_viewport_is_set true (set_viewport vp example_cache)))))
         example_data)
    = Some (true, d', tr) /\
    In (set_clip_rectangle 0 0 150 150) tr.
Proof.
  cbv zeta. split; [reflexivity|].
  split; [vm_compute; intros H; apply H; reflexivity|].
  split; [vm_compute; intros H; apply H; reflexivity|].
  do 2 eexists. split; [vm_compute; reflexivity|].
  simpl. left. reflexivity.
Qed.

Lemma draw_calls_app t1 t2 : draw_calls (t1 ++ t2) = draw_calls t1 ++ draw_calls t2.
Proof. unfold draw_calls. apply omap_app. Qed.

Lemma draw_calls_quiet tr :
  Forall (fun e => is_draw_call e = false) tr -> draw_calls tr = [].
Proof.
  induction 1 as [|e tr He _ IH]; [reflexivity|].
  destruct e; try discriminate He; exact IH.
Qed.

Lemma frame_vita_texture_of {X} (f : VITA_GXM_RenderData -> X) phi t :
  frame f phi (vita_texture_of t).
Proof.
  intros s a s' tr H. unfold vita_texture_of in H.
  destruct (textures s !! t); [|discriminate]. injection H as <- <- <-.
  split; [reflexivity|constructor].
Qed.

Ltac frame_step :=
  first
  [ apply frame_ret | apply frame_get | apply frame_undefined
  | apply frame_vita_texture_of
  | apply frame_emit; reflexivity
  | apply frame_modify; intros; reflexivity
  | apply frame_bind; [|intros ?]
  | apply frame_when; intros ?
  | lazymatch goal with
    | |- frame _ _ (if ?b then _ else _) => destruct b
    | |- frame _ _ (match ?x with _ => _ end) => destruct x
    | |- frame _ _ (let _ := _ in _) => cbv zeta
    end ].

Lemma SetDrawState_no_draw c : frame (fun _ => tt) is_draw_call (SetDrawState c).
Proof.
  unfold SetDrawState, VITA_GXM_SetBlendMode, upd_ds. cbv zeta.
  repeat frame_step.
Qed.

Lemma SetDrawState_true c d r d' tr :
  SetDrawState c d = Some (r, d', tr) -> r = true.
Proof.
  unfold SetDrawState. cbv zeta. intros H.
  repeat step_m H. prim_m H. reflexivity.
Qed.

Lemma defined_vita_texture_of (T : ptr -> Prop) t :
  T t -> t <> NULL -> defined (valid_in T) (vita_texture_of t).
Proof.
  intros HT Ht s Hs. destruct (Hs t HT Ht) as [v Hv].
  exists v, s, []. unfold vita_texture_of. rewrite Hv. split; [reflexivity|exact Hs].
Qed.

Lemma negb_eqb_true a b : negb (a =? b) = true -> a <> b.
Proof. intros H. apply negb_true_iff in H. apply Z.eqb_neq in H. exact H. Qed.

Lemma valid_in_insert T d t v :
  valid_in T d -> valid_in T (set_textures (<[t := v]> (textures d)) d).
Proof.
  intros H t' HT Ht'. simpl. apply lookup_insert_is_Some'. right. apply H; assumption.
Qed.

Ltac defined_step :=
  first
  [ apply defined_ret | apply defined_get | apply defined_emit
  | apply defined_vita_texture_of; [assumption|apply negb_eqb_true; assumption]
  | apply defined_modify; intros ? Hs; exact Hs
  | apply defined_modify; intros ? Hs; apply valid_in_insert; exact Hs
  | apply defined_bind; [|intros ?]
  | apply defined_when; intros ?
  | lazymatch goal with
    | |- defined _ (if ?b then _ else _) => destruct b eqn:?
    | |- defined _ (match ?x with _ => _ end) => destruct x eqn:?
    | |- defined _ (let _ := _ in _) => cbv zeta
    end ].

Lemma SetDrawState_defined (T : ptr -> Prop) c :
  T (texture (draw c)) -> defined (valid_in T) (SetDrawState c).
Proof.
  intros HT.
  unfold SetDrawState, VITA_GXM_SetBlendMode, upd_ds. cbv zeta.
  repeat defined_step.
Qed.

Lemma RenderClear_defined (T : ptr -> Prop) : defined (valid_in T) VITA_GXM_RenderClear.
Proof. unfold VITA_GXM_RenderClear, upd_ds. repeat defined_step. Qed.

Lemma merge_scan_run c run tail cnt :
  Forall (compatible c) run -> ends_run c tail ->
  0 <= cnt < 2^32 ->
  merge_scan (command c) (texture (draw c)) (blend (draw c)) (run ++ tail) cnt
  = (wrap_uint (cnt + total_count run), tail).
Proof.
  intros Hrun Htail. revert cnt.
  induction Hrun as [|n run (Hc & Ht & Hb) _ IH]; intros cnt Hcnt.
  - simpl. rewrite Z.add_0_r. unfold wrap_uint. rewrite Z.mod_small by exact Hcnt.
    destruct tail as [|n tail]; [reflexivity|].
    simpl in Htail. simpl.
    destruct (decide (command n <> command c)) as [|Heq]; [reflexivity|].
    destruct (negb (texture (draw n) =? texture (draw c))
              || negb (blend (draw n) =? blend (draw c))) eqn:Hor; [reflexivity|].
    exfalso. apply Htail. apply orb_false_iff in Hor as [H1 H2].
    apply negb_false_iff in H1, H2. apply Z.eqb_eq in H1, H2.
    split; [|split]; [|assumption..].
    destruct (decide (command n = command c)); [assumption|contradiction].
  - simpl.
    destruct (decide (command n <> command c)) as [Hne|_]; [contradiction|].
    rewrite Ht, Hb, !Z.eqb_refl. simpl.
    rewrite IH by (unfold wrap_uint; apply Z.mod_pos_bound; lia).
    f_equal. unfold wrap_uint. rewrite Zplus_mod_idemp_l. f_equal. lia.
Qed.

Lemma run_command_batch d c run tail :
  is_draw_cmd (command c) ->
  Forall (compatible c) run ->
  ends_run c tail ->
  0 <= count (draw c) < 2^32 ->
  (texture (draw c) <> NULL -> is_Some (textures d !! texture (draw c))) ->
  exists d' tr,
    run_command c (run ++ tail) d = Some (tail, d', tr) /\
    draw_calls tr =
      [(primitive_of (command c), wrap_uint (total_count (c :: run)))].
Proof.
  intros Hty Hrun Htail Hcnt Hvalid.
  destruct (SetDrawState_defined (fun t => t = texture (draw c)) c eq_refl d)
    as (r & d1 & t1 & HS & _).
  { intros t -> Ht. auto. }
  pose proof (SetDrawState_true _ _ _ _ _ HS) as ->.
  destruct (SetDrawState_no_draw c _ _ _ _ HS) as [_ Hq].
  apply draw_calls_quiet in Hq.
  unfold run_command.
  assert (Hm := merge_scan_run c run tail (count (draw c)) Hrun Htail Hcnt).
  destruct Hty as [Hty|[Hty|Hty]]; rewrite Hty in *; cbv zeta; rewrite Hm;
    unfold bind; rewrite HS; simpl;
    do 2 eexists; (split; [reflexivity|]);
    rewrite !draw_calls_app, Hq; reflexivity.
Qed.

(** *** Where the loop's cursor lands *)

(** The queue the loop continues with is a suffix of the one it had. *)
Lemma merge_scan_suffix ty tex bl next cnt :
  exists k, snd (merge_scan ty tex bl next cnt) = drop k next.
Proof.
  revert cnt. induction next as [|n next IH]; intros cnt; simpl.
  - exists O. reflexivity.
  - destruct (decide (command n <> ty)); [exists O; reflexivity|].
    destruct (_ || _); [exists O; reflexivity|].
    destruct (IH (wrap_uint (cnt + count (draw n)))) as [k Hk].
    exists (S k). exact Hk.
Qed.

Lemma run_command_suffix c next d next' d' tr :
  run_command c next d = Some (next', d', tr) -> exists k, next' = drop k next.
Proof.
  unfold run_command. intros H. step_m H. step_m H. prim_m H.
  destruct (command c); try (repeat step_m Hs; prim_m Hs; exists O; reflexivity).
  all: cbv zeta in Hs;
    destruct (merge_scan _ _ _ next _) as [cnt after] eqn:Hm;
    repeat step_m Hs; prim_m Hs;
    match type of Hm with merge_scan ?ty ?tex ?bl _ ?c = _ =>
      destruct (merge_scan_suffix ty tex bl next c) as [k Hk] end;
    rewrite Hm in Hk; exists k; exact Hk.
Qed.

Lemma run_command_defined (T : ptr -> Prop) c next :
  T (texture (draw c)) -> defined (valid_in T) (run_command c next).
Proof.
  intros HT. unfold run_command.
  apply defined_bind; [|intros ?; unfold upd_ds; repeat defined_step].
  destruct (command c); unfold upd_ds; cbv zeta;
    try destruct (merge_scan _ _ _ _ _);
    repeat first [apply RenderClear_defined | apply SetDrawState_defined; assumption
                 | defined_step].
Qed.

(** With fuel for every command of the queue the loop runs to its end. *)
Lemma run_loop_defined (T : ptr -> Prop) fuel q :
  (length q <= fuel)%nat ->
  Forall (fun c => T (texture (draw c))) q ->
  defined (valid_in T) (run_loop fuel q).
Proof.
  revert q. induction fuel as [|fuel IH]; intros q Hlen HT.
  - destruct q; [apply defined_ret|simpl in Hlen; lia].
  - destruct q as [|c next]; [apply defined_ret|]. simpl.
    apply Forall_cons in HT as [Hc Hnext].
    intros s Hs.
    destruct (run_command_defined T c next Hc s Hs) as (next' & s1 & t1 & H1 & Hs1).
    destruct (run_command_suffix _ _ _ _ _ _ H1) as [k ->].
    destruct (IH (drop k next)) with (s := s1) as (u & s2 & t2 & H2 & Hs2).
    + rewrite length_drop. simpl in Hlen. lia.
    + apply Forall_drop. exact Hnext.
    + exact Hs1.
    + exists u, s2, (t1 ++ t2). split; [|exact Hs2].
      rewrite (bind_eq _ _ _ _ _ _ H1), H2. reflexivity.
Qed.

Lemma run_loop_fuel fuel fuel' q d :
  (length q <= fuel)%nat -> (length q <= fuel')%nat ->
  run_loop fuel q d = run_loop fuel' q d.
Proof.
  revert fuel' q d. induction fuel as [|fuel IH]; intros fuel' q d H1 H2.
  - destruct q; [|simpl in H1; lia]. destruct fuel'; reflexivity.
  - destruct q as [|c next]; [destruct fuel'; reflexivity|].
    destruct fuel' as [|fuel']; [simpl in H2; lia|]. simpl.
    unfold bind. destruct (run_command c next d) as [[[next' d1] t1]|] eqn:Hc; [|reflexivity].
    destruct (run_command_suffix _ _ _ _ _ _ Hc) as [k ->].
    rewrite (IH fuel'); [reflexivity| |]; rewrite length_drop; simpl in *; lia.
Qed.

Lemma compatible_sym a b : compatible a b -> compatible b a.
Proof. intros (? & ? & ?). repeat split; congruence. Qed.
Lemma compatible_trans a b c : compatible a b -> compatible b c -> compatible a c.
Proof. intros (? & ? & ?) (? & ? & ?). repeat split; congruence. Qed.

Lemma merge_scan_app c pre q cnt :
  (Forall (fun n => compatible c n) pre -> ends_run c q) ->
  merge_scan (command c) (texture (draw c)) (blend (draw c)) (pre ++ q) cnt =
  (fst (merge_scan (command c) (texture (draw c)) (blend (draw c)) pre cnt),
   snd (merge_scan (command c) (texture (draw c)) (blend (draw c)) pre cnt) ++ q).
Proof.
  revert cnt. induction pre as [|n pre IH]; intros cnt Hq.
  - simpl. specialize (Hq (Forall_nil_2 _)).
    destruct q as [|n q]; [reflexivity|]. simpl in *.
    destruct (decide (command n <> command c)) as [|Heq]; [reflexivity|].
    destruct (negb (texture (draw n) =? texture (draw c))
              || negb (blend (draw n) =? blend (draw c))) eqn:Hor; [reflexivity|].
    exfalso. apply Hq. apply orb_false_iff in Hor as [H1 H2].
    apply negb_false_iff in H1, H2. apply Z.eqb_eq in H1, H2.
    split; [|split]; [|assumption..].
    destruct (decide (command n = command c)); [assumption|contradiction].
  - simpl.
    destruct (decide (command n <> command c)) as [|Heq]; [reflexivity|].
    destruct (negb (texture (draw n) =? texture (draw c))
              || negb (blend (draw n) =? blend (draw c))) eqn:Hor; [reflexivity|].
    apply IH. intros Hall. apply Hq. constructor; [|exact Hall].
    apply orb_false_iff in Hor as [H1 H2].
    apply negb_false_iff in H1, H2. apply Z.eqb_eq in H1, H2.
    split; [|split]; [|assumption..].
    destruct (decide (command n = command c)); [assumption|contradiction].
Qed.

Lemma run_command_app c pre q d :
  (Forall (fun n => compatible c n) pre -> ends_run c q) ->
  run_command c (pre ++ q) d =
  match run_command c pre d with
  | Some (next', d', tr) => Some (next' ++ q, d', tr)
  | None => None
  end.
Proof.
  intros Hq. unfold run_command.
  pose proof (merge_scan_app c pre q (count (draw c)) Hq) as Hm. revert Hm.
  destruct (command c); intros Hm; cbv zeta; rewrite ?Hm;
    try destruct (merge_scan _ _ _ pre _) as [cnt after];
    unfold bind, when, ret, get, modify, upd_ds, emit; simpl;
    repeat case_match; simplify_eq/=; try reflexivity.
Qed.

Lemma last_drop_lt {A} (l : list A) k :
  (k < length l)%nat -> last (drop k l) = last l.
Proof.
  revert l. induction k as [|k IH]; intros l Hk; [reflexivity|].
  destruct l as [|a l]; [simpl in Hk; lia|]. simpl in *.
  rewrite IH by lia. destruct l; [simpl in Hk; lia|reflexivity].
Qed.

Lemma joint_drop k pre q : joint pre q -> joint (drop k pre) q.
Proof.
  unfold joint. destruct (decide (k < length pre)%nat) as [Hk|Hk].
  - rewrite last_drop_lt by exact Hk. auto.
  - rewrite drop_ge by lia. simpl. destruct q; auto.
Qed.

Lemma last_compatible c pre l :
  Forall (fun n => compatible c n) pre -> last (c :: pre) = Some l ->
  compatible c l.
Proof.
  intros Hall Hl. destruct pre as [|n pre].
  - injection Hl as <-. repeat split.
  - rewrite last_cons_cons in Hl. apply last_Some_elem_of in Hl.
    rewrite Forall_forall in Hall. apply Hall. exact Hl.
Qed.

(** The loop on [pre ++ q], when no batch can straddle the joint, is the
    loop on [pre] followed by the loop on [q]. *)
Lemma run_loop_split fuel pre q d :
  (length (pre ++ q) <= fuel)%nat -> joint pre q ->
  run_loop fuel (pre ++ q) d =
  bind (run_loop fuel pre) (fun _ => run_loop fuel q) d.
Proof.
  revert pre d. induction fuel as [|fuel IH]; intros pre d Hlen Hj.
  - destruct pre, q; simpl in Hlen; try lia. reflexivity.
  - destruct pre as [|c pre].
    + cbn [app]. change (run_loop (S fuel) []) with (@ret VITA_GXM_RenderData GxmCall _ tt).
      unfold bind, ret. destruct (run_loop (S fuel) q d) as [[[? ?] ?]|]; reflexivity.
    + set (RQ := run_loop (S fuel) q). simpl app. cbn [run_loop]. unfold bind.
      rewrite run_command_app.
      2:{ intros Hall. unfold ends_run. unfold joint in Hj.
          destruct (last (c :: pre)) as [l|] eqn:Hl;
            [|apply last_None in Hl; discriminate Hl].
          destruct q as [|n q]; [exact I|].
          intros Hcn. apply Hj.
          apply (compatible_trans _ c); [|exact Hcn].
          apply compatible_sym. eapply last_compatible; eassumption. }
      destruct (run_command c pre d) as [[[next' d1] t1]|] eqn:Hc; [|reflexivity].
      destruct (run_command_suffix _ _ _ _ _ _ Hc) as [k ->].
      rewrite IH.
      2:{ rewrite length_app, length_drop. simpl in Hlen. rewrite length_app in Hlen. lia. }
      2:{ apply joint_drop. unfold joint in *. destruct pre; [destruct q; exact I|].
          rewrite last_cons_cons in Hj. exact Hj. }
      unfold bind.
      destruct (run_loop fuel (drop k pre) d1) as [[[u d2] t2]|]; [|reflexivity].
      rewrite (run_loop_fuel fuel (S fuel) q d2).
      2,3: simpl in Hlen; rewrite length_app in Hlen; lia.
      fold RQ. destruct (RQ d2) as [[[u' d3] t3]|]; [|reflexivity].
      rewrite app_assoc. reflexivity.
Qed.

Lemma binds_quiet tr :
  Forall (fun e => is_bind e = false) tr ->
  program_binds tr = [] /\ texture_binds tr = [].
Proof.
  intros H. split; apply Forall_false_filter; eapply Forall_impl; try exact H;
    intros e He; apply orb_false_iff in He as [? ?]; assumption.
Qed.

Lemma program_binds_app t1 t2 :
  program_binds (t1 ++ t2) = program_binds t1 ++ program_binds t2.
Proof. apply filter_app. Qed.
Lemma texture_binds_app t1 t2 :
  texture_binds (t1 ++ t2) = texture_binds t1 ++ texture_binds t2.
Proof. apply filter_app. Qed.

Lemma SetBlendMode_eq mode d :
  VITA_GXM_SetBlendMode mode d = Some (tt, after_blend mode d, []).
Proof.
  unfold VITA_GXM_SetBlendMode, after_blend, programs_for, bind, get, modify, ret.
  destruct (mode =? currentBlendMode d); reflexivity.
Qed.

Ltac use_frame Hs f phi :=
  let Hf := fresh "Hf" in
  lazymatch type of Hs with
  | ?m ?s = Some _ =>
      assert (Hf : frame f phi m)
        by (unfold upd_ds; cbv zeta; repeat frame_step);
      apply Hf in Hs as [? ?]; clear Hf
  end.

Lemma progs_after_blend m a b :
  progs a = progs b -> progs (after_blend m a) = progs (after_blend m b).
Proof.
  unfold progs, after_blend. intros [= E1 E2 E3 E4 E5 E6 E7 E8 E9].
  rewrite E1, E6. destruct (m =? currentBlendMode b); simpl; congruence.
Qed.

Lemma drawstate_after_blend m d : drawstate (after_blend m d) = drawstate d.
Proof. unfold after_blend. destruct (m =? currentBlendMode d); reflexivity. Qed.

Lemma vp_phase vp s b s' t :
  (if negb (vertex_program (drawstate s) =? vp)
   then (upd_ds (set_vertex_program vp) ;;; emit (sceGxmSetVertexProgram vp) ;;; ret true)%m
   else ret false) s = Some (b, s', t) ->
  program_binds t =
    (if vertex_program (drawstate s) =? vp then [] else [sceGxmSetVertexProgram vp])
  /\ texture_binds t = []
  /\ progs s' =
     (currentBlendMode s, colorVertexProgram s, colorFragmentProgram s,
      textureVertexProgram s, textureFragmentProgram s, blendFragmentPrograms s,
      vp, fragment_program (drawstate s), ds_texture (drawstate s)).
Proof.
  destruct (vertex_program (drawstate s) =? vp) eqn:E; simpl; intros [= <- <- <-].
  - apply Z.eqb_eq in E. unfold progs. rewrite E. auto.
  - auto.
Qed.

Lemma fp_phase fp s b s' t :
  (if negb (fragment_program (drawstate s) =? fp)
   then (upd_ds (set_fragment_program fp) ;;; emit (sceGxmSetFragmentProgram fp) ;;; ret true)%m
   else ret false) s = Some (b, s', t) ->
  program_binds t =
    (if fragment_program (drawstate s) =? fp then [] else [sceGxmSetFragmentProgram fp])
  /\ texture_binds t = []
  /\ progs s' =
     (currentBlendMode s, colorVertexProgram s, colorFragmentProgram s,
      textureVertexProgram s, textureFragmentProgram s, blendFragmentPrograms s,
      vertex_program (drawstate s), fp, ds_texture (drawstate s)).
Proof.
  destruct (fragment_program (drawstate s) =? fp) eqn:E; simpl; intros [= <- <- <-].
  - apply Z.eqb_eq in E. unfold progs. rewrite E. auto.
  - auto.
Qed.

Lemma tex_phase tex s u s' t :
  when (negb (tex =? ds_texture (drawstate s)))
    (when (negb (tex =? NULL))
       (vita_texture_of tex ;;; emit (sceGxmSetFragmentTexture tex)) ;;;
     upd_ds (set_ds_texture tex))%m s = Some (u, s', t) ->
  program_binds t = []
  /\ texture_binds t =
     (if negb (tex =? ds_texture (drawstate s)) && negb (tex =? NULL)
      then [sceGxmSetFragmentTexture tex] else [])
  /\ progs s' =
     (currentBlendMode s, colorVertexProgram s, colorFragmentProgram s,
      textureVertexProgram s, textureFragmentProgram s, blendFragmentPrograms s,
      vertex_program (drawstate s), fragment_program (drawstate s), tex).
Proof.
  destruct (tex =? ds_texture (drawstate s)) eqn:E;
    cbv [bind when ret upd_ds modify emit negb vita_texture_of andb].
  - intros [= <- <- <-]. apply Z.eqb_eq in E. unfold progs. rewrite E. auto.
  - destruct (tex =? NULL) eqn:E0.
    + intros [= <- <- <-]. auto.
    + intros H. repeat case_match; simplify_eq/=. auto.
Qed.

Lemma SetDrawState_binds c d r d' tr :
  SetDrawState c d = Some (r, d', tr) ->
  let d1 := after_blend (blend (draw c)) d in
  let vp := wanted_vertex_program c d1 in
  let fp := wanted_fragment_program c d1 in
  program_binds tr =
    (if vertex_program (drawstate d) =? vp then [] else [sceGxmSetVertexProgram vp])
    ++ (if fragment_program (drawstate d) =? fp then [] else [sceGxmSetFragmentProgram fp])
  /\ texture_binds tr =
    (if negb (texture (draw c) =? ds_texture (drawstate d))
        && negb (texture (draw c) =? NULL)
     then [sceGxmSetFragmentTexture (texture (draw c))] else [])
  /\ progs d' =
     (currentBlendMode d1, colorVertexProgram d1, colorFragmentProgram d1,
      textureVertexProgram d1, textureFragmentProgram d1, blendFragmentPrograms d1,
      vp, fp, texture (draw c)).
Proof.
  intros H. unfold SetDrawState in H. cbv zeta in H.
  step_m H. prim_m Hs.
  step_m H. use_frame Hs progs is_bind.
  step_m H. prim_m Hs.
  step_m H. use_frame Hs progs is_bind.
  step_m H. prim_m Hs.
  step_m H. use_frame Hs progs is_bind.
  step_m H. rewrite SetBlendMode_eq in Hs. injection Hs as <- <- <-.
  step_m H. prim_m Hs.
  step_m H. rename Hs into Hvp.
  step_m H. prim_m Hs.
  step_m H. rename Hs into Hfp.
  step_m H. prim_m Hs.
  step_m H. use_frame Hs progs is_bind.
  step_m H. use_frame Hs progs is_bind.
  step_m H. prim_m Hs.
  step_m H. rename Hs into Htex.
  step_m H. prim_m Hs. prim_m H.
  assert (E7 : progs x7 = progs x1) by congruence.
  apply (progs_after_blend (blend (draw c))) in E7.
  apply vp_phase in Hvp as (Pv & Tv & Ev).
  apply fp_phase in Hfp as (Pf & Tf & Ef).
  apply tex_phase in Htex as (Pt & Tt & Et).
  apply binds_quiet in H1 as [? ?], H3 as [? ?], H5 as [? ?], H7 as [? ?], H9 as [? ?].
  assert (E24 : progs x24 = progs x18) by congruence.
  cbv zeta. unfold wanted_vertex_program, wanted_fragment_program.
  set (d1 := after_blend (blend (draw c)) x1) in *.
  set (d7 := after_blend (blend (draw c)) x7) in *.
  unfold progs in E7, Ev, Ef, E24, Et.
  injection E7 as ? ? ? ? ? ? ? ? ?.
  injection Ev as ? ? ? ? ? ? ? ? ?.
  injection Ef as ? ? ? ? ? ? ? ? ?.
  injection E24 as ? ? ? ? ? ? ? ? ?.
  injection Et as ? ? ? ? ? ? ? ? ?.
  assert (Hds : drawstate d1 = drawstate x1) by apply drawstate_after_blend.
  rewrite !program_binds_app, !texture_binds_app. unfold progs.
  repeat match goal with H : _ = _ |- _ => rewrite H end.
  simpl. rewrite !app_nil_r. split; [reflexivity|split; reflexivity].
Qed.

(** What the cache holds once [SetDrawState] has run for [c1]: a command
    [c2] with the texture and blend mode of [c1] finds everything bound. *)
Lemma after_blend_idem m d : after_blend m (after_blend m d) = after_blend m d.
Proof.
  unfold after_blend. destruct (m =? currentBlendMode d) eqn:E.
  - rewrite E. reflexivity.
  - simpl. rewrite Z.eqb_refl. reflexivity.
Qed.

Lemma wanted_vp_after_blend c m d :
  wanted_vertex_program c (after_blend m d) = wanted_vertex_program c d.
Proof.
  unfold wanted_vertex_program, after_blend.
  destruct (m =? currentBlendMode d); reflexivity.
Qed.

(** [C7] Two draw commands with the same texture, translated one after the
    other. When the blend mode is the same too, the second emits no program
    bind and no texture bind. Whatever the blend mode, it emits no texture
    bind and no vertex-program bind, and one [sceGxmSetFragmentProgram]
    exactly when the fragment program selected for its blend mode is not the
    cached one: a change of blend mode is applied by binding another
    fragment program. *)
Theorem draw_state_cache d c1 c2 r1 d1 tr1 r2 d2 tr2 :
  SetDrawState c1 d = Some (r1, d1, tr1) ->
  SetDrawState c2 d1 = Some (r2, d2, tr2) ->
  texture (draw c2) = texture (draw c1) ->
  (blend (draw c2) = blend (draw c1) ->
   program_binds tr2 = [] /\ texture_binds tr2 = []) /\
  (let fp := wanted_fragment_program c2 (after_blend (blend (draw c2)) d1) in
   texture_binds tr2 = [] /\
   program_binds tr2 =
     if fragment_program (drawstate d1) =? fp then []
     else [sceGxmSetFragmentProgram fp]).
Proof.
  intros H1 H2 Ht.
  apply SetDrawState_binds in H1 as (_ & _ & E1).
  apply SetDrawState_binds in H2 as (P2 & T2 & _).
  cbv zeta in *. unfold progs in E1.
  injection E1 as Eb Ecv Ecf Etv Etf Ebf Evp Efp Etex.
  assert (Hvp : vertex_program (drawstate d1)
                = wanted_vertex_program c2 (after_blend (blend (draw c2)) d1)).
  { rewrite Evp, !wanted_vp_after_blend. unfold wanted_vertex_program.
    rewrite Ht, Etv, Ecv.
    unfold after_blend. destruct (blend (draw c1) =? currentBlendMode d); reflexivity. }
  assert (Htex : texture_binds tr2 = []).
  { rewrite T2, Etex, Ht, Z.eqb_refl. reflexivity. }
  rewrite <- Hvp, Z.eqb_refl in P2. simpl in P2.
  split; [|split; assumption].
  intros Hb. split; [|exact Htex].
  rewrite P2.
  assert (Hd1 : after_blend (blend (draw c2)) d1 = d1).
  { unfold after_blend. rewrite Hb, Eb.
    replace (blend (draw c1) =? _) with true; [reflexivity|].
    symmetry. apply Z.eqb_eq.
    unfold after_blend. destruct (blend (draw c1) =? currentBlendMode d) eqn:E; [|reflexivity].
    apply Z.eqb_eq in E. exact E. }
  rewrite Hd1, Efp. unfold wanted_fragment_program.
  rewrite Ht, Etf, Ecf, Z.eqb_refl. reflexivity.
Qed.

Lemma blend_change_rebinds_fragment_program :
  exists d1 tr1 d2 tr2,
    SetDrawState (example_draw SDL_RENDERCMD_GEOMETRY 3 SDL_BLENDMODE_BLEND NULL)
      example_data = Some (true, d1, tr1) /\
    SetDrawState (example_draw SDL_RENDERCMD_GEOMETRY 3 SDL_BLENDMODE_ADD NULL)
      d1 = Some (true, d2, tr2) /\
    program_binds tr2 = [sceGxmSetFragmentProgram 24] /\
    program_binds tr2 <> [].
Proof.
  do 4 eexists. split; [vm_compute; reflexivity|].
  split; [vm_compute; reflexivity|].
  split; [vm_compute; reflexivity|discriminate].
Qed.

Lemma draw_state_cache_witness :
  exists d1 tr1 d2 tr2,
    SetDrawState (example_draw SDL_RENDERCMD_GEOMETRY 3 SDL_BLENDMODE_BLEND 100)
      example_data = Some (true, d1, tr1) /\
    SetDrawState (example_draw SDL_RENDERCMD_DRAW_POINTS 5 SDL_BLENDMODE_BLEND 100)
      d1 = Some (true, d2, tr2) /\
    program_binds tr2 = [] /\ texture_binds tr2 = [].
Proof.
  do 4 eexists. split; [vm_compute; reflexivity|].
  split; [vm_compute; reflexivity|].
  eapply (draw_state_cache example_data
            (example_draw SDL_RENDERCMD_GEOMETRY 3 SDL_BLENDMODE_BLEND 100)
            (example_draw SDL_RENDERCMD_DRAW_POINTS 5 SDL_BLENDMODE_BLEND 100));
    [vm_compute; reflexivity|vm_compute; reflexivity|reflexivity|reflexivity].
Defined.

(** [C2] A draw command [c] followed by the commands [run], all compatible
    with it (same command type, texture and blend mode), the run being
    whole: the command before cannot be merged with [c] and the command
    after cannot either. The translator issues one draw call for them, of
    the primitive of [c], whose vertex count is the sum of their counts
    modulo 2^32; nothing tests a count for 0. *)
Theorem batch_is_one_draw_call d pre c run tail :
  let q := pre ++ c :: run ++ tail in
  is_draw_cmd (command c) ->
  Forall (compatible c) run ->
  ends_run c tail ->
  joint pre [c] ->
  0 <= count (draw c) < 2^32 ->
  valid_in (textures_of q) d ->
  exists d0 tr0 d1 tr1 d2 tr2,
    run_loop (length pre) pre d = Some (tt, d0, tr0) /\
    run_command c (run ++ tail) d0 = Some (tail, d1, tr1) /\
    draw_calls tr1 =
      [(primitive_of (command c), wrap_uint (total_count (c :: run)))] /\
    (0 <= total_count (c :: run) < 2^32 ->
     draw_calls tr1 = [(primitive_of (command c), total_count (c :: run))]) /\
    run_loop (length tail) tail d1 = Some (tt, d2, tr2) /\
    run_loop (length q) q d = Some (tt, d2, tr0 ++ tr1 ++ tr2).
Proof.
  intros q Hty Hrun Htail Hj Hcnt Hvalid.
  set (T := textures_of q).
  assert (HTq : Forall (fun n => T (texture (draw n))) q).
  { apply Forall_forall. intros n Hn. exists n. split; [exact Hn|reflexivity]. }
  assert (HTpre : Forall (fun n => T (texture (draw n))) pre).
  { unfold q in HTq. apply Forall_app in HTq as [H _]. exact H. }
  assert (HTc : T (texture (draw c))).
  { unfold q in HTq. apply Forall_app in HTq as [_ H].
    apply Forall_cons in H as [H _]. exact H. }
  assert (HTtail : Forall (fun n => T (texture (draw n))) tail).
  { unfold q in HTq. apply Forall_app in HTq as [_ H].
    apply Forall_cons in H as [_ H]. apply Forall_app in H as [_ H]. exact H. }
  destruct (run_loop_defined T (length pre) pre (le_n _) HTpre d Hvalid)
    as ([] & d0 & tr0 & H0 & Hv0).
  destruct (run_command_batch d0 c run tail Hty Hrun Htail Hcnt)
    as (d1 & tr1 & H1 & Hd1).
  { intros Ht. apply (Hv0 _ HTc Ht). }
  destruct (run_command_defined T c (run ++ tail) HTc d0 Hv0)
    as (n' & d1' & tr1' & H1' & Hv1).
  rewrite H1 in H1'. injection H1' as <- <- <-.
  destruct (run_loop_defined T (length tail) tail (le_n _) HTtail d1 Hv1)
    as ([] & d2 & tr2 & H2 & Hv2).
  exists d0, tr0, d1, tr1, d2, tr2.
  split; [exact H0|]. split; [exact H1|]. split; [exact Hd1|].
  split.
  { intros Hsmall. rewrite Hd1. unfold wrap_uint. rewrite Z.mod_small by exact Hsmall.
    reflexivity. }
  split; [exact H2|].
  unfold q. rewrite run_loop_split; [| reflexivity |].
  2:{ unfold joint in *. destruct (last pre); [exact Hj|exact I]. }
  assert (Hlen : (length pre <= length (pre ++ c :: run ++ tail))%nat)
    by (rewrite length_app; lia).
  rewrite (bind_eq _ _ _ _ _ _
             (eq_trans (run_loop_fuel _ _ _ _ Hlen (le_n _)) H0)).
  assert (Hq' : length (pre ++ c :: run ++ tail)
                = S (length pre + length (run ++ tail))).
  { rewrite length_app. simpl. lia. }
  rewrite Hq'. cbn [run_loop].
  rewrite (bind_eq _ _ _ _ _ _ H1).
  rewrite (run_loop_fuel _ (length tail) tail d1), H2; [reflexivity| |lia].
  rewrite length_app. lia.
Qed.

(** The scenario of the two line lists, and a batch in the middle of a
    queue. *)
Lemma batch_is_one_draw_call_witness :
  let c1 := VITA_GXM_QueueDrawLines 4096
              (example_draw SDL_RENDERCMD_DRAW_LINES 0 SDL_BLENDMODE_BLEND NULL) 2 in
  let c2 := VITA_GXM_QueueDrawLines 4160
              (example_draw SDL_RENDERCMD_DRAW_LINES 0 SDL_BLENDMODE_BLEND NULL) 3 in
  let pre := [example_draw SDL_RENDERCMD_GEOMETRY 3 SDL_BLENDMODE_BLEND 100] in
  let tail := [example_draw SDL_RENDERCMD_DRAW_LINES 2 SDL_BLENDMODE_ADD NULL] in
  (count (draw c1) = 2 /\ count (draw c2) = 4) /\
  (exists d0 tr0 d1 tr1 d2 tr2,
    run_loop (length pre) pre example_data = Some (tt, d0, tr0) /\
    run_command c1 ([c2] ++ tail) d0 = Some (tail, d1, tr1) /\
    draw_calls tr1 = [(SCE_GXM_PRIMITIVE_LINES, wrap_uint 6)] /\
    (0 <= 6 < 2^32 -> draw_calls tr1 = [(SCE_GXM_PRIMITIVE_LINES, 6)]) /\
    run_loop (length tail) tail d1 = Some (tt, d2, tr2) /\
    run_loop (length (pre ++ c1 :: [c2] ++ tail)) (pre ++ c1 :: [c2] ++ tail)
      example_data = Some (tt, d2, tr0 ++ tr1 ++ tr2)) /\
  (exists d' tr,
    VITA_GXM_RunCommandQueue [c1; c2] example_data = Some (true, d', tr) /\
    draw_calls tr = [(SCE_GXM_PRIMITIVE_LINES, 6)]).
Proof.
  cbv zeta. split; [split; reflexivity|]. split.
  - apply (batch_is_one_draw_call example_data
             [example_draw SDL_RENDERCMD_GEOMETRY 3 SDL_BLENDMODE_BLEND 100]
             (VITA_GXM_QueueDrawLines 4096
                (example_draw SDL_RENDERCMD_DRAW_LINES 0 SDL_BLENDMODE_BLEND NULL) 2)
             [VITA_GXM_QueueDrawLines 4160
                (example_draw SDL_RENDERCMD_DRAW_LINES 0 SDL_BLENDMODE_BLEND NULL) 3]
             [example_draw SDL_RENDERCMD_DRAW_LINES 2 SDL_BLENDMODE_ADD NULL]).
    + right. left. reflexivity.
    + repeat constructor.
    + unfold ends_run, compatible. simpl. intros H.
      destruct H as (_ & _ & H). discriminate H.
    + unfold joint. rewrite last_singleton. unfold compatible. simpl. intros H.
      destruct H as (H & _). discriminate H.
    + change (0 <= 2 < 2^32). lia.
    + intros t (n & Hn & ->) Ht.
      repeat (apply elem_of_cons in Hn as [->|Hn]);
        try (exfalso; apply Ht; reflexivity); try (eexists; reflexivity).
      apply elem_of_nil in Hn. contradiction.
  - do 2 eexists. split; vm_compute; reflexivity.
Defined.

(** A line list of one point has no segment and its command a count of 0;
    the translator still issues a draw call for it. *)
Lemma zero_count_command_is_drawn :
  let c := VITA_GXM_QueueDrawLines 4096
             (example_draw SDL_RENDERCMD_DRAW_LINES 0 SDL_BLENDMODE_BLEND NULL) 1 in
  count (draw c) = 0 /\
  exists d' tr,
    VITA_GXM_RunCommandQueue [c] example_data = Some (true, d', tr) /\
    draw_calls tr = [(SCE_GXM_PRIMITIVE_LINES, 0)] /\
    draw_calls tr <> [].
Proof.
  cbv zeta. split; [reflexivity|].
  do 2 eexists. split; [vm_compute; reflexivity|].
  split; [vm_compute; reflexivity|discriminate].
Qed.

End GxmSpec.

(** ** An implementation of the allocators

    The frame and depth buffers leave the last KiB of video memory, from
    [VRAM_BASE], to the textures; its state is the list of the live blocks,
    by address, and an allocation takes the first gap that is large enough.
    System memory is an arena with a budget: an allocation takes from the
    budget, which freeing does not give back. *)
Module FirstFit.

Import Psp.

Definition VRAM_BASE : Z := 69204992.
Definition SRAM_BASE : Z := 142606336.

Fixpoint largest_gap (c : Z) (bs : list (Z * Z)) : Z :=
  match bs with
  | [] => VRAM_END - c
  | (a, m) :: bs' => Z.max (Z.min a VRAM_END - c) (largest_gap (Z.max c (a + m)) bs')
  end.

Fixpoint first_fit (n c : Z) (bs : list (Z * Z)) : option Z :=
  match bs with
  | [] => if n <=? VRAM_END - c then Some c else None
  | (a, m) :: bs' =>
      if n <=? Z.min a VRAM_END - c then Some c
      else first_fit n (Z.max c (a + m)) bs'
  end.

Fixpoint insert_block (b : Z * Z) (bs : list (Z * Z)) : list (Z * Z) :=
  match bs with
  | [] => [b]
  | b' :: bs' => if fst b <=? fst b' then b :: bs else b' :: insert_block b bs'
  end.

Definition ff_vramalloc (n : Z) (v : list (Z * Z)) : ptr * list (Z * Z) :=
  if n <=? 0 then (VRAM_BASE, v)
  else match first_fit n VRAM_BASE v with
       | Some a => (a, insert_block (a, n) v)
       | None => (NULL, v)
       end.

Definition ff_vfree (p : ptr) (v : list (Z * Z)) : list (Z * Z) :=
  filter (fun b => fst b <> p) v.

(** The arena: the budget left and the next address. *)
Definition arena_malloc (n : Z) (s : Z * Z) : ptr * (Z * Z) :=
  let a := Z.max (snd s) SRAM_BASE in
  if (0 <=? n) && (n <=? fst s) then (a, (fst s - n, a + Z.max n 1))
  else (NULL, s).

Lemma first_fit_range n c bs a :
  0 < n -> VRAM_BASE <= c -> first_fit n c bs = Some a -> VRAM_BASE <= a < VRAM_END.
Proof.
  intros Hn. revert c. induction bs as [|[b m] bs IH]; intros c Hc; simpl.
  - destruct (n <=? VRAM_END - c) eqn:E; [|discriminate].
    intros [= <-]. apply Z.leb_le in E. lia.
  - destruct (n <=? Z.min b VRAM_END - c) eqn:E.
    + intros [= <-]. apply Z.leb_le in E. lia.
    + apply IH. lia.
Qed.

Lemma first_fit_fits n c bs :
  n <= largest_gap c bs -> is_Some (first_fit n c bs).
Proof.
  revert c. induction bs as [|[b m] bs IH]; intros c; simpl.
  - intros H. apply Z.leb_le in H. rewrite H. eauto.
  - intros H. destruct (n <=? Z.min b VRAM_END - c) eqn:E; [eauto|].
    apply Z.leb_gt in E. apply IH. lia.
Qed.

#[export, refine] Instance allocators : Allocators := {|
  vram_t := list (Z * Z);
  sram_t := Z * Z;
  vlargestblock := largest_gap VRAM_BASE;
  vramalloc := ff_vramalloc;
  vfree := ff_vfree;
  SDL_malloc := arena_malloc;
  SDL_free := fun _ s => s
|}.
Proof.
  - intros n v. unfold ff_vramalloc. destruct (n <=? 0) eqn:En.
    + simpl. unfold VRAM_BASE, VRAM_END. lia.
    + apply Z.leb_gt in En.
      destruct (first_fit n VRAM_BASE v) as [a|] eqn:E; simpl.
      * apply first_fit_range in E; [|lia|reflexivity]. unfold VRAM_BASE in E. lia.
      * unfold NULL, VRAM_END. lia.
  - intros n v H. unfold ff_vramalloc. destruct (n <=? 0) eqn:En.
    + simpl. unfold VRAM_BASE, NULL. lia.
    + apply Z.leb_gt in En. destruct (first_fit_fits _ _ _ H) as [a E].
      rewrite E. simpl. apply first_fit_range in E; [|lia|reflexivity].
      unfold VRAM_BASE, NULL in *. lia.
  - intros n s. unfold arena_malloc.
    destruct ((0 <=? n) && (n <=? fst s)); simpl; [right|left; reflexivity].
    unfold SRAM_BASE, VRAM_END. lia.
Defined.

End FirstFit.

(** ** The PSP residency manager *)

Module PspSpec.

Import Psp.

(** *** Definitions *)

(** Word index of word [k] of block [i] of row [8 * by + jy], in the
    swizzled and in the linear layout of a texture [rb] blocks wide. *)
Definition Q (rb by_ jy i k : Z) : Z := 32 * (rb * by_ + i) + 4 * jy + k.
Definition L (rb by_ jy i k : Z) : Z := 4 * rb * (8 * by_ + jy) + 4 * i + k.

(** [aligned c]: the texture is a whole number of 16-byte by 8-row tiles,
    [rb] per row and [hb] rows of them, and its block has the size the
    structure records. *)
Definition aligned (c : PSP_TextureData) : bool :=
  let bw := textureWidth c * Z.shiftr (bits c) 3 in
  let rb := bw / 16 in
  let hb := size c / (128 * rb) in
  (0 <? rb) && (0 <=? hb) && (128 * rb <? 2^31) && (128 * rb * hb <? 2^32)
  && (bw =? 16 * rb) && (size c =? 128 * rb * hb)
  && (Z.of_nat (length (pixels c)) =? 32 * rb * hb).

Section Definitions.
Context `{Alloc : Allocators}.

(** [seg h prev l nxt]: the textures of [l] are linked in this order by
    [prevhotw] and [nexthotw], coming from [prev] and going to [nxt]. *)
Fixpoint seg (h : gmap Z PSP_TextureData) (prev : ptr) (l : list ptr) (nxt : ptr)
  : Prop :=
  match l with
  | [] => True
  | t :: l' =>
      t <> NULL /\
      exists c, h !! t = Some c /\ prevhotw c = prev
                /\ nexthotw c = default nxt (head l') /\ seg h t l' nxt
  end.

(** [lru_list W l]: the render-target list of [W] is [l], most recently
    used first; textures outside it have no links. *)
Definition lru_list (W : World) (l : list ptr) : Prop :=
  NoDup l /\
  seg (heap W) NULL l NULL /\
  most_recent_target W = default NULL (head l) /\
  least_recent_target W = default NULL (last l) /\
  (forall t c, heap W !! t = Some c -> t ∉ l ->
     prevhotw c = NULL /\ nexthotw c = NULL).

(** The fields of a texture other than its two links. *)
Definition unlinked (c : PSP_TextureData) : PSP_TextureData :=
  set_prevhotw NULL (set_nexthotw NULL c).

(** [relinked W W']: [W'] is [W] up to the links of its textures and the two
    ends of the list. *)
Definition relinked (W W' : World) : Prop :=
  vram W' = vram W /\ sram W' = sram W /\ junk W' = junk W /\
  forall x, unlinked <$> heap W' !! x = unlinked <$> heap W !! x.

(** The state [LRUTargetRemove] leaves, when the neighbours of the texture
    are textures other than itself. *)
Definition removed (W : World) (t : ptr) (c cp cn : PSP_TextureData) : World :=
  let p := prevhotw c in
  let n := nexthotw c in
  let h1 := if negb (p =? NULL) then <[p := set_nexthotw n cp]> (heap W) else heap W in
  let h2 := if negb (n =? NULL) then <[n := set_prevhotw p cn]> h1 else h1 in
  mkWorld (<[t := set_nexthotw NULL (set_prevhotw NULL c)]> h2)
    (if most_recent_target W =? t then n else most_recent_target W)
    (if least_recent_target W =? t then p else least_recent_target W)
    (vram W) (sram W) (junk W).

(** The state [LRUTargetPushFront] leaves. *)
Definition pushed (W : World) (t : ptr) (c cm : PSP_TextureData) : World :=
  let m := most_recent_target W in
  let h1 := <[t := set_nexthotw m c]> (heap W) in
  let h2 := if negb (m =? NULL) then <[m := set_prevhotw t cm]> h1 else h1 in
  mkWorld h2 t
    (if least_recent_target W =? NULL then t else least_recent_target W)
    (vram W) (sram W) (junk W).

(** The two links of a texture. *)
Definition links (c : PSP_TextureData) : ptr * ptr := (prevhotw c, nexthotw c).

(** What [TextureStorageFree] does to the two allocators. *)
Definition free_vram (p : ptr) (v : vram_t) : vram_t :=
  if InVram p then vfree p v else v.
Definition free_sram (p : ptr) (s : sram_t) : sram_t :=
  if InVram p then s else SDL_free p s.

(** [W] with the structure at [t] replaced and the allocators as given. *)
Definition stored (W : World) (t : ptr) (c' : PSP_TextureData)
    (v : vram_t) (s : sram_t) : World :=
  mkWorld (<[t := c']> (heap W)) (most_recent_target W) (least_recent_target W)
    v s (junk W).

(** The destination block of a codec call: [dst], or a fresh block of
    system memory when [dst] is [NULL]. *)
Definition dest (W : World) (dst : ptr * list Z) (n : Z) : ptr * list Z * sram_t :=
  if fst dst =? NULL
  then (fst (SDL_malloc n (sram W)), junk_block W n, snd (SDL_malloc n (sram W)))
  else (fst dst, snd dst, sram W).

(** Video memory after the blocks of the textures [ts] have been freed, in
    this order. *)
Definition frees (h : gmap Z PSP_TextureData) (v : vram_t) (ts : list ptr) : vram_t :=
  foldl (fun v t => match h !! t with Some c => vfree (data c) v | None => v end) v ts.

(** System memory after [SDL_malloc] has been called for a copy of each of
    the textures [ts], in this order. *)
Definition mallocs (h : gmap Z PSP_TextureData) (s : sram_t) (ts : list ptr) : sram_t :=
  foldl (fun s t => match h !! t with
                    | Some c => snd (SDL_malloc (size c) s)
                    | None => s
                    end) s ts.

(** The textures of [l] have their block in video memory. *)
Definition in_vram (W : World) (l : list ptr) : Prop :=
  forall t c, t ∈ l -> heap W !! t = Some c -> InVram (data c) = true.

(** [good l t c]: the texture [t], whose structure is [c], is in the list
    exactly when it is a render target with its block in video memory, and
    is linear when it is a streaming texture. *)
Definition good (l : list ptr) (t : ptr) (c : PSP_TextureData) : Prop :=
  (t ∈ l <-> sdl_access c = SDL_TEXTUREACCESS_TARGET /\ InVram (data c) = true) /\
  (sdl_access c = SDL_TEXTUREACCESS_STREAMING -> swizzled c = false).

Definition cells_except (p : ptr) (W : World) (l : list ptr) : Prop :=
  forall t c, t <> p -> heap W !! t = Some c -> good l t c.

Definition cells (W : World) (l : list ptr) : Prop :=
  forall t c, heap W !! t = Some c -> good l t c.

(** The invariant of the residency manager. *)
Definition Inv (W : World) : Prop :=
  heap W !! NULL = None /\ exists l, lru_list W l /\ cells W l.

(** The structure [PSP_CreateTexture] starts from. *)
Definition new_texture (w h : Z) (format_ : SDL_PixelFormat)
    (access : SDL_TextureAccess) (tw th : Z) : PSP_TextureData :=
  let fmt := PixelFormatToPSPFMT format_ in
  let bits_ :=
    if (fmt =? GU_PSM_5650) || (fmt =? GU_PSM_5551) || (fmt =? GU_PSM_4444)
    then 16 else 32 in
  let pitch_ := wrap_uint (tw * SDL_BYTESPERPIXEL format_) in
  let size_ := wrap_uint (th * pitch_) in
  mkTexData NULL [] size_ (wrap_uint w) (wrap_uint h) tw th bits_ fmt
    pitch_ false NULL NULL w h format_ access.

(** The calls the renderer makes on the residency manager. The structure
    of a new texture is at an address that holds no texture;
    [SDL_SetRenderTarget] accepts a texture only when its access is
    [SDL_TEXTUREACCESS_TARGET]. *)
Inductive step : World -> World -> Prop :=
| step_create W p w h fmt acc ok W' tr :
    heap W !! p = None ->
    PSP_CreateTexture p w h fmt acc W = Some (ok, W', tr) -> step W W'
| step_bind W t c ok W' tr :
    heap W !! t = Some c -> sdl_access c = SDL_TEXTUREACCESS_TARGET ->
    TextureBindAsTarget t W = Some (ok, W', tr) -> step W W'
| step_activate W t u W' tr :
    TextureActivate t W = Some (u, W', tr) -> step W W'
| step_lock W t x y r W' tr :
    PSP_LockTexture t x y W = Some (r, W', tr) -> step W W'
| step_write W t px u W' tr :
    write_pixels t px W = Some (u, W', tr) -> step W W'
| step_destroy W t u W' tr :
    PSP_DestroyTexture t W = Some (u, W', tr) -> step W W'.

(** [PSP_CreateRenderer] leaves no texture and an empty list. *)
Definition initial (W : World) : Prop :=
  heap W = ∅ /\ most_recent_target W = NULL /\ least_recent_target W = NULL.

Inductive reachable : World -> Prop :=
| reachable_initial W : initial W -> reachable W
| reachable_step W W' : reachable W -> step W W' -> reachable W'.

(** Checking a list against the links of a state. *)
Fixpoint seg_check (h : gmap Z PSP_TextureData) (prev : ptr) (l : list ptr)
    (nxt : ptr) : bool :=
  match l with
  | [] => true
  | t :: l' =>
      negb (t =? NULL) &&
      match h !! t with
      | Some c => (prevhotw c =? prev) && (nexthotw c =? default nxt (head l'))
                  && seg_check h t l' nxt
      | None => false
      end
  end.

Definition lru_check (W : World) (l : list ptr) : bool :=
  bool_decide (NoDup l) && seg_check (heap W) NULL l NULL
  && (most_recent_target W =? default NULL (head l))
  && (least_recent_target W =? default NULL (last l))
  && forallb (fun tc : Z * PSP_TextureData =>
                bool_decide (fst tc ∈ l)
                || ((prevhotw (snd tc) =? NULL) && (nexthotw (snd tc) =? NULL)))
       (map_to_list (heap W)).

(** The textures of [l] are aligned and in video memory. *)
Definition resident_aligned (W : World) (l : list ptr) : bool :=
  forallb (fun t => match heap W !! t with
                    | Some c => InVram (data c) && aligned c
                    | None => false
                    end) l.

(** The state a call leaves, and the value it returns. *)
Definition after {A} (W : World) (m : P A) : World :=
  match m W with Some (_, W', _) => W' | None => W end.
Definition result {A} (W : World) (m : P A) : option A :=
  match m W with Some (a, _, _) => Some a | None => None end.
Definition calls {A} (W : World) (m : P A) : list GuCall :=
  match m W with Some (_, _, tr) => tr | None => [] end.

(** The structure at [t]. *)
Definition cell (W : World) (t : ptr) : PSP_TextureData :=
  default (new_texture 0 0 SDL_PIXELFORMAT_ABGR8888 SDL_TEXTUREACCESS_STATIC 0 0)
    (heap W !! t).

End Definitions.

(** *** A scenario

    The states of the examples, on the allocators of [FirstFit]. *)

Definition boot (budget : Z) : @World FirstFit.allocators :=
  @mkWorld FirstFit.allocators ∅ NULL NULL [] (budget, FirstFit.SRAM_BASE)
    (fun i => Z.of_nat i).

(** An 8x8 render target at 4096, an 8x8 streaming texture at 12288 and an
    8x16 render target at 8192, all of 32-bit pixels: 256 and 512 bytes of
    the KiB of video memory are taken. *)
Definition scene (budget : Z) : World :=
  let W := after (boot budget)
             (PSP_CreateTexture 4096 8 8 SDL_PIXELFORMAT_ABGR8888
                SDL_TEXTUREACCESS_TARGET) in
  let W := after W
             (PSP_CreateTexture 12288 8 8 SDL_PIXELFORMAT_ABGR8888
                SDL_TEXTUREACCESS_STREAMING) in
  after W (PSP_CreateTexture 8192 8 16 SDL_PIXELFORMAT_ABGR8888
             SDL_TEXTUREACCESS_TARGET).

(** Then a 16x8 render target at 16384, which needs 512 bytes. *)
Definition crowded (budget : Z) : World :=
  after (scene budget)
    (PSP_CreateTexture 16384 16 8 SDL_PIXELFORMAT_ABGR8888 SDL_TEXTUREACCESS_TARGET).

(** Then two 8x8 render targets at 20480 and 24576. *)
Definition packed (budget : Z) : World :=
  let W := after (crowded budget)
             (PSP_CreateTexture 20480 8 8 SDL_PIXELFORMAT_ABGR8888
                SDL_TEXTUREACCESS_TARGET) in
  after W (PSP_CreateTexture 24576 8 8 SDL_PIXELFORMAT_ABGR8888
             SDL_TEXTUREACCESS_TARGET).

(** *** The codec *)

Lemma load_Some m p : 0 <= p < Z.of_nat (length m) -> is_Some (load m p).
Proof.
  intros [H1 H2]. unfold load. rewrite (proj2 (Z.leb_le _ _) H1).
  apply lookup_lt_is_Some. lia.
Qed.

Lemma store_spec m p v :
  0 <= p < Z.of_nat (length m) ->
  exists m', store m p v = Some m' /\ length m' = length m /\
    load m' p = Some v /\ (forall q, q <> p -> load m' q = load m q).
Proof.
  intros [H1 H2]. unfold store.
  rewrite (proj2 (Z.leb_le _ _) H1), (proj2 (Z.ltb_lt _ _) H2). simpl.
  eexists. split; [reflexivity|]. split; [apply length_insert|]. split.
  - unfold load. rewrite (proj2 (Z.leb_le _ _) H1).
    apply list_lookup_insert_eq. lia.
  - intros q Hq. unfold load. destruct (0 <=? q) eqn:E; [|reflexivity].
    apply Z.leb_le in E. apply list_lookup_insert_ne. lia.
Qed.

Lemma copy_word_spec src s dst b :
  0 <= s < Z.of_nat (length src) -> 0 <= b < Z.of_nat (length dst) ->
  exists d', copy_word src s dst b = Some d' /\ length d' = length dst /\
    load d' b = load src s /\ (forall q, q <> b -> load d' q = load dst q).
Proof.
  intros Hs Hb. unfold copy_word.
  destruct (load_Some src s Hs) as [v Hv]. rewrite Hv. simpl.
  destruct (store_spec dst b v Hb) as (d' & H1 & H2 & H3 & H4).
  exists d'. auto.
Qed.

Lemma copy4_spec src s dst b :
  0 <= s -> s + 4 <= Z.of_nat (length src) ->
  0 <= b -> b + 4 <= Z.of_nat (length dst) ->
  exists d', copy4 src s dst b = Some d' /\ length d' = length dst /\
    (forall k, 0 <= k < 4 -> load d' (b + k) = load src (s + k)) /\
    (forall q, ~ (b <= q < b + 4) -> load d' q = load dst q).
Proof.
  intros Hs1 Hs2 Hb1 Hb2. unfold copy4.
  destruct (copy_word_spec src s dst b) as (d1 & E1 & L1 & V1 & F1); [lia..|].
  destruct (copy_word_spec src (s + 1) d1 (b + 1)) as (d2 & E2 & L2 & V2 & F2); [lia..|].
  destruct (copy_word_spec src (s + 2) d2 (b + 2)) as (d3 & E3 & L3 & V3 & F3); [lia..|].
  destruct (copy_word_spec src (s + 3) d3 (b + 3)) as (d4 & E4 & L4 & V4 & F4); [lia..|].
  exists d4. rewrite E1. simpl. rewrite E2. simpl. rewrite E3. simpl.
  split; [exact E4|]. split; [lia|]. split.
  - intros k Hk.
    assert (k = 0 \/ k = 1 \/ k = 2 \/ k = 3) as [-> | [-> | [-> | ->]]] by lia.
    + rewrite !Z.add_0_r, F4, F3, F2 by lia. exact V1.
    + rewrite F4, F3 by lia. exact V2.
    + rewrite F4 by lia. exact V3.
    + exact V4.
  - intros q Hq. rewrite F4, F3, F2, F1 by lia. reflexivity.
Qed.

Lemma mul_lt_split rb a a' i i' :
  0 <= i < rb -> 0 <= i' < rb -> rb * a + i = rb * a' + i' -> a = a' /\ i = i'.
Proof.
  intros Hi Hi' H.
  assert (a = a'); [|subst; lia].
  destruct (Z.lt_trichotomy a a') as [Hlt|[Heq|Hgt]]; [|exact Heq|]; exfalso.
  - assert (rb * (a + 1) <= rb * a') by (apply Z.mul_le_mono_nonneg_l; lia). lia.
  - assert (rb * (a' + 1) <= rb * a) by (apply Z.mul_le_mono_nonneg_l; lia). lia.
Qed.

Lemma Q_inj rb by_ jy i k by' jy' i' k' :
  0 <= i < rb -> 0 <= i' < rb -> 0 <= jy < 8 -> 0 <= jy' < 8 ->
  0 <= k < 4 -> 0 <= k' < 4 ->
  Q rb by_ jy i k = Q rb by' jy' i' k' ->
  by_ = by' /\ jy = jy' /\ i = i' /\ k = k'.
Proof.
  unfold Q. intros Hi Hi' Hj Hj' Hk Hk' H.
  assert (rb * by_ + i = rb * by' + i') as E by lia.
  apply mul_lt_split in E as [-> ->]; [|assumption..]. lia.
Qed.

Lemma L_inj rb by_ jy i k by' jy' i' k' :
  0 <= i < rb -> 0 <= i' < rb -> 0 <= jy < 8 -> 0 <= jy' < 8 ->
  0 <= k < 4 -> 0 <= k' < 4 ->
  L rb by_ jy i k = L rb by' jy' i' k' ->
  by_ = by' /\ jy = jy' /\ i = i' /\ k = k'.
Proof.
  unfold L. intros Hi Hi' Hj Hj' Hk Hk' H.
  assert ((4 * rb) * (8 * by_ + jy) + (4 * i + k)
          = (4 * rb) * (8 * by' + jy') + (4 * i' + k')) as E by lia.
  apply mul_lt_split in E as [E1 E2]; lia.
Qed.

Lemma Q_range rb hb by_ jy i :
  0 <= by_ < hb -> 0 <= i < rb -> 0 <= jy < 8 ->
  0 <= Q rb by_ jy i 0 /\ Q rb by_ jy i 0 + 4 <= 32 * rb * hb.
Proof.
  unfold Q. intros Hb Hi Hj.
  assert (rb * (by_ + 1) <= rb * hb) by (apply Z.mul_le_mono_nonneg_l; lia).
  assert (0 <= rb * by_) by (apply Z.mul_nonneg_nonneg; lia).
  lia.
Qed.

Lemma L_range rb hb by_ jy i :
  0 <= by_ < hb -> 0 <= i < rb -> 0 <= jy < 8 ->
  0 <= L rb by_ jy i 0 /\ L rb by_ jy i 0 + 4 <= 32 * rb * hb.
Proof.
  unfold L. intros Hb Hi Hj.
  assert (rb * (8 * by_ + jy + 1) <= rb * (8 * hb)) by (apply Z.mul_le_mono_nonneg_l; lia).
  assert (0 <= rb * (8 * by_ + jy)) by (apply Z.mul_nonneg_nonneg; lia).
  lia.
Qed.

(** Every word of the texture is word [k] of block [i] of a row. *)
Lemma L_surj rb hb p :
  0 < rb -> 0 <= p < 32 * rb * hb ->
  exists by_ jy i k,
    0 <= by_ < hb /\ 0 <= jy < 8 /\ 0 <= i < rb /\ 0 <= k < 4 /\ p = L rb by_ jy i k.
Proof.
  intros Hrb Hp.
  exists (p / (4 * rb) / 8), (p / (4 * rb) mod 8), (p mod (4 * rb) / 4), (p mod (4 * rb) mod 4).
  assert (Hrow : 0 <= p / (4 * rb) < 8 * hb).
  { split; [apply Z.div_pos; lia|]. apply Z.div_lt_upper_bound; lia. }
  assert (Hcol : 0 <= p mod (4 * rb) < 4 * rb) by (apply Z.mod_pos_bound; lia).
  pose proof (Z.div_mod p (4 * rb) ltac:(lia)) as Ep.
  unfold L.
  set (row := p / (4 * rb)) in *. set (col := p mod (4 * rb)) in *.
  pose proof (Z.div_mod row 8 ltac:(lia)) as Er.
  pose proof (Z.div_mod col 4 ltac:(lia)) as Ec.
  pose proof (Z.mod_pos_bound row 8 ltac:(lia)).
  pose proof (Z.mod_pos_bound col 4 ltac:(lia)).
  assert (0 <= row / 8 < hb).
  { split; [apply Z.div_pos; lia|]. apply Z.div_lt_upper_bound; lia. }
  assert (0 <= col / 4 < rb).
  { split; [apply Z.div_pos; lia|]. apply Z.div_lt_upper_bound; lia. }
  repeat split; lia.
Qed.

Section Codec.
Variables (rb hb : Z) (src : list Z).
Hypothesis Hrb : 0 < rb.
Hypothesis Hsrc : Z.of_nat (length src) = 32 * rb * hb.

Lemma swizzle_row_spec by_ jy (n : nat) :
  0 <= by_ < hb -> 0 <= jy < 8 ->
  forall i0 s dst b,
  0 <= i0 -> i0 + Z.of_nat n <= rb ->
  b = Q rb by_ jy i0 0 -> s = L rb by_ jy i0 0 ->
  Z.of_nat (length dst) = 32 * rb * hb ->
  exists d', swizzle_row n src s dst b = Some (d', s + 4 * Z.of_nat n) /\
    length d' = length dst /\
    (forall i k, i0 <= i < i0 + Z.of_nat n -> 0 <= k < 4 ->
       load d' (Q rb by_ jy i k) = load src (L rb by_ jy i k)) /\
    (forall p, (forall i k, i0 <= i < i0 + Z.of_nat n -> 0 <= k < 4 ->
                  p <> Q rb by_ jy i k) -> load d' p = load dst p).
Proof.
  intros Hby Hjy. induction n as [|n IH]; intros i0 s dst b Hi0 Hn Hb Hs Hdst.
  - exists dst. simpl. rewrite Z.add_0_r.
    split; [reflexivity|]. split; [reflexivity|]. split; [intros; lia|reflexivity].
  - pose proof (Q_range rb hb by_ jy i0 Hby ltac:(lia) Hjy) as [HQ1 HQ2].
    pose proof (L_range rb hb by_ jy i0 Hby ltac:(lia) Hjy) as [HL1 HL2].
    destruct (copy4_spec src s dst b) as (d1 & E1 & L1 & V1 & F1); [lia..|].
    destruct (IH (i0 + 1) (s + 4) d1 (b + 4 + 28)) as (d' & E & Ld & V & F);
      [lia|lia|subst b; unfold Q; lia|subst s; unfold L; lia|lia|].
    exists d'. cbn [swizzle_row]. rewrite E1. simpl. rewrite E.
    split; [replace (s + 4 * Z.of_nat (S n)) with (s + 4 + 4 * Z.of_nat n) by lia;
            reflexivity|].
    split; [lia|]. split.
    + intros i k Hi Hk. destruct (decide (i = i0)) as [->|Hne].
      * rewrite F.
        -- replace (Q rb by_ jy i0 k) with (b + k) by (subst b; unfold Q; lia).
           replace (L rb by_ jy i0 k) with (s + k) by (subst s; unfold L; lia).
           apply V1. exact Hk.
        -- intros i' k' Hi' Hk'. unfold Q. lia.
      * apply V; [lia|exact Hk].
    + intros p Hp. rewrite F.
      * apply F1. intros Hin. apply (Hp i0 (p - b)); [lia|lia|].
        subst b. unfold Q. lia.
      * intros i k Hi Hk. apply Hp; [lia|exact Hk].
Qed.

Hypothesis Hsize : 128 * rb * hb < 2^32.

Lemma land_7 by_ jy : 0 <= jy < 8 -> Z.land (8 * by_ + jy) 7 = jy.
Proof.
  intros Hjy. change 7 with (Z.ones 3). rewrite Z.land_ones by lia.
  change (2 ^ 3) with 8. rewrite Z.add_comm, Z.mul_comm, Z.mod_add by lia.
  apply Z.mod_small. exact Hjy.
Qed.

Lemma wrap_uint_small z : 0 <= z < 2^32 -> wrap_uint z = z.
Proof. intros H. unfold wrap_uint. apply Z.mod_small. exact H. Qed.

Lemma swizzle_rows_spec (n : nat) :
  forall by_ jy j s dst ba,
  0 <= by_ -> 0 <= jy < 8 -> 8 * by_ + jy + Z.of_nat n = 8 * hb ->
  j = 8 * by_ + jy -> s = L rb by_ jy 0 0 -> ba = 128 * rb * by_ + 16 * jy ->
  Z.of_nat (length dst) = 32 * rb * hb ->
  exists d', swizzle_rows n j rb ((rb - 1) * 128) src s dst ba = Some d' /\
    length d' = length dst /\
    (forall by' jy' i k, 0 <= jy' < 8 -> 8 * by_ + jy <= 8 * by' + jy' -> by' < hb ->
       0 <= i < rb -> 0 <= k < 4 ->
       load d' (Q rb by' jy' i k) = load src (L rb by' jy' i k)) /\
    (forall p, (forall by' jy' i k, 0 <= jy' < 8 -> 8 * by_ + jy <= 8 * by' + jy' ->
                  by' < hb -> 0 <= i < rb -> 0 <= k < 4 -> p <> Q rb by' jy' i k) ->
       load d' p = load dst p).
Proof.
  induction n as [|n IH]; intros by_ jy j s dst ba Hby Hjy Hn Hj Hs Hba Hdst.
  - exists dst. split; [reflexivity|]. split; [reflexivity|].
    split; [intros; lia|reflexivity].
  - assert (Hbyhb : by_ < hb) by lia.
    assert (Hmono : rb * (by_ + 1) <= rb * hb) by (apply Z.mul_le_mono_nonneg_l; lia).
    assert (Hpos : 0 <= rb * by_) by (apply Z.mul_nonneg_nonneg; lia).
    destruct (swizzle_row_spec by_ jy (Z.to_nat rb) ltac:(lia) Hjy 0 s dst (ba / 4))
      as (d1 & E1 & L1 & V1 & F1); [lia|lia| |exact Hs|exact Hdst|].
    { subst ba. unfold Q.
      replace (128 * rb * by_ + 16 * jy) with ((32 * (rb * by_ + 0) + 4 * jy + 0) * 4) by lia.
      apply Z.div_mul. lia. }
    rewrite Z2Nat.id in E1, V1, F1 by lia.
    set (ba' := if Z.land j 7 =? 7 then wrap_uint (ba + (rb - 1) * 128) else ba).
    assert (Hnext : exists by2 jy2,
              0 <= by2 /\ 0 <= jy2 < 8 /\ 8 * by2 + jy2 = 8 * by_ + jy + 1 /\
              wrap_uint (ba' + 16) = 128 * rb * by2 + 16 * jy2).
    { unfold ba'. subst j. rewrite land_7 by exact Hjy.
      destruct (jy =? 7) eqn:E7.
      - apply Z.eqb_eq in E7. subst jy. exists (by_ + 1), 0.
        rewrite !wrap_uint_small; [lia| |]; subst ba; try rewrite wrap_uint_small; lia.
      - apply Z.eqb_neq in E7. exists by_, (jy + 1).
        rewrite wrap_uint_small; subst ba; lia. }
    destruct Hnext as (by2 & jy2 & Hby2 & Hjy2 & Hrow2 & Hba2).
    destruct (IH by2 jy2 (j + 1) (s + 4 * rb) d1 (wrap_uint (ba' + 16)))
      as (d' & E & Ld & V & F); [lia|lia|lia|lia| |exact Hba2|lia|].
    { subst s. unfold L. nia. }
    exists d'. cbn [swizzle_rows]. rewrite E1. simpl. fold ba'. rewrite E.
    split; [reflexivity|]. split; [lia|]. split.
    + intros by' jy' i k Hjy' Hge Hby' Hi Hk.
      destruct (decide (8 * by' + jy' = 8 * by_ + jy)) as [Heq|Hne].
      * assert (by' = by_ /\ jy' = jy) as [-> ->] by lia.
        rewrite F; [apply V1; lia|].
        intros by3 jy3 i3 k3 Hjy3 Hge3 Hby3 Hi3 Hk3 HQ.
        apply Q_inj in HQ; lia.
      * apply V; try assumption. lia.
    + intros p Hp. rewrite F.
      * apply F1. intros i k Hi Hk. apply Hp; try assumption; lia.
      * intros by3 jy3 i3 k3 Hjy3 Hge3 Hby3 Hi3 Hk3. apply Hp; try assumption. lia.
Qed.

Lemma unswizzle_block_spec by_ bx (n : nat) :
  0 <= by_ < hb -> 0 <= bx < rb ->
  forall j0 s dst block,
  0 <= j0 -> j0 + Z.of_nat n <= 8 ->
  block = L rb by_ j0 bx 0 -> s = Q rb by_ j0 bx 0 ->
  Z.of_nat (length dst) = 32 * rb * hb ->
  exists d', unswizzle_block n (4 * rb - 4) src s dst block
             = Some (d', s + 4 * Z.of_nat n) /\
    length d' = length dst /\
    (forall j k, j0 <= j < j0 + Z.of_nat n -> 0 <= k < 4 ->
       load d' (L rb by_ j bx k) = load src (Q rb by_ j bx k)) /\
    (forall p, (forall j k, j0 <= j < j0 + Z.of_nat n -> 0 <= k < 4 ->
                  p <> L rb by_ j bx k) -> load d' p = load dst p).
Proof.
  intros Hby Hbx. induction n as [|n IH]; intros j0 s dst block Hj0 Hn Hb Hs Hdst.
  - exists dst. simpl. rewrite Z.add_0_r.
    split; [reflexivity|]. split; [reflexivity|]. split; [intros; lia|reflexivity].
  - pose proof (Q_range rb hb by_ j0 bx Hby Hbx ltac:(lia)) as [HQ1 HQ2].
    pose proof (L_range rb hb by_ j0 bx Hby Hbx ltac:(lia)) as [HL1 HL2].
    destruct (copy4_spec src s dst block) as (d1 & E1 & L1 & V1 & F1); [lia..|].
    destruct (IH (j0 + 1) (s + 4) d1 (block + 4 + (4 * rb - 4))) as (d' & E & Ld & V & F);
      [lia|lia|subst block; unfold L; lia|subst s; unfold Q; lia|lia|].
    exists d'. cbn [unswizzle_block]. rewrite E1. simpl. rewrite E.
    split; [replace (s + 4 * Z.of_nat (S n)) with (s + 4 + 4 * Z.of_nat n) by lia;
            reflexivity|].
    split; [lia|]. split.
    + intros j k Hj Hk. destruct (decide (j = j0)) as [->|Hne].
      * rewrite F.
        -- replace (L rb by_ j0 bx k) with (block + k) by (subst block; unfold L; lia).
           replace (Q rb by_ j0 bx k) with (s + k) by (subst s; unfold Q; lia).
           apply V1. exact Hk.
        -- intros j' k' Hj' Hk' HL. apply L_inj in HL; lia.
      * apply V; [lia|exact Hk].
    + intros p Hp. rewrite F.
      * apply F1. intros Hin. apply (Hp j0 (p - block)); [lia|lia|].
        subst block. unfold L. lia.
      * intros j k Hj Hk. apply Hp; [lia|exact Hk].
Qed.

Lemma unswizzle_blockrow_spec by_ (n : nat) :
  0 <= by_ < hb ->
  forall bx0 s dst xdst,
  0 <= bx0 -> bx0 + Z.of_nat n <= rb ->
  xdst = 4 * L rb by_ 0 bx0 0 -> s = Q rb by_ 0 bx0 0 ->
  Z.of_nat (length dst) = 32 * rb * hb ->
  exists d', unswizzle_blockrow n (4 * rb - 4) src s dst xdst
             = Some (d', s + 32 * Z.of_nat n) /\
    length d' = length dst /\
    (forall bx j k, bx0 <= bx < bx0 + Z.of_nat n -> 0 <= j < 8 -> 0 <= k < 4 ->
       load d' (L rb by_ j bx k) = load src (Q rb by_ j bx k)) /\
    (forall p, (forall bx j k, bx0 <= bx < bx0 + Z.of_nat n -> 0 <= j < 8 ->
                  0 <= k < 4 -> p <> L rb by_ j bx k) -> load d' p = load dst p).
Proof.
  intros Hby. induction n as [|n IH]; intros bx0 s dst xdst Hbx0 Hn Hx Hs Hdst.
  - exists dst. simpl. rewrite Z.add_0_r.
    split; [reflexivity|]. split; [reflexivity|]. split; [intros; lia|reflexivity].
  - destruct (unswizzle_block_spec by_ bx0 8 Hby ltac:(lia) 0 s dst (xdst / 4))
      as (d1 & E1 & L1 & V1 & F1); [lia|lia| |exact Hs|exact Hdst|].
    { subst xdst. rewrite Z.mul_comm. apply Z.div_mul. lia. }
    change (Z.of_nat 8) with 8 in *.
    destruct (IH (bx0 + 1) (s + 4 * 8) d1 (xdst + 16)) as (d' & E & Ld & V & F);
      [lia|lia|subst xdst; unfold L; lia|subst s; unfold Q; lia|lia|].
    exists d'. cbn [unswizzle_blockrow]. rewrite E1. simpl. rewrite E.
    split; [replace (s + 32 * Z.of_nat (S n)) with (s + 4 * 8 + 32 * Z.of_nat n) by lia;
            reflexivity|].
    split; [lia|]. split.
    + intros bx j k Hbx Hj Hk. destruct (decide (bx = bx0)) as [->|Hne].
      * rewrite F; [apply V1; lia|].
        intros bx' j' k' Hbx' Hj' Hk' HL. apply L_inj in HL; lia.
      * apply V; [lia|exact Hj|exact Hk].
    + intros p Hp. rewrite F.
      * apply F1. intros j k Hj Hk. apply Hp; lia.
      * intros bx j k Hbx Hj Hk. apply Hp; lia.
Qed.

Lemma unswizzle_rows_spec (n : nat) :
  forall by0 s dst ydst,
  0 <= by0 -> by0 + Z.of_nat n <= hb ->
  ydst = 4 * L rb by0 0 0 0 -> s = Q rb by0 0 0 0 ->
  Z.of_nat (length dst) = 32 * rb * hb ->
  exists d', unswizzle_rows n rb (4 * rb - 4) (128 * rb) src s dst ydst = Some d' /\
    length d' = length dst /\
    (forall by_ bx j k, by0 <= by_ < by0 + Z.of_nat n -> 0 <= bx < rb -> 0 <= j < 8 ->
       0 <= k < 4 -> load d' (L rb by_ j bx k) = load src (Q rb by_ j bx k)) /\
    (forall p, (forall by_ bx j k, by0 <= by_ < by0 + Z.of_nat n -> 0 <= bx < rb ->
                  0 <= j < 8 -> 0 <= k < 4 -> p <> L rb by_ j bx k) ->
       load d' p = load dst p).
Proof.
  induction n as [|n IH]; intros by0 s dst ydst Hby0 Hn Hy Hs Hdst.
  - exists dst. split; [reflexivity|]. split; [reflexivity|].
    split; [intros; lia|reflexivity].
  - destruct (unswizzle_blockrow_spec by0 (Z.to_nat rb) ltac:(lia) 0 s dst ydst)
      as (d1 & E1 & L1 & V1 & F1); [lia|lia|exact Hy|exact Hs|exact Hdst|].
    rewrite Z2Nat.id in E1, V1, F1 by lia.
    destruct (IH (by0 + 1) (s + 32 * rb) d1 (ydst + 128 * rb)) as (d' & E & Ld & V & F);
      [lia|lia|subst ydst; unfold L; lia|subst s; unfold Q; lia|lia|].
    exists d'. cbn [unswizzle_rows]. rewrite E1. simpl. rewrite E.
    split; [reflexivity|]. split; [lia|]. split.
    + intros by_ bx j k Hby Hbx Hj Hk. destruct (decide (by_ = by0)) as [->|Hne].
      * rewrite F; [apply V1; lia|].
        intros by' bx' j' k' Hby' Hbx' Hj' Hk' HL. apply L_inj in HL; lia.
      * apply V; [lia|exact Hbx|exact Hj|exact Hk].
    + intros p Hp. rewrite F.
      * apply F1. intros bx j k Hbx Hj Hk. apply Hp; lia.
      * intros by_ bx j k Hby Hbx Hj Hk. apply Hp; lia.
Qed.

End Codec.

Lemma wrap_int_small z : - 2^31 <= z < 2^31 -> wrap_int z = z.
Proof. intros H. unfold wrap_int. rewrite Z.mod_small by lia. lia. Qed.

Lemma load_ext (a b : list Z) :
  length a = length b ->
  (forall p, 0 <= p < Z.of_nat (length a) -> load a p = load b p) -> a = b.
Proof.
  intros Hlen H. apply list_eq. intros i.
  destruct (decide (i < length a)%nat) as [Hi|Hi].
  - specialize (H (Z.of_nat i) ltac:(lia)). unfold load in H.
    rewrite (proj2 (Z.leb_le 0 (Z.of_nat i)) ltac:(lia)), Nat2Z.id in H. exact H.
  - rewrite !lookup_ge_None_2 by lia. reflexivity.
Qed.

(** The two loops on a texture of [rb] 16-byte blocks per row and [hb]
    groups of 8 rows: the swizzled buffer holds word [L] of the source at
    index [Q], and unswizzling it gives the source back. *)
Lemma swizzle_pixels_spec rb hb (src dst : list Z) :
  0 < rb -> 0 <= hb -> 128 * rb < 2^31 -> 128 * rb * hb < 2^32 ->
  Z.of_nat (length src) = 32 * rb * hb ->
  Z.of_nat (length dst) = 32 * rb * hb ->
  exists mid, swizzle_pixels (16 * rb) (8 * hb) src dst = Some mid /\
    length mid = length dst /\
    forall by_ jy i k, 0 <= by_ < hb -> 0 <= jy < 8 -> 0 <= i < rb -> 0 <= k < 4 ->
      load mid (Q rb by_ jy i k) = load src (L rb by_ jy i k).
Proof.
  intros Hrb Hhb Hrow Hsize Hsrc Hdst. unfold swizzle_pixels.
  replace (Z.shiftr (16 * rb) 4) with rb.
  2:{ rewrite Z.shiftr_div_pow2 by lia. change (2 ^ 4) with 16.
      rewrite Z.mul_comm, Z.div_mul by lia. reflexivity. }
  replace (wrap_int (Z.shiftl (rb - 1) 7)) with ((rb - 1) * 128).
  2:{ rewrite Z.shiftl_mul_pow2 by lia. change (2 ^ 7) with 128.
      rewrite wrap_int_small by lia. reflexivity. }
  destruct (swizzle_rows_spec rb hb src Hrb Hsrc Hsize (Z.to_nat (8 * hb))
              0 0 0 0 dst 0) as (mid & E & Lm & V & _);
    [lia|lia|lia|lia|unfold L; lia|lia|exact Hdst|].
  exists mid. split; [exact E|]. split; [exact Lm|].
  intros by_ jy i k Hby Hjy Hi Hk. apply V; lia.
Qed.

Lemma unswizzle_pixels_spec rb hb (src dst : list Z) :
  0 < rb -> 0 <= hb -> 128 * rb < 2^31 ->
  Z.of_nat (length src) = 32 * rb * hb ->
  Z.of_nat (length dst) = 32 * rb * hb ->
  exists out, unswizzle_pixels (16 * rb) (8 * hb) src dst = Some out /\
    length out = length dst /\
    forall by_ jy i k, 0 <= by_ < hb -> 0 <= jy < 8 -> 0 <= i < rb -> 0 <= k < 4 ->
      load out (L rb by_ jy i k) = load src (Q rb by_ jy i k).
Proof.
  intros Hrb Hhb Hrow Hsrc Hdst. unfold unswizzle_pixels.
  replace (Z.quot (16 * rb) 16) with rb
    by (rewrite Z.mul_comm, Z.quot_mul by lia; reflexivity).
  replace (Z.quot (8 * hb) 8) with hb
    by (rewrite Z.mul_comm, Z.quot_mul by lia; reflexivity).
  replace (Z.quot (16 * rb - 16) 4) with (4 * rb - 4).
  2:{ replace (16 * rb - 16) with ((4 * rb - 4) * 4) by lia.
      rewrite Z.quot_mul by lia. reflexivity. }
  replace (wrap_int (16 * rb * 8)) with (128 * rb) by (rewrite wrap_int_small; lia).
  destruct (unswizzle_rows_spec rb hb src Hrb Hsrc (Z.to_nat hb) 0 0 dst 0)
    as (out & E & Lo & V & _);
    [lia|lia|unfold L; lia|unfold Q; lia|exact Hdst|].
  exists out. split; [exact E|]. split; [exact Lo|].
  intros by_ jy i k Hby Hjy Hi Hk. apply V; lia.
Qed.

Lemma swizzle_unswizzle_pixels rb hb (src junk1 junk2 : list Z) :
  0 < rb -> 0 <= hb -> 128 * rb < 2^31 -> 128 * rb * hb < 2^32 ->
  Z.of_nat (length src) = 32 * rb * hb ->
  Z.of_nat (length junk1) = 32 * rb * hb ->
  Z.of_nat (length junk2) = 32 * rb * hb ->
  exists mid, swizzle_pixels (16 * rb) (8 * hb) src junk1 = Some mid /\
    length mid = length src /\
    unswizzle_pixels (16 * rb) (8 * hb) mid junk2 = Some src.
Proof.
  intros Hrb Hhb Hrow Hsize Hsrc Hj1 Hj2.
  destruct (swizzle_pixels_spec rb hb src junk1) as (mid & E1 & L1 & V1); try assumption.
  destruct (unswizzle_pixels_spec rb hb mid junk2) as (out & E2 & L2 & V2);
    try assumption; [lia|].
  exists mid. split; [exact E1|]. split; [lia|]. rewrite E2. f_equal.
  apply load_ext; [lia|].
  intros p Hp.
  destruct (L_surj rb hb p Hrb ltac:(lia)) as (by_ & jy & i & k & Hby & Hjy & Hi & Hk & ->).
  rewrite V2, V1 by assumption. reflexivity.
Qed.

Lemma aligned_spec c :
  aligned c = true ->
  exists rb hb, 0 < rb /\ 0 <= hb /\ 128 * rb < 2^31 /\ 128 * rb * hb < 2^32 /\
    codec_dims c = Some (16 * rb, 8 * hb) /\ size c = 128 * rb * hb /\
    Z.of_nat (length (pixels c)) = 32 * rb * hb.
Proof.
  unfold aligned.
  set (rb := textureWidth c * Z.shiftr (bits c) 3 / 16).
  set (hb := size c / (128 * rb)).
  rewrite !andb_true_iff.
  intros ((((((H1 & H2) & H3) & H4) & H5) & H6) & H7).
  apply Z.ltb_lt in H1, H3, H4. apply Z.leb_le in H2. apply Z.eqb_eq in H5, H6, H7.
  exists rb, hb. repeat (split; [assumption|]). split; [|split; assumption].
  unfold codec_dims. rewrite H5.
  rewrite (wrap_uint_small (16 * rb)) by lia.
  rewrite (wrap_int_small (16 * rb)) by lia.
  rewrite (wrap_uint_small (16 * rb)) by lia.
  destruct (16 * rb =? 0) eqn:E; [apply Z.eqb_eq in E; lia|].
  rewrite H6. replace (128 * rb * hb) with (8 * hb * (16 * rb)) by lia.
  rewrite Z.div_mul by lia. rewrite wrap_int_small by nia. reflexivity.
Qed.

(** *** The list and the residency manager *)

Section Residency.
Context `{Alloc : Allocators}.

Local Open Scope m_scope.

Lemma head_app_default {A} (l1 l2 : list A) d :
  default d (head (l1 ++ l2)) = default (default d (head l2)) (head l1).
Proof. destruct l1; reflexivity. Qed.

Lemma last_cons_default {A} (t : A) (l : list A) d :
  default d (last (t :: l)) = default t (last l).
Proof.
  destruct l as [|t' l]; [reflexivity|]. rewrite last_cons_cons.
  destruct (last (t' :: l)) eqn:E; [reflexivity|].
  apply last_None in E. discriminate.
Qed.

Lemma seg_app h prev l1 l2 nxt :
  seg h prev (l1 ++ l2) nxt <->
  seg h prev l1 (default nxt (head l2)) /\ seg h (default prev (last l1)) l2 nxt.
Proof.
  revert prev. induction l1 as [|t l1 IH]; intros prev.
  - simpl. tauto.
  - cbn [app seg]. rewrite last_cons_default, head_app_default. split.
    + intros (Ht & c & Hc & Hp & Hn & H). apply IH in H as [H1 H2].
      split; [|exact H2]. split; [exact Ht|]. exists c. auto.
    + intros ((Ht & c & Hc & Hp & Hn & H1) & H2).
      split; [exact Ht|]. exists c. repeat split; try assumption.
      apply IH. split; assumption.
Qed.

(** [seg] looks at the links of the textures of the list only. *)
Lemma seg_frame h h' prev l nxt :
  (forall t, t ∈ l -> exists c c', h !! t = Some c /\ h' !! t = Some c'
                      /\ prevhotw c' = prevhotw c /\ nexthotw c' = nexthotw c) ->
  seg h prev l nxt -> seg h' prev l nxt.
Proof.
  revert prev. induction l as [|t l IH]; intros prev Hf; [exact id|].
  cbn [seg]. intros (Ht & c & Hc & Hp & Hn & H).
  split; [exact Ht|].
  destruct (Hf t) as (c0 & c' & Hc0 & Hc' & Ep & En); [left|].
  rewrite Hc in Hc0. injection Hc0 as <-.
  exists c'. repeat split; try congruence.
  apply IH; [|exact H]. intros t' Ht'. apply Hf. right. exact Ht'.
Qed.

Lemma seg_elem h prev l nxt x :
  seg h prev l nxt -> x ∈ l -> x <> NULL /\ is_Some (h !! x).
Proof.
  revert prev. induction l as [|t l IH]; intros prev Hs Hx.
  - apply elem_of_nil in Hx. contradiction.
  - cbn [seg] in Hs. destruct Hs as (Ht & c & Hc & _ & _ & H).
    apply elem_of_cons in Hx as [->|Hx]; [split; [exact Ht|eauto]|].
    eapply IH; eassumption.
Qed.

(** Redirecting the [nexthotw] of the last texture of a segment. *)
Lemma seg_retarget h h' prev l nxt nxt' :
  NoDup l -> seg h prev l nxt ->
  (forall x, x ∈ l -> exists c c', h !! x = Some c /\ h' !! x = Some c'
      /\ prevhotw c' = prevhotw c
      /\ nexthotw c' = if decide (last l = Some x) then nxt' else nexthotw c) ->
  seg h' prev l nxt'.
Proof.
  revert prev. induction l as [|t l IH]; intros prev Hnd Hs Hf; [exact I|].
  cbn [seg] in *. destruct Hs as (Ht & c & Hc & Hp & Hn & H).
  apply NoDup_cons in Hnd as [Htl Hnd].
  split; [exact Ht|].
  destruct (Hf t) as (c0 & c' & Hc0 & Hc' & Ep & En); [left|].
  rewrite Hc in Hc0. injection Hc0 as <-.
  exists c'. split; [exact Hc'|]. split; [congruence|]. split.
  - rewrite En. destruct l as [|t' l].
    + rewrite decide_True by reflexivity. reflexivity.
    + rewrite last_cons_cons. rewrite decide_False; [exact Hn|].
      intros E. apply last_Some_elem_of in E. contradiction.
  - apply IH; [exact Hnd|exact H|].
    intros x Hx. destruct (Hf x) as (cx & cx' & ? & ? & ? & Enx); [right; exact Hx|].
    exists cx, cx'. repeat split; try assumption.
    rewrite Enx. destruct l as [|t' l]; [apply elem_of_nil in Hx; contradiction|].
    rewrite last_cons_cons. reflexivity.
Qed.

(** Redirecting the [prevhotw] of the first texture of a segment. *)
Lemma seg_reprev h h' prev prev' l nxt :
  NoDup l -> seg h prev l nxt ->
  (forall x, x ∈ l -> exists c c', h !! x = Some c /\ h' !! x = Some c'
      /\ nexthotw c' = nexthotw c
      /\ prevhotw c' = if decide (head l = Some x) then prev' else prevhotw c) ->
  seg h' prev' l nxt.
Proof.
  intros Hnd Hs Hf. destruct l as [|t l]; [exact I|].
  cbn [seg] in *. destruct Hs as (Ht & c & Hc & Hp & Hn & H).
  apply NoDup_cons in Hnd as [Htl Hnd].
  split; [exact Ht|].
  destruct (Hf t) as (c0 & c' & Hc0 & Hc' & En & Ep); [left|].
  rewrite Hc in Hc0. injection Hc0 as <-.
  exists c'. split; [exact Hc'|]. split.
  { rewrite Ep. simpl. rewrite decide_True by reflexivity. reflexivity. }
  split; [congruence|].
  eapply seg_frame; [|exact H].
  intros x Hx. destruct (Hf x) as (cx & cx' & ? & ? & ? & Epx); [right; exact Hx|].
  exists cx, cx'. repeat split; try assumption.
  rewrite Epx. simpl. rewrite decide_False; [reflexivity|].
  intros [= ->]. contradiction.
Qed.

Lemma deref_eq W p c : heap W !! p = Some c -> deref p W = Some (c, W, []).
Proof. unfold deref. intros ->. reflexivity. Qed.

Lemma assign_eq W p f c :
  heap W !! p = Some c ->
  assign p f W = Some (tt, set_heap (<[p := f c]> (heap W)) W, []).
Proof. intros H. unfold assign, bind, modify. rewrite (deref_eq _ _ _ H). reflexivity. Qed.

Lemma relinked_refl W : relinked W W.
Proof. repeat split. Qed.

Lemma relinked_trans W1 W2 W3 : relinked W1 W2 -> relinked W2 W3 -> relinked W1 W3.
Proof.
  intros (Ha & Hb & Hc & Hx) (Ha' & Hb' & Hc' & Hx').
  split; [congruence|]. split; [congruence|]. split; [congruence|].
  intros x. rewrite Hx'. apply Hx.
Qed.

Lemma when_assign_eq W (b : bool) p f c :
  (b = true -> heap W !! p = Some c) ->
  when b (assign p f) W
  = Some (tt, if b then set_heap (<[p := f c]> (heap W)) W else W, []).
Proof.
  destruct b; simpl; intros H; [apply assign_eq; auto|reflexivity].
Qed.

Lemma unlinked_set_next n c : unlinked (set_nexthotw n c) = unlinked c.
Proof. reflexivity. Qed.
Lemma unlinked_set_prev n c : unlinked (set_prevhotw n c) = unlinked c.
Proof. reflexivity. Qed.

Lemma set_links_id c :
  prevhotw c = NULL -> nexthotw c = NULL ->
  set_nexthotw NULL (set_prevhotw NULL c) = c.
Proof. destruct c; simpl; intros -> ->; reflexivity. Qed.

Lemma default_last_in {A} (l : list A) d x :
  x ∈ l -> default d (last l) ∈ l.
Proof.
  intros Hx. destruct (last l) eqn:E.
  - apply last_Some_elem_of in E. exact E.
  - apply last_None in E. subst. apply elem_of_nil in Hx. contradiction.
Qed.

Lemma default_head_in {A} (l : list A) d x :
  x ∈ l -> default d (head l) ∈ l.
Proof. destruct l; [intros H; apply elem_of_nil in H; contradiction|left]. Qed.

Lemma LRUTargetRemove_eval W t c cp cn :
  heap W !! t = Some c ->
  (prevhotw c <> NULL -> heap W !! prevhotw c = Some cp /\ prevhotw c <> t) ->
  (nexthotw c <> NULL ->
   heap W !! nexthotw c = Some cn /\ nexthotw c <> t /\ nexthotw c <> prevhotw c) ->
  LRUTargetRemove t W = Some (tt, removed W t c cp cn, []).
Proof.
  intros Hc Hp Hn.
  unfold LRUTargetRemove, LRUTargetRelink, removed, bind, deref, assign, bind, deref,
    when, modify, get, ret.
  rewrite Hc.
  destruct (prevhotw c =? NULL) eqn:Ep; simpl.
  - rewrite Hc. destruct (nexthotw c =? NULL) eqn:En; simpl.
    + rewrite Hc. simpl.
      destruct (most_recent_target W =? t), (least_recent_target W =? t); simpl;
        rewrite ?Hc; simpl; rewrite ?lookup_insert_eq; simpl;
        rewrite ?insert_insert_eq; reflexivity.
    + apply Z.eqb_neq in En. destruct (Hn En) as (Hcn & Hnt & Hnp).
      rewrite Hcn. simpl. rewrite lookup_insert_ne by exact Hnt. rewrite Hc. simpl.
      destruct (most_recent_target W =? t), (least_recent_target W =? t); simpl;
        rewrite ?lookup_insert_ne by exact Hnt; rewrite ?Hc; simpl;
        rewrite ?lookup_insert_eq; simpl;
        rewrite ?insert_insert_eq; reflexivity.
  - apply Z.eqb_neq in Ep. destruct (Hp Ep) as (Hcp & Hpt).
    rewrite Hcp. simpl. rewrite lookup_insert_ne by exact Hpt. rewrite Hc.
    destruct (nexthotw c =? NULL) eqn:En; simpl.
    + rewrite lookup_insert_ne by exact Hpt. rewrite Hc. simpl.
      destruct (most_recent_target W =? t), (least_recent_target W =? t); simpl;
        rewrite ?lookup_insert_ne by exact Hpt; rewrite ?Hc; simpl;
        rewrite ?lookup_insert_eq; simpl;
        rewrite ?insert_insert_eq; reflexivity.
    + apply Z.eqb_neq in En. destruct (Hn En) as (Hcn & Hnt & Hnp).
      rewrite lookup_insert_ne by (intros E; apply Hnp; symmetry; exact E).
      rewrite Hcn. simpl.
      rewrite lookup_insert_ne by exact Hnt.
      rewrite lookup_insert_ne by exact Hpt. rewrite Hc. simpl.
      destruct (most_recent_target W =? t), (least_recent_target W =? t); simpl;
        rewrite ?(lookup_insert_ne _ (nexthotw c) t) by exact Hnt;
        rewrite ?(lookup_insert_ne _ (prevhotw c) t) by exact Hpt;
        rewrite ?Hc; simpl;
        rewrite ?lookup_insert_eq; simpl;
        rewrite ?insert_insert_eq; reflexivity.
Qed.

Lemma removed_lookup W t c cp cn x :
  heap (removed W t c cp cn) !! x =
  if decide (x = t) then Some (set_nexthotw NULL (set_prevhotw NULL c))
  else if decide (x = nexthotw c /\ nexthotw c <> NULL)
       then Some (set_prevhotw (prevhotw c) cn)
  else if decide (x = prevhotw c /\ prevhotw c <> NULL)
       then Some (set_nexthotw (nexthotw c) cp)
  else heap W !! x.
Proof.
  unfold removed. cbn [heap].
  destruct (decide (x = t)) as [->|Hxt]; [apply lookup_insert_eq|].
  rewrite lookup_insert_ne by congruence.
  destruct (decide (x = nexthotw c /\ nexthotw c <> NULL)) as [[-> Hn]|Hxn].
  - apply Z.eqb_neq in Hn. rewrite Hn. simpl. apply lookup_insert_eq.
  - destruct (nexthotw c =? NULL) eqn:En; simpl.
    + destruct (decide (x = prevhotw c /\ prevhotw c <> NULL)) as [[-> Hp]|Hxp].
      * apply Z.eqb_neq in Hp. rewrite Hp. simpl. apply lookup_insert_eq.
      * destruct (prevhotw c =? NULL) eqn:Ep; simpl; [reflexivity|].
        apply Z.eqb_neq in Ep. rewrite lookup_insert_ne; [reflexivity|].
        intros E. apply Hxp. split; [symmetry; exact E|exact Ep].
    + apply Z.eqb_neq in En.
      rewrite lookup_insert_ne
        by (intros E; apply Hxn; split; [symmetry; exact E|exact En]).
      destruct (decide (x = prevhotw c /\ prevhotw c <> NULL)) as [[-> Hp]|Hxp].
      * apply Z.eqb_neq in Hp. rewrite Hp. simpl. apply lookup_insert_eq.
      * destruct (prevhotw c =? NULL) eqn:Ep; simpl; [reflexivity|].
        apply Z.eqb_neq in Ep. rewrite lookup_insert_ne; [reflexivity|].
        intros E. apply Hxp. split; [symmetry; exact E|exact Ep].
Qed.

Lemma NoDup_mid {A} (l1 l2 : list A) t :
  NoDup (l1 ++ t :: l2) ->
  NoDup (l1 ++ l2) /\ (t ∉ l1) /\ (t ∉ l2) /\ (forall x, x ∈ l1 -> x ∉ l2).
Proof.
  intros H. apply NoDup_app in H as (H1 & H12 & H2).
  apply NoDup_cons in H2 as [Ht2 H2].
  split; [|split; [|split]].
  - apply NoDup_app. split; [exact H1|]. split; [|exact H2].
    intros x Hx Hx2. apply (H12 x Hx). right. exact Hx2.
  - intros Ht. apply (H12 t Ht). left.
  - exact Ht2.
  - intros x Hx Hx2. apply (H12 x Hx). right. exact Hx2.
Qed.

Lemma LRUTargetRemove_in W l1 t l2 :
  lru_list W (l1 ++ t :: l2) ->
  exists W', LRUTargetRemove t W = Some (tt, W', []) /\
    lru_list W' (l1 ++ l2) /\ relinked W W'.
Proof.
  intros (Hnd & Hseg & Hmru & Hlru & Hout).
  apply NoDup_mid in Hnd as (Hnd & Ht1 & Ht2 & H12).
  apply seg_app in Hseg as [Hs1 Hs2]. cbn [head default] in Hs1.
  cbn [seg] in Hs2. destruct Hs2 as (Htn & c & Hc & Hp & Hn & Hs2).
  set (p := default NULL (last l1)) in *.
  set (n := default NULL (head l2)) in *.
  assert (Hp1 : p <> NULL -> p ∈ l1).
  { unfold p. destruct (last l1) eqn:E; simpl; [|congruence].
    intros _. apply last_Some_elem_of in E. exact E. }
  assert (Hn2 : n <> NULL -> n ∈ l2).
  { unfold n. destruct l2; simpl; [congruence|]. intros _. left. }
  assert (Hl1 : forall x, x ∈ l1 -> x <> NULL /\ is_Some (heap W !! x))
    by (intros x; apply (seg_elem _ _ _ _ _ Hs1)).
  assert (Hl2 : forall x, x ∈ l2 -> x <> NULL /\ is_Some (heap W !! x))
    by (intros x; apply (seg_elem _ _ _ _ _ Hs2)).
  set (cp := default c (heap W !! p)).
  set (cn := default c (heap W !! n)).
  assert (Hcp : p <> NULL -> heap W !! p = Some cp).
  { intros H. destruct (Hl1 p (Hp1 H)) as [_ [v Hv]]. unfold cp. rewrite Hv. reflexivity. }
  assert (Hcn : n <> NULL -> heap W !! n = Some cn).
  { intros H. destruct (Hl2 n (Hn2 H)) as [_ [v Hv]]. unfold cn. rewrite Hv. reflexivity. }
  exists (removed W t c cp cn). split.
  { apply LRUTargetRemove_eval; [exact Hc| |].
    - rewrite Hp. intros H. split; [auto|]. intros E. apply Ht1. rewrite <- E. auto.
    - rewrite Hn, Hp. intros H. split; [auto|]. split.
      + intros E. apply Ht2. rewrite <- E. auto.
      + intros E. destruct (decide (p = NULL)) as [E0|E0]; [congruence|].
        apply (H12 p (Hp1 E0)). rewrite <- E. auto. }
  assert (Hlook : forall x : Z, heap (removed W t c cp cn) !! x =
            if decide (x = t) then Some (set_nexthotw NULL (set_prevhotw NULL c))
            else if decide (x = n /\ n <> NULL) then Some (set_prevhotw p cn)
            else if decide (x = p /\ p <> NULL) then Some (set_nexthotw n cp)
            else heap W !! x).
  { intros x. rewrite removed_lookup, Hp, Hn. reflexivity. }
  split; [|].
  - split; [exact Hnd|]. split; [|split; [|split]].
    + apply seg_app. split.
      * fold n. eapply (seg_retarget _ _ _ _ t n); [|exact Hs1|].
        { apply NoDup_app in Hnd as [H _]. exact H. }
        intros x Hx. destruct (Hl1 x Hx) as [Hx0 [cx Hcx]].
        rewrite Hlook.
        rewrite decide_False by (intros ->; contradiction).
        rewrite decide_False by (intros [-> Hn0]; apply (H12 n Hx); auto).
        destruct (decide ((x : Z) = p /\ p <> NULL)) as [[-> Hp0]|Hxp].
        -- exists cp, (set_nexthotw n cp). rewrite (Hcp Hp0).
           split; [reflexivity|]. split; [reflexivity|]. split; [reflexivity|].
           simpl. rewrite decide_True; [reflexivity|].
           unfold p in *. destruct (last l1); [reflexivity|contradiction].
        -- exists cx, cx.
           split; [exact Hcx|]. split; [exact Hcx|]. split; [reflexivity|].
           rewrite decide_False; [reflexivity|]. intros E. apply Hxp.
           unfold p. rewrite E. simpl. split; [reflexivity|exact Hx0].
      * fold p. eapply (seg_reprev _ _ t p); [|exact Hs2|].
        { apply NoDup_app in Hnd as (_ & _ & H). exact H. }
        intros x Hx. destruct (Hl2 x Hx) as [Hx0 [cx Hcx]].
        rewrite Hlook.
        rewrite decide_False by (intros ->; contradiction).
        destruct (decide ((x : Z) = n /\ n <> NULL)) as [[-> Hn0]|Hxn].
        -- exists cn, (set_prevhotw p cn). rewrite (Hcn Hn0).
           split; [reflexivity|]. split; [reflexivity|]. split; [reflexivity|].
           simpl. rewrite decide_True; [reflexivity|].
           unfold n in *. destruct l2; [contradiction|reflexivity].
        -- rewrite decide_False
             by (intros [-> Hp0]; apply (H12 p (Hp1 Hp0)); exact Hx).
           exists cx, cx.
           split; [exact Hcx|]. split; [exact Hcx|]. split; [reflexivity|].
           rewrite decide_False; [reflexivity|]. intros E. apply Hxn.
           unfold n. rewrite E. simpl. split; [reflexivity|exact Hx0].
    + unfold removed. cbn [most_recent_target]. rewrite Hmru, Hn.
      destruct l1 as [|a l1]; simpl.
      * rewrite Z.eqb_refl. reflexivity.
      * destruct (a =? t) eqn:E; [|reflexivity].
        apply Z.eqb_eq in E. subst a. exfalso. apply Ht1. left.
    + unfold removed. cbn [least_recent_target]. rewrite Hlru, Hp.
      rewrite last_app. cbn [last].
      destruct l2 as [|a l2].
      * simpl. rewrite Z.eqb_refl. rewrite app_nil_r. reflexivity.
      * rewrite last_cons_cons. rewrite last_app.
        destruct (last (a :: l2)) as [z|] eqn:E;
          [|apply last_None in E; discriminate].
        simpl. destruct (z =? t) eqn:Ez; [|reflexivity].
        apply Z.eqb_eq in Ez. subst z. apply last_Some_elem_of in E. contradiction.
    + intros x cx Hx Hxl. rewrite Hlook in Hx. revert Hx.
      destruct (decide (x = t)) as [->|Hxt];
        [intros Hx; injection Hx as <-; split; reflexivity|].
      destruct (decide (x = n /\ n <> NULL)) as [[-> Hn0]|Hxn].
      { exfalso. apply Hxl. apply elem_of_app. right. auto. }
      destruct (decide (x = p /\ p <> NULL)) as [[-> Hp0]|Hxp].
      { exfalso. apply Hxl. apply elem_of_app. left. auto. }
      intros Hx. apply (Hout x cx Hx). intros Hin. apply Hxl.
      apply elem_of_app in Hin as [Hin|Hin]; apply elem_of_app; [left; exact Hin|].
      apply elem_of_cons in Hin as [->|Hin]; [contradiction|right; exact Hin].
  - split; [reflexivity|]. split; [reflexivity|]. split; [reflexivity|].
    intros x. rewrite Hlook.
    destruct (decide (x = t)) as [E|Hxt]; [rewrite E, Hc; reflexivity|].
    destruct (decide (x = n /\ n <> NULL)) as [[E Hn0]|Hxn];
      [rewrite E, (Hcn Hn0); reflexivity|].
    destruct (decide (x = p /\ p <> NULL)) as [[E Hp0]|Hxp];
      [rewrite E, (Hcp Hp0); reflexivity|reflexivity].
Qed.

Lemma relinked_lookup W W' x c :
  relinked W W' -> heap W !! x = Some c ->
  exists c', heap W' !! x = Some c' /\ unlinked c' = unlinked c.
Proof.
  intros (_ & _ & _ & H) Hc. specialize (H x). rewrite Hc in H.
  destruct (heap W' !! x) as [c'|]; [|discriminate].
  exists c'. split; [reflexivity|]. simpl in H. congruence.
Qed.

Lemma relinked_lookup_None W W' x :
  relinked W W' -> heap W !! x = None -> heap W' !! x = None.
Proof.
  intros (_ & _ & _ & H) Hc. specialize (H x). rewrite Hc in H.
  destruct (heap W' !! x); [discriminate|reflexivity].
Qed.

Lemma relinked_sym W W' : relinked W W' -> relinked W' W.
Proof.
  intros (Ha & Hb & Hc & Hx). split; [congruence|]. split; [congruence|].
  split; [congruence|]. intros x. symmetry. apply Hx.
Qed.

(** A texture outside the list is not linked: removing it changes nothing. *)
Lemma LRUTargetRemove_out W l t c :
  lru_list W l -> t ∉ l -> heap W !! t = Some c ->
  exists W', LRUTargetRemove t W = Some (tt, W', []) /\
    lru_list W' l /\ relinked W W' /\ heap W' = heap W.
Proof.
  intros (Hnd & Hseg & Hmru & Hlru & Hout) Htl Hc.
  destruct (Hout t c Hc Htl) as [Hp Hn].
  exists (removed W t c c c). split.
  { apply LRUTargetRemove_eval; [exact Hc| |]; intros H; congruence. }
  assert (Hh : heap (removed W t c c c) = heap W).
  { unfold removed. rewrite Hp, Hn. simpl. rewrite set_links_id by assumption.
    apply insert_id. exact Hc. }
  assert (Hm : most_recent_target (removed W t c c c) = most_recent_target W).
  { unfold removed. cbn [most_recent_target]. rewrite Hn, Hmru.
    destruct l as [|a l];
      [cbn [head default]; destruct (NULL =? t); reflexivity|simpl].
    destruct (a =? t) eqn:E; [|reflexivity].
    apply Z.eqb_eq in E. subst a. exfalso. apply Htl. left. }
  assert (Hl : least_recent_target (removed W t c c c) = least_recent_target W).
  { unfold removed. cbn [least_recent_target]. rewrite Hp, Hlru.
    destruct (last l) as [a|] eqn:El;
      [simpl|cbn [default]; destruct (NULL =? t); reflexivity].
    destruct (a =? t) eqn:E; [|reflexivity].
    apply Z.eqb_eq in E. subst a. exfalso. apply Htl.
    apply last_Some_elem_of in El. exact El. }
  split; [|split; [|exact Hh]].
  - split; [exact Hnd|]. rewrite Hh, Hm, Hl. auto.
  - split; [reflexivity|]. split; [reflexivity|]. split; [reflexivity|].
    intros x. rewrite Hh. reflexivity.
Qed.

Lemma LRUTargetPushFront_eval W t c cm :
  heap W !! t = Some c ->
  (most_recent_target W <> NULL ->
   heap W !! most_recent_target W = Some cm /\ most_recent_target W <> t) ->
  LRUTargetPushFront t W = Some (tt, pushed W t c cm, []).
Proof.
  intros Hc Hm.
  unfold LRUTargetPushFront, pushed, bind, deref, assign, bind, deref,
    when, modify, get, ret.
  rewrite Hc. simpl.
  destruct (most_recent_target W =? NULL) eqn:Em; simpl.
  - destruct (least_recent_target W =? NULL); reflexivity.
  - apply Z.eqb_neq in Em. destruct (Hm Em) as [Hcm Hmt].
    rewrite lookup_insert_ne by (intros E; apply Hmt; symmetry; exact E).
    rewrite Hcm. simpl.
    destruct (least_recent_target W =? NULL); reflexivity.
Qed.

Lemma LRUTargetPushFront_out W l t c :
  lru_list W l -> t ∉ l -> t <> NULL -> heap W !! t = Some c ->
  exists W', LRUTargetPushFront t W = Some (tt, W', []) /\
    lru_list W' (t :: l) /\ relinked W W'.
Proof.
  intros (Hnd & Hseg & Hmru & Hlru & Hout) Htl Ht0 Hc.
  destruct (Hout t c Hc Htl) as [Hp Hn].
  set (m := default NULL (head l)) in *.
  assert (Hml : m <> NULL -> m ∈ l).
  { unfold m. destruct l; simpl; [congruence|]. intros _. left. }
  assert (Hel : forall x : Z, x ∈ l -> x <> NULL /\ is_Some (heap W !! x))
    by (intros x; apply (seg_elem _ _ _ _ _ Hseg)).
  set (cm := default c (heap W !! m)).
  assert (Hcm : m <> NULL -> heap W !! m = Some cm).
  { intros H. destruct (Hel m (Hml H)) as [_ [v Hv]]. unfold cm. rewrite Hv. reflexivity. }
  exists (pushed W t c cm). split.
  { apply LRUTargetPushFront_eval; [exact Hc|]. rewrite Hmru. intros H.
    split; [auto|]. intros E. apply Htl. rewrite <- E. auto. }
  assert (Hlook : forall x : Z, heap (pushed W t c cm) !! x =
            if decide (x = m /\ m <> NULL) then Some (set_prevhotw t cm)
            else if decide (x = t) then Some (set_nexthotw m c)
            else heap W !! x).
  { intros x. unfold pushed. cbn [heap]. rewrite Hmru.
    destruct (decide (x = m /\ m <> NULL)) as [[E H]|Hx].
    - rewrite E. apply Z.eqb_neq in H. rewrite H. simpl. apply lookup_insert_eq.
    - destruct (m =? NULL) eqn:Em; simpl.
      + destruct (decide (x = t)) as [E|Hxt];
          [rewrite E; apply lookup_insert_eq|apply lookup_insert_ne; congruence].
      + apply Z.eqb_neq in Em.
        rewrite lookup_insert_ne by (intros E; apply Hx; split; [symmetry; exact E|exact Em]).
        destruct (decide (x = t)) as [E|Hxt];
          [rewrite E; apply lookup_insert_eq|apply lookup_insert_ne; congruence]. }
  assert (Htm : ~ (t = m /\ m <> NULL)).
  { intros [E H]. apply Htl. rewrite E. auto. }
  split.
  - split; [apply NoDup_cons; auto|]. split; [|split; [|split]].
    + cbn [seg]. split; [exact Ht0|]. exists (set_nexthotw m c).
      split; [rewrite Hlook, decide_False by exact Htm; rewrite decide_True by reflexivity;
              reflexivity|].
      split; [exact Hp|]. split; [reflexivity|].
      eapply (seg_reprev _ _ NULL t); [exact Hnd|exact Hseg|].
      intros x Hx. destruct (Hel x Hx) as [Hx0 [cx Hcx]]. rewrite Hlook.
      destruct (decide ((x : Z) = m /\ m <> NULL)) as [[E Hm0]|Hxm].
      * exists cm, (set_prevhotw t cm). rewrite E, (Hcm Hm0).
        split; [reflexivity|]. split; [reflexivity|]. split; [reflexivity|].
        simpl. rewrite decide_True; [reflexivity|].
        unfold m in *. destruct l; [contradiction|reflexivity].
      * rewrite decide_False by (intros E; apply Htl; rewrite <- E; exact Hx).
        exists cx, cx. split; [exact Hcx|]. split; [exact Hcx|]. split; [reflexivity|].
        rewrite decide_False; [reflexivity|]. intros E. apply Hxm.
        unfold m. rewrite E. simpl. split; [reflexivity|exact Hx0].
    + reflexivity.
    + unfold pushed. cbn [least_recent_target]. rewrite Hlru.
      rewrite last_cons_default.
      destruct (last l) as [a|] eqn:El; simpl; [|reflexivity].
      apply last_Some_elem_of in El. destruct (Hel a El) as [Ha _].
      apply Z.eqb_neq in Ha. rewrite Ha. reflexivity.
    + intros x cx Hx Hxl. rewrite Hlook in Hx. revert Hx.
      destruct (decide (x = m /\ m <> NULL)) as [[E Hm0]|Hxm].
      { exfalso. apply Hxl. right. rewrite E. auto. }
      destruct (decide (x = t)) as [E|Hxt].
      { exfalso. apply Hxl. rewrite E. left. }
      intros Hx. apply (Hout x cx Hx). intros Hin. apply Hxl. right. exact Hin.
  - split; [reflexivity|]. split; [reflexivity|]. split; [reflexivity|].
    intros x. rewrite Hlook.
    destruct (decide (x = m /\ m <> NULL)) as [[E Hm0]|Hxm];
      [rewrite E, (Hcm Hm0); reflexivity|].
    destruct (decide (x = t)) as [E|Hxt]; [rewrite E, Hc; reflexivity|reflexivity].
Qed.

Lemma LRUTargetBringFront_in W l1 t l2 :
  lru_list W (l1 ++ t :: l2) ->
  exists W', LRUTargetBringFront t W = Some (tt, W', []) /\
    lru_list W' (t :: l1 ++ l2) /\ relinked W W'.
Proof.
  intros Hl. unfold LRUTargetBringFront. unfold bind at 1, get.
  pose proof Hl as (Hnd & Hseg & Hmru & _).
  destruct l1 as [|a l1].
  - exists W. simpl in Hmru. rewrite Hmru, Z.eqb_refl.
    split; [reflexivity|]. split; [exact Hl|apply relinked_refl].
  - simpl in Hmru. rewrite Hmru.
    apply NoDup_mid in Hnd as (Hnd & Ht1 & Ht2 & _).
    assert (a <> t) as Hat by (intros ->; apply Ht1; left).
    apply Z.eqb_neq in Hat. rewrite Hat.
    destruct (LRUTargetRemove_in W (a :: l1) t l2 Hl) as (W1 & HR & Hl1 & Hr1).
    assert (Hin : t ∈ (a :: l1) ++ t :: l2)
      by (apply elem_of_app; right; left).
    destruct (seg_elem _ _ _ _ _ Hseg Hin) as [Ht0 [c Hc]].
    destruct (relinked_lookup _ _ _ _ Hr1 Hc) as (c1 & Hc1 & _).
    destruct (LRUTargetPushFront_out W1 ((a :: l1) ++ l2) t c1 Hl1) as (W2 & HP & Hl2 & Hr2);
      [|exact Ht0|exact Hc1|].
    { intros H. apply elem_of_app in H as [H|H]; contradiction. }
    exists W2. rewrite (bind_eq _ _ _ _ _ _ HR), HP.
    split; [reflexivity|]. split; [exact Hl2|]. eapply relinked_trans; eassumption.
Qed.

Lemma LRUTargetBringFront_out W l t c :
  lru_list W l -> t ∉ l -> t <> NULL -> heap W !! t = Some c ->
  exists W', LRUTargetBringFront t W = Some (tt, W', []) /\
    lru_list W' (t :: l) /\ relinked W W'.
Proof.
  intros Hl Htl Ht0 Hc. unfold LRUTargetBringFront. unfold bind at 1, get.
  pose proof Hl as (Hnd & Hseg & Hmru & _).
  assert (Hm : (most_recent_target W =? t) = false).
  { apply Z.eqb_neq. rewrite Hmru. destruct l as [|a l]; simpl; [congruence|].
    intros ->. apply Htl. left. }
  rewrite Hm.
  destruct (LRUTargetRemove_out W l t c Hl Htl Hc) as (W1 & HR & Hl1 & Hr1 & Hh).
  destruct (LRUTargetPushFront_out W1 l t c Hl1 Htl Ht0) as (W2 & HP & Hl2 & Hr2);
    [rewrite Hh; exact Hc|].
  exists W2. rewrite (bind_eq _ _ _ _ _ _ HR), HP.
  split; [reflexivity|]. split; [exact Hl2|]. eapply relinked_trans; eassumption.
Qed.

(** [lru_list] reads the two ends and the links only. *)
Lemma lru_list_ext W W' l :
  lru_list W l ->
  most_recent_target W' = most_recent_target W ->
  least_recent_target W' = least_recent_target W ->
  (forall x, links <$> heap W' !! x = links <$> heap W !! x) ->
  lru_list W' l.
Proof.
  intros (Hnd & Hseg & Hmru & Hlru & Hout) Hm Hl Hx.
  split; [exact Hnd|]. split; [|split; [congruence|split; [congruence|]]].
  - eapply seg_frame; [|exact Hseg]. intros t Ht.
    destruct (seg_elem _ _ _ _ _ Hseg Ht) as [_ [c Hc]].
    specialize (Hx t). rewrite Hc in Hx.
    destruct (heap W' !! t) as [c'|]; [|discriminate].
    exists c, c'. injection Hx as E1 E2. auto.
  - intros t c' Hc' Ht. specialize (Hx t). rewrite Hc' in Hx.
    destruct (heap W !! t) as [c|] eqn:Hc; [|discriminate].
    injection Hx as E1 E2. destruct (Hout t c Hc Ht). split; congruence.
Qed.

Lemma links_insert (h : gmap Z PSP_TextureData) t c c' x :
  h !! t = Some c -> links c' = links c ->
  links <$> <[t := c']> h !! x = links <$> h !! x.
Proof.
  intros Hc E. destruct (decide (x = t)) as [->|Hx].
  - rewrite lookup_insert_eq, Hc. simpl. congruence.
  - rewrite lookup_insert_ne by congruence. reflexivity.
Qed.

Lemma TextureSwizzle_eval W t c dst :
  heap W !! t = Some c -> swizzled c = false ->
  TextureSwizzle t dst W =
  match codec_dims c with
  | None => None
  | Some (bw, h) =>
      let '(a, blk, s') := dest W dst (size c) in
      if a =? NULL then Some (false, set_sram s' W, [])
      else match swizzle_pixels bw h (pixels c) blk with
           | None => None
           | Some px =>
               Some (true,
                     stored W t (set_swizzled true (set_data a px c))
                       (free_vram (data c) (vram W)) (free_sram (data c) s'),
                     [sceKernelDcacheWritebackRange a (size c)])
           end
  end.
Proof.
  intros Hc Hsw.
  unfold TextureSwizzle, dest, stored, free_vram, free_sram, TextureStorageFree,
    bind, deref, assign, bind, deref, lift, do_SDL_malloc, do_vfree, do_SDL_free,
    emit, modify, ret.
  rewrite Hc, Hsw. destruct (codec_dims c) as [[bw h]|]; [|reflexivity].
  destruct dst as [d blk]. simpl (fst _). simpl (snd _).
  destruct (d =? NULL) eqn:Ed.
  - destruct (SDL_malloc (size c) (sram W)) as [a s'] eqn:Em. cbn [fst snd].
    destruct (a =? NULL); [reflexivity|].
    destruct (swizzle_pixels bw h (pixels c) (junk_block W (size c))) as [px|];
      [|reflexivity].
    destruct (InVram (data c)); cbn; rewrite Hc; reflexivity.
  - cbv beta iota. simpl (fst _). simpl (snd _). rewrite Ed.
    destruct (swizzle_pixels bw h (pixels c) blk) as [px|]; [|reflexivity].
    destruct (InVram (data c)); cbn; rewrite Hc; reflexivity.
Qed.

Lemma TextureUnswizzle_eval W t c dst :
  heap W !! t = Some c -> swizzled c = true ->
  TextureUnswizzle t dst W =
  match codec_dims c with
  | None => None
  | Some (bw, h) =>
      let '(a, blk, s') := dest W dst (size c) in
      if a =? NULL then Some (false, set_sram s' W, [])
      else match unswizzle_pixels bw h (pixels c) blk with
           | None => None
           | Some px =>
               Some (true,
                     stored W t (set_swizzled false (set_data a px c))
                       (free_vram (data c) (vram W)) (free_sram (data c) s'),
                     [sceKernelDcacheWritebackRange a (size c)])
           end
  end.
Proof.
  intros Hc Hsw.
  unfold TextureUnswizzle, dest, stored, free_vram, free_sram, TextureStorageFree,
    bind, deref, assign, bind, deref, lift, do_SDL_malloc, do_vfree, do_SDL_free,
    emit, modify, ret.
  rewrite Hc, Hsw. cbn [negb]. destruct (codec_dims c) as [[bw h]|]; [|reflexivity].
  destruct dst as [d blk]. simpl (fst _). simpl (snd _).
  destruct (d =? NULL) eqn:Ed.
  - destruct (SDL_malloc (size c) (sram W)) as [a s'] eqn:Em. cbn [fst snd].
    destruct (a =? NULL); [reflexivity|].
    destruct (unswizzle_pixels bw h (pixels c) (junk_block W (size c))) as [px|];
      [|reflexivity].
    destruct (InVram (data c)); cbn; rewrite Hc; reflexivity.
  - cbv beta iota. simpl (fst _). simpl (snd _). rewrite Ed.
    destruct (unswizzle_pixels bw h (pixels c) blk) as [px|]; [|reflexivity].
    destruct (InVram (data c)); cbn; rewrite Hc; reflexivity.
Qed.

Lemma TextureSpillToSram_eval W t c :
  heap W !! t = Some c ->
  TextureSpillToSram t W =
  if swizzled c then
    let a := fst (SDL_malloc (size c) (sram W)) in
    let s' := snd (SDL_malloc (size c) (sram W)) in
    if a =? NULL then Some (false, set_sram s' W, [])
    else match memcpy (junk_block W (size c)) (pixels c) (size c) with
         | None => None
         | Some px =>
             Some (true, stored W t (set_data a px c) (vfree (data c) (vram W)) s', [])
         end
  else TextureSwizzle t (NULL, []) W.
Proof.
  intros Hc. unfold TextureSpillToSram. unfold bind at 1. rewrite (deref_eq _ _ _ Hc).
  destruct (swizzled c).
  - unfold stored, bind, deref, assign, bind, deref, lift, do_SDL_malloc, do_vfree,
      modify, ret.
    destruct (SDL_malloc (size c) (sram W)) as [a s'] eqn:Em. cbn [fst snd].
    destruct (a =? NULL); [reflexivity|].
    destruct (memcpy (junk_block W (size c)) (pixels c) (size c)) as [px|];
      [|reflexivity].
    cbn. rewrite Hc. reflexivity.
  - destruct (TextureSwizzle t (NULL, []) W) as [[[b W1] tr]|]; [|reflexivity].
    rewrite app_nil_l. reflexivity.
Qed.

Lemma TexturePromoteToVram_eval W t c :
  heap W !! t = Some c -> InVram (data c) = false ->
  fst (vramalloc (size c) (vram W)) <> NULL ->
  TexturePromoteToVram t true W =
  let a := fst (vramalloc (size c) (vram W)) in
  let v' := snd (vramalloc (size c) (vram W)) in
  match
    (if swizzled c
     then '(bw, h) ← codec_dims c;
          unswizzle_pixels bw h (pixels c) (junk_block W (size c))
     else memcpy (junk_block W (size c)) (pixels c) (size c))
  with
  | None => None
  | Some px =>
      Some (true,
            stored W t (set_swizzled false (set_data a px c))
              v' (SDL_free (data c) (sram W)),
            if swizzled c then [sceKernelDcacheWritebackRange a (size c)] else [])
  end.
Proof.
  intros Hc Hv Ha. unfold TexturePromoteToVram. unfold bind at 1.
  rewrite (deref_eq _ _ _ Hc). unfold bind at 1, do_vramalloc.
  destruct (vramalloc (size c) (vram W)) as [a v'] eqn:Em. cbn [fst snd] in *.
  destruct (swizzled c) eqn:Hsw; cbn [andb].
  - rewrite (TextureUnswizzle_eval _ t c) by assumption.
    destruct (codec_dims c) as [[bw h]|]; [|reflexivity]. unfold dest.
    cbn [fst snd mbind option_bind]. apply Z.eqb_neq in Ha. rewrite Ha.
    cbv beta iota. cbn [fst snd]. rewrite Ha.
    destruct (unswizzle_pixels bw h (pixels c) (junk_block W (size c))) as [px|];
      [|reflexivity].
    unfold stored, free_vram, free_sram. rewrite Hv. reflexivity.
  - apply Z.eqb_neq in Ha. rewrite Ha.
    unfold stored, bind, deref, assign, bind, deref, lift, do_SDL_free, modify, ret.
    destruct (memcpy (junk_block W (size c)) (pixels c) (size c)) as [px|];
      [|reflexivity].
    cbn. rewrite Hc. cbn.
    replace (set_swizzled false (set_data a px c)) with (set_data a px c)
      by (destruct c; simpl in *; subst; reflexivity).
    reflexivity.
Qed.

Lemma junk_block_length W n : length (junk_block W n) = Z.to_nat (n / 4).
Proof. unfold junk_block. rewrite length_map, length_seq. reflexivity. Qed.

Lemma memcpy_whole (dst src : list Z) n :
  length src = Z.to_nat (n / 4) -> length dst = Z.to_nat (n / 4) ->
  memcpy dst src n = Some src.
Proof.
  intros Hs Hd. unfold memcpy. rewrite decide_True by lia.
  rewrite <- Hs. rewrite take_ge by lia. rewrite drop_ge by lia.
  rewrite app_nil_r. reflexivity.
Qed.

Lemma memcpy_length (dst src out : list Z) n :
  memcpy dst src n = Some out -> length out = length dst.
Proof.
  unfold memcpy. case_decide as H; [|discriminate]. intros [= <-].
  rewrite length_app, length_take, length_drop. lia.
Qed.

Lemma set_data_swizzled a px c :
  swizzled c = true -> set_data a px c = set_swizzled true (set_data a px c).
Proof. destruct c; simpl; intros ->; reflexivity. Qed.

(** What a run of [TextureSpillToSram] that returns has done. *)
Lemma TextureSpillToSram_inv W t c ok W' tr :
  heap W !! t = Some c -> InVram (data c) = true ->
  TextureSpillToSram t W = Some (ok, W', tr) ->
  let a := fst (SDL_malloc (size c) (sram W)) in
  ok = negb (a =? NULL) /\
  most_recent_target W' = most_recent_target W /\
  least_recent_target W' = least_recent_target W /\
  junk W' = junk W /\ sram W' = snd (SDL_malloc (size c) (sram W)) /\
  if ok then
    vram W' = vfree (data c) (vram W) /\
    exists px, heap W' = <[t := set_swizzled true (set_data a px c)]> (heap W)
  else heap W' = heap W /\ vram W' = vram W /\ tr = [].
Proof.
  intros Hc Hv. rewrite (TextureSpillToSram_eval _ _ _ Hc).
  destruct (swizzled c) eqn:Hsw.
  - cbv zeta. destruct (fst (SDL_malloc (size c) (sram W)) =? NULL) eqn:Ea.
    + intros [= <- <- <-]. simpl. auto 10.
    + destruct (memcpy _ _ _) as [px|]; [|discriminate].
      intros [= <- <- <-]. simpl. repeat (split; [reflexivity|]).
      exists px. rewrite <- set_data_swizzled by exact Hsw. reflexivity.
  - rewrite (TextureSwizzle_eval _ _ _ _ Hc Hsw).
    destruct (codec_dims c) as [[bw h]|]; [|discriminate].
    unfold dest. cbn [fst snd]. change (NULL =? NULL) with true. cbv iota beta.
    destruct (fst (SDL_malloc (size c) (sram W)) =? NULL) eqn:Ea.
    + intros [= <- <- <-]. simpl. auto 10.
    + destruct (swizzle_pixels _ _ _ _) as [px|]; [|discriminate].
      intros [= <- <- <-]. unfold free_vram, free_sram. rewrite Hv. simpl.
      repeat (split; [reflexivity|]). exists px. reflexivity.
Qed.

(** On an aligned texture [TextureSpillToSram] returns. *)
Lemma TextureSpillToSram_defined W t c :
  heap W !! t = Some c -> aligned c = true ->
  exists r, TextureSpillToSram t W = Some r.
Proof.
  intros Hc Ha. rewrite (TextureSpillToSram_eval _ _ _ Hc).
  destruct (aligned_spec c Ha) as (rb & hb & Hrb & Hhb & Hrow & Hsz & Hd & Hs & Hp).
  assert (Hw : size c / 4 = 32 * rb * hb).
  { rewrite Hs. replace (128 * rb * hb) with (32 * rb * hb * 4) by lia.
    apply Z.div_mul. lia. }
  destruct (swizzled c) eqn:Hsw.
  - cbv zeta. destruct (_ =? NULL); [eauto|].
    rewrite memcpy_whole; [eauto| |apply junk_block_length]. lia.
  - rewrite (TextureSwizzle_eval _ _ _ _ Hc Hsw), Hd.
    unfold dest. cbn [fst snd]. change (NULL =? NULL) with true. cbv iota beta.
    destruct (_ =? NULL); [eauto|].
    destruct (swizzle_pixels_spec rb hb (pixels c) (junk_block W (size c)))
      as (mid & E & _); try assumption.
    { rewrite junk_block_length. lia. }
    rewrite E. eauto.
Qed.

Lemma lru_list_last W l t :
  lru_list W (l ++ [t]) ->
  least_recent_target W = t /\ t <> NULL /\ is_Some (heap W !! t) /\ t ∉ l.
Proof.
  intros (Hnd & Hseg & _ & Hlru & _).
  rewrite last_snoc in Hlru. split; [exact Hlru|].
  assert (t ∈ l ++ [t]) as Hin by (apply elem_of_app; right; left).
  destruct (seg_elem _ _ _ _ _ Hseg Hin) as [H0 Hc].
  split; [exact H0|]. split; [exact Hc|].
  apply NoDup_mid in Hnd as (_ & Ht & _). exact Ht.
Qed.

Lemma TextureSpillLRU_nil n W :
  least_recent_target W = NULL ->
  TextureSpillLRU n W = Some (false, W, [SDL_SetError_could_not_spill n]).
Proof.
  intros H. unfold TextureSpillLRU, bind, get, emit, ret. rewrite H. reflexivity.
Qed.

(** What one successful or failed eviction has done. *)
Lemma TextureSpillLRU_inv n W l t c ok W' tr :
  lru_list W (l ++ [t]) -> heap W !! t = Some c -> InVram (data c) = true ->
  TextureSpillLRU n W = Some (ok, W', tr) ->
  let a := fst (SDL_malloc (size c) (sram W)) in
  junk W' = junk W /\ sram W' = snd (SDL_malloc (size c) (sram W)) /\
  if ok then
    a <> NULL /\ lru_list W' l /\ vram W' = vfree (data c) (vram W) /\
    (exists c' px, heap W' !! t = Some c' /\
       unlinked c' = unlinked (set_swizzled true (set_data a px c))) /\
    (forall x, x <> t -> unlinked <$> heap W' !! x = unlinked <$> heap W !! x)
  else
    a = NULL /\ heap W' = heap W /\ vram W' = vram W /\
    most_recent_target W' = most_recent_target W /\
    least_recent_target W' = least_recent_target W /\ tr = [].
Proof.
  intros Hl Hc Hv H.
  destruct (lru_list_last _ _ _ Hl) as (Hlru & Ht0 & _ & Htl).
  unfold TextureSpillLRU in H. rewrite bind_get in H. cbv zeta in H. rewrite Hlru in H.
  apply Z.eqb_neq in Ht0. rewrite Ht0 in H. cbn [negb] in H.
  step_m H.
  destruct (TextureSpillToSram_inv _ _ _ _ _ _ Hc Hv Hs) as (Eb & Em & El & Ej & Es & Hr).
  destruct x.
  - cbn [negb] in H. destruct Hr as (Ev & px & Eh).
    assert (Hl1 : lru_list x0 (l ++ [t])).
    { eapply lru_list_ext; [exact Hl|exact Em|exact El|].
      intros y. rewrite Eh. eapply links_insert; [exact Hc|reflexivity]. }
    replace (l ++ [t]) with (l ++ t :: []) in Hl1 by reflexivity.
    destruct (LRUTargetRemove_in _ _ _ _ Hl1) as (W2 & HR & Hl2 & Hr2).
    rewrite app_nil_r in Hl2.
    rewrite (bind_eq _ _ _ _ _ _ HR) in H. unfold ret in H.
    injection H as <- <- <-.
    destruct Hr2 as (Ev2 & Es2 & Ej2 & Hx2).
    split; [congruence|]. split; [congruence|].
    split; [intros E; apply Z.eqb_eq in E; rewrite E in Eb; discriminate Eb|].
    split; [exact Hl2|]. split; [congruence|]. split.
    + specialize (Hx2 t). rewrite Eh, lookup_insert_eq in Hx2.
      destruct (heap W2 !! t) as [c'|]; [|discriminate].
      exists c', px. split; [reflexivity|]. simpl in Hx2. congruence.
    + intros y Hy. rewrite Hx2, Eh, lookup_insert_ne by congruence. reflexivity.
  - cbn [negb] in H. unfold ret in H. injection H as <- <- <-.
    destruct Hr as (Eh & Ev & ->).
    split; [exact Ej|]. split; [exact Es|].
    split; [apply Z.eqb_eq, negb_false_iff; symmetry; exact Eb|].
    auto.
Qed.

Lemma TextureSpillLRU_defined n W l t c :
  lru_list W (l ++ [t]) -> heap W !! t = Some c -> InVram (data c) = true ->
  aligned c = true ->
  exists r, TextureSpillLRU n W = Some r.
Proof.
  intros Hl Hc Hv Ha.
  destruct (lru_list_last _ _ _ Hl) as (Hlru & Ht0 & _ & Htl).
  unfold TextureSpillLRU. rewrite bind_get. cbv zeta. rewrite Hlru.
  apply Z.eqb_neq in Ht0. rewrite Ht0. cbn [negb].
  destruct (TextureSpillToSram_defined _ _ _ Hc Ha) as ([[b W1] tr] & Hs).
  rewrite (bind_eq _ _ _ _ _ _ Hs).
  destruct (TextureSpillToSram_inv _ _ _ _ _ _ Hc Hv Hs) as (Eb & Em & El & Ej & Es & Hr).
  destruct b; cbn [negb]; [|unfold ret; eauto].
  destruct Hr as (Ev & px & Eh).
  assert (Hl1 : lru_list W1 (l ++ t :: [])).
  { eapply lru_list_ext; [exact Hl|exact Em|exact El|].
    intros y. rewrite Eh. eapply links_insert; [exact Hc|reflexivity]. }
  destruct (LRUTargetRemove_in _ _ _ _ Hl1) as (W2 & HR & _).
  rewrite (bind_eq _ _ _ _ _ _ HR). unfold ret. eauto.
Qed.

Lemma unlinked_data (o o' : option PSP_TextureData) :
  unlinked <$> o' = unlinked <$> o -> data <$> o' = data <$> o.
Proof.
  destruct o as [c|], o' as [c'|]; simpl; intros H; try discriminate;
    [|reflexivity].
  assert (unlinked c' = unlinked c) as E by congruence.
  apply (f_equal data) in E. simpl in E. congruence.
Qed.

Lemma unlinked_Some (o : option PSP_TextureData) c' c :
  unlinked <$> Some c' = unlinked <$> o -> o = Some c -> unlinked c' = unlinked c.
Proof. intros H ->. simpl in H. congruence. Qed.

Lemma unlinked_lookup (o o' : option PSP_TextureData) c :
  unlinked <$> o' = unlinked <$> o -> o = Some c ->
  exists c', o' = Some c' /\ unlinked c' = unlinked c.
Proof.
  intros H ->. destruct o' as [c'|]; [|discriminate]. exists c'.
  split; [reflexivity|]. simpl in H. congruence.
Qed.

Lemma unlinked_spilled a px c1 c2 :
  unlinked c1 = unlinked c2 ->
  unlinked (set_swizzled true (set_data a px c1))
  = unlinked (set_swizzled true (set_data a px c2)).
Proof. destruct c1, c2; simpl; intros [=]; subst; reflexivity. Qed.

Lemma frees_ext (h h' : gmap Z PSP_TextureData) v ts :
  (forall x, x ∈ ts -> data <$> h' !! x = data <$> h !! x) ->
  frees h' v ts = frees h v ts.
Proof.
  revert v. induction ts as [|t ts IH]; intros v H; [reflexivity|].
  simpl. rewrite IH by (intros x Hx; apply H; right; exact Hx).
  f_equal. specialize (H t ltac:(left)).
  destruct (h !! t), (h' !! t); simpl in H; congruence.
Qed.

Lemma mallocs_ext (h h' : gmap Z PSP_TextureData) s ts :
  (forall x, x ∈ ts -> unlinked <$> h' !! x = unlinked <$> h !! x) ->
  mallocs h' s ts = mallocs h s ts.
Proof.
  revert s. induction ts as [|t ts IH]; intros s H; [reflexivity|].
  simpl. rewrite IH by (intros x Hx; apply H; right; exact Hx).
  f_equal. specialize (H t ltac:(left)).
  destruct (h !! t) as [c|], (h' !! t) as [c'|]; simpl in H;
    try discriminate; [|reflexivity].
  assert (E : unlinked c' = unlinked c) by congruence.
  apply (f_equal size) in E. simpl in E. rewrite E. reflexivity.
Qed.

(** The loop of [TextureSpillTargetsForSpace]: on a list [l] it takes the
    textures [ev] off the least recently used end, one after the other, with
    one [SDL_malloc] for each; a [false] on a list that is not empty comes
    from the [SDL_malloc] for the next one. *)
Lemma spill_loop fuel : forall n W l ok W' tr,
  lru_list W l -> in_vram W l ->
  TextureSpillTargetsForSpace fuel n W = Some (ok, W', tr) ->
  exists keep ev, l = keep ++ reverse ev /\ lru_list W' keep /\
    junk W' = junk W /\
    vram W' = frees (heap W) (vram W) ev /\
    (forall j, (j < length ev)%nat ->
       vlargestblock (frees (heap W) (vram W) (take j ev)) < n) /\
    (forall x, x ∉ ev -> unlinked <$> heap W' !! x = unlinked <$> heap W !! x) /\
    (forall x c, x ∈ ev -> heap W !! x = Some c ->
       exists c' a px, heap W' !! x = Some c' /\ a <> NULL /\ VRAM_END <= a /\
         unlinked c' = unlinked (set_swizzled true (set_data a px c))) /\
    if ok then n <= vlargestblock (vram W') /\
               sram W' = mallocs (heap W) (sram W) ev
    else vlargestblock (vram W') < n /\
         (keep = [] /\ sram W' = mallocs (heap W) (sram W) ev \/
          exists t c, last keep = Some t /\ heap W' !! t = Some c /\
            fst (SDL_malloc (size c) (mallocs (heap W) (sram W) ev)) = NULL /\
            sram W' = snd (SDL_malloc (size c) (mallocs (heap W) (sram W) ev))).
Proof.
  induction fuel as [|fuel IH]; intros n W l ok W' tr Hl Hv H;
    cbn [TextureSpillTargetsForSpace] in H; rewrite bind_get in H;
    destruct (vlargestblock (vram W) <? n) eqn:Hlt.
  - discriminate.
  - injection H as <- <- <-. apply Z.ltb_ge in Hlt.
    exists l, []. rewrite app_nil_r. repeat (split; [reflexivity || assumption|]).
    split; [simpl; intros; lia|]. split; [reflexivity|].
    split; [|split; [exact Hlt|reflexivity]].
    intros x c Hx. apply elem_of_nil in Hx. contradiction.
  - apply Z.ltb_lt in Hlt. step_m H.
    destruct l as [|t l _] using rev_ind.
    + pose proof Hl as (_ & _ & _ & Hlru & _). simpl in Hlru.
      rewrite (TextureSpillLRU_nil _ _ Hlru) in Hs. injection Hs as <- <- <-.
      injection H as <- <- <-.
      exists [], []. repeat (split; [reflexivity || assumption|]).
      split; [simpl; intros; lia|]. split; [reflexivity|].
      split; [intros x c Hx; apply elem_of_nil in Hx; contradiction|].
      split; [exact Hlt|left; split; reflexivity].
    + destruct (lru_list_last _ _ _ Hl) as (Hlru & Ht0 & [c Hc] & Htl).
      assert (Hvc : InVram (data c) = true).
      { apply (Hv t c); [apply elem_of_app; right; left|exact Hc]. }
      destruct (TextureSpillLRU_inv _ _ _ _ _ _ _ _ Hl Hc Hvc Hs) as (Ej & Es & Hr).
      destruct x.
      * destruct Hr as (Ha & Hl1 & Ev & (c1 & px & Hc1 & Eu) & Hfr).
        cbn [negb] in H.
        assert (Hv1 : in_vram x0 l).
        { intros y cy Hy Hcy.
          assert (y <> t) as Hyt by (intros ->; contradiction).
          specialize (Hfr y Hyt). rewrite Hcy in Hfr. symmetry in Hfr.
          destruct (heap W !! y) as [c0|] eqn:Hc0; [|discriminate].
          assert (E : unlinked c0 = unlinked cy) by (simpl in Hfr; congruence).
          apply (f_equal data) in E. simpl in E. rewrite <- E.
          apply (Hv y c0); [|exact Hc0].
          apply elem_of_app. left. exact Hy. }
        destruct (IH _ _ _ _ _ _ Hl1 Hv1 H)
          as (keep & ev & El & Hk & Ej' & Ev' & Hpre & Hfr' & Hev & Hok).
        assert (Hevl : forall y, y ∈ ev -> y <> t).
        { intros y Hy ->. apply Htl. rewrite El. apply elem_of_app. right.
          apply elem_of_reverse. exact Hy. }
        assert (Hext : forall p, (forall y, y ∈ p -> y ∈ ev) ->
                  frees (heap x0) (vram x0) p = frees (heap W) (vram W) (t :: p)).
        { intros p Hp. simpl. rewrite Hc, <- Ev. apply frees_ext.
          intros y Hy. apply unlinked_data, Hfr, Hevl, Hp, Hy. }
        exists keep, (t :: ev). split; [rewrite reverse_cons, app_assoc, El; reflexivity|].
        split; [exact Hk|]. split; [congruence|].
        split; [rewrite Ev'; apply Hext; auto|]. split.
        { intros [|j] Hj; [exact Hlt|]. cbn [take]. rewrite <- Hext.
          - apply Hpre. simpl in Hj. lia.
          - intros y Hy. exact (subseteq_take j ev y Hy). }
        split.
        { intros y Hy. rewrite Hfr' by (intros E; apply Hy; right; exact E).
          apply Hfr. intros ->. apply Hy. left. }
        assert (Hm : mallocs (heap x0) (sram x0) ev
                     = mallocs (heap W) (sram W) (t :: ev)).
        { simpl. rewrite Hc, <- Es. apply mallocs_ext.
          intros y Hy. apply Hfr, Hevl, Hy. }
        split; [|rewrite <- Hm; exact Hok].
        intros y cy Hy Hcy. apply elem_of_cons in Hy as [->|Hy].
        -- rewrite Hc in Hcy. injection Hcy as <-.
           assert (t ∉ ev) as Htev by (intros E; apply (Hevl t E); reflexivity).
           specialize (Hfr' t Htev). rewrite Hc1 in Hfr'.
           destruct (heap W' !! t) as [c'|]; [|discriminate].
           exists c', (fst (SDL_malloc (size c) (sram W))), px.
           split; [reflexivity|]. split; [exact Ha|]. split.
           { destruct (SDL_malloc_range (size c) (sram W)); [contradiction|assumption]. }
           simpl in Hfr'. congruence.
        -- destruct (unlinked_lookup _ _ _ (Hfr y (Hevl y Hy)) Hcy) as (cy1 & Hcy1 & Eu1).
           destruct (Hev y cy1 Hy Hcy1) as (c' & a & px' & Hc' & Ha0 & Ha1 & Eu').
           exists c', a, px'. repeat (split; [assumption|]).
           rewrite Eu'. apply unlinked_spilled. exact Eu1.
      * destruct Hr as (Ha & Eh & Ev & Em & El & ->).
        cbn [negb] in H. injection H as <- <- <-.
        exists (l ++ [t]), []. rewrite app_nil_r.
        split; [reflexivity|].
        split; [eapply lru_list_ext; [exact Hl|exact Em|exact El|];
                intros y; rewrite Eh; reflexivity|].
        split; [exact Ej|]. split; [exact Ev|].
        split; [simpl; intros; lia|].
        split; [intros y _; rewrite Eh; reflexivity|].
        split; [intros y cy Hy; apply elem_of_nil in Hy; contradiction|].
        split; [rewrite Ev; exact Hlt|]. right.
        exists t, c. rewrite last_snoc, Eh. cbn [mallocs foldl]. auto.
  - injection H as <- <- <-. apply Z.ltb_ge in Hlt.
    exists l, []. rewrite app_nil_r. repeat (split; [reflexivity || assumption|]).
    split; [simpl; intros; lia|]. split; [reflexivity|].
    split; [|split; [exact Hlt|reflexivity]].
    intros x c Hx. apply elem_of_nil in Hx. contradiction.
Qed.

Lemma lru_list_ext' W W' l :
  lru_list W l ->
  most_recent_target W' = most_recent_target W ->
  least_recent_target W' = least_recent_target W ->
  (forall x, x ∈ l -> links <$> heap W' !! x = links <$> heap W !! x) ->
  (forall x c', x ∉ l -> heap W' !! x = Some c' -> links c' = (NULL, NULL)) ->
  lru_list W' l.
Proof.
  intros (Hnd & Hseg & Hmru & Hlru & Hout) Hm Hl Hx Hy.
  split; [exact Hnd|]. split; [|split; [congruence|split; [congruence|]]].
  - eapply seg_frame; [|exact Hseg]. intros t Ht.
    destruct (seg_elem _ _ _ _ _ Hseg Ht) as [_ [c Hc]].
    specialize (Hx t Ht). rewrite Hc in Hx.
    destruct (heap W' !! t) as [c'|]; [|discriminate].
    exists c, c'. injection Hx as E1 E2. auto.
  - intros t c' Hc' Ht. specialize (Hy t c' Ht Hc'). injection Hy as E1 E2. auto.
Qed.

Lemma lru_list_cell W l t c :
  lru_list W l -> t ∉ l -> heap W !! t = Some c -> links c = (NULL, NULL).
Proof.
  intros (_ & _ & _ & _ & Hout) Ht Hc. destruct (Hout t c Hc Ht) as [E1 E2].
  unfold links. rewrite E1, E2. reflexivity.
Qed.

Lemma lru_list_elem W l t :
  lru_list W l -> t ∈ l -> t <> NULL /\ is_Some (heap W !! t).
Proof. intros (_ & Hseg & _) Ht. eapply seg_elem; eassumption. Qed.

(** A new structure without links, and a structure outside the list going
    away, leave the list as it is. *)
Lemma lru_list_fresh W l p c0 :
  lru_list W l -> heap W !! p = None -> links c0 = (NULL, NULL) ->
  lru_list (set_heap (<[p := c0]> (heap W)) W) l.
Proof.
  intros Hl Hp Hc0.
  assert (p ∉ l) as Hpl.
  { intros H. destruct (lru_list_elem _ _ _ Hl H) as [_ [c Hc]]. congruence. }
  eapply lru_list_ext'; [exact Hl|reflexivity|reflexivity| |]; cbn [heap set_heap].
  - intros x Hx. rewrite lookup_insert_ne by (intros ->; contradiction). reflexivity.
  - intros x c' Hx. destruct (decide (x = p)) as [->|Hxp].
    + rewrite lookup_insert_eq. intros [= <-]. exact Hc0.
    + rewrite lookup_insert_ne by congruence. intros Hc'.
      eapply lru_list_cell; eassumption.
Qed.

Lemma lru_list_delete W l p :
  lru_list W l -> p ∉ l -> lru_list (set_heap (delete p (heap W)) W) l.
Proof.
  intros Hl Hpl.
  eapply lru_list_ext'; [exact Hl|reflexivity|reflexivity| |]; cbn [heap set_heap].
  - intros x Hx. rewrite lookup_delete_ne by (intros ->; contradiction). reflexivity.
  - intros x c' Hx Hc'. apply lookup_delete_Some in Hc' as [_ Hc'].
    eapply lru_list_cell; eassumption.
Qed.

Lemma unlinked_links_eq c c' :
  unlinked c' = unlinked c -> links c' = links c -> c' = c.
Proof. destruct c, c'; simpl; intros [=] [=]; subst; reflexivity. Qed.

Lemma good_unlinked l l' t c c' :
  unlinked c' = unlinked c -> (t ∈ l' <-> t ∈ l) -> good l t c -> good l' t c'.
Proof.
  intros E Hl [H1 H2].
  assert (sdl_access c' = sdl_access c) as Ea by (apply (f_equal sdl_access) in E; exact E).
  assert (data c' = data c) as Ed by (apply (f_equal data) in E; exact E).
  assert (swizzled c' = swizzled c) as Es by (apply (f_equal swizzled) in E; exact E).
  unfold good. rewrite Ea, Ed, Es, Hl. split; assumption.
Qed.

Lemma cells_relinked p W W' l l' :
  relinked W W' -> cells_except p W l ->
  (forall x, x <> p -> x ∈ l' <-> x ∈ l) ->
  cells_except p W' l'.
Proof.
  intros Hr Hc Hl t c' Htp Hc'.
  destruct (relinked_lookup _ _ _ _ (relinked_sym _ _ Hr) Hc') as (c & Hc0 & E).
  eapply good_unlinked; [symmetry; exact E|apply Hl, Htp|]. eapply Hc; eassumption.
Qed.

Lemma cells_of_except p W l :
  cells_except p W l -> (forall c, heap W !! p = Some c -> good l p c) -> cells W l.
Proof.
  intros H Hp t c Hc. destruct (decide (t = p)) as [->|Ht]; [apply Hp, Hc|].
  apply H; assumption.
Qed.

Lemma cells_to_except p W l : cells W l -> cells_except p W l.
Proof. intros H t c _. apply H. Qed.

Lemma lru_list_length W l : lru_list W l -> (length l < spill_fuel W)%nat.
Proof.
  intros Hl. unfold spill_fuel.
  pose proof Hl as (Hnd & _).
  assert (list_to_set l ⊆ dom (heap W)) as Hsub.
  { intros x Hx. apply elem_of_list_to_set in Hx.
    destruct (lru_list_elem _ _ _ Hl Hx) as [_ Hc]. apply elem_of_dom. exact Hc. }
  apply subseteq_size in Hsub. rewrite size_list_to_set in Hsub by exact Hnd.
  rewrite size_dom in Hsub. lia.
Qed.

Lemma cells_in_vram p W l : cells_except p W l -> p ∉ l -> in_vram W l.
Proof.
  intros Hc Hp t c Ht Hcell.
  assert (t <> p) as Htp by (intros ->; contradiction).
  destruct (Hc t c Htp Hcell) as [H _]. apply H in Ht as [_ Ht]. exact Ht.
Qed.

Lemma fmap_None_iff {A B} (f : A -> B) (o o' : option A) :
  (f <$> o') = (f <$> o) -> (o' = None <-> o = None).
Proof. destruct o, o'; simpl; intros H; split; intros E; congruence. Qed.

(** The loop keeps the invariant of every texture but [p], which it does
    not touch when it is outside the list. *)
Lemma spill_loop_good p fuel n W l ok W' tr :
  lru_list W l -> cells_except p W l -> p ∉ l ->
  TextureSpillTargetsForSpace fuel n W = Some (ok, W', tr) ->
  exists keep, lru_list W' keep /\ cells_except p W' keep /\ (p ∉ keep) /\
    heap W' !! p = heap W !! p /\
    (forall x, heap W' !! x = None <-> heap W !! x = None) /\
    (forall x, x ∈ keep -> x ∈ l) /\
    (ok = true -> n <= vlargestblock (vram W')).
Proof.
  intros Hl Hc Hp H.
  destruct (spill_loop _ _ _ _ _ _ _ Hl (cells_in_vram _ _ _ Hc Hp) H)
    as (keep & ev & El & Hk & _ & _ & _ & Hfr & Hev & Hok).
  assert (Hnd : NoDup (keep ++ reverse ev)) by (rewrite <- El; apply Hl).
  apply NoDup_app in Hnd as (_ & Hdis & _).
  assert (Hevl : forall x, x ∈ ev -> x ∈ l /\ x ∉ keep).
  { intros x Hx. split.
    - rewrite El. apply elem_of_app. right. apply elem_of_reverse. exact Hx.
    - intros Hxk. apply (Hdis x Hxk). apply elem_of_reverse. exact Hx. }
  assert (Hkl : forall x, x ∈ keep -> x ∈ l).
  { intros x Hx. rewrite El. apply elem_of_app. left. exact Hx. }
  assert (Hpev : p ∉ ev) by (intros E; apply Hp, Hevl, E).
  exists keep. split; [exact Hk|]. split; [|split; [auto|split; [|split; [|split]]]].
  - intros x cx' Hxp Hcx'.
    destruct (decide (x ∈ ev)) as [Hx|Hx].
    + destruct (Hevl x Hx) as [Hxl Hxk].
      destruct (lru_list_elem _ _ _ Hl Hxl) as [_ [cx Hcx]].
      destruct (Hev x cx Hx Hcx) as (c'' & a & px & Hc'' & Ha0 & Ha1 & Eu).
      rewrite Hcx' in Hc''. injection Hc'' as <-.
      destruct (Hc x cx Hxp Hcx) as [Hg _]. apply Hg in Hxl as [Hacc _].
      assert (sdl_access cx' = sdl_access cx) as Ea
        by (apply (f_equal sdl_access) in Eu; exact Eu).
      assert (data cx' = a) as Ed by (apply (f_equal data) in Eu; exact Eu).
      split.
      * split; [intros Hxk'; contradiction|]. intros [_ Hv]. rewrite Ed in Hv.
        unfold InVram in Hv. apply Z.ltb_lt in Hv. lia.
      * rewrite Ea, Hacc. discriminate.
    + specialize (Hfr x Hx). symmetry in Hfr.
      destruct (unlinked_lookup _ _ _ Hfr Hcx') as (cx & Hcx & Eu).
      eapply good_unlinked; [symmetry; exact Eu| |exact (Hc x cx Hxp Hcx)].
      split; [apply Hkl|]. rewrite El. intros Hxl.
      apply elem_of_app in Hxl as [Hxl|Hxl]; [exact Hxl|].
      apply (proj1 (elem_of_reverse _ _)) in Hxl. contradiction.
  - specialize (Hfr p Hpev).
    destruct (heap W !! p) as [c|] eqn:Hcp.
    + destruct (unlinked_lookup _ _ _ Hfr eq_refl) as (c' & Hc' & Eu).
      rewrite Hc'. f_equal. apply unlinked_links_eq; [exact Eu|].
      assert (p ∉ keep) as Hpk by (intros E; apply Hp, Hkl, E).
      rewrite (lru_list_cell _ _ _ _ Hk Hpk Hc').
      rewrite (lru_list_cell _ _ _ _ Hl Hp Hcp). reflexivity.
    + destruct (heap W' !! p); [discriminate|reflexivity].
  - intros x. destruct (decide (x ∈ ev)) as [Hx|Hx].
    + destruct (Hevl x Hx) as [Hxl _].
      destruct (lru_list_elem _ _ _ Hl Hxl) as [_ [cx Hcx]].
      destruct (Hev x cx Hx Hcx) as (c'' & a & px & Hc'' & _).
      rewrite Hc'', Hcx. split; discriminate.
    + apply (fmap_None_iff unlinked), Hfr, Hx.
  - exact Hkl.
  - intros ->. apply Hok.
Qed.

Lemma unlinked_field {X} (f : PSP_TextureData -> X) c c' :
  (forall c, f (unlinked c) = f c) -> unlinked c' = unlinked c -> f c' = f c.
Proof. intros Hf E. rewrite <- (Hf c'), <- (Hf c), E. reflexivity. Qed.

(** Enough fuel: on a list of aligned textures in video memory the loop
    returns when given more fuel than the list is long. *)
Lemma spill_loop_defined fuel : forall n W l,
  lru_list W l -> in_vram W l ->
  (forall t c, t ∈ l -> heap W !! t = Some c -> aligned c = true) ->
  (length l < fuel)%nat ->
  exists r, TextureSpillTargetsForSpace fuel n W = Some r.
Proof.
  induction fuel as [|fuel IH]; intros n W l Hl Hv Ha Hlen; [lia|].
  cbn [TextureSpillTargetsForSpace]. rewrite bind_get.
  destruct (vlargestblock (vram W) <? n); [|unfold ret; eauto].
  destruct l as [|t l _] using rev_ind.
  - pose proof Hl as (_ & _ & _ & Hlru & _). simpl in Hlru.
    rewrite (bind_eq _ _ _ _ _ _ (TextureSpillLRU_nil _ _ Hlru)). unfold ret. eauto.
  - destruct (lru_list_last _ _ _ Hl) as (Hlru & Ht0 & [c Hc] & Htl).
    assert (Hin : t ∈ l ++ [t]) by (apply elem_of_app; right; left).
    destruct (TextureSpillLRU_defined n _ _ _ _ Hl Hc (Hv t c Hin Hc) (Ha t c Hin Hc))
      as ([[b W1] tr1] & Hs).
    rewrite (bind_eq _ _ _ _ _ _ Hs).
    destruct (TextureSpillLRU_inv _ _ _ _ _ _ _ _ Hl Hc (Hv t c Hin Hc) Hs) as (_ & _ & Hr).
    destruct b; cbn [negb]; [|unfold ret; eauto].
    destruct Hr as (_ & Hl1 & _ & _ & Hfr).
    assert (Hold : forall y cy, y ∈ l -> heap W1 !! y = Some cy ->
              exists c0, heap W !! y = Some c0 /\ unlinked cy = unlinked c0 /\ y ∈ l ++ [t]).
    { intros y cy Hy Hcy. assert (y <> t) as Hyt by (intros ->; contradiction).
      specialize (Hfr y Hyt). symmetry in Hfr.
      destruct (unlinked_lookup _ _ _ Hfr Hcy) as (c0 & Hc0 & E).
      exists c0. split; [exact Hc0|]. split; [symmetry; exact E|].
      apply elem_of_app. left. exact Hy. }
    destruct (IH n W1 l Hl1) as (r & Hr).
    + intros y cy Hy Hcy. destruct (Hold y cy Hy Hcy) as (c0 & Hc0 & E & Hyl).
      rewrite (unlinked_field (fun c => InVram (data c)) c0 cy) by (reflexivity || exact E).
      eapply Hv; eassumption.
    + intros y cy Hy Hcy. destruct (Hold y cy Hy Hcy) as (c0 & Hc0 & E & Hyl).
      rewrite (unlinked_field aligned c0 cy) by (reflexivity || exact E).
      eapply Ha; eassumption.
    + rewrite length_app in Hlen. simpl in Hlen. lia.
    + rewrite Hr. destruct r as [[b' W2] tr2]. eauto.
Qed.

Lemma deref_Some W p c W' tr :
  deref p W = Some (c, W', tr) -> heap W !! p = Some c /\ W' = W /\ tr = [].
Proof.
  unfold deref. destruct (heap W !! p); [|discriminate].
  intros [= <- <- <-]. auto.
Qed.

Lemma bind_deref {A} (k : PSP_TextureData -> P A) W p c :
  heap W !! p = Some c -> bind (deref p) k W = k c W.
Proof.
  intros H. unfold bind. rewrite (deref_eq _ _ _ H).
  destruct (k c W) as [[[? ?] ?]|]; reflexivity.
Qed.

(** The two halves of [TextureBindAsTarget]: bringing the texture into
    video memory, then moving it to the front of the list. *)
Lemma TextureBindAsTarget_split W t c ok W' tr :
  heap W !! t = Some c ->
  TextureBindAsTarget t W = Some (ok, W', tr) ->
  exists ok1 W1 tr1,
    (if negb (InVram (data c)) then
       W0 <- get ;;
       ok <- TextureSpillTargetsForSpace (spill_fuel W0) (size c) ;;
       if negb ok then ret false else TexturePromoteToVram t true
     else ret true) W = Some (ok1, W1, tr1) /\
    if ok1 then ok = true /\ exists u tr2, LRUTargetBringFront t W1 = Some (u, W', tr2)
    else ok = false /\ W' = W1.
Proof.
  intros Hc H. unfold TextureBindAsTarget in H.
  rewrite (bind_deref _ _ _ _ Hc) in H.
  step_as H ok1 W1 tr1 Hres. exists ok1, W1, tr1. split; [exact Hres|].
  destruct ok1; cbn [negb] in H.
  - step_as H u W2 tr2 Hfront. step_as H c2 W3 tr3 Hd.
    apply deref_Some in Hd as (_ & -> & ->).
    step_as H u1 W4 tr4 He. prim_m He. step_as H u2 W5 tr5 Hst. prim_m H.
    assert (W' = W4) as ->.
    { destruct (format c2 =? GU_PSM_5551).
      - repeat (step_as Hst u3 W6 tr6 He; prim_m He). prim_m Hst. reflexivity.
      - repeat (step_as Hst u3 W6 tr6 He; prim_m He). prim_m Hst. reflexivity. }
    split; [reflexivity|]. eauto.
  - prim_m H. auto.
Qed.

(** [TextureBindAsTarget] on a render-target texture keeps the invariant;
    when it succeeds the texture is in video memory and at the front of the
    list, when it fails the texture is as it was. *)
Lemma TextureBindAsTarget_spec W t c ok W' tr :
  Inv W -> heap W !! t = Some c -> sdl_access c = SDL_TEXTUREACCESS_TARGET ->
  TextureBindAsTarget t W = Some (ok, W', tr) ->
  Inv W' /\
  if ok then
    exists c' rest, heap W' !! t = Some c' /\ InVram (data c') = true /\
      most_recent_target W' = t /\ lru_list W' (t :: rest)
  else heap W' !! t = Some c.
Proof.
  intros (Hnull & l & Hl & Hcells) Hc Hacc H.
  assert (t <> NULL) as Ht0 by (intros ->; congruence).
  destruct (TextureBindAsTarget_split _ _ _ _ _ _ Hc H) as (ok1 & W1 & tr1 & Hres & Hfin).
  destruct (Hcells t c Hc) as [Hin _].
  destruct (InVram (data c)) eqn:Hv; cbn [negb] in Hres.
  - prim_m Hres. destruct Hfin as (-> & u & tr2 & Hfront).
    assert (t ∈ l) as Htl by (apply Hin; auto).
    apply list_elem_of_split in Htl as (l1 & l2 & ->).
    destruct (LRUTargetBringFront_in _ _ _ _ Hl) as (W2 & HB & Hl2 & Hr2).
    rewrite HB in Hfront. injection Hfront as _ <- _.
    assert (Hn2 : heap W2 !! NULL = None) by (eapply relinked_lookup_None; eassumption).
    split.
    + split; [exact Hn2|]. exists (t :: l1 ++ l2). split; [exact Hl2|].
      apply (cells_of_except NULL); [|intros c0 E; congruence].
      eapply cells_relinked; [exact Hr2|apply cells_to_except, Hcells|].
      intros x _. rewrite elem_of_cons, !elem_of_app, elem_of_cons. tauto.
    + destruct (relinked_lookup _ _ _ _ Hr2 Hc) as (c' & Hc' & E).
      exists c', (l1 ++ l2). split; [exact Hc'|].
      split; [rewrite (unlinked_field (fun c => InVram (data c)) c c')
                by (reflexivity || exact E); exact Hv|].
      split; [apply Hl2|exact Hl2].
  - assert (t ∉ l) as Htl by (intros E; apply Hin in E as [_ E]; discriminate).
    rewrite bind_get in Hres. step_as Hres okS WS trS Hloop.
    destruct (spill_loop_good t _ _ _ _ _ _ _ Hl (cells_to_except _ _ _ Hcells) Htl Hloop)
      as (keep & Hk & Hck & Htk & Eh & Hdom & Hkl & Hspace).
    rewrite Hc in Eh.
    assert (HnS : heap WS !! NULL = None) by (apply Hdom; exact Hnull).
    destruct okS; cbn [negb] in Hres.
    + specialize (Hspace eq_refl).
      pose proof (vramalloc_fits _ _ Hspace) as Ha.
      pose proof (vramalloc_range (size c) (vram WS)) as Har.
      rewrite (TexturePromoteToVram_eval _ _ _ Eh Hv Ha) in Hres. cbv zeta in Hres.
      set (a := fst (vramalloc (size c) (vram WS))) in *.
      match type of Hres with
      | match ?m with _ => _ end = _ => destruct m as [px|]; [|discriminate]
      end.
      injection Hres as <- <- <-. destruct Hfin as (-> & u & tr2 & Hfront).
      set (c2 := set_swizzled false (set_data a px c)) in *.
      set (W1 := stored WS t c2 _ _) in *.
      assert (Hc2 : heap W1 !! t = Some c2) by apply lookup_insert_eq.
      assert (Hl1 : lru_list W1 keep).
      { eapply lru_list_ext; [exact Hk|reflexivity|reflexivity|].
        intros y. eapply links_insert; [exact Eh|reflexivity]. }
      destruct (LRUTargetBringFront_out _ _ _ _ Hl1 Htk Ht0 Hc2) as (W2 & HB & Hl2 & Hr2).
      rewrite HB in Hfront. injection Hfront as _ <- _.
      assert (Hv2 : InVram a = true) by (apply Z.ltb_lt; lia).
      destruct (relinked_lookup _ _ _ _ Hr2 Hc2) as (c' & Hc' & E).
      assert (Hv' : InVram (data c') = true).
      { rewrite (unlinked_field (fun c => InVram (data c)) c2 c')
          by (reflexivity || exact E). exact Hv2. }
      split.
      * split.
        { eapply relinked_lookup_None; [exact Hr2|].
          unfold W1, stored. cbn [heap]. rewrite lookup_insert_ne by congruence.
          exact HnS. }
        exists (t :: keep). split; [exact Hl2|].
        apply (cells_of_except t).
        -- eapply cells_relinked; [exact Hr2| |].
           ++ intros x cx Hx. unfold W1, stored. cbn [heap].
              rewrite lookup_insert_ne by congruence. apply Hck, Hx.
           ++ intros x Hx. rewrite elem_of_cons. tauto.
        -- intros c0 Hc0. rewrite Hc' in Hc0. injection Hc0 as <-.
           assert (sdl_access c' = sdl_access c) as Ea
             by (apply (f_equal sdl_access) in E; exact E).
           split.
           ++ rewrite Ea, Hacc, Hv'. split; [auto|]. intros _. left.
           ++ rewrite Ea, Hacc. discriminate.
      * exists c', keep. split; [exact Hc'|]. split; [exact Hv'|].
        split; [apply Hl2|exact Hl2].
    + prim_m Hres. destruct Hfin as (-> & ->).
      split; [|exact Eh].
      split; [exact HnS|]. exists keep. split; [exact Hk|].
      apply (cells_of_except t); [exact Hck|].
      intros c0 Hc0. rewrite Eh in Hc0. injection Hc0 as <-. split.
      * split; [intros E; contradiction|]. intros [_ E]. congruence.
      * rewrite Hacc. discriminate.
Qed.

Lemma lift_Some {A} (o : option A) W a W' tr :
  lift o W = Some (a, W', tr) -> o = Some a /\ W' = W /\ tr = [].
Proof. unfold lift. destruct o; [|discriminate]. intros [= <- <- <-]. auto. Qed.

Lemma assign_Some W p f u W' tr :
  assign p f W = Some (u, W', tr) ->
  exists c, heap W !! p = Some c /\ W' = set_heap (<[p := f c]> (heap W)) W /\ tr = [].
Proof.
  intros H. destruct (heap W !! p) as [c|] eqn:Hc.
  - rewrite (assign_eq _ _ _ _ Hc) in H. injection H as _ <- <-. eauto.
  - unfold assign, bind, deref in H. rewrite Hc in H. discriminate.
Qed.

Lemma PSP_CreateTexture_spec W p w h fmt acc ok W' tr :
  Inv W -> heap W !! p = None ->
  PSP_CreateTexture p w h fmt acc W = Some (ok, W', tr) ->
  Inv W' /\
  if ok then
    exists c, heap W' !! p = Some c /\ sdl_access c = acc /\ swizzled c = false /\
      data c <> NULL /\
      (acc = SDL_TEXTUREACCESS_TARGET ->
       InVram (data c) = true /\ most_recent_target W' = p)
  else heap W' !! p = None.
Proof.
  intros HI Hp H. pose proof HI as (Hnull & l & Hl & Hcells).
  unfold PSP_CreateTexture in H.
  destruct (p =? NULL) eqn:Hp0; [prim_m H; auto|].
  apply Z.eqb_neq in Hp0.
  step_as H th W0 tr0 Hth. apply lift_Some in Hth as (Hth & -> & ->).
  step_as H tw W0 tr0 Htw. apply lift_Some in Htw as (Htw & -> & ->).
  cbv zeta in H. fold (new_texture w h fmt acc tw th) in H.
  set (t0 := new_texture w h fmt acc tw th) in *.
  step_as H u W0 tr0 Hm. prim_m Hm.
  set (W0 := set_heap (<[p := t0]> (heap W)) W) in *.
  assert (Hc0 : heap W0 !! p = Some t0) by apply lookup_insert_eq.
  assert (Hpl : p ∉ l).
  { intros E. destruct (lru_list_elem _ _ _ Hl E) as [_ [c Hc]]. congruence. }
  assert (Hl0 : lru_list W0 l) by (apply lru_list_fresh; [exact Hl|exact Hp|reflexivity]).
  assert (Hck0 : cells_except p W0 l).
  { intros x cx Hx. unfold W0. cbn [heap set_heap].
    rewrite lookup_insert_ne by congruence. apply Hcells. }
  assert (Hn0 : heap W0 !! NULL = None).
  { unfold W0. cbn [heap set_heap]. rewrite lookup_insert_ne by congruence. exact Hnull. }
  step_as H ok1 W1 tr2 Hres.
  step_as H c1 W2 tr3 Hd. apply deref_Some in Hd as (Hc1 & -> & ->).
  assert (Hfin : if negb ok1 || (data c1 =? NULL)
                 then ok = false /\ W' = set_heap (delete p (heap W1)) W1
                 else ok = true /\ W' = W1).
  { destruct (negb ok1 || (data c1 =? NULL)).
    - step_as H u W3 tr4 Hm. prim_m Hm. prim_m H. auto.
    - prim_m H. auto. }
  clear H.
  assert (Hdel : forall keep, lru_list W1 keep -> cells_except p W1 keep -> p ∉ keep ->
            heap W1 !! NULL = None -> Inv (set_heap (delete p (heap W1)) W1)).
  { intros keep Hk Hck Hpk Hn1.
    split; [cbn [heap set_heap]; rewrite lookup_delete_ne by congruence; exact Hn1|].
    exists keep. split; [apply lru_list_delete; assumption|].
    intros x cx Hx. cbn [heap set_heap] in Hx.
    apply lookup_delete_Some in Hx as [Hxp Hx]. apply Hck; [congruence|exact Hx]. }
  assert (Hdp : heap (set_heap (delete p (heap W1)) W1) !! p = None)
    by (cbn [heap set_heap]; apply lookup_delete_eq).
  set (n := wrap_uint (th * wrap_uint (tw * SDL_BYTESPERPIXEL fmt))) in *.
  destruct (decide (acc = SDL_TEXTUREACCESS_TARGET)) as [Hacc|Hacc].
  - subst acc. rewrite bind_get in Hres. step_as Hres okS WS trS Hloop.
    destruct (spill_loop_good p _ _ _ _ _ _ _ Hl0 Hck0 Hpl Hloop)
      as (keep & Hk & Hck & Hpk & Eh & Hdom & Hkl & Hspace).
    rewrite Hc0 in Eh.
    assert (HnS : heap WS !! NULL = None) by (apply Hdom, Hn0).
    destruct okS; cbn [negb] in Hres.
    + specialize (Hspace eq_refl).
      pose proof (vramalloc_fits _ _ Hspace) as Ha.
      pose proof (vramalloc_range n (vram WS)) as Har.
      step_as Hres d W2 tr4 Hva. unfold do_vramalloc in Hva.
      destruct (vramalloc n (vram WS)) as [a v'] eqn:Ev.
      injection Hva as <- <- <-. cbn [fst snd] in *.
      step_as Hres u W3 tr5 Has. apply assign_Some in Has as (c & Hc & -> & ->).
      cbn [heap set_vram] in Hc. rewrite Eh in Hc. injection Hc as <-.
      apply Z.eqb_neq in Ha as Ha'. rewrite Ha' in Hres. cbn [negb when] in Hres.
      step_as Hres u2 W4 tr6 Hpf. prim_m Hres.
      set (c2 := set_data a (junk_block WS n) t0) in *.
      match type of Hpf with LRUTargetPushFront p ?X = _ => set (W2 := X) in * end.
      assert (Hc2 : heap W2 !! p = Some c2) by apply lookup_insert_eq.
      assert (Hl2 : lru_list W2 keep).
      { eapply lru_list_ext; [exact Hk|reflexivity|reflexivity|].
        intros y. eapply links_insert; [exact Eh|reflexivity]. }
      destruct (LRUTargetPushFront_out _ _ _ _ Hl2 Hpk Hp0 Hc2) as (W3 & HP & Hl3 & Hr3).
      rewrite HP in Hpf. injection Hpf as _ <- _.
      destruct (relinked_lookup _ _ _ _ Hr3 Hc2) as (c' & Hc' & E).
      rewrite Hc1 in Hc'. injection Hc' as <-.
      assert (Ed : data c1 = a) by (apply (f_equal data) in E; exact E).
      assert (Ea : sdl_access c1 = SDL_TEXTUREACCESS_TARGET)
        by (apply (f_equal sdl_access) in E; exact E).
      assert (Es : swizzled c1 = false) by (apply (f_equal swizzled) in E; exact E).
      rewrite Ed, Ha' in Hfin. cbn [negb orb] in Hfin. destruct Hfin as (-> & ->).
      assert (Hva : InVram a = true) by (apply Z.ltb_lt; lia).
      split.
      * split.
        { eapply relinked_lookup_None; [exact Hr3|]. unfold W2. cbn [heap set_heap set_vram].
          rewrite lookup_insert_ne by congruence. exact HnS. }
        exists (p :: keep). split; [exact Hl3|].
        apply (cells_of_except p).
        -- eapply cells_relinked; [exact Hr3| |].
           ++ intros x cx Hx. unfold W2. cbn [heap set_heap set_vram].
              rewrite lookup_insert_ne by congruence. apply Hck, Hx.
           ++ intros x Hx. rewrite elem_of_cons. tauto.
        -- intros c0 Hc0'. rewrite Hc1 in Hc0'. injection Hc0' as <-. split.
           ++ rewrite Ea, Ed, Hva. split; [auto|]. intros _. left.
           ++ rewrite Ea. discriminate.
      * exists c1. rewrite Ed. split; [exact Hc1|]. split; [exact Ea|].
        split; [exact Es|]. split; [exact Ha|].
        intros _. split; [exact Hva|apply Hl3].
    + prim_m Hres. cbn [negb orb] in Hfin. destruct Hfin as (-> & ->).
      split; [|exact Hdp]. apply (Hdel keep); assumption.
  - step_as Hres d W2 tr4 Hca. unfold do_SDL_calloc in Hca.
    pose proof (SDL_malloc_range n (sram W0)) as Har.
    destruct (SDL_malloc n (sram W0)) as [a s'] eqn:Ev.
    injection Hca as <- <- <-. cbn [fst snd] in *.
    step_as Hres u W3 tr5 Has. apply assign_Some in Has as (c & Hc & -> & ->).
    cbn [heap set_sram] in Hc. rewrite Hc0 in Hc. injection Hc as <-.
    prim_m Hres.
    set (c2 := set_data a (repeat 0 (Z.to_nat (n / 4))) t0) in *.
    match type of Hc1 with heap ?X !! _ = _ => set (W2 := X) in * end.
    assert (Hc2 : heap W2 !! p = Some c2) by apply lookup_insert_eq.
    rewrite Hc2 in Hc1. injection Hc1 as <-.
    assert (Hl2 : lru_list W2 l).
    { eapply lru_list_ext; [exact Hl0|reflexivity|reflexivity|].
      intros y. eapply links_insert; [exact Hc0|reflexivity]. }
    assert (Hck2 : cells_except p W2 l).
    { intros x cx Hx. unfold W2. cbn [heap set_heap set_sram].
      rewrite lookup_insert_ne by congruence. apply Hck0, Hx. }
    assert (Hn2 : heap W2 !! NULL = None).
    { unfold W2. cbn [heap set_heap set_sram].
      rewrite lookup_insert_ne by congruence. exact Hn0. }
    cbn [negb orb] in Hfin. change (data c2) with a in Hfin.
    destruct (a =? NULL) eqn:Ea; destruct Hfin as (-> & ->).
    + split; [|exact Hdp]. apply (Hdel l); assumption.
    + apply Z.eqb_neq in Ea. split.
      * split; [exact Hn2|]. exists l. split; [exact Hl2|].
        apply (cells_of_except p); [exact Hck2|].
        intros c0 Hc0'. rewrite Hc2 in Hc0'. injection Hc0' as <-. split.
        -- split; [intros E; contradiction|]. intros [E _]. contradiction.
        -- reflexivity.
      * exists c2. split; [exact Hc2|]. split; [reflexivity|]. split; [reflexivity|].
        split; [exact Ea|]. intros E. contradiction.
Qed.

(** The invariant reads the structures and the two ends of the list. *)
Lemma Inv_ext W W' :
  heap W' = heap W -> most_recent_target W' = most_recent_target W ->
  least_recent_target W' = least_recent_target W -> Inv W -> Inv W'.
Proof.
  intros Eh Em El (Hnull & l & Hl & Hc). split; [rewrite Eh; exact Hnull|].
  exists l. split.
  - eapply lru_list_ext; [exact Hl|exact Em|exact El|]. intros x. rewrite Eh. reflexivity.
  - intros t c. rewrite Eh. apply Hc.
Qed.

(** Replacing the block of a texture outside video memory by another one
    outside video memory. *)
Lemma Inv_store W t c c' v s :
  Inv W -> heap W !! t = Some c ->
  links c' = links c -> sdl_access c' = sdl_access c ->
  (sdl_access c = SDL_TEXTUREACCESS_TARGET -> InVram (data c') = InVram (data c)) ->
  (sdl_access c = SDL_TEXTUREACCESS_STREAMING -> swizzled c' = false) ->
  Inv (stored W t c' v s).
Proof.
  intros (Hnull & l & Hl & Hc) Hcell El Ea Ev Es.
  assert (t <> NULL) as Ht0 by (intros ->; congruence).
  split; [unfold stored; cbn [heap]; rewrite lookup_insert_ne by congruence; exact Hnull|].
  exists l. split.
  - eapply lru_list_ext; [exact Hl|reflexivity|reflexivity|].
    intros x. eapply links_insert; eassumption.
  - apply (cells_of_except t).
    + intros x cx Hx. unfold stored. cbn [heap].
      rewrite lookup_insert_ne by congruence. apply Hc.
    + unfold stored. cbn [heap]. rewrite lookup_insert_eq. intros c0 [= <-].
      destruct (Hc t c Hcell) as [H1 H2]. unfold good. rewrite Ea.
      split; [|exact Es]. rewrite H1. split; intros [E1 E2]; (split; [exact E1|]).
      * rewrite Ev; assumption.
      * rewrite <- Ev; assumption.
Qed.

Lemma TextureActivate_linear W t c :
  heap W !! t = Some c -> TextureShouldSwizzle c = false ->
  TextureActivate t W =
  Some (tt, W, [sceGuTexMode (format c) (swizzled c);
                sceGuTexImage (textureWidth c) (textureHeight c) (textureWidth c)
                  (data c)]).
Proof.
  intros Hc Hs. unfold TextureActivate. rewrite (bind_deref _ _ _ _ Hc), Hs.
  unfold when, bind, ret, emit, deref. rewrite Hc. reflexivity.
Qed.

Lemma TextureSwizzle_swizzled W t c dst :
  heap W !! t = Some c -> swizzled c = true ->
  TextureSwizzle t dst W = Some (true, W, []).
Proof.
  intros Hc Hs. unfold TextureSwizzle. rewrite (bind_deref _ _ _ _ Hc), Hs. reflexivity.
Qed.

Lemma TextureActivate_spec W t u W' tr :
  Inv W -> TextureActivate t W = Some (u, W', tr) -> Inv W'.
Proof.
  intros HI H.
  destruct (heap W !! t) as [c|] eqn:Hc.
  2:{ unfold TextureActivate, bind, deref in H. rewrite Hc in H. discriminate. }
  destruct (TextureShouldSwizzle c) eqn:Hsh.
  2:{ rewrite (TextureActivate_linear _ _ _ Hc Hsh) in H. injection H as _ <- _. exact HI. }
  unfold TextureActivate in H. rewrite (bind_deref _ _ _ _ Hc), Hsh in H. cbn [when] in H.
  step_as H u1 W1 tr1 Hsw. step_as Hsw b W2 tr2 Hz. prim_m Hsw.
  step_as H c1 W3 tr3 Hd. apply deref_Some in Hd as (_ & -> & ->).
  step_as H u2 W4 tr4 He. prim_m He. prim_m H.
  unfold TextureShouldSwizzle in Hsh. apply andb_true_iff in Hsh as [Hsh _].
  apply andb_true_iff in Hsh as [Htv Hst]. apply negb_true_iff in Htv, Hst.
  apply bool_decide_eq_false in Hst.
  destruct (swizzled c) eqn:Hs.
  - rewrite (TextureSwizzle_swizzled _ _ _ _ Hc Hs) in Hz. injection Hz as _ <- _. exact HI.
  - rewrite (TextureSwizzle_eval _ _ _ _ Hc Hs) in Hz.
    destruct (codec_dims c) as [[bw h]|]; [|discriminate].
    unfold dest in Hz. cbn [fst snd] in Hz. change (NULL =? NULL) with true in Hz.
    cbv iota beta in Hz.
    pose proof (SDL_malloc_range (size c) (sram W)) as Hr.
    destruct (fst (SDL_malloc (size c) (sram W)) =? NULL) eqn:Ea.
    + injection Hz as _ <- _. apply (Inv_ext W); [reflexivity|reflexivity|reflexivity|exact HI].
    + destruct (swizzle_pixels bw h (pixels c) (junk_block W (size c))) as [px|];
        [|discriminate].
      injection Hz as _ <- _. apply Z.eqb_neq in Ea.
      eapply Inv_store; [exact HI|exact Hc|reflexivity|reflexivity| |].
      * intros Hacc. cbn [data set_swizzled set_data].
        rewrite bool_decide_eq_true_2 in Htv by exact Hacc. cbn [andb] in Htv.
        rewrite Htv. apply Z.ltb_ge. destruct Hr; [contradiction|assumption].
      * intros E. contradiction.
Qed.

Lemma LRUTargetRemove_cell W t r :
  LRUTargetRemove t W = Some r -> is_Some (heap W !! t).
Proof.
  intros H. destruct (heap W !! t) eqn:E; [eauto|].
  unfold LRUTargetRemove, LRUTargetRelink, bind, deref in H. rewrite E in H.
  discriminate.
Qed.

Lemma PSP_DestroyTexture_spec W t u W' tr :
  Inv W -> PSP_DestroyTexture t W = Some (u, W', tr) ->
  Inv W' /\ (t <> NULL -> heap W' !! t = None).
Proof.
  intros HI H. pose proof HI as (Hnull & l & Hl & Hc).
  unfold PSP_DestroyTexture in H.
  destruct (t =? NULL) eqn:Ht0.
  { prim_m H. apply Z.eqb_eq in Ht0. split; [exact HI|]. intros E. contradiction. }
  apply Z.eqb_neq in Ht0.
  step_as H u1 W1 tr1 HR.
  destruct (LRUTargetRemove_cell _ _ _ HR) as [c Hcell].
  assert (exists l', lru_list W1 l' /\ relinked W W1 /\ (t ∉ l') /\
            forall x, x <> t -> x ∈ l' <-> x ∈ l) as (l' & Hl' & Hr & Htl' & Hmem).
  { destruct (decide (t ∈ l)) as [Htl|Htl].
    - pose proof Hl as (Hnd & _).
      apply list_elem_of_split in Htl as (l1 & l2 & ->).
      destruct (LRUTargetRemove_in _ _ _ _ Hl) as (W2 & HR2 & Hl2 & Hr2).
      rewrite HR2 in HR. injection HR as _ <- _.
      apply NoDup_mid in Hnd as (_ & Ht1 & Ht2 & _).
      exists (l1 ++ l2). split; [exact Hl2|]. split; [exact Hr2|]. split.
      + intros E. apply elem_of_app in E as [E|E]; contradiction.
      + intros x Hx. rewrite !elem_of_app, elem_of_cons. tauto.
    - destruct (LRUTargetRemove_out _ _ _ _ Hl Htl Hcell) as (W2 & HR2 & Hl2 & Hr2 & _).
      rewrite HR2 in HR. injection HR as _ <- _.
      exists l. split; [exact Hl2|]. split; [exact Hr2|]. split; [exact Htl|].
      intros x _. reflexivity. }
  step_as H c1 W2 tr2 Hd. apply deref_Some in Hd as (Hc1 & -> & ->).
  step_as H u2 W2 tr2 Hf.
  assert (heap W2 = heap W1 /\ most_recent_target W2 = most_recent_target W1 /\
          least_recent_target W2 = least_recent_target W1) as (Eh & Em & El).
  { unfold TextureStorageFree, do_vfree, do_SDL_free in Hf.
    destruct (InVram (data c1)); prim_m Hf; auto. }
  prim_m H.
  assert (Hl2 : lru_list W2 l').
  { eapply lru_list_ext; [exact Hl'|exact Em|exact El|]. intros x. rewrite Eh. reflexivity. }
  split; [|intros _; cbn [heap set_heap]; apply lookup_delete_eq].
  split.
  { cbn [heap set_heap]. rewrite lookup_delete_ne by congruence. rewrite Eh.
    eapply relinked_lookup_None; eassumption. }
  exists l'. split; [apply lru_list_delete; assumption|].
  intros x cx Hx. cbn [heap set_heap] in Hx.
  apply lookup_delete_Some in Hx as [Hxt Hx]. rewrite Eh in Hx.
  eapply (cells_relinked t); [exact Hr|apply cells_to_except, Hc|exact Hmem|congruence|exact Hx].
Qed.

Lemma write_pixels_spec W t px u W' tr :
  Inv W -> write_pixels t px W = Some (u, W', tr) -> Inv W'.
Proof.
  intros HI H. unfold write_pixels in H.
  step_as H c W1 tr1 Hd. apply deref_Some in Hd as (Hc & -> & ->).
  case_decide as Hlen; [|discriminate].
  rewrite (assign_eq _ _ _ _ Hc) in H. injection H as _ <- _.
  apply (Inv_store W t c _ (vram W) (sram W) HI Hc); try reflexivity.
  intros E. destruct HI as (_ & l & _ & Hcells). apply (Hcells t c Hc). exact E.
Qed.

Lemma PSP_LockTexture_eval W t c x y :
  heap W !! t = Some c ->
  PSP_LockTexture t x y W =
  Some ((wrap_uint (data c + wrap_uint (y * pitch c)
                    + wrap_uint (x * SDL_BYTESPERPIXEL (sdl_format c))),
         wrap_int (pitch c)), W, []).
Proof. intros Hc. unfold PSP_LockTexture. rewrite (bind_deref _ _ _ _ Hc). reflexivity. Qed.

Lemma PSP_LockTexture_state W t x y r W' tr :
  PSP_LockTexture t x y W = Some (r, W', tr) -> W' = W.
Proof.
  intros H. unfold PSP_LockTexture in H.
  step_as H c W1 tr1 Hd. apply deref_Some in Hd as (Hc & -> & ->).
  prim_m H. reflexivity.
Qed.

Lemma seg_check_sound h prev l nxt :
  seg_check h prev l nxt = true -> seg h prev l nxt.
Proof.
  revert prev. induction l as [|t l IH]; intros prev; [exact (fun _ => I)|].
  cbn [seg_check seg]. rewrite andb_true_iff, negb_true_iff, Z.eqb_neq.
  intros [Ht H]. split; [exact Ht|].
  destruct (h !! t) as [c|]; [|discriminate]. exists c.
  rewrite !andb_true_iff, !Z.eqb_eq in H. destruct H as [[Hp Hn] Hs].
  auto.
Qed.

Lemma lru_check_sound W l : lru_check W l = true -> lru_list W l.
Proof.
  unfold lru_check. rewrite !andb_true_iff, !Z.eqb_eq.
  intros ((((Hnd & Hs) & Hm) & Hl) & Ho).
  split; [apply bool_decide_eq_true in Hnd; exact Hnd|].
  split; [apply seg_check_sound, Hs|]. split; [exact Hm|]. split; [exact Hl|].
  intros t c Hc Ht. rewrite forallb_forall in Ho.
  specialize (Ho (t, c)). cbn [fst snd] in Ho.
  rewrite orb_true_iff, andb_true_iff, !Z.eqb_eq, bool_decide_eq_true in Ho.
  destruct Ho as [Ho|Ho]; [|contradiction|exact Ho].
  apply list_elem_of_In, elem_of_map_to_list. exact Hc.
Qed.

Lemma resident_aligned_sound W l :
  resident_aligned W l = true ->
  in_vram W l /\ forall t c, t ∈ l -> heap W !! t = Some c -> aligned c = true.
Proof.
  unfold resident_aligned. rewrite forallb_forall. intros H.
  split; intros t c Ht Hc; apply list_elem_of_In in Ht; specialize (H t Ht);
    rewrite Hc in H; apply andb_true_iff in H; tauto.
Qed.

Lemma initial_Inv W : initial W -> Inv W.
Proof.
  intros (Eh & Em & El). split; [rewrite Eh; apply lookup_empty|].
  exists []. split.
  - split; [constructor|]. split; [exact I|]. split; [exact Em|]. split; [exact El|].
    intros t c Hc. rewrite Eh, lookup_empty in Hc. discriminate.
  - intros t c Hc. rewrite Eh, lookup_empty in Hc. discriminate.
Qed.

Lemma step_Inv W W' : step W W' -> Inv W -> Inv W'.
Proof.
  intros [W0 p w h fmt acc ok W1 tr Hp H|W0 t c ok W1 tr Hc Ha H|W0 t u W1 tr H
         |W0 t x y r W1 tr H|W0 t px u W1 tr H|W0 t u W1 tr H] HI.
  - eapply PSP_CreateTexture_spec; eassumption.
  - eapply TextureBindAsTarget_spec; eassumption.
  - eapply TextureActivate_spec; eassumption.
  - apply PSP_LockTexture_state in H. subst. exact HI.
  - eapply write_pixels_spec; eassumption.
  - eapply PSP_DestroyTexture_spec; eassumption.
Qed.

Lemma reachable_Inv W : reachable W -> Inv W.
Proof.
  induction 1 as [W H|W W' _ IH Hs]; [apply initial_Inv, H|].
  eapply step_Inv; eassumption.
Qed.

Lemma TextureSpillToSram_fail W t W' tr :
  TextureSpillToSram t W = Some (false, W', tr) ->
  heap W' = heap W /\ most_recent_target W' = most_recent_target W /\
  least_recent_target W' = least_recent_target W /\ vram W' = vram W /\
  exists c, heap W !! t = Some c /\ fst (SDL_malloc (size c) (sram W)) = NULL.
Proof.
  intros H. destruct (heap W !! t) as [c|] eqn:Hc.
  2:{ unfold TextureSpillToSram, bind, deref in H. rewrite Hc in H. discriminate. }
  rewrite (TextureSpillToSram_eval _ _ _ Hc) in H.
  destruct (swizzled c) eqn:Hsw.
  - cbv zeta in H. destruct (fst (SDL_malloc (size c) (sram W)) =? NULL) eqn:Ea.
    + injection H as <- <-. apply Z.eqb_eq in Ea. simpl. eauto 10.
    + destruct (memcpy _ _ _); discriminate.
  - rewrite (TextureSwizzle_eval _ _ _ _ Hc Hsw) in H.
    destruct (codec_dims c) as [[bw h]|]; [|discriminate].
    unfold dest in H. cbn [fst snd] in H. change (NULL =? NULL) with true in H.
    cbv iota beta in H.
    destruct (fst (SDL_malloc (size c) (sram W)) =? NULL) eqn:Ea.
    + injection H as <- <-. apply Z.eqb_eq in Ea. simpl. eauto 10.
    + destruct (swizzle_pixels _ _ _ _); discriminate.
Qed.

Lemma TextureSpillLRU_fail n W W' tr :
  TextureSpillLRU n W = Some (false, W', tr) ->
  heap W' = heap W /\ most_recent_target W' = most_recent_target W /\
  least_recent_target W' = least_recent_target W /\ vram W' = vram W /\
  (least_recent_target W <> NULL ->
   exists c, heap W !! least_recent_target W = Some c /\
     fst (SDL_malloc (size c) (sram W)) = NULL).
Proof.
  intros H. unfold TextureSpillLRU in H. rewrite bind_get in H. cbv zeta in H.
  destruct (least_recent_target W =? NULL) eqn:E; cbn [negb] in H.
  - step_as H u W1 tr1 He. prim_m He. unfold ret in H. injection H as <- <-.
    apply Z.eqb_eq in E.
    repeat (split; [reflexivity|]). intros E'. contradiction.
  - step_as H b W1 tr1 Hs. destruct b; cbn [negb] in H.
    + step_as H u W2 tr2 HR. unfold ret in H. discriminate.
    + unfold ret in H. injection H as <- <-. destruct (TextureSpillToSram_fail _ _ _ _ Hs) as (? & ? & ? & ? & ?).
      apply Z.eqb_neq in E. auto.
Qed.

Lemma reachable_after_create W p w h fmt acc :
  reachable W -> heap W !! p = None ->
  result W (PSP_CreateTexture p w h fmt acc) <> None ->
  reachable (after W (PSP_CreateTexture p w h fmt acc)).
Proof.
  unfold after, result. intros HR Hp.
  destruct (PSP_CreateTexture p w h fmt acc W) as [[[ok W'] tr]|] eqn:E;
    [|intros H; contradiction].
  intros _. eapply reachable_step; [exact HR|]. eapply step_create; eassumption.
Qed.

Lemma run_eq {A} (W : World) (m : P A) a :
  result W m = Some a -> m W = Some (a, after W m, calls W m).
Proof.
  unfold result, after, calls. destruct (m W) as [[[a' W'] tr]|]; [|discriminate].
  intros [= ->]. reflexivity.
Qed.

(** *** The claims *)

(** [C1] The loop of [TextureSpillTargetsForSpace] on a list of aligned
    render targets in video memory returns when it is given more fuel than
    the list is long, which the fuel of its callers, [spill_fuel], is. It
    has taken the textures [ev] off the least recently used end of the
    list, one after the other and each of them only while the largest free
    block was smaller than [n]; they are in system memory afterwards, and
    the other textures are as they were, links apart. It returns [true]
    exactly when the largest free block has reached [n]. System memory is
    then what the [SDL_malloc]s for the copies of [ev], in this order, have
    left, [mallocs (heap W) (sram W) ev]. It returns [false], with the
    space still short, on an empty list, system memory being the same; and
    also when the [SDL_malloc] that follows those of [ev], the one for the
    copy of the next victim, has returned [NULL]: the victim stays last in
    the list, and system memory is what that call has left. *)
Theorem spill_loop_evicts_least_recent n W l :
  lru_list W l -> resident_aligned W l = true ->
  (length l < spill_fuel W)%nat /\
  forall fuel, (length l < fuel)%nat ->
  exists ok W' tr keep ev,
    TextureSpillTargetsForSpace fuel n W = Some (ok, W', tr) /\
    l = keep ++ reverse ev /\ lru_list W' keep /\
    vram W' = frees (heap W) (vram W) ev /\
    (forall j, (j < length ev)%nat ->
       vlargestblock (frees (heap W) (vram W) (take j ev)) < n) /\
    (forall x, x ∈ ev ->
       exists c', heap W' !! x = Some c' /\ InVram (data c') = false) /\
    (forall x, x ∉ ev -> unlinked <$> heap W' !! x = unlinked <$> heap W !! x) /\
    (ok = true <-> n <= vlargestblock (vram W')) /\
    if ok then sram W' = mallocs (heap W) (sram W) ev
    else
      keep = [] /\ sram W' = mallocs (heap W) (sram W) ev \/
      exists t c, last keep = Some t /\ heap W' !! t = Some c /\
        fst (SDL_malloc (size c) (mallocs (heap W) (sram W) ev)) = NULL /\
        sram W' = snd (SDL_malloc (size c) (mallocs (heap W) (sram W) ev)).
Proof.
  intros Hl Hra. split; [apply lru_list_length, Hl|]. intros fuel Hfuel.
  destruct (resident_aligned_sound _ _ Hra) as [Hv Ha].
  destruct (spill_loop_defined fuel n W l Hl Hv Ha Hfuel) as ([[ok W'] tr] & H).
  destruct (spill_loop _ _ _ _ _ _ _ Hl Hv H)
    as (keep & ev & El & Hk & _ & Ev & Hpre & Hfr & Hev & Hok).
  exists ok, W', tr, keep, ev. repeat (split; [assumption|]).
  split.
  { intros x Hx. assert (x ∈ l) as Hxl.
    { rewrite El. apply elem_of_app. right. apply elem_of_reverse. exact Hx. }
    destruct (lru_list_elem _ _ _ Hl Hxl) as [_ [c Hc]].
    destruct (Hev x c Hx Hc) as (c' & a & px & Hc' & _ & Ha1 & E).
    exists c'. split; [exact Hc'|].
    apply (f_equal data) in E. simpl in E. rewrite E. apply Z.ltb_ge. exact Ha1. }
  split; [exact Hfr|].
  destruct ok.
  - destruct Hok as [Hge Hs]. split; [tauto|exact Hs].
  - destruct Hok as [Hlt Hwhy]. split; [split; [discriminate|lia]|exact Hwhy].
Qed.

(** [C3] In every state the renderer can reach, the list, which holds no
    texture twice, holds exactly the render-target textures whose block is
    in video memory; and a [TextureBindAsTarget] of a render target that
    returns [true] leaves the texture in video memory and first in the
    list. *)
Theorem residency_invariant W :
  reachable W ->
  (exists l, lru_list W l /\
     forall t c, heap W !! t = Some c ->
       (t ∈ l <-> sdl_access c = SDL_TEXTUREACCESS_TARGET /\ InVram (data c) = true)) /\
  (forall t c W' tr,
     heap W !! t = Some c -> sdl_access c = SDL_TEXTUREACCESS_TARGET ->
     TextureBindAsTarget t W = Some (true, W', tr) ->
     exists c' rest, heap W' !! t = Some c' /\ InVram (data c') = true /\
       most_recent_target W' = t /\ lru_list W' (t :: rest)).
Proof.
  intros HR. pose proof (reachable_Inv _ HR) as HI. split.
  - destruct HI as (_ & l & Hl & Hc). exists l. split; [exact Hl|].
    intros t c Hcell. apply (Hc t c Hcell).
  - intros t c W' tr Hc Ha H.
    apply (TextureBindAsTarget_spec _ _ _ _ _ _ HI Hc Ha H).
Qed.

(** [C4] A [TextureSpillLRU] that returns [false] has changed no structure,
    neither end of the list, and nothing in video memory. From a reachable
    state, a [TextureBindAsTarget] of a render target that returns [false]
    leaves the structure of that texture as it was, its block included, and
    a [PSP_CreateTexture] of a render target that returns [false] leaves no
    structure for it. *)
Theorem eviction_atomicity W :
  (forall n W' tr,
     TextureSpillLRU n W = Some (false, W', tr) ->
     heap W' = heap W /\ most_recent_target W' = most_recent_target W /\
     least_recent_target W' = least_recent_target W /\ vram W' = vram W) /\
  (reachable W ->
   (forall t c W' tr,
      heap W !! t = Some c -> sdl_access c = SDL_TEXTUREACCESS_TARGET ->
      TextureBindAsTarget t W = Some (false, W', tr) -> heap W' !! t = Some c) /\
   (forall p w h fmt W' tr,
      heap W !! p = None ->
      PSP_CreateTexture p w h fmt SDL_TEXTUREACCESS_TARGET W = Some (false, W', tr) ->
      heap W' !! p = None)).
Proof.
  split.
  - intros n W' tr H. destruct (TextureSpillLRU_fail _ _ _ _ H) as (? & ? & ? & ? & _).
    auto.
  - intros HR. pose proof (reachable_Inv _ HR) as HI. split.
    + intros t c W' tr Hc Ha H.
      apply (TextureBindAsTarget_spec _ _ _ _ _ _ HI Hc Ha H).
    + intros p w h fmt W' tr Hp H.
      apply (PSP_CreateTexture_spec _ _ _ _ _ _ _ _ _ HI Hp H).
Qed.

(** [C5] The two migrations of an aligned texture. [TextureSpillToSram] of
    a texture in video memory, when it returns [true], leaves the block in
    system memory and swizzled: linear pixels have been swizzled, swizzled
    ones copied as they are. [TexturePromoteToVram] for a render target
    leaves the block in video memory and linear: swizzled pixels have been
    unswizzled, linear ones copied as they are. *)
Theorem migration_layouts W t c :
  heap W !! t = Some c -> aligned c = true ->
  (InVram (data c) = true ->
   exists ok W' tr, TextureSpillToSram t W = Some (ok, W', tr) /\
     (ok = true ->
      exists c', heap W' !! t = Some c' /\ InVram (data c') = false /\
        swizzled c' = true /\
        Some (pixels c') =
        if swizzled c then Some (pixels c)
        else '(bw, h) ← codec_dims c;
             swizzle_pixels bw h (pixels c) (junk_block W (size c)))) /\
  (InVram (data c) = false -> fst (vramalloc (size c) (vram W)) <> NULL ->
   exists W' tr c', TexturePromoteToVram t true W = Some (true, W', tr) /\
     heap W' !! t = Some c' /\ InVram (data c') = true /\ swizzled c' = false /\
     Some (pixels c') =
     if swizzled c
     then '(bw, h) ← codec_dims c;
          unswizzle_pixels bw h (pixels c) (junk_block W (size c))
     else Some (pixels c)).
Proof.
  intros Hc Ha.
  destruct (aligned_spec c Ha) as (rb & hb & Hrb & Hhb & Hrow & Hsz & Hd & Hs & Hp).
  assert (Hw : size c / 4 = 32 * rb * hb).
  { rewrite Hs. replace (128 * rb * hb) with (32 * rb * hb * 4) by lia.
    apply Z.div_mul. lia. }
  assert (Hj : Z.of_nat (length (junk_block W (size c))) = 32 * rb * hb)
    by (rewrite junk_block_length; lia).
  split.
  - intros Hv. rewrite (TextureSpillToSram_eval _ _ _ Hc).
    pose proof (SDL_malloc_range (size c) (sram W)) as Hr.
    destruct (swizzled c) eqn:Hsw.
    + cbv zeta. destruct (fst (SDL_malloc (size c) (sram W)) =? NULL) eqn:Ea.
      { do 3 eexists. split; [reflexivity|discriminate]. }
      apply Z.eqb_neq in Ea.
      rewrite memcpy_whole; [| |apply junk_block_length]; [|lia].
      do 3 eexists. split; [reflexivity|]. intros _.
      eexists. split; [apply lookup_insert_eq|]. cbn [data pixels swizzled set_data].
      split; [apply Z.ltb_ge; destruct Hr; [contradiction|assumption]|].
      split; [exact Hsw|reflexivity].
    + rewrite (TextureSwizzle_eval _ _ _ _ Hc Hsw), Hd.
      unfold dest. cbn [fst snd]. change (NULL =? NULL) with true. cbv iota beta.
      destruct (fst (SDL_malloc (size c) (sram W)) =? NULL) eqn:Ea.
      { do 3 eexists. split; [reflexivity|discriminate]. }
      apply Z.eqb_neq in Ea.
      destruct (swizzle_pixels_spec rb hb (pixels c) (junk_block W (size c)))
        as (mid & E & _); try assumption.
      cbn [mbind option_bind]. rewrite E.
      do 3 eexists. split; [reflexivity|]. intros _.
      eexists. split; [apply lookup_insert_eq|].
      cbn [data pixels swizzled set_data set_swizzled].
      split; [apply Z.ltb_ge; destruct Hr; [contradiction|assumption]|].
      split; reflexivity.
  - intros Hv Hna. rewrite (TexturePromoteToVram_eval _ _ _ Hc Hv Hna). cbv zeta.
    pose proof (vramalloc_range (size c) (vram W)) as Hr.
    destruct (swizzled c) eqn:Hsw.
    + rewrite Hd. cbn [mbind option_bind].
      destruct (unswizzle_pixels_spec rb hb (pixels c) (junk_block W (size c)))
        as (out & E & _); try assumption.
      rewrite E. do 3 eexists. split; [reflexivity|].
      split; [apply lookup_insert_eq|].
      cbn [data pixels swizzled set_data set_swizzled].
      split; [apply Z.ltb_lt; lia|]. split; reflexivity.
    + rewrite memcpy_whole; [| |apply junk_block_length]; [|lia].
      do 3 eexists. split; [reflexivity|].
      split; [apply lookup_insert_eq|].
      cbn [data pixels swizzled set_data set_swizzled].
      split; [apply Z.ltb_lt; lia|]. split; reflexivity.
Qed.


(** [C10] In every reachable state a streaming texture is linear:
    [TextureShouldSwizzle] is [false] for it, [TextureActivate] leaves the
    state as it is and hands [swizzled = false] to [sceGuTexMode], and
    [PSP_LockTexture] returns the address of the pixel [(x, y)] of the
    row-major block, [data + y * pitch + x * bytes per pixel], and the
    pitch, without a native call. *)
Theorem streaming_never_swizzled W t c :
  reachable W -> heap W !! t = Some c ->
  sdl_access c = SDL_TEXTUREACCESS_STREAMING ->
  swizzled c = false /\ TextureShouldSwizzle c = false /\
  TextureActivate t W =
    Some (tt, W, [sceGuTexMode (format c) false;
                  sceGuTexImage (textureWidth c) (textureHeight c)
                    (textureWidth c) (data c)]) /\
  forall x y,
    PSP_LockTexture t x y W =
    Some ((wrap_uint (data c + wrap_uint (y * pitch c)
                      + wrap_uint (x * SDL_BYTESPERPIXEL (sdl_format c))),
           wrap_int (pitch c)), W, []).
Proof.
  intros HR Hc Ha. destruct (reachable_Inv _ HR) as (_ & l & _ & Hcells).
  destruct (Hcells t c Hc) as [_ Hs]. specialize (Hs Ha).
  assert (Hsh : TextureShouldSwizzle c = false).
  { unfold TextureShouldSwizzle. rewrite Ha.
    rewrite (bool_decide_eq_true_2
               (SDL_TEXTUREACCESS_STREAMING = SDL_TEXTUREACCESS_STREAMING))
      by reflexivity.
    cbn [negb]. rewrite andb_false_r. reflexivity. }
  split; [exact Hs|]. split; [exact Hsh|]. split.
  - rewrite (TextureActivate_linear _ _ _ Hc Hsh), Hs. reflexivity.
  - intros x y. apply PSP_LockTexture_eval. exact Hc.
Qed.

End Residency.

(** *** The scenario, and the claims on it *)

Import FirstFit.

Lemma boot_reachable b : reachable (boot b).
Proof. apply reachable_initial. repeat split. Qed.

Ltac creates :=
  repeat (apply reachable_after_create;
          [|vm_compute; reflexivity|vm_compute; discriminate]);
  apply boot_reachable.

Lemma scene_reachable : reachable (scene 100000).
Proof. unfold scene. creates. Qed.

Lemma crowded_reachable : reachable (crowded 100000).
Proof. unfold crowded, scene. creates. Qed.

Lemma scene_tight_reachable : reachable (scene 512).
Proof. unfold scene. creates. Qed.

Lemma crowded_tight_reachable : reachable (crowded 512).
Proof. unfold crowded, scene. creates. Qed.

Lemma packed_reachable : reachable (packed 512).
Proof. unfold packed, crowded, scene. creates. Qed.

(** The two render targets of the scenario and a request for the whole
    KiB. *)
Lemma spill_loop_evicts_least_recent_witness :
  lru_list (scene 100000) [8192; 4096] /\
  resident_aligned (scene 100000) [8192; 4096] = true /\
  (length [8192; 4096]%Z < spill_fuel (scene 100000))%nat /\
  forall fuel, (length [8192; 4096]%Z < fuel)%nat ->
  exists ok W' tr keep ev,
    TextureSpillTargetsForSpace fuel 1024 (scene 100000) = Some (ok, W', tr) /\
    [8192; 4096] = keep ++ reverse ev /\ lru_list W' keep /\
    vram W' = frees (heap (scene 100000)) (vram (scene 100000)) ev /\
    (forall j, (j < length ev)%nat ->
       vlargestblock (frees (heap (scene 100000)) (vram (scene 100000)) (take j ev))
       < 1024) /\
    (forall x, x ∈ ev ->
       exists c', heap W' !! x = Some c' /\ InVram (data c') = false) /\
    (forall x, x ∉ ev ->
       unlinked <$> heap W' !! x = unlinked <$> heap (scene 100000) !! x) /\
    (ok = true <-> 1024 <= vlargestblock (vram W')) /\
    if ok then sram W' = mallocs (heap (scene 100000)) (sram (scene 100000)) ev
    else
      keep = [] /\ sram W' = mallocs (heap (scene 100000)) (sram (scene 100000)) ev \/
      exists t c, last keep = Some t /\ heap W' !! t = Some c /\
        fst (SDL_malloc (size c)
               (mallocs (heap (scene 100000)) (sram (scene 100000)) ev)) = NULL /\
        sram W' = snd (SDL_malloc (size c)
                         (mallocs (heap (scene 100000)) (sram (scene 100000)) ev)).
Proof.
  assert (H : lru_list (scene 100000) [8192; 4096])
    by (apply lru_check_sound; vm_compute; reflexivity).
  split; [exact H|]. split; [vm_compute; reflexivity|].
  apply (spill_loop_evicts_least_recent 1024 (scene 100000) [8192; 4096] H).
  vm_compute. reflexivity.
Defined.

(** With 256 bytes of system memory left, a request for 1024 bytes evicts
    the 256-byte target and fails on the 512-byte one, which is still in the
    list: the loop fails on a list that is not empty. What has failed is
    the [SDL_malloc] for the copy of the 512-byte target, which comes after
    the one for the 256-byte target. *)
Lemma spill_fails_with_targets_listed :
  let W := scene 512 in
  let W' := after W (TextureSpillTargetsForSpace (spill_fuel W) 1024) in
  result W (TextureSpillTargetsForSpace (spill_fuel W) 1024) = Some false /\
  lru_list W' [8192] /\ least_recent_target W' = 8192 /\
  vlargestblock (vram W') = 256 /\
  let s := mallocs (heap W) (sram W) [4096] in
  fst (SDL_malloc (size (cell W' 8192)) s) = NULL /\
  sram W' = snd (SDL_malloc (size (cell W' 8192)) s).
Proof.
  cbv zeta. split; [vm_compute; reflexivity|].
  split; [apply lru_check_sound; vm_compute; reflexivity|].
  repeat split; vm_compute; reflexivity.
Qed.

(** Binding the 8x8 target after the 16x8 one has pushed it out of video
    memory. *)
Lemma residency_invariant_witness :
  reachable (crowded 100000) /\
  let W' := after (crowded 100000) (TextureBindAsTarget 4096) in
  exists c' rest, heap W' !! 4096 = Some c' /\ InVram (data c') = true /\
    most_recent_target W' = 4096 /\ lru_list W' (4096 :: rest).
Proof.
  split; [exact crowded_reachable|].
  apply (proj2 (residency_invariant (crowded 100000) crowded_reachable)
           4096 (cell (crowded 100000) 4096) _
           (calls (crowded 100000) (TextureBindAsTarget 4096)));
    [vm_compute; reflexivity|vm_compute; reflexivity|].
  apply run_eq. vm_compute. reflexivity.
Defined.

(** With no system memory left: a spill that fails, a bind of the evicted
    8x8 target that fails on it, and the creation of the 16x8 target that
    fails after one eviction. *)
Lemma eviction_atomicity_witness :
  (let W := crowded 512 in
   let W' := after W (TextureSpillLRU 512) in
   heap W' = heap W /\ most_recent_target W' = most_recent_target W /\
   least_recent_target W' = least_recent_target W /\ vram W' = vram W) /\
  heap (after (packed 512) (TextureBindAsTarget 4096)) !! 4096
  = Some (cell (packed 512) 4096) /\
  heap (after (scene 512)
          (PSP_CreateTexture 16384 16 8 SDL_PIXELFORMAT_ABGR8888
             SDL_TEXTUREACCESS_TARGET)) !! 16384 = None.
Proof.
  split; [|split].
  - cbv zeta.
    refine (proj1 (eviction_atomicity (crowded 512)) 512
              (after (crowded 512) (TextureSpillLRU 512))
              (calls (crowded 512) (TextureSpillLRU 512)) _).
    apply run_eq. vm_compute. reflexivity.
  - refine (proj1 (proj2 (eviction_atomicity (packed 512)) packed_reachable)
              4096 (cell (packed 512) 4096)
              (after (packed 512) (TextureBindAsTarget 4096))
              (calls (packed 512) (TextureBindAsTarget 4096)) _ _ _);
      [vm_compute; reflexivity|vm_compute; reflexivity|].
    apply run_eq. vm_compute. reflexivity.
  - refine (proj2 (proj2 (eviction_atomicity (scene 512)) scene_tight_reachable)
              16384 16 8 SDL_PIXELFORMAT_ABGR8888
              (after (scene 512)
                 (PSP_CreateTexture 16384 16 8 SDL_PIXELFORMAT_ABGR8888
                    SDL_TEXTUREACCESS_TARGET))
              (calls (scene 512)
                 (PSP_CreateTexture 16384 16 8 SDL_PIXELFORMAT_ABGR8888
                    SDL_TEXTUREACCESS_TARGET)) _ _);
      [vm_compute; reflexivity|].
    apply run_eq. vm_compute. reflexivity.
Defined.

(** The eviction of the 8x8 target of the scenario. *)
Lemma migration_layouts_witness :
  let W := scene 100000 in
  let c := cell W 4096 in
  heap W !! 4096 = Some c /\ aligned c = true /\ InVram (data c) = true /\
  exists ok W' tr, TextureSpillToSram 4096 W = Some (ok, W', tr) /\
    (ok = true ->
     exists c', heap W' !! 4096 = Some c' /\ InVram (data c') = false /\
       swizzled c' = true /\
       Some (pixels c') =
       if swizzled c then Some (pixels c)
       else '(bw, h) ← codec_dims c;
            swizzle_pixels bw h (pixels c) (junk_block W (size c))).
Proof.
  cbv zeta.
  assert (Hc : heap (scene 100000) !! 4096 = Some (cell (scene 100000) 4096))
    by (vm_compute; reflexivity).
  assert (Ha : aligned (cell (scene 100000) 4096) = true) by (vm_compute; reflexivity).
  assert (Hv : InVram (data (cell (scene 100000) 4096)) = true)
    by (vm_compute; reflexivity).
  split; [exact Hc|]. split; [exact Ha|]. split; [exact Hv|].
  exact (proj1 (migration_layouts (scene 100000) 4096 _ Hc Ha) Hv).
Defined.

(** The 8x8 target of the scenario is linear in video memory. Evicted, it
    is swizzled in system memory, its words in another order; promoted for a
    bind, it is linear again, with the words it had. *)
Lemma eviction_swizzles_promotion_unswizzles :
  let W := scene 100000 in
  let W1 := after W (TextureSpillToSram 4096) in
  let W2 := after W1 (TexturePromoteToVram 4096 true) in
  (swizzled (cell W 4096) = false /\ InVram (data (cell W 4096)) = true) /\
  (result W (TextureSpillToSram 4096) = Some true /\
   InVram (data (cell W1 4096)) = false /\ swizzled (cell W1 4096) = true /\
   bool_decide (pixels (cell W1 4096) = pixels (cell W 4096)) = false) /\
  (result W1 (TexturePromoteToVram 4096 true) = Some true /\
   InVram (data (cell W2 4096)) = true /\ swizzled (cell W2 4096) = false /\
   pixels (cell W2 4096) = pixels (cell W 4096)).
Proof. cbv zeta. repeat split; vm_compute; reflexivity. Qed.


(** The streaming texture of the scenario. *)
Lemma streaming_never_swizzled_witness :
  let W := scene 100000 in
  let c := cell W 12288 in
  reachable W /\ heap W !! 12288 = Some c /\
  sdl_access c = SDL_TEXTUREACCESS_STREAMING /\
  swizzled c = false /\ TextureShouldSwizzle c = false /\
  TextureActivate 12288 W =
    Some (tt, W, [sceGuTexMode (format c) false;
                  sceGuTexImage (textureWidth c) (textureHeight c)
                    (textureWidth c) (data c)]) /\
  forall x y,
    PSP_LockTexture 12288 x y W =
    Some ((wrap_uint (data c + wrap_uint (y * pitch c)
                      + wrap_uint (x * SDL_BYTESPERPIXEL (sdl_format c))),
           wrap_int (pitch c)), W, []).
Proof.
  cbv zeta.
  assert (Hc : heap (scene 100000) !! 12288 = Some (cell (scene 100000) 12288))
    by (vm_compute; reflexivity).
  assert (Ha : sdl_access (cell (scene 100000) 12288) = SDL_TEXTUREACCESS_STREAMING)
    by (vm_compute; reflexivity).
  split; [exact scene_reachable|]. split; [exact Hc|]. split; [exact Ha|].
  exact (streaming_never_swizzled (scene 100000) 12288 _ scene_reachable Hc Ha).
Defined.

End PspSpec.

(** ** Locking a texture, on both back ends *)

Module LockSpec.

Import Psp PspSpec FirstFit.

(** [C9] [VITA_GXM_LockTexture] issues [sceGxmFinish], once, exactly when
    the texture has a render target. [PSP_LockTexture] issues no native call
    and changes nothing, whatever the texture: on the PSP a lock does not
    wait for the GPU. *)
Theorem lock_drains_render_targets_on_vita_only :
  (forall d texture rect t, Gxm.textures d !! texture = Some t ->
     exists r,
       Gxm.VITA_GXM_LockTexture texture rect d =
       Some (r, d, if Gxm.gxm_rendertarget t =? Gxm.NULL then []
                   else [Gxm.sceGxmFinish])) /\
  (forall (Alloc : Allocators) (W : @World Alloc) t x y r W' tr,
     @PSP_LockTexture Alloc t x y W = Some (r, W', tr) -> W' = W /\ tr = []).
Proof.
  split.
  - intros d texture rect t Ht. unfold Gxm.VITA_GXM_LockTexture, Gxm.vita_texture_of,
      bind, when, emit, ret. rewrite Ht.
    destruct (Gxm.gxm_rendertarget t =? Gxm.NULL); eexists; reflexivity.
  - intros Alloc W t x y r W' tr H. unfold PSP_LockTexture in H.
    step_as H c W1 tr1 Hd. apply deref_Some in Hd as (Hc & -> & ->).
    prim_m H. auto.
Qed.

(** The render target of the Vita example, and the 8x8 target of the PSP
    scenario. *)
Lemma lock_drains_render_targets_on_vita_only_witness :
  (exists r,
     Gxm.VITA_GXM_LockTexture 200 (Gxm.mkRect 0 0 8 8) GxmSpec.example_data =
     Some (r, GxmSpec.example_data, [Gxm.sceGxmFinish])) /\
  (let W := scene 100000 in
   after W (PSP_LockTexture 4096 0 0) = W /\ calls W (PSP_LockTexture 4096 0 0) = []).
Proof.
  split.
  - refine (proj1 lock_drains_render_targets_on_vita_only GxmSpec.example_data 200
              (Gxm.mkRect 0 0 8 8)
              (Gxm.mkTex 1024 8192 4 300 Gxm.SDL_SCALEMODE_INVALID
                 Gxm.SDL_TEXTURE_ADDRESS_INVALID Gxm.SDL_TEXTURE_ADDRESS_INVALID) _).
    vm_compute. reflexivity.
  - cbv zeta.
    refine (proj2 lock_drains_render_targets_on_vita_only _ (scene 100000) 4096 0 0
              (69204992, 32) _ _ _).
    apply run_eq. vm_compute. reflexivity.
Defined.

(** The 8x8 render target of the scenario is in video memory and in the
    list; locking it returns its address and makes no native call. *)
Lemma psp_lock_of_render_target_does_not_drain :
  let W := scene 100000 in
  let c := cell W 4096 in
  (heap W !! 4096 = Some c /\ sdl_access c = SDL_TEXTUREACCESS_TARGET /\
   InVram (data c) = true /\ lru_list W [8192; 4096]) /\
  result W (PSP_LockTexture 4096 0 0) = Some (69204992, 32) /\
  calls W (PSP_LockTexture 4096 0 0) = [].
Proof.
  cbv zeta. split; [split; [|split; [|split]]|split]; try (vm_compute; reflexivity).
  apply lru_check_sound. vm_compute. reflexivity.
Qed.

End LockSpec.

(** ** Copies of rows of bytes *)

Module BytesSpec.

Import Psp PspSpec Bytes.

(** [in_rows dst dpitch length h i]: byte [i] of the block lies in one of
    the [h] rows of [length] bytes that start at [dst], [dpitch] apart. *)
Definition in_rows (dst dpitch length_ h i : Z) : Prop :=
  exists r c, 0 <= r < h /\ 0 <= c < length_ /\ i = dst + r * dpitch + c.

(** The copy of [n] bytes, and of [n] rows. *)
Lemma SDL_memcpy_spec dst d src s n :
  0 <= d -> 0 <= s -> 0 <= n ->
  d + n <= Z.of_nat (length dst) -> s + n <= Z.of_nat (length src) ->
  exists m, SDL_memcpy dst d src s n = Some m /\ length m = length dst /\
    (forall k, 0 <= k < n -> load m (d + k) = load src (s + k)) /\
    (forall i, ~ (d <= i < d + n) -> load m i = load dst i).
Proof.
  intros Hd Hs Hn Hdn Hsn. unfold SDL_memcpy.
  rewrite (proj2 (Z.leb_le 0 d) Hd), (proj2 (Z.leb_le 0 s) Hs), (proj2 (Z.leb_le 0 n) Hn),
    (proj2 (Z.leb_le _ _) Hdn), (proj2 (Z.leb_le _ _) Hsn). cbn [andb].
  eexists. split; [reflexivity|].
  assert (L1 : length (take (Z.to_nat d) dst) = Z.to_nat d)
    by (apply length_take_le; lia).
  assert (L2 : length (take (Z.to_nat n) (drop (Z.to_nat s) src)) = Z.to_nat n)
    by (apply length_take_le; rewrite length_drop; lia).
  split; [rewrite !length_app, L1, L2, length_drop; lia|]. split.
  - intros k Hk. unfold load.
    rewrite (proj2 (Z.leb_le 0 (d + k)) ltac:(lia)), (proj2 (Z.leb_le 0 (s + k)) ltac:(lia)).
    rewrite lookup_app_r by lia. rewrite L1.
    rewrite lookup_app_l by lia.
    rewrite lookup_take_lt by lia. rewrite lookup_drop. f_equal. lia.
  - intros i Hi. unfold load. destruct (0 <=? i) eqn:E; [|reflexivity].
    apply Z.leb_le in E.
    destruct (decide (i < d)) as [Hlt|Hge].
    + rewrite lookup_app_l by lia. apply lookup_take_lt. lia.
    + rewrite lookup_app_r by lia. rewrite L1.
      rewrite lookup_app_r by lia. rewrite L2.
      rewrite lookup_drop. f_equal. lia.
Qed.

Lemma copy_rows_spec pixels pitch dpitch length_ (n : nat) : forall block dst src,
  0 <= length_ -> length_ <= dpitch -> 0 <= pitch ->
  0 <= dst -> 0 <= src ->
  (n <> O -> dst + (Z.of_nat n - 1) * dpitch + length_ <= Z.of_nat (length block)) ->
  (n <> O -> src + (Z.of_nat n - 1) * pitch + length_ <= Z.of_nat (length pixels)) ->
  exists b, copy_rows n block dst dpitch pixels src pitch length_ = Some b /\
    length b = length block /\
    (forall r c, 0 <= r < Z.of_nat n -> 0 <= c < length_ ->
       load b (dst + r * dpitch + c) = load pixels (src + r * pitch + c)) /\
    (forall i, ~ in_rows dst dpitch length_ (Z.of_nat n) i -> load b i = load block i).
Proof.
  induction n as [|n IH]; intros block dst src Hl Hdp Hp Hd Hs Hb Hsrc.
  - exists block. split; [reflexivity|]. split; [reflexivity|].
    split; [intros; lia|]. intros; reflexivity.
  - cbn [copy_rows]. specialize (Hb ltac:(discriminate)). specialize (Hsrc ltac:(discriminate)).
    rewrite Nat2Z.inj_succ in Hb, Hsrc.
    assert (0 <= Z.of_nat n * dpitch) by nia.
    assert (0 <= Z.of_nat n * pitch) by nia.
    destruct (SDL_memcpy_spec block dst pixels src length_) as (b1 & E1 & L1 & V1 & F1);
      try lia.
    rewrite E1. cbn [mbind option_bind].
    assert (Hb' : n <> O -> dst + dpitch + (Z.of_nat n - 1) * dpitch + length_
                            <= Z.of_nat (length b1)) by (intros Hn; rewrite L1; nia).
    assert (Hs' : n <> O -> src + pitch + (Z.of_nat n - 1) * pitch + length_
                            <= Z.of_nat (length pixels)) by (intros Hn; nia).
    destruct (IH b1 (dst + dpitch) (src + pitch) Hl Hdp Hp ltac:(lia) ltac:(lia) Hb' Hs')
      as (b & E & Lb & V & F).
    exists b. split; [exact E|]. split; [lia|]. split.
    + intros r c Hr Hc. destruct (decide (r = 0)) as [->|Hr0].
      * rewrite F.
        -- rewrite !Z.mul_0_l, !Z.add_0_r. apply V1. exact Hc.
        -- intros (r' & c' & Hr' & Hc' & Ei). nia.
      * replace (dst + r * dpitch + c) with (dst + dpitch + (r - 1) * dpitch + c) by lia.
        replace (src + r * pitch + c) with (src + pitch + (r - 1) * pitch + c) by lia.
        apply V; lia.
    + intros i Hi. rewrite F.
      * apply F1. intros Hin. apply Hi. exists 0, (i - dst). lia.
      * intros (r' & c' & Hr' & Hc' & Ei). apply Hi. exists (r' + 1), c'. lia.
Qed.

End BytesSpec.

(** ** The Vita translator: scenes, vertex counts and the clamp *)

Module GxmQueueSpec.
Import Gxm GxmSpec.

(** The vertices a command asks for: its count for a draw command, the
    three of the full-screen triangle for a clear. *)
Definition vertices_of (c : SDL_RenderCommand) : Z :=
  match command c with
  | SDL_RENDERCMD_DRAW_POINTS | SDL_RENDERCMD_DRAW_LINES
  | SDL_RENDERCMD_GEOMETRY => count (draw c)
  | SDL_RENDERCMD_CLEAR => 3
  | _ => 0
  end.

(** The vertices of a queue and the index counts of a trace. *)
Definition queued (q : list SDL_RenderCommand) : Z :=
  foldr (fun c acc => vertices_of c + acc) 0 q.

Definition submitted (tr : list GxmCall) : Z :=
  foldr (fun p acc => snd p + acc) 0 (draw_calls tr).

(** Opening or closing a scene. *)
Definition is_scene (e : GxmCall) : bool :=
  match e with sceGxmBeginScene _ | sceGxmEndScene => true | _ => false end.

(** A command that neither draws nor clears. *)
Definition changes_state_only (c : SDL_RenderCommand) : Prop :=
  command c <> SDL_RENDERCMD_CLEAR /\ ~ is_draw_cmd (command c).

(** The render target of the scene [StartDrawing] opens, and the call that
    opens it when none is open. *)
Definition scene_target (d : VITA_GXM_RenderData) : ptr :=
  if target d =? NULL then renderTarget d
  else match textures d !! target d with
       | Some t => gxm_rendertarget t
       | None => NULL
       end.

Definition begin_scene (d : VITA_GXM_RenderData) : list GxmCall :=
  if drawing d then [] else [sceGxmBeginScene (scene_target d)].

(** Coordinates whose sums stay within [int]. *)
Definition small (r : SDL_Rect) : Prop :=
  - 2^28 <= x r < 2^28 /\ - 2^28 <= y r < 2^28 /\
  - 2^28 <= w r < 2^28 /\ - 2^28 <= h r < 2^28.

(** A frame: a viewport, a clear, two triangle lists on one texture and a
    point list. *)
Definition example_queue : list SDL_RenderCommand :=
  [example_draw SDL_RENDERCMD_SETVIEWPORT 0 SDL_BLENDMODE_BLEND NULL;
   example_draw SDL_RENDERCMD_CLEAR 0 SDL_BLENDMODE_BLEND NULL;
   example_draw SDL_RENDERCMD_GEOMETRY 3 SDL_BLENDMODE_BLEND 100;
   example_draw SDL_RENDERCMD_GEOMETRY 6 SDL_BLENDMODE_BLEND 100;
   example_draw SDL_RENDERCMD_DRAW_POINTS 5 SDL_BLENDMODE_ADD NULL].

Lemma submitted_app t1 t2 : submitted (t1 ++ t2) = submitted t1 + submitted t2.
Proof.
  unfold submitted. rewrite draw_calls_app.
  induction (draw_calls t1) as [|p l IH]; simpl; [reflexivity|]. rewrite IH. lia.
Qed.

Lemma submitted_quiet tr :
  Forall (fun e => is_draw_call e = false) tr -> submitted tr = 0.
Proof. intros H. unfold submitted. rewrite (draw_calls_quiet _ H). reflexivity. Qed.

Lemma queued_app q1 q2 : queued (q1 ++ q2) = queued q1 + queued q2.
Proof.
  unfold queued. induction q1 as [|c q1 IH]; simpl; [reflexivity|]. rewrite IH. lia.
Qed.

Lemma wrap_uint_add_l a b : wrap_uint (wrap_uint a + b) = wrap_uint (a + b).
Proof. unfold wrap_uint. apply Zplus_mod_idemp_l. Qed.

Lemma wrap_uint_congr a b c : wrap_uint a = wrap_uint b -> wrap_uint (a + c) = wrap_uint (b + c).
Proof.
  intros H. rewrite <- (wrap_uint_add_l a), <- (wrap_uint_add_l b), H. reflexivity.
Qed.

Lemma wrap_uint_add a a' b b' :
  wrap_uint a = wrap_uint a' -> wrap_uint b = wrap_uint b' ->
  wrap_uint (a + b) = wrap_uint (a' + b').
Proof.
  unfold wrap_uint. intros Ha Hb.
  rewrite (Zplus_mod a b), (Zplus_mod a' b'), Ha, Hb. reflexivity.
Qed.

Lemma merge_scan_sum ty tex bl next : forall cnt,
  exists merged,
    next = merged ++ snd (merge_scan ty tex bl next cnt) /\
    Forall (fun n => command n = ty) merged /\
    wrap_uint (fst (merge_scan ty tex bl next cnt)) = wrap_uint (cnt + total_count merged).
Proof.
  induction next as [|n next IH]; intros cnt; cbn [merge_scan].
  - exists []. cbn. rewrite Z.add_0_r. auto.
  - destruct (decide (command n <> ty)) as [Hne|Heq].
    { exists []. cbn. rewrite Z.add_0_r. auto. }
    destruct (negb (texture (draw n) =? tex) || negb (blend (draw n) =? bl)).
    { exists []. cbn. rewrite Z.add_0_r. auto. }
    destruct (IH (wrap_uint (cnt + count (draw n)))) as (merged & E & Hall & Hs).
    exists (n :: merged). split; [cbn; f_equal; exact E|]. split.
    + constructor; [|exact Hall]. destruct (decide (command n = ty)); [assumption|contradiction].
    + rewrite Hs. cbn [total_count foldr]. fold (total_count merged).
      rewrite wrap_uint_add_l. f_equal. lia.
Qed.

Lemma queued_draws ty merged :
  is_draw_cmd ty -> Forall (fun n => command n = ty) merged ->
  queued merged = total_count merged.
Proof.
  intros Hty. induction 1 as [|n l Hn _ IH]; [reflexivity|].
  cbn [queued total_count foldr]. fold (queued l). fold (total_count l). rewrite IH.
  unfold vertices_of. rewrite Hn.
  destruct Hty as [->|[->| ->]]; reflexivity.
Qed.

Lemma RenderClear_sum d r d' tr :
  VITA_GXM_RenderClear d = Some (r, d', tr) -> submitted tr = 3.
Proof.
  unfold VITA_GXM_RenderClear, upd_ds, bind, emit, get, modify, ret.
  intros [= <- <- <-]. reflexivity.
Qed.

Lemma run_command_sum c next d next' d' tr :
  run_command c next d = Some (next', d', tr) ->
  exists merged, next = merged ++ next' /\
    wrap_uint (submitted tr) = wrap_uint (queued (c :: merged)) /\
    (length (draw_calls tr) <= 1)%nat.
Proof.
  unfold run_command. intros H.
  step_as H n1 d1 t1 Hbody. step_as H u d2 t2 Hu. prim_m Hu. prim_m H.
  rewrite !app_nil_r.
  assert (Hstate : forall m : G (list SDL_RenderCommand),
            frame (fun _ => tt) is_draw_call m ->
            (forall s a s' t, m s = Some (a, s', t) -> a = next) ->
            m d = Some (next', d1, t1) -> vertices_of c = 0 ->
            exists merged, next = merged ++ next' /\
              wrap_uint (submitted t1) = wrap_uint (queued (c :: merged)) /\
              (length (draw_calls t1) <= 1)%nat).
  { intros m Hf Hr Hm Hv. exists []. rewrite (Hr _ _ _ _ Hm). split; [reflexivity|].
    destruct (Hf _ _ _ _ Hm) as [_ Hq]. rewrite (submitted_quiet _ Hq).
    rewrite (draw_calls_quiet _ Hq).
    cbn [queued foldr]. rewrite Hv. split; [reflexivity|cbn; lia]. }
  assert (Hdraw : is_draw_cmd (command c) ->
            (let '(count_, after_final) :=
               merge_scan (command c) (texture (draw c)) (blend (draw c)) next
                 (count (draw c)) in
             bind (SetDrawState c) (fun ret_ =>
               bind (when ret_
                 (bind (if decide (command c = SDL_RENDERCMD_DRAW_POINTS)
                        then emit (sceGxmSetFrontPolygonMode SCE_GXM_POLYGON_MODE_POINT)
                        else if decide (command c = SDL_RENDERCMD_DRAW_LINES)
                        then emit (sceGxmSetFrontPolygonMode SCE_GXM_POLYGON_MODE_LINE)
                        else ret tt)
                   (fun _ => bind
                      (emit (sceGxmDraw
                         (if decide (command c = SDL_RENDERCMD_DRAW_POINTS)
                          then SCE_GXM_PRIMITIVE_POINTS
                          else if decide (command c = SDL_RENDERCMD_DRAW_LINES)
                          then SCE_GXM_PRIMITIVE_LINES
                          else SCE_GXM_PRIMITIVE_TRIANGLES) count_))
                      (fun _ => when (bool_decide (command c = SDL_RENDERCMD_DRAW_POINTS
                                        \/ command c = SDL_RENDERCMD_DRAW_LINES))
                         (emit (sceGxmSetFrontPolygonMode
                                  SCE_GXM_POLYGON_MODE_TRIANGLE_FILL))))))
                 (fun _ => ret after_final))) d = Some (next', d1, t1) ->
            exists merged, next = merged ++ next' /\
              wrap_uint (submitted t1) = wrap_uint (queued (c :: merged)) /\
              (length (draw_calls t1) <= 1)%nat).
  { intros Hty Hm.
    destruct (merge_scan_sum (command c) (texture (draw c)) (blend (draw c)) next
                (count (draw c))) as (merged & E & Hall & Hs).
    destruct (merge_scan (command c) (texture (draw c)) (blend (draw c)) next
                (count (draw c))) as [cnt after_final]. cbn [fst snd] in *.
    step_as Hm r d3 t3 HS.
    pose proof (SetDrawState_true _ _ _ _ _ HS) as ->.
    destruct (SetDrawState_no_draw c _ _ _ _ HS) as [_ Hq].
    step_as Hm u1 d4 t4 Hw. prim_m Hm. cbn [when] in Hw.
    step_as Hw u2 d5 t5 Hpm. step_as Hw u3 d6 t6 He. prim_m He.
    exists merged. split; [first [exact E|reflexivity]|].
    assert (Hn5 : draw_calls t5 = []).
    { repeat case_decide; prim_m Hpm; reflexivity. }
    assert (Hn0 : draw_calls tr0 = []).
    { destruct (bool_decide _); cbn [when] in Hw; prim_m Hw; reflexivity. }
    split; [|rewrite !draw_calls_app, (draw_calls_quiet _ Hq), Hn5, Hn0; cbn; lia].
    assert (Hp : submitted t5 = 0).
    { repeat case_decide; prim_m Hpm; reflexivity. }
    assert (Hf : submitted tr0 = 0).
    { destruct (bool_decide _); cbn [when] in Hw; prim_m Hw; reflexivity. }
    rewrite !submitted_app, (submitted_quiet _ Hq), Hp, Hf.
    match goal with |- context [submitted [sceGxmDraw ?op cnt]] =>
      change (submitted [sceGxmDraw op cnt]) with (cnt + 0) end.
    change (submitted []) with 0.
    match goal with |- wrap_uint ?e = _ => replace e with cnt by lia end.
    rewrite Hs. cbn [queued foldr]. fold (queued merged).
    rewrite (queued_draws _ _ Hty Hall). f_equal.
    unfold vertices_of. destruct Hty as [->|[->| ->]]; reflexivity. }
  destruct (command c) eqn:Hcmd;
    try (apply Hdraw; [unfold is_draw_cmd; auto|exact Hbody]);
    try (match type of Hbody with
         | ?m d = _ =>
             apply (Hstate m);
             [ unfold upd_ds; cbv zeta; repeat frame_step
             | intros s a s' t Hr; cbv zeta in Hr; repeat step_m Hr; prim_m Hr; reflexivity
             | exact Hbody
             | unfold vertices_of; rewrite Hcmd; reflexivity ]
         end).
  step_as Hbody b d3 t3 Hcl. prim_m Hbody. exists []. split; [reflexivity|].
  rewrite app_nil_r, (RenderClear_sum _ _ _ _ Hcl).
  cbn [queued foldr]. unfold vertices_of. rewrite Hcmd. split; [reflexivity|].
  unfold VITA_GXM_RenderClear, upd_ds, bind, emit, get, modify, ret in Hcl.
  injection Hcl as _ _ <-. cbn. lia.
Qed.

Lemma run_loop_sum (fuel : nat) : forall q d u d' tr,
  run_loop fuel q d = Some (u, d', tr) ->
  wrap_uint (submitted tr) = wrap_uint (queued q) /\
  (length (draw_calls tr) <= length q)%nat.
Proof.
  induction fuel as [|fuel IH]; intros q d u d' tr H.
  - destruct q; [|discriminate]. injection H as _ _ <-. split; [reflexivity|cbn; lia].
  - destruct q as [|c next]; [injection H as _ _ <-; split; [reflexivity|cbn; lia]|].
    cbn [run_loop] in H. step_as H next' d1 t1 Hc.
    destruct (run_command_sum _ _ _ _ _ _ Hc) as (merged & -> & Hs & Hn).
    apply IH in H as [H Hlen]. split.
    + rewrite submitted_app. change (c :: merged ++ next') with ((c :: merged) ++ next').
      rewrite queued_app.
      apply wrap_uint_add; assumption.
    + rewrite draw_calls_app, length_app. cbn [length]. rewrite length_app. lia.
Qed.

Lemma StartDrawing_eq d :
  (target d <> NULL -> is_Some (textures d !! target d)) ->
  exists d0, textures d0 = textures d /\
    StartDrawing d = Some (tt, d0, begin_scene d).
Proof.
  intros Ht. unfold StartDrawing, begin_scene, scene_target, upd_ds.
  rewrite bind_get. destruct (drawing d); [exists d; split; reflexivity|].
  destruct (target d =? NULL) eqn:Et.
  - eexists. split; [|reflexivity]. reflexivity.
  - apply Z.eqb_neq in Et. destruct (Ht Et) as [v Hv].
    unfold bind, modify, vita_texture_of, emit. cbn [textures set_drawstate].
    rewrite Hv. eexists. split; [|reflexivity]. reflexivity.
Qed.

Lemma RunCommandQueue_eq q d :
  (target d <> NULL -> is_Some (textures d !! target d)) ->
  exists d0, textures d0 = textures d /\
    VITA_GXM_RunCommandQueue q d =
    match run_loop (length q) q d0 with
    | Some (_, d1, tr1) =>
        Some (true, set_drawing false d1, begin_scene d ++ tr1 ++ [sceGxmEndScene])
    | None => None
    end.
Proof.
  intros Ht. destruct (StartDrawing_eq d Ht) as (d0 & Etex & HSD).
  unfold VITA_GXM_RunCommandQueue, upd_ds.
  rewrite (bind_eq _ _ _ _ _ _ HSD), bind_get.
  match goal with |- context [bind (modify ?f) _ d0] =>
    rewrite bind_eq with (m := modify f) (a := tt) (s1 := f d0) (t1 := []) by reflexivity end.
  match goal with |- context [let '(w_, h_) := ?p in _] => destruct p as [w_ h_] end.
  rewrite bind_get.
  match goal with |- context [when ?b ?m] => destruct b; cbn [when] end.
  - set (dA := set_drawstate (set_ds_target (target d0) (drawstate d0)) d0).
    exists (set_drawstate (set_drawable w_ h_
              (set_cliprect_dirty true (set_viewport_dirty true (drawstate dA)))) dA).
    split; [exact Etex|]. unfold bind, modify, emit, ret.
    destruct (run_loop _ _ _) as [[[u d1] tr1]|]; [|reflexivity].
    rewrite ?app_nil_r. reflexivity.
  - exists (set_drawstate (set_ds_target (target d0) (drawstate d0)) d0).
    split; [exact Etex|]. unfold bind, modify, emit, ret.
    destruct (run_loop _ _ _) as [[[u d1] tr1]|]; [|reflexivity].
    rewrite ?app_nil_r. reflexivity.
Qed.

Lemma valid_in_textures T d d0 :
  textures d0 = textures d -> valid_in T d -> valid_in T d0.
Proof. intros E H t HT Ht. rewrite E. apply H; assumption. Qed.

(** [X10] The vertices the translator submits are those that were queued:
    the index counts of the draw calls add up, modulo 2^32, to the counts of
    the draw commands plus 3 for each clear, and there are no more draw calls
    than commands. *)
Theorem vertex_count_is_conserved q d :
  (target d <> NULL -> is_Some (textures d !! target d)) ->
  valid_in (textures_of q) d ->
  exists d' tr,
    VITA_GXM_RunCommandQueue q d = Some (true, d', tr) /\
    wrap_uint (submitted tr) = wrap_uint (queued q) /\
    (length (draw_calls tr) <= length q)%nat.
Proof.
  intros Ht Hv. destruct (RunCommandQueue_eq q d Ht) as (d0 & Etex & ->).
  destruct (run_loop_defined (textures_of q) (length q) q (le_n _)) with (s := d0)
    as ([] & d1 & tr1 & H1 & _).
  { apply Forall_forall. intros n Hn. exists n. split; [exact Hn|reflexivity]. }
  { eapply valid_in_textures; eassumption. }
  rewrite H1. do 2 eexists. split; [reflexivity|].
  destruct (run_loop_sum _ _ _ _ _ _ H1) as [Hs Hlen].
  assert (Hb : draw_calls (begin_scene d) = [])
    by (unfold begin_scene; destruct (drawing d); reflexivity).
  split.
  - rewrite !submitted_app. unfold submitted at 1. rewrite Hb.
    change (submitted [sceGxmEndScene]) with 0. cbn [foldr].
    rewrite Z.add_0_l, Z.add_0_r. exact Hs.
  - rewrite !draw_calls_app, Hb, !length_app. cbn. lia.
Qed.

Lemma run_command_state c next d :
  changes_state_only c -> exists d', run_command c next d = Some (next, d', []).
Proof.
  intros [Hc Hd]. unfold run_command.
  destruct (command c) eqn:Hcmd; try contradiction;
    try (exfalso; apply Hd; unfold is_draw_cmd; auto; fail);
    unfold bind, get, upd_ds, modify, when, ret; cbv zeta;
    repeat case_match; simplify_eq/=; eexists; reflexivity.
Qed.

Lemma run_loop_state (fuel : nat) : forall q d,
  (length q <= fuel)%nat -> Forall changes_state_only q ->
  exists d', textures d' = textures d /\ run_loop fuel q d = Some (tt, d', []).
Proof.
  induction fuel as [|fuel IH]; intros q d Hlen Hq.
  - destruct q; [|simpl in Hlen; lia]. exists d. split; reflexivity.
  - destruct q as [|c next]; [exists d; split; reflexivity|].
    apply Forall_cons in Hq as [Hc Hnext]. cbn [run_loop].
    destruct (run_command_state c next d Hc) as (d1 & H1).
    destruct (IH next d1) as (d2 & E2 & H2); [simpl in Hlen; lia|exact Hnext|].
    exists d2. rewrite (bind_eq _ _ _ _ _ _ H1), H2. split; [|reflexivity].
    rewrite E2. clear -H1 Hc. destruct Hc as [Hc Hd]. unfold run_command in H1.
    destruct (command c); try contradiction;
      try (exfalso; apply Hd; unfold is_draw_cmd; auto; fail);
      unfold bind, get, upd_ds, modify, when, ret in H1; cbv zeta in H1;
      repeat case_match; simplify_eq/=; reflexivity.
Qed.

(** [X11] A queue of state commands only (viewport, clip rectangle, draw
    colour, no-op) issues no native call but the opening and the closing of
    the scene: the changes wait in the cache for the next draw. *)
Theorem state_commands_are_deferred q d :
  (target d <> NULL -> is_Some (textures d !! target d)) ->
  Forall changes_state_only q ->
  exists d',
    VITA_GXM_RunCommandQueue q d = Some (true, d', begin_scene d ++ [sceGxmEndScene]) /\
    drawing d' = false /\ textures d' = textures d.
Proof.
  intros Ht Hq. destruct (RunCommandQueue_eq q d Ht) as (d0 & Etex & ->).
  destruct (run_loop_state (length q) q d0 (le_n _) Hq) as (d1 & E1 & ->).
  exists (set_drawing false d1). split; [reflexivity|]. split; [reflexivity|].
  cbn [textures set_drawing]. congruence.
Qed.

Lemma run_command_no_scene c next : frame (fun _ => tt) is_scene (run_command c next).
Proof.
  unfold run_command, SetDrawState, VITA_GXM_SetBlendMode, VITA_GXM_RenderClear, upd_ds.
  destruct (command c); cbv zeta; try destruct (merge_scan _ _ _ _ _);
    repeat frame_step.
Qed.

Lemma run_loop_no_scene (fuel : nat) : forall q, frame (fun _ => tt) is_scene (run_loop fuel q).
Proof.
  induction fuel as [|fuel IH]; intros q; destruct q as [|c next]; cbn [run_loop];
    try apply frame_ret; try apply frame_undefined.
  apply frame_bind; [apply run_command_no_scene|intros ?; apply IH].
Qed.

(** [X12] A run of the translator is one scene: [sceGxmBeginScene] first
    (unless a scene is open), [sceGxmEndScene] last, neither in between, and
    [drawing] is false afterwards. *)
Theorem scene_is_bracketed q d :
  (target d <> NULL -> is_Some (textures d !! target d)) ->
  valid_in (textures_of q) d ->
  exists d' mid,
    VITA_GXM_RunCommandQueue q d =
      Some (true, d', begin_scene d ++ mid ++ [sceGxmEndScene]) /\
    Forall (fun e => is_scene e = false) mid /\
    drawing d' = false.
Proof.
  intros Ht Hv. destruct (RunCommandQueue_eq q d Ht) as (d0 & Etex & ->).
  destruct (run_loop_defined (textures_of q) (length q) q (le_n _)) with (s := d0)
    as ([] & d1 & tr1 & H1 & _).
  { apply Forall_forall. intros n Hn. exists n. split; [exact Hn|reflexivity]. }
  { eapply valid_in_textures; eassumption. }
  rewrite H1. exists (set_drawing false d1), tr1. split; [reflexivity|].
  split; [|reflexivity]. apply (run_loop_no_scene _ _ _ _ _ _ H1).
Qed.

Lemma example_queue_valid : valid_in (textures_of example_queue) example_data.
Proof.
  intros t (n & Hn & ->) Ht. unfold example_queue in Hn.
  repeat (apply elem_of_cons in Hn as [->|Hn]);
    try (exfalso; apply Ht; reflexivity); try (eexists; reflexivity).
  apply elem_of_nil in Hn. contradiction.
Qed.

Lemma example_target : target example_data <> NULL ->
  is_Some (textures example_data !! target example_data).
Proof. intros H. exfalso. apply H. reflexivity. Qed.

(** The frame of the example: 3 + 3 + 6 + 5 vertices. *)
Lemma vertex_count_is_conserved_witness :
  queued example_queue = 17 /\
  exists d' tr,
    VITA_GXM_RunCommandQueue example_queue example_data = Some (true, d', tr) /\
    wrap_uint (submitted tr) = wrap_uint (queued example_queue) /\
    (length (draw_calls tr) <= length example_queue)%nat.
Proof.
  split; [reflexivity|].
  exact (vertex_count_is_conserved example_queue example_data example_target
           example_queue_valid).
Defined.

(** Four state commands on the screen target. *)
Lemma state_commands_are_deferred_witness :
  let q := [example_draw SDL_RENDERCMD_SETVIEWPORT 0 SDL_BLENDMODE_BLEND NULL;
            example_draw SDL_RENDERCMD_SETCLIPRECT 0 SDL_BLENDMODE_BLEND NULL;
            example_draw SDL_RENDERCMD_SETDRAWCOLOR 0 SDL_BLENDMODE_BLEND NULL;
            example_draw SDL_RENDERCMD_NO_OP 0 SDL_BLENDMODE_BLEND NULL] in
  exists d',
    VITA_GXM_RunCommandQueue q example_data
      = Some (true, d', [sceGxmBeginScene 1; sceGxmEndScene]) /\
    drawing d' = false /\ textures d' = textures example_data.
Proof.
  cbv zeta.
  refine (state_commands_are_deferred _ example_data example_target _).
  repeat constructor; try discriminate; intros [H|[H|H]]; discriminate H.
Defined.

Lemma scene_is_bracketed_witness :
  exists d' mid,
    VITA_GXM_RunCommandQueue example_queue example_data =
      Some (true, d', [sceGxmBeginScene 1] ++ mid ++ [sceGxmEndScene]) /\
    Forall (fun e => is_scene e = false) mid /\
    drawing d' = false.
Proof.
  exact (scene_is_bracketed example_queue example_data example_target example_queue_valid).
Defined.

(** [X13] What [ClampCliprectToViewport] computes, for coordinates whose
    sums do not overflow: a negative origin is moved to 0 and the far edge
    kept, and a far edge beyond that of the viewport is moved further out by
    the excess. *)
Theorem clamp_cliprect_moves_far_edges_outward clip vp :
  small clip -> small vp ->
  let r := ClampCliprectToViewport clip vp in
  x r = Z.max 0 (x clip) /\ y r = Z.max 0 (y clip) /\
  x r + w r = x clip + w clip + Z.max 0 (x clip + w clip - (x vp + w vp)) /\
  y r + h r = y clip + h clip + Z.max 0 (y clip + h clip - (y vp + h vp)).
Proof.
  intros (Hx & Hy & Hw & Hh) (Hvx & Hvy & Hvw & Hvh).
  unfold ClampCliprectToViewport.
  destruct clip as [cx cy cw ch], vp as [vx vy vw vh]. cbn [x y w h] in *.
  assert (P28 : 2^28 = 268435456) by reflexivity.
  assert (P31 : 2^31 = 2147483648) by reflexivity.
  cbv zeta; destruct (Z.ltb_spec cx 0); cbn [x y w h];
    destruct (Z.ltb_spec cy 0); cbn [x y w h];
    repeat match goal with
           | |- context [wrap_int ?z] => rewrite (PspSpec.wrap_int_small z) by lia
           end;
    repeat match goal with
           | |- context [?a >? ?b] => destruct (Z.gtb_spec a b); cbn [x y w h]
           end;
    repeat match goal with
           | |- context [wrap_int ?z] => rewrite (PspSpec.wrap_int_small z) by lia
           end;
    lia.
Qed.

(** A clip rectangle that starts left of the screen and ends below it. *)
Lemma clamp_cliprect_moves_far_edges_outward_witness :
  let r := ClampCliprectToViewport (mkRect (-10) 20 100 700) (mkRect 0 0 960 544) in
  x r = 0 /\ y r = 20 /\ x r + w r = 90 /\ y r + h r = 720 + (720 - 544).
Proof.
  apply (clamp_cliprect_moves_far_edges_outward (mkRect (-10) 20 100 700) (mkRect 0 0 960 544));
    unfold small; cbn [x y w h]; lia.
Defined.

End GxmQueueSpec.

(** ** Reading back the frame buffer *)

Module GxmPixelsSpec.
Import Psp PspSpec GxmPixels.

Section Rows.
Variables (width height pitch : Z) (fb : list Z).
Hypothesis Hw : 0 <= width.
Hypothesis Hsize : width * height < 2^32.
Hypothesis Hw31 : width < 2^31.
Hypothesis Hh31 : height < 2^31.

(** One row, then the rows from [i] on. *)
Lemma read_row_spec (n : nat) : forall j in32 out row,
  0 <= j -> j + Z.of_nat n = width ->
  0 <= in32 -> in32 + width <= Z.of_nat (length fb) ->
  0 <= row -> row + width <= Z.of_nat (length out) -> row + width <= 2^32 ->
  exists o, read_row n j fb in32 out row = Some o /\ length o = length out /\
    (forall k, j <= k < width -> load o (row + k) = load fb (in32 + k)) /\
    (forall q, ~ (row + j <= q < row + width) -> load o q = load out q).
Proof.
  induction n as [|n IH]; intros j in32 out row Hj Hn Hi1 Hi2 Hr1 Hr2 Hr3.
  - exists out. split; [reflexivity|]. split; [reflexivity|]. split; [intros k Hk; lia|].
    intros q _. reflexivity.
  - cbn [read_row]. rewrite Nat2Z.inj_succ in Hn.
    rewrite (proj2 (Z.leb_gt 2147483647 j)) by lia. rewrite wrap_uint_small by lia.
    destruct (copy_word_spec fb (in32 + j) out (row + j)) as (o1 & E1 & L1 & V1 & F1);
      [lia|lia|].
    rewrite E1. cbn [mbind option_bind].
    destruct (IH (j + 1) in32 o1 row) as (o & E & Lo & V & F); try lia.
    exists o. split; [exact E|]. split; [lia|]. split.
    + intros k Hk. destruct (decide (k = j)) as [->|Hne].
      * rewrite F by lia. exact V1.
      * apply V. lia.
    + intros q Hq. rewrite F by lia. apply F1. lia.
Qed.

Lemma read_rows_spec (n : nat) : forall i in32 out,
  0 <= i -> i + Z.of_nat n = height ->
  0 <= in32 -> in32 + pitch * Z.of_nat n <= Z.of_nat (length fb) + (pitch - width) ->
  width <= pitch ->
  Z.of_nat (length out) = width * height ->
  exists o, read_rows n i width height fb in32 pitch out = Some o /\
    length o = length out /\
    (forall r k, i <= r < height -> 0 <= k < width ->
       load o ((height - 1 - r) * width + k) = load fb (in32 + (r - i) * pitch + k)) /\
    (forall r k, 0 <= r < i -> 0 <= k < width ->
       load o ((height - 1 - r) * width + k) = load out ((height - 1 - r) * width + k)).
Proof.
  induction n as [|n IH]; intros i in32 out Hi Hn Hi1 Hi2 Hp Hlen.
  - exists out. split; [reflexivity|]. split; [reflexivity|]. split; [intros; lia|].
    intros; reflexivity.
  - cbn [read_rows]. rewrite Nat2Z.inj_succ in Hn, Hi2. rewrite Z.mul_succ_r in Hi2.
    rewrite (proj2 (Z.leb_gt 2147483647 i)) by lia.
    assert (Hrow : 0 <= (height - (i + 1)) * width
                   /\ (height - (i + 1)) * width + width <= width * height) by nia.
    rewrite (wrap_uint_small (height - (i + 1))) by lia.
    rewrite wrap_uint_small by lia.
    destruct (read_row_spec (Z.to_nat width) 0 in32 out ((height - (i + 1)) * width))
      as (o1 & E1 & L1 & V1 & F1); try lia.
    { nia. }
    rewrite E1. cbn [mbind option_bind].
    destruct (IH (i + 1) (in32 + pitch) o1) as (o & E & Lo & V & F); try lia.
    exists o. split; [exact E|]. split; [lia|]. split.
    + intros r k Hr Hk. destruct (decide (r = i)) as [->|Hne].
      * rewrite F by lia.
        replace ((height - 1 - i) * width + k) with ((height - (i + 1)) * width + k) by lia.
        rewrite V1 by lia. f_equal. lia.
      * rewrite V by lia. f_equal. lia.
    + intros r k Hr Hk. rewrite F by lia. apply F1. nia.
Qed.

End Rows.

(** [X14] [read_pixels] copies the [width] x [height] window at ([x], [y])
    of the frame buffer bottom row first: row [r] of the output is row
    [y + height - 1 - r] of the frame buffer. *)
Theorem read_pixels_flips_rows x y width height pitch (fb out : list Z) :
  0 <= x -> 0 <= y -> 0 <= width -> 0 <= height ->
  x + width <= pitch -> (y + height) * pitch <= Z.of_nat (length fb) ->
  Z.of_nat (length out) = width * height -> width * height < 2^32 ->
  width < 2^31 -> height < 2^31 -> Z.of_nat (length fb) < 2^32 ->
  exists o, read_pixels x y width height fb pitch out = Some o /\
    length o = length out /\
    forall r k, 0 <= r < height -> 0 <= k < width ->
      load o (r * width + k) = load fb ((y + (height - 1 - r)) * pitch + x + k).
Proof.
  intros Hx Hy Hw Hh Hxw Hfb Hout Hsize Hw31 Hh31 Hfbsize. unfold read_pixels.
  destruct (decide (height = 0)) as [->|Hh0].
  { exists out. split; [reflexivity|]. split; [reflexivity|]. intros; lia. }
  assert (Hoff : 0 <= x + y * pitch /\ x + y * pitch + pitch * height
                   <= Z.of_nat (length fb) + (pitch - width)) by nia.
  rewrite wrap_uint_small by nia.
  destruct (read_rows_spec width height pitch fb Hw Hsize Hw31 Hh31 (Z.to_nat height) 0
              (x + y * pitch) out) as (o & E & Lo & V & _); try lia.
  exists o. split; [exact E|]. split; [exact Lo|].
  intros r k Hr Hk.
  specialize (V (height - 1 - r) k ltac:(lia) Hk).
  replace (height - 1 - (height - 1 - r)) with r in V by lia.
  rewrite V. f_equal. lia.
Qed.

(** A 2x2 window of a frame buffer of two rows of four words. *)
Lemma read_pixels_flips_rows_witness :
  exists o, read_pixels 1 0 2 2 [10; 11; 12; 13; 20; 21; 22; 23] 4 [0; 0; 0; 0] = Some o /\
    load o 0 = Some 21 /\ load o 3 = Some 12.
Proof.
  destruct (read_pixels_flips_rows 1 0 2 2 4 [10; 11; 12; 13; 20; 21; 22; 23] [0; 0; 0; 0])
    as (o & E & _ & V); [lia|lia|lia|lia|lia|cbn; lia|reflexivity|lia|lia|lia|cbn; lia|].
  exists o. split; [exact E|]. split.
  - apply (V 0 0); lia.
  - apply (V 1 1); lia.
Defined.

End GxmPixelsSpec.

(** ** Presenting on the Vita *)

Module GxmPresentSpec.
Import GxmPresent.
Local Open Scope m_scope.

(** [n] frames presented one after the other. *)
Fixpoint presents (n : nat) : M DisplayData PresentCall unit :=
  match n with
  | O => ret tt
  | S n' => VITA_GXM_RenderPresent ;;; presents n'
  end.

(** The (old, new) buffers of the display-queue entries of a trace. *)
Definition entries (tr : list PresentCall) : list (Z * Z) :=
  omap (fun e => match e with
                 | sceGxmDisplayQueueAddEntry o n _ => Some (o, n)
                 | _ => None
                 end) tr.

(** The buffers [b], [b + 1], ... taken round the ring, [n] of them, each
    paired with the one before it ([prev] for the first). *)
Fixpoint ring (sync : Z -> Z) (prev : Z) (b : Z) (n : nat) : list (Z * Z) :=
  match n with
  | O => []
  | S n' => (prev, sync b) :: ring sync (sync b) ((b + 1) mod 3) n'
  end.

Definition well_formed (s : DisplayData) : Prop :=
  length (displayBufferData s) = 3%nat /\ length (displayBufferSync s) = 3%nat /\
  0 <= backBufferIndex s < 3 /\ 0 <= frontBufferIndex s < 3.

Definition sync_of (s : DisplayData) (i : Z) : Z :=
  default 0 (displayBufferSync s !! Z.to_nat i).

Lemma index_eq a i s v :
  0 <= i -> a !! Z.to_nat i = Some v -> index a i s = Some (v, s, []).
Proof.
  intros Hi Hv. unfold index. rewrite (proj2 (Z.leb_le 0 i) Hi), Hv. reflexivity.
Qed.

Lemma RenderPresent_eval s :
  well_formed s ->
  exists s',
    VITA_GXM_RenderPresent s =
      Some (true, s',
            [sceCommonDialogUpdate (displayData_address s') (depthBufferData s)
               (sync_of s (backBufferIndex s));
             sceGxmDisplayQueueAddEntry (sync_of s (frontBufferIndex s))
               (sync_of s (backBufferIndex s)) (displayData_address s')]) /\
    displayBufferData s' = displayBufferData s /\
    displayBufferSync s' = displayBufferSync s /\
    frontBufferIndex s' = backBufferIndex s /\
    backBufferIndex s' = (backBufferIndex s + 1) mod 3 /\
    displayBufferData s !! Z.to_nat (backBufferIndex s) = Some (displayData_address s').
Proof.
  intros (Hd & Hs & Hb & Hf).
  destruct (lookup_lt_is_Some_2 (displayBufferData s) (Z.to_nat (backBufferIndex s)))
    as [a Ha]; [lia|].
  destruct (lookup_lt_is_Some_2 (displayBufferSync s) (Z.to_nat (backBufferIndex s)))
    as [n Hn]; [lia|].
  destruct (lookup_lt_is_Some_2 (displayBufferSync s) (Z.to_nat (frontBufferIndex s)))
    as [o Ho]; [lia|].
  exists (mkDisplay (displayBufferData s) (displayBufferSync s) (depthBufferData s)
            (wrap_uint (backBufferIndex s + 1) mod VITA_GXM_BUFFERS)
            (backBufferIndex s) 0 (wrap_uint (current_pool s + 1) mod 2) a).
  split.
  - unfold VITA_GXM_RenderPresent. rewrite bind_get.
    rewrite (bind_eq _ _ _ _ _ _ (index_eq _ _ s a (proj1 Hb) Ha)).
    rewrite (bind_eq _ _ _ _ _ _ (index_eq _ _ s n (proj1 Hb) Hn)).
    unfold bind at 1. unfold emit at 1.
    rewrite (bind_eq _ _ _ _ _ _ (index_eq _ _ s o (proj1 Hf) Ho)).
    unfold bind, emit, put, ret. cbn [app].
    unfold sync_of. rewrite Hn, Ho. cbn [default displayData_address]. reflexivity.
  - cbn. split; [reflexivity|]. split; [reflexivity|]. split; [reflexivity|].
    split; [|exact Ha]. unfold VITA_GXM_BUFFERS.
    unfold wrap_uint; rewrite (Z.mod_small (backBufferIndex s + 1)) by lia. reflexivity.
Qed.

(** [X15] [n] presents take the buffers round the ring of three: each entry
    of the display queue hands over from the buffer on display to the next
    one, after a present the front buffer is the one just queued, and it is
    never the back buffer. *)
Theorem presents_go_round_the_ring (n : nat) : forall s,
  well_formed s ->
  exists s' tr,
    presents n s = Some (tt, s', tr) /\ well_formed s' /\
    backBufferIndex s' = (backBufferIndex s + Z.of_nat n) mod 3 /\
    (n <> O -> frontBufferIndex s' = (backBufferIndex s + Z.of_nat n - 1) mod 3 /\
               frontBufferIndex s' <> backBufferIndex s') /\
    entries tr = ring (sync_of s) (sync_of s (frontBufferIndex s)) (backBufferIndex s) n.
Proof.
  induction n as [|n IH]; intros s Hwf.
  - exists s, []. split; [reflexivity|]. split; [exact Hwf|].
    destruct Hwf as (_ & _ & Hb & _). split; [rewrite Z.add_0_r, Z.mod_small by lia; reflexivity|].
    split; [intros E; contradiction|reflexivity].
  - destruct (RenderPresent_eval s Hwf) as (s1 & E1 & Hd1 & Hs1 & Hf1 & Hb1 & _).
    pose proof Hwf as (Hd & Hs & Hb & Hf).
    assert (Hwf1 : well_formed s1).
    { unfold well_formed. rewrite Hd1, Hs1, Hf1, Hb1.
      pose proof (Z.mod_pos_bound (backBufferIndex s + 1) 3). repeat split; lia. }
    destruct (IH s1 Hwf1) as (s' & tr & E & Hwf' & Hb' & Hf' & Hent).
    exists s'. eexists. split; [|split; [exact Hwf'|]].
    { cbn [presents]. rewrite (bind_eq _ _ _ _ _ _ E1), E. reflexivity. }
    assert (Esync : sync_of s1 = sync_of s).
    { unfold sync_of. rewrite Hs1. reflexivity. }
    split; [|split].
    + rewrite Hb', Hb1, Nat2Z.inj_succ, Zplus_mod_idemp_l. f_equal. lia.
    + intros _. destruct n as [|n].
      * assert (s' = s1) as -> by (cbn [presents] in E; unfold ret in E; congruence).
        rewrite Hf1, Hb1. split.
        { replace (backBufferIndex s + Z.of_nat 1 - 1) with (backBufferIndex s) by lia.
          rewrite Z.mod_small by lia. reflexivity. }
        assert (backBufferIndex s = 0 \/ backBufferIndex s = 1 \/ backBufferIndex s = 2)
          as [E0|[E0|E0]] by lia.
        all: rewrite E0; vm_compute; discriminate.
      * destruct (Hf' ltac:(discriminate)) as [Hfe Hne]. split; [|exact Hne].
        rewrite Hfe, Hb1, !Nat2Z.inj_succ.
        rewrite <- Z.add_sub_assoc, Zplus_mod_idemp_l. f_equal. lia.
    + match goal with |- entries (?a ++ tr) = _ =>
        change (entries (a ++ tr)) with
          ((sync_of s (frontBufferIndex s), sync_of s (backBufferIndex s)) :: entries tr) end.
      cbn [ring]. f_equal. rewrite Hent, Esync, Hf1, Hb1. reflexivity.
Qed.

(** Four presents from back buffer 1. *)
Lemma presents_go_round_the_ring_witness :
  let s := mkDisplay [1000; 2000; 3000] [10; 20; 30] 4000 1 0 0 0 0 in
  exists s' tr,
    presents 4 s = Some (tt, s', tr) /\ backBufferIndex s' = 2 /\
    entries tr = [(10, 20); (20, 30); (30, 10); (10, 20)].
Proof.
  cbv zeta.
  destruct (presents_go_round_the_ring 4 (mkDisplay [1000; 2000; 3000] [10; 20; 30] 4000 1 0 0 0 0))
    as (s' & tr & E & _ & Hb & _ & Hent).
  { unfold well_formed. cbn. repeat split; lia. }
  exists s', tr. split; [exact E|]. split; [exact Hb|exact Hent].
Defined.

End GxmPresentSpec.

(** ** Updating a planar texture on the Vita *)

Module GxmUpdateSpec.

Import Gxm Bytes BytesSpec GxmUpdate.
Import Psp(load).
Local Open Scope m_scope.

(** The call [VITA_GXM_SetYUVProfile] makes for a texture. *)
Definition profile_call (texture : SDL_Texture) : UpdateCall :=
  match colorspace_matrix texture with
  | MATRIX_BT601 =>
      sceGxmSetYuvProfile (if colorspace_limited_range texture
                           then SCE_GXM_YUV_PROFILE_BT601_STANDARD
                           else SCE_GXM_YUV_PROFILE_BT601_FULL_RANGE)
  | MATRIX_BT709 =>
      sceGxmSetYuvProfile (if colorspace_limited_range texture
                           then SCE_GXM_YUV_PROFILE_BT709_STANDARD
                           else SCE_GXM_YUV_PROFILE_BT709_FULL_RANGE)
  | MATRIX_OTHER => SDL_LogError_unsupported_colorspace
  end.

(** The drain of a lock. *)
Definition lock_calls (t : VITA_GXM_TextureData) : list UpdateCall :=
  if gxm_rendertarget t =? NULL then [] else [gxm sceGxmFinish].

(** A plane to copy: [rows] rows of [len] bytes, to [dst] in the block with
    rows [dpitch] apart, from [off] in [src] with rows [spitch] apart. *)
Record plane := mkPlane {
  dst : Z; dpitch : Z; len : Z; rows : Z;
  src : list Z; off : Z; spitch : Z
}.

Definition copy (block : list Z) (j : plane) : option (list Z * Z) :=
  copy_plane block (dst j) (dpitch j) (src j) (off j) (spitch j) (len j) (rows j).

(** The planes of a list copied one after the other. *)
Fixpoint copies (block : list Z) (js : list plane) : option (list Z) :=
  match js with
  | [] => Some block
  | j :: rest => b ← copy block j; copies (fst b) rest
  end.

(** The bytes of the block that a plane covers. *)
Definition covers (j : plane) (i : Z) : Prop :=
  in_rows (dst j) (dpitch j) (len j) (rows j) i.

(** [fits n lo hi j]: the plane is well formed, its rows lie between [lo]
    and [hi] in a block of [n] bytes, and its source holds them. *)
Definition fits (n lo hi : Z) (j : plane) : Prop :=
  0 <= len j <= dpitch j /\ 0 <= spitch j /\ 0 <= off j /\ 0 < rows j /\
  len j * rows j < 2^31 /\
  0 <= lo <= dst j /\ dst j + (rows j - 1) * dpitch j + len j <= hi /\ hi <= n /\
  off j + (rows j - 1) * spitch j + len j <= Z.of_nat (length (src j)).

(** The block shows the plane: each byte of its rows is the source's. *)
Definition shows (b : list Z) (j : plane) : Prop :=
  forall r c, 0 <= r < rows j -> 0 <= c < len j ->
    load b (dst j + r * dpitch j + c) = load (src j) (off j + r * spitch j + c).

(** Planes in intervals that do not meet. *)
Fixpoint apart (js : list (plane * (Z * Z))) : Prop :=
  match js with
  | [] => True
  | (_, (lo, hi)) :: rest =>
      Forall (fun k => hi <= fst (snd k) \/ snd (snd k) <= lo) rest /\ apart rest
  end.

(** [painted block js b]: [b] is [block] with the planes [js] on it. *)
Definition painted (block : list Z) (js : list plane) (b : list Z) : Prop :=
  length b = length block /\
  Forall (shows b) js /\
  forall i, Forall (fun j => ~ covers j i) js -> load b i = load block i.

(** The planes of a planar YUV texture of pitch [P] and [H] rows: the Y
    plane, then two chroma planes of [(H + 1) / 2] rows of [(P + 1) / 2]
    bytes. [Yrows] is the rectangle in the Y plane and [chroma k] its half
    in chroma plane [k]. *)
Definition Yrows (t : VITA_GXM_TextureData) (rect : SDL_Rect) (l : Z)
    (s : list Z) (o sp : Z) : plane :=
  mkPlane (y rect * pitch t + x rect * bytespp t) (pitch t) l (h rect) s o sp.

Definition chroma_plane (t : VITA_GXM_TextureData) (texture : SDL_Texture) (k : Z) : Z :=
  pitch t * vita_h texture + k * ((pitch t + 1) / 2 * ((vita_h texture + 1) / 2)).

Definition chroma (t : VITA_GXM_TextureData) (texture : SDL_Texture) (rect : SDL_Rect)
    (k : Z) (s : list Z) (o sp : Z) : plane :=
  mkPlane (chroma_plane t texture k + y rect / 2 * ((pitch t + 1) / 2) + x rect / 2)
    ((pitch t + 1) / 2) ((w rect + 1) / 2) ((h rect + 1) / 2) s o sp.

(** A rectangle inside a planar texture whose planes the block holds. *)
Definition inside (t : VITA_GXM_TextureData) (texture : SDL_Texture) (rect : SDL_Rect)
    (n : Z) : Prop :=
  0 <= x rect /\ 0 <= y rect /\ 0 <= w rect /\ 0 < h rect /\ 0 < bytespp t /\
  x rect * bytespp t + w rect <= pitch t /\ y rect + h rect <= vita_h texture /\
  vita_h texture < 2^30 /\ chroma_plane t texture 2 <= n /\ n < 2^31.

(** A planar texture of 8x4 pixels at 300: a Y plane of 32 bytes and two
    chroma planes of 8. *)
Definition yuv_cell : VITA_GXM_TextureData :=
  mkTex 8 4096 1 NULL SDL_SCALEMODE_INVALID
    SDL_TEXTURE_ADDRESS_INVALID SDL_TEXTURE_ADDRESS_INVALID.

Definition yuv_data : VITA_GXM_RenderData :=
  set_textures (<[300 := yuv_cell]> (textures GxmSpec.example_data)) GxmSpec.example_data.

Definition yuv_texture (yv12 : bool) : SDL_Texture :=
  mkTexture 300 yv12 MATRIX_BT601 true 4 true false.

Lemma SetYUVProfile_eval texture d :
  VITA_GXM_SetYUVProfile texture d = Some (tt, d, [profile_call texture]).
Proof.
  unfold VITA_GXM_SetYUVProfile, profile_call.
  destruct (colorspace_matrix texture), (colorspace_limited_range texture); reflexivity.
Qed.

Lemma LockTexture_eval texture rect d t :
  textures d !! texture = Some t ->
  in_gxm (VITA_GXM_LockTexture texture rect) d =
    Some ((datap t + y rect * pitch t + x rect * bytespp t, pitch t), d, lock_calls t).
Proof.
  intros Ht. unfold in_gxm, VITA_GXM_LockTexture, vita_texture_of, lock_calls,
    bind, when, emit, ret. rewrite Ht.
  destruct (gxm_rendertarget t =? NULL); reflexivity.
Qed.

Lemma texture_of_eval texture d t :
  textures d !! texture = Some t ->
  in_gxm (vita_texture_of texture) d = Some (t, d, []).
Proof. intros Ht. unfold in_gxm, vita_texture_of. rewrite Ht. reflexivity. Qed.

Lemma defined_or_ub_eq {A} (o : option A) a (d : VITA_GXM_RenderData) :
  o = Some a -> defined_or_ub o d = Some (a, d, []).
Proof. intros ->. reflexivity. Qed.

Lemma in_rows_range d0 dp l h i :
  0 <= l <= dp -> in_rows d0 dp l h i -> d0 <= i < d0 + (h - 1) * dp + l.
Proof. intros Hl (r & c & Hr & Hc & ->). nia. Qed.

(** Whether a byte lies in the rows is decided by a division. *)
Lemma in_rows_decide d0 dp l h i :
  0 <= l <= dp -> in_rows d0 dp l h i \/ ~ in_rows d0 dp l h i.
Proof.
  intros Hl. destruct (decide (0 < dp)) as [Hdp|Hdp].
  - destruct (decide (0 <= i - d0 /\ (i - d0) / dp < h /\ (i - d0) mod dp < l))
      as [(H0 & Hr & Hc)|Hn].
    + left. exists ((i - d0) / dp), ((i - d0) mod dp).
      pose proof (Z.div_mod (i - d0) dp ltac:(lia)).
      pose proof (Z.mod_pos_bound (i - d0) dp Hdp).
      split; [split; [apply Z.div_pos; lia|exact Hr]|]. split; lia.
    + right. intros (r & c & Hr & Hc & ->). apply Hn.
      replace (d0 + r * dp + c - d0) with (c + r * dp) by lia.
      rewrite Z.div_add, Z.mod_add by lia.
      rewrite Z.div_small, Z.mod_small by lia. nia.
  - right. intros (r & c & Hr & Hc & _). lia.
Qed.

(** One plane: rows of [l] bytes land [dp] apart from [d0] on, and the
    source pointer has moved past them. *)
Lemma copy_plane_spec block d0 dp pixels s0 sp l h :
  0 <= l <= dp -> 0 <= sp -> 0 <= d0 -> 0 <= s0 -> 0 < h ->
  l * h < 2^31 ->
  d0 + (h - 1) * dp + l <= Z.of_nat (length block) ->
  s0 + (h - 1) * sp + l <= Z.of_nat (length pixels) ->
  exists b, copy_plane block d0 dp pixels s0 sp l h = Some (b, s0 + sp * h) /\
    length b = length block /\
    (forall r c, 0 <= r < h -> 0 <= c < l ->
       load b (d0 + r * dp + c) = load pixels (s0 + r * sp + c)) /\
    (forall i, ~ in_rows d0 dp l h i -> load b i = load block i).
Proof.
  intros Hlen Hp Hd Hs Hh H31 Hblock Hsrc. unfold copy_plane.
  destruct ((l =? sp) && (l =? dp)) eqn:Efast.
  - apply andb_true_iff in Efast as [E1 E2]. apply Z.eqb_eq in E1, E2.
    assert (Hlh : 0 <= l * h) by nia.
    rewrite (PspSpec.wrap_int_small (l * h)) by lia.
    rewrite (PspSpec.wrap_int_small (sp * h)) by (rewrite <- E1; lia).
    assert (Hd1 : d0 + l * h <= Z.of_nat (length block)).
    { rewrite <- E2 in Hblock.
      replace (d0 + l * h) with (d0 + (h - 1) * l + l) by ring. exact Hblock. }
    assert (Hs1 : s0 + l * h <= Z.of_nat (length pixels)).
    { rewrite <- E1 in Hsrc.
      replace (s0 + l * h) with (s0 + (h - 1) * l + l) by ring. exact Hsrc. }
    destruct (SDL_memcpy_spec block d0 pixels s0 (l * h) Hd Hs Hlh Hd1 Hs1)
      as (b & E & Lb & V & F).
    rewrite E. cbn [mbind option_bind]. eexists. split; [reflexivity|].
    split; [exact Lb|]. split.
    + intros r c Hr Hc. rewrite <- E1, <- E2.
      replace (d0 + r * l + c) with (d0 + (r * l + c)) by lia.
      replace (s0 + r * l + c) with (s0 + (r * l + c)) by lia.
      apply V. nia.
    + intros i Hi. apply F. intros Hin. apply Hi.
      assert (0 < l) by nia.
      exists ((i - d0) / l), ((i - d0) mod l).
      pose proof (Z.div_mod (i - d0) l ltac:(lia)).
      pose proof (Z.mod_pos_bound (i - d0) l ltac:(lia)).
      assert (0 <= (i - d0) / l < h).
      { split; [apply Z.div_pos; lia|]. apply Z.div_lt_upper_bound; lia. }
      rewrite <- E2. split; [assumption|]. split; [assumption|]. lia.
  - assert (Hb' : Z.to_nat h <> O ->
                  d0 + (Z.of_nat (Z.to_nat h) - 1) * dp + l
                  <= Z.of_nat (length block))
      by (intros _; rewrite Z2Nat.id by lia; exact Hblock).
    assert (Hs' : Z.to_nat h <> O ->
                  s0 + (Z.of_nat (Z.to_nat h) - 1) * sp + l
                  <= Z.of_nat (length pixels))
      by (intros _; rewrite Z2Nat.id by lia; exact Hsrc).
    destruct (copy_rows_spec pixels sp dp l (Z.to_nat h) block d0 s0
                (proj1 Hlen) (proj2 Hlen) Hp Hd Hs Hb' Hs') as (b & E & Lb & V & F).
    rewrite Z2Nat.id in V, F by lia. rewrite Z2Nat.id by lia.
    rewrite E. cbn [mbind option_bind]. eexists. split; [reflexivity|].
    split; [exact Lb|]. split; assumption.
Qed.

Lemma copy_spec block j lo hi :
  fits (Z.of_nat (length block)) lo hi j ->
  exists b, copy block j = Some (b, off j + spitch j * rows j) /\
    length b = length block /\ shows b j /\
    (forall i, ~ covers j i -> load b i = load block i) /\
    (forall i, covers j i -> lo <= i < hi).
Proof.
  intros (Hl & Hp & Ho & Hr & H31 & Hlo & Hhi & Hn & Hs).
  destruct (copy_plane_spec block (dst j) (dpitch j) (src j) (off j) (spitch j)
              (len j) (rows j)) as (b & E & Lb & V & F); try lia.
  exists b. split; [exact E|]. split; [exact Lb|]. split; [exact V|].
  split; [exact F|]. intros i Hi. apply in_rows_range in Hi; lia.
Qed.

(** Planes in intervals that do not meet can be copied in any order: the
    block ends up with all of them on it. *)
Lemma copies_spec (js : list (plane * (Z * Z))) : forall block,
  Forall (fun k => fits (Z.of_nat (length block)) (fst (snd k)) (snd (snd k)) (fst k)) js ->
  apart js ->
  exists b, copies block (map fst js) = Some b /\ painted block (map fst js) b.
Proof.
  induction js as [|[j [lo hi]] js IH]; intros block Hfit Hap.
  - exists block. split; [reflexivity|]. split; [reflexivity|]. split; [constructor|].
    intros; reflexivity.
  - apply Forall_cons in Hfit as [Hj Hrest]. cbn [fst snd] in Hj.
    destruct Hap as [Hsep Hap].
    destruct (copy_spec block j lo hi Hj) as (b1 & E1 & L1 & V1 & F1 & R1).
    destruct (IH b1) as (b & E & Lb & Vb & Fb); [|exact Hap|].
    { rewrite L1. exact Hrest. }
    exists b. cbn [map copies fst]. rewrite E1. cbn [mbind option_bind fst].
    split; [exact E|]. split; [lia|]. split.
    + constructor; [|exact Vb].
      intros r c Hr Hc. rewrite <- V1 by assumption. apply Fb.
      apply Forall_forall. intros j' Hj' Hcov.
      apply list_elem_of_fmap in Hj' as ([j2 [lo2 hi2]] & -> & Hin).
      rewrite Forall_forall in Hsep, Hrest.
      specialize (Hsep _ Hin). specialize (Hrest _ Hin). cbn [fst snd] in *.
      destruct (copy_spec b1 j2 lo2 hi2) as (_ & _ & _ & _ & _ & R2);
        [rewrite L1; exact Hrest|].
      apply R2 in Hcov.
      assert (Hc1 : covers j (dst j + r * dpitch j + c)) by (exists r, c; auto).
      apply R1 in Hc1. lia.
    + intros i Hi. apply Forall_cons in Hi as [Hi1 Hi2].
      rewrite (Fb i Hi2). apply F1. exact Hi1.
Qed.

(** Two blocks with the same planes on the same block are equal. *)
Lemma painted_unique block js b b' :
  Forall (fun j => 0 <= len j <= dpitch j) js ->
  painted block js b -> painted block js b' -> b = b'.
Proof.
  intros Hwf (L & V & F) (L' & V' & F').
  apply PspSpec.load_ext; [congruence|]. intros p _.
  assert (Hcase : Exists (fun j => covers j p) js \/ Forall (fun j => ~ covers j p) js).
  { clear -Hwf. induction Hwf as [|j js Hj _ IH]; [right; constructor|].
    destruct (in_rows_decide (dst j) (dpitch j) (len j) (rows j) p Hj) as [Hc|Hc].
    - left. left. exact Hc.
    - destruct IH as [IH|IH]; [left; right; exact IH|right; constructor; assumption]. }
  destruct Hcase as [Hex|Hall].
  - apply Exists_exists in Hex as (j & Hj & r & c & Hr & Hc & ->).
    rewrite Forall_forall in V, V'.
    rewrite (V j Hj r c Hr Hc), (V' j Hj r c Hr Hc). reflexivity.
  - rewrite (F p Hall), (F' p Hall). reflexivity.
Qed.


Lemma load_drop (l : list Z) s k :
  0 <= s -> 0 <= k -> load (drop (Z.to_nat s) l) k = load l (s + k).
Proof.
  intros Hs Hk. unfold load.
  rewrite (proj2 (Z.leb_le 0 k) Hk), (proj2 (Z.leb_le 0 (s + k)) ltac:(lia)).
  rewrite lookup_drop. f_equal. lia.
Qed.

Lemma half_up_sum a b c :
  0 <= a -> 0 <= b -> a + b <= c -> a / 2 + (b + 1) / 2 <= (c + 1) / 2.
Proof. intros Ha Hb Hc. Z.div_mod_to_equations. lia. Qed.

(** What the code computes for a rectangle inside the texture, and where
    its rows lie. *)
Lemma yuv_geometry t texture rect n :
  inside t texture rect n ->
  let P := pitch t in
  let H := vita_h texture in
  let uvp := (P + 1) / 2 in
  let uvh := (H + 1) / 2 in
  let S := uvp * uvh in
  let ux := x rect / 2 in
  let uy := y rect / 2 in
  let uw := (w rect + 1) / 2 in
  let uh := (h rect + 1) / 2 in
  (UVrect_of rect = mkRect ux uy uw uh /\
   Z.quot (wrap_int (P + 1)) 2 = uvp /\
   skip_Y_plane t texture = P * H /\
   chroma_plane_size uvp texture = S /\
   wrap_int (uy * uvp) = uy * uvp) /\
  (0 <= w rect <= P /\ w rect * h rect < 2^31 /\
   0 <= y rect * P + x rect * bytespp t /\
   y rect * P + x rect * bytespp t + (h rect - 1) * P + w rect <= P * H) /\
  (0 <= P * H /\ 0 <= S /\ P * H + 2 * S <= n /\
   0 <= uy * uvp + ux /\ 0 <= uw <= uvp /\ 0 < uh /\ uw * uh < 2^31 /\
   uy * uvp + ux + (uh - 1) * uvp + uw <= S).
Proof.
  intros (Hx & Hy & Hw & Hh & Hbpp & Hxw & Hyh & H30 & Hblock & Hn).
  intros P H uvp uvh S ux uy uw uh.
  destruct rect as [rx ry rw rh]. cbn [x y w h] in *.
  unfold chroma_plane in Hblock. fold P H uvp uvh S in Hblock, Hxw, Hyh, H30 |- *.
  set (bpp := bytespp t) in *.
  assert (A2 : 0 <= rx * bpp) by (apply Z.mul_nonneg_nonneg; lia).
  assert (A2' : rx * 1 <= rx * bpp) by (apply Z.mul_le_mono_nonneg_l; lia).
  assert (HP0 : 0 <= P) by lia.
  assert (Huvp : 2 * uvp <= P + 1 <= 2 * uvp + 1)
    by (unfold uvp; Z.div_mod_to_equations; lia).
  assert (Huvh : 2 * uvh <= H + 1 <= 2 * uvh + 1)
    by (unfold uvh; Z.div_mod_to_equations; lia).
  assert (Hux : 0 <= ux) by (unfold ux; Z.div_mod_to_equations; lia).
  assert (Huy : 0 <= uy) by (unfold uy; Z.div_mod_to_equations; lia).
  assert (Huw : 0 <= uw) by (unfold uw; Z.div_mod_to_equations; lia).
  assert (Huh : 0 < uh) by (unfold uh; Z.div_mod_to_equations; lia).
  assert (Huxw : ux + uw <= uvp) by (apply half_up_sum; lia).
  assert (Huyh : uy + uh <= uvh) by (apply half_up_sum; lia).
  assert (HS : 0 <= S) by (unfold S; apply Z.mul_nonneg_nonneg; lia).
  assert (HSp : uvp * 1 <= S) by (unfold S; apply Z.mul_le_mono_nonneg_l; lia).
  assert (HPH : P * 1 <= P * H) by (apply Z.mul_le_mono_nonneg_l; lia).
  assert (P31 : 2^31 = 2147483648) by reflexivity.
  assert (P30 : 2^30 = 1073741824) by reflexivity.
  assert (P32 : 2^32 = 4294967296) by reflexivity.
  assert (A1 : 0 <= ry * P) by (apply Z.mul_nonneg_nonneg; lia).
  assert (A3 : (ry + rh) * P <= H * P) by (apply Z.mul_le_mono_nonneg_r; lia).
  assert (A4 : rw * rh <= P * H) by (apply Z.mul_le_mono_nonneg; lia).
  assert (A5 : 0 <= uy * uvp) by (apply Z.mul_nonneg_nonneg; lia).
  assert (A6 : (uy + uh) * uvp <= uvh * uvp) by (apply Z.mul_le_mono_nonneg_r; lia).
  assert (A7 : 0 <= uh * uvp) by (apply Z.mul_nonneg_nonneg; lia).
  assert (A8 : uw * uh <= uvp * uvh) by (apply Z.mul_le_mono_nonneg; lia).
  fold S in A8. replace (uvh * uvp) with S in A6 by (unfold S; ring).
  split; [|split].
  - split; [|split; [|split; [|split]]].
    + unfold UVrect_of. cbn [x y w h].
      rewrite (PspSpec.wrap_int_small (rw + 1)), (PspSpec.wrap_int_small (rh + 1)) by lia.
      rewrite !Z.quot_div_nonneg by lia. reflexivity.
    + rewrite PspSpec.wrap_int_small by lia. apply Z.quot_div_nonneg; lia.
    + unfold skip_Y_plane. apply PspSpec.wrap_uint_small. fold P H. lia.
    + unfold chroma_plane_size. fold H.
      rewrite (PspSpec.wrap_uint_small (H + 1)) by lia. fold uvh. fold S.
      apply PspSpec.wrap_uint_small. lia.
    + apply PspSpec.wrap_int_small. lia.
  - lia.
  - lia.
Qed.

(** The steps of three copies. *)
Lemma copies3 block j1 j2 j3 b lo1 hi1 lo2 hi2 :
  fits (Z.of_nat (length block)) lo1 hi1 j1 ->
  fits (Z.of_nat (length block)) lo2 hi2 j2 ->
  copies block [j1; j2; j3] = Some b ->
  exists b1 b2 c3,
    copy block j1 = Some (b1, off j1 + spitch j1 * rows j1) /\
    copy b1 j2 = Some (b2, off j2 + spitch j2 * rows j2) /\
    copy b2 j3 = Some (b, c3).
Proof.
  intros H1 H2 E. cbn [copies] in E.
  destruct (copy_spec block j1 lo1 hi1 H1) as (b1 & E1 & L1 & _).
  rewrite E1 in E. cbn [mbind option_bind fst] in E.
  destruct (copy_spec b1 j2 lo2 hi2) as (b2 & E2 & L2 & _); [rewrite L1; exact H2|].
  rewrite E2 in E. cbn [mbind option_bind fst] in E.
  destruct (copy b2 j3) as [[b3 c3]|] eqn:E3; [|discriminate].
  cbn [mbind option_bind fst] in E. injection E as <-.
  exists b1, b2, c3. auto.
Qed.

(** The three planes of a rectangle, [U] in chroma plane [kU] and [V] in the
    other one, fit in intervals that do not meet. *)
Lemma planes_fit t texture rect n kU sY oY pY sU oU pU sV oV pV :
  inside t texture rect n ->
  kU = 0 \/ kU = 1 ->
  let Yp := Yrows t rect (w rect) sY oY pY in
  let Up := chroma t texture rect kU sU oU pU in
  let Vp := chroma t texture rect (1 - kU) sV oV pV in
  0 <= pY -> 0 <= oY -> oY + (h rect - 1) * pY + w rect <= Z.of_nat (length sY) ->
  0 <= pU -> 0 <= oU -> oU + (rows Up - 1) * pU + len Up <= Z.of_nat (length sU) ->
  0 <= pV -> 0 <= oV -> oV + (rows Vp - 1) * pV + len Vp <= Z.of_nat (length sV) ->
  exists js, map fst js = [Yp; Up; Vp] /\ apart js /\
    Forall (fun k => fits n (fst (snd k)) (snd (snd k)) (fst k)) js.
Proof.
  intros Hin Hk Yp Up Vp HpY HoY HsY HpU HoU HsU HpV HoV HsV.
  destruct (yuv_geometry t texture rect n Hin) as (_ & HY & HC).
  pose proof Hin as (_ & _ & _ & Hh & _).
  cbv zeta in HY, HC.
  set (PH := pitch t * vita_h texture) in *.
  set (S := (pitch t + 1) / 2 * ((vita_h texture + 1) / 2)) in *.
  assert (EU : dst Up = PH + kU * S + y rect / 2 * ((pitch t + 1) / 2) + x rect / 2)
    by reflexivity.
  assert (EV : dst Vp = PH + (1 - kU) * S + y rect / 2 * ((pitch t + 1) / 2) + x rect / 2)
    by reflexivity.
  exists [(Yp, (0, PH)); (Up, (PH + kU * S, PH + kU * S + S));
          (Vp, (PH + (1 - kU) * S, PH + (1 - kU) * S + S))].
  split; [reflexivity|]. split.
  - cbn [apart]. split; [|split; [|split; [constructor|exact I]]].
    + constructor; [|constructor; [|constructor]]; cbn [fst snd];
        destruct Hk as [-> | ->]; lia.
    + constructor; [|constructor]. cbn [fst snd]. destruct Hk as [-> | ->]; lia.
  - constructor; [|constructor; [|constructor; [|constructor]]];
      cbn [fst snd]; unfold fits.
    + cbn [dst dpitch len rows src off spitch Yp Yrows]. lia.
    + rewrite EU. cbn [dpitch len rows src off spitch Up chroma] in *.
      destruct Hk as [-> | ->]; lia.
    + rewrite EV. cbn [dpitch len rows src off spitch Vp chroma] in *.
      destruct Hk as [-> | ->]; lia.
Qed.

(** The planar update is its three copies. *)
Lemma planar_copies d texture t rect Yplane Ypitch Uplane Upitch Vplane Vpitch block
    js b :
  let kU := if format_is_YV12 texture then 1 else 0 in
  let Yp := Yrows t rect (w rect) Yplane 0 Ypitch in
  let Up := chroma t texture rect kU Uplane 0 Upitch in
  let Vp := chroma t texture rect (1 - kU) Vplane 0 Vpitch in
  textures d !! internal texture = Some t ->
  inside t texture rect (Z.of_nat (length block)) ->
  map fst js = [Yp; Up; Vp] ->
  Forall (fun k => fits (Z.of_nat (length block)) (fst (snd k)) (snd (snd k)) (fst k)) js ->
  copies block [Yp; Up; Vp] = Some b ->
  VITA_GXM_UpdateTextureYUV texture rect Yplane Ypitch Uplane Upitch Vplane Vpitch
    block d = Some ((true, b), d, profile_call texture :: lock_calls t).
Proof.
  intros kU Yp Up Vp Ht Hin Ejs Hfit E.
  destruct js as [|[j1 [lo1 hi1]] [|[j2 [lo2 hi2]] js]]; try discriminate Ejs.
  injection Ejs as -> -> Ejs.
  apply Forall_cons in Hfit as [F1 Hfit]. apply Forall_cons in Hfit as [F2 _].
  cbn [fst snd] in F1, F2.
  destruct (copies3 _ _ _ _ _ _ _ _ _ F1 F2 E) as (b1 & b2 & c3 & E1 & E2 & E3).
  destruct (yuv_geometry t texture rect _ Hin) as ((EUV & Euvp & Eskip & Echroma & Erow) & _).
  cbv zeta in EUV, Euvp, Eskip, Echroma, Erow.
  unfold VITA_GXM_UpdateTextureYUV. cbv zeta.
  rewrite (bind_eq _ _ _ _ _ _ (SetYUVProfile_eval texture d)).
  rewrite (bind_eq _ _ _ _ _ _ (LockTexture_eval _ _ d t Ht)).
  rewrite (bind_eq _ _ _ _ _ _ (texture_of_eval _ d t Ht)).
  rewrite EUV. cbn [fst snd x y w h].
  rewrite Euvp, Eskip, Echroma, Erow.
  replace (datap t + y rect * pitch t + x rect * bytespp t - datap t) with (dst Yp)
    by (cbn [dst Yp Yrows]; lia).
  change (copy_plane block (dst Yp) (pitch t) Yplane 0 Ypitch (w rect) (h rect))
    with (copy block Yp).
  rewrite (bind_eq _ _ _ _ _ _ (defined_or_ub_eq _ _ d E1)). cbn [fst snd].
  set (PH := pitch t * vita_h texture).
  set (S := (pitch t + 1) / 2 * ((vita_h texture + 1) / 2)).
  set (row := y rect / 2 * ((pitch t + 1) / 2)).
  assert (EU : (if format_is_YV12 texture
                then PH + S + row + x rect / 2 else PH + row + x rect / 2) = dst Up).
  { cbn [dst Up chroma]. unfold chroma_plane, kU. fold PH S row.
    destruct (format_is_YV12 texture); lia. }
  assert (EV : (if format_is_YV12 texture
                then PH + row + x rect / 2 else PH + S + row + x rect / 2) = dst Vp).
  { cbn [dst Vp chroma]. unfold chroma_plane, kU. fold PH S row.
    destruct (format_is_YV12 texture); lia. }
  rewrite EU, EV.
  change (copy_plane b1 (dst Up) ((pitch t + 1) / 2) Uplane 0 Upitch
            ((w rect + 1) / 2) ((h rect + 1) / 2)) with (copy b1 Up).
  rewrite (bind_eq _ _ _ _ _ _ (defined_or_ub_eq _ _ d E2)). cbn [fst snd].
  change (copy_plane b2 (dst Vp) ((pitch t + 1) / 2) Vplane 0 Vpitch
            ((w rect + 1) / 2) ((h rect + 1) / 2)) with (copy b2 Vp).
  rewrite (bind_eq _ _ _ _ _ _ (defined_or_ub_eq _ _ d E3)). cbn [fst snd].
  unfold ret. rewrite !app_nil_r. reflexivity.
Qed.

(** The planar update paints its three planes. *)
Lemma planar_painted d texture t rect Yplane Ypitch Uplane Upitch Vplane Vpitch block :
  let kU := if format_is_YV12 texture then 1 else 0 in
  let Yp := Yrows t rect (w rect) Yplane 0 Ypitch in
  let Up := chroma t texture rect kU Uplane 0 Upitch in
  let Vp := chroma t texture rect (1 - kU) Vplane 0 Vpitch in
  textures d !! internal texture = Some t ->
  inside t texture rect (Z.of_nat (length block)) ->
  0 <= Ypitch -> (h rect - 1) * Ypitch + w rect <= Z.of_nat (length Yplane) ->
  0 <= Upitch -> (rows Up - 1) * Upitch + len Up <= Z.of_nat (length Uplane) ->
  0 <= Vpitch -> (rows Vp - 1) * Vpitch + len Vp <= Z.of_nat (length Vplane) ->
  exists b,
    VITA_GXM_UpdateTextureYUV texture rect Yplane Ypitch Uplane Upitch Vplane Vpitch
      block d = Some ((true, b), d, profile_call texture :: lock_calls t) /\
    painted block [Yp; Up; Vp] b.
Proof.
  intros kU Yp Up Vp Ht Hin HYp HY HUp HU HVp HV.
  assert (Hk : kU = 0 \/ kU = 1) by (unfold kU; destruct (format_is_YV12 texture); auto).
  destruct (planes_fit t texture rect _ kU Yplane 0 Ypitch Uplane 0 Upitch Vplane 0 Vpitch
              Hin Hk) as (js & Ejs & Hap & Hfit); try assumption; try lia.
  destruct (copies_spec js block Hfit Hap) as (b & E & Hb). rewrite Ejs in E, Hb.
  exists b. split; [|exact Hb].
  exact (planar_copies d texture t rect Yplane Ypitch Uplane Upitch Vplane Vpitch block
           js b Ht Hin Ejs Hfit E).
Qed.

(** [X22] [VITA_GXM_UpdateTextureYUV] puts each plane in its place: the
    rows of the rectangle in the Y plane, the half-size rows of U and V in
    the two chroma planes that follow it, V first when the format is YV12
    and U first otherwise; no copy overwrites another, and no other byte of
    the block changes. *)
Theorem update_yuv_fills_three_planes d texture t rect Yplane Ypitch Uplane Upitch
    Vplane Vpitch block :
  let P := pitch t in
  let uvp := (P + 1) / 2 in
  let ux := x rect / 2 in
  let uy := y rect / 2 in
  let uw := (w rect + 1) / 2 in
  let uh := (h rect + 1) / 2 in
  let Ydst := y rect * P + x rect * bytespp t in
  let Udst := chroma_plane t texture (if format_is_YV12 texture then 1 else 0)
              + uy * uvp + ux in
  let Vdst := chroma_plane t texture (if format_is_YV12 texture then 0 else 1)
              + uy * uvp + ux in
  textures d !! internal texture = Some t ->
  inside t texture rect (Z.of_nat (length block)) ->
  0 <= Ypitch -> (h rect - 1) * Ypitch + w rect <= Z.of_nat (length Yplane) ->
  0 <= Upitch -> (uh - 1) * Upitch + uw <= Z.of_nat (length Uplane) ->
  0 <= Vpitch -> (uh - 1) * Vpitch + uw <= Z.of_nat (length Vplane) ->
  exists b,
    VITA_GXM_UpdateTextureYUV texture rect Yplane Ypitch Uplane Upitch Vplane Vpitch
      block d = Some ((true, b), d, profile_call texture :: lock_calls t) /\
    length b = length block /\
    (forall row col, 0 <= row < h rect -> 0 <= col < w rect ->
       load b (Ydst + row * P + col) = load Yplane (row * Ypitch + col)) /\
    (forall row col, 0 <= row < uh -> 0 <= col < uw ->
       load b (Udst + row * uvp + col) = load Uplane (row * Upitch + col)) /\
    (forall row col, 0 <= row < uh -> 0 <= col < uw ->
       load b (Vdst + row * uvp + col) = load Vplane (row * Vpitch + col)) /\
    (forall i, ~ in_rows Ydst P (w rect) (h rect) i -> ~ in_rows Udst uvp uw uh i ->
       ~ in_rows Vdst uvp uw uh i -> load b i = load block i).
Proof.
  intros P uvp ux uy uw uh Ydst Udst Vdst Ht Hin HYp HY HUp HU HVp HV.
  destruct (planar_painted d texture t rect Yplane Ypitch Uplane Upitch Vplane Vpitch
              block Ht Hin HYp HY HUp HU HVp HV) as (b & E & L & V & F).
  exists b. split; [exact E|]. split; [exact L|].
  apply Forall_cons in V as [VY V]. apply Forall_cons in V as [VU V].
  apply Forall_cons in V as [VV _].
  assert (EV : chroma_plane t texture (1 - (if format_is_YV12 texture then 1 else 0))
               = chroma_plane t texture (if format_is_YV12 texture then 0 else 1))
    by (destruct (format_is_YV12 texture); reflexivity).
  split; [|split; [|split]].
  - intros row col Hr Hc. exact (VY row col Hr Hc).
  - intros row col Hr Hc. exact (VU row col Hr Hc).
  - intros row col Hr Hc. unfold Vdst. rewrite <- EV. exact (VV row col Hr Hc).
  - intros i HiY HiU HiV. apply F.
    constructor; [exact HiY|constructor; [exact HiU|constructor; [|constructor]]].
    unfold covers. cbn [dst dpitch len rows chroma]. rewrite EV. exact HiV.
Qed.

(** A plane read at an offset of a block is the plane read from the rest
    of the block. *)
Lemma shows_drop b j s0 pixels :
  0 <= s0 -> 0 <= spitch j -> src j = drop (Z.to_nat s0) pixels -> off j = 0 ->
  shows b j ->
  shows b (mkPlane (dst j) (dpitch j) (len j) (rows j) pixels s0 (spitch j)).
Proof.
  intros Hs Hp Esrc Eoff H r c Hr Hc.
  cbn [dst dpitch len rows src off spitch] in *.
  rewrite (H r c Hr Hc), Esrc, Eoff.
  assert (0 <= r * spitch j) by (apply Z.mul_nonneg_nonneg; lia).
  rewrite load_drop by lia. f_equal. lia.
Qed.

(** [X23] The packed and the planar update agree:
    [VITA_GXM_UpdateTexture] of a planar texture reads its source as a Y
    plane followed by two chroma planes of half the pitch, and gives the
    block that [VITA_GXM_UpdateTextureYUV] gives for these three planes, the
    first chroma plane of the source being V when the format is YV12 and U
    otherwise. *)
Theorem packed_update_agrees_with_planar d texture t rect pixels pitch_ block :
  let uvsp := (pitch_ + 1) / 2 in
  let uw := (w rect + 1) / 2 in
  let uh := (h rect + 1) / 2 in
  let s1 := pitch_ * h rect in
  let s2 := s1 + uvsp * uh in
  let first_ := drop (Z.to_nat s1) pixels in
  let second_ := drop (Z.to_nat s2) pixels in
  let Uplane := if format_is_YV12 texture then second_ else first_ in
  let Vplane := if format_is_YV12 texture then first_ else second_ in
  textures d !! internal texture = Some t ->
  vita_yuv texture = true -> bytespp t = 1 ->
  inside t texture rect (Z.of_nat (length block)) ->
  0 <= pitch_ ->
  (h rect - 1) * pitch_ + w rect <= Z.of_nat (length pixels) ->
  s2 + (uh - 1) * uvsp + uw <= Z.of_nat (length pixels) ->
  Z.of_nat (length pixels) < 2^31 ->
  exists b,
    VITA_GXM_UpdateTexture texture rect pixels pitch_ block d
      = Some ((true, b), d, profile_call texture :: lock_calls t) /\
    VITA_GXM_UpdateTextureYUV texture rect pixels pitch_ Uplane uvsp Vplane uvsp block d
      = Some ((true, b), d, profile_call texture :: lock_calls t).
Proof.
  intros uvsp uw uh s1 s2 first_ second_ Uplane Vplane Ht Hyuv Hbpp Hin Hp HsY Hs2 Hlen.
  pose proof Hin as (Hx & Hy & Hw & Hh & _).
  assert (Huvsp : 2 * uvsp <= pitch_ + 1 <= 2 * uvsp + 1)
    by (unfold uvsp; Z.div_mod_to_equations; lia).
  assert (Huw : 0 <= uw) by (unfold uw; Z.div_mod_to_equations; lia).
  assert (Huh : 0 < uh) by (unfold uh; Z.div_mod_to_equations; lia).
  assert (Hs1 : 0 <= s1) by (unfold s1; apply Z.mul_nonneg_nonneg; lia).
  assert (Hsd : 0 <= uvsp * uh) by (apply Z.mul_nonneg_nonneg; lia).
  assert (Hrows : 0 <= (uh - 1) * uvsp) by (apply Z.mul_nonneg_nonneg; lia).
  assert (Hp1 : pitch_ * 1 <= s1) by (unfold s1; apply Z.mul_le_mono_nonneg_l; lia).
  assert (P31 : 2^31 = 2147483648) by reflexivity.
  (* the packed update *)
  set (Yp := Yrows t rect (w rect) pixels 0 pitch_).
  set (C1 := chroma t texture rect 0 pixels s1 uvsp).
  set (C2 := chroma t texture rect (1 - 0) pixels s2 uvsp).
  destruct (planes_fit t texture rect _ 0 pixels 0 pitch_ pixels s1 uvsp pixels s2 uvsp
              Hin (or_introl eq_refl)) as (js & Ejs & Hap & Hfit);
    try assumption; try lia;
    try (cbn [rows len chroma]; fold uw uh; unfold s2 in *; lia).
  fold Yp C1 C2 in Ejs.
  destruct (copies_spec js block Hfit Hap) as (b & E & Hb). rewrite Ejs in E, Hb.
  assert (Hwf : Forall (fun j => 0 <= len j <= dpitch j) [Yp; C1; C2]).
  { rewrite <- Ejs. clear -Hfit. induction Hfit as [|k js Hk _ IH]; [constructor|].
    constructor; [apply Hk|exact IH]. }
  exists b. split.
  - destruct js as [|[j1 [lo1 hi1]] [|[j2 [lo2 hi2]] js]]; try discriminate Ejs.
    injection Ejs as -> -> Ejs.
    apply Forall_cons in Hfit as [F1 Hfit]. apply Forall_cons in Hfit as [F2 _].
    cbn [fst snd] in F1, F2.
    destruct (copies3 _ _ _ _ _ _ _ _ _ F1 F2 E) as (b1 & b2 & c3 & E1 & E2 & E3).
    cbn [off spitch rows Yp Yrows C1 chroma] in E1, E2.
    destruct (yuv_geometry t texture rect _ Hin)
      as ((EUV & Euvp & Eskip & Echroma & Erow) & _).
    cbv zeta in EUV, Euvp, Eskip, Echroma, Erow.
    unfold VITA_GXM_UpdateTexture. cbv zeta.
    rewrite (bind_eq _ _ _ _ _ _ (texture_of_eval _ d t Ht)).
    rewrite Hyuv. cbn [orb when].
    rewrite (bind_eq _ _ _ _ _ _ (SetYUVProfile_eval texture d)).
    rewrite (bind_eq _ _ _ _ _ _ (LockTexture_eval _ _ d t Ht)).
    rewrite EUV. cbn [fst snd x y w h].
    rewrite Euvp, Eskip, Echroma, Erow.
    rewrite Hbpp, !Z.mul_1_r.
    rewrite (PspSpec.wrap_int_small (w rect))
      by (destruct (yuv_geometry t texture rect _ Hin) as (_ & HY & _); cbv zeta in HY;
          destruct Hin as (_ & _ & _ & _ & _ & _ & _ & _ & _ & Hn); lia).
    rewrite (PspSpec.wrap_int_small (pitch_ + 1)) by lia.
    rewrite (Z.quot_div_nonneg (pitch_ + 1) 2) by lia. fold uvsp.
    replace (datap t + y rect * pitch t + x rect - datap t) with (dst Yp)
      by (cbn [dst Yp Yrows]; rewrite Hbpp; lia).
    change (copy_plane block (dst Yp) (pitch t) pixels 0 pitch_ (w rect) (h rect))
      with (copy block Yp).
    rewrite (bind_eq _ _ _ _ _ _ (defined_or_ub_eq _ _ d E1)). cbn [fst snd].
    replace (pitch t * vita_h texture + y rect / 2 * ((pitch t + 1) / 2) + x rect / 2)
      with (dst C1) by (cbn [dst C1 chroma]; unfold chroma_plane; lia).
    replace (pitch t * vita_h texture + (pitch t + 1) / 2 * ((vita_h texture + 1) / 2)
             + y rect / 2 * ((pitch t + 1) / 2) + x rect / 2)
      with (dst C2) by (cbn [dst C2 chroma]; unfold chroma_plane; lia).
    rewrite Z.add_0_l.
    change (copy_plane b1 (dst C1) ((pitch t + 1) / 2) pixels (pitch_ * h rect) uvsp
              ((w rect + 1) / 2) ((h rect + 1) / 2)) with (copy b1 C1).
    rewrite (bind_eq _ _ _ _ _ _ (defined_or_ub_eq _ _ d E2)). cbn [fst snd].
    change (copy_plane b2 (dst C2) ((pitch t + 1) / 2) pixels
              (pitch_ * h rect + uvsp * ((h rect + 1) / 2)) uvsp
              ((w rect + 1) / 2) ((h rect + 1) / 2)) with (copy b2 C2).
    rewrite (bind_eq _ _ _ _ _ _ (defined_or_ub_eq _ _ d E3)). cbn [fst snd].
    unfold ret. rewrite !app_nil_r. reflexivity.
  - (* the planar update, on the planes of the packed source *)
    assert (Ld1 : Z.of_nat (length first_) = Z.of_nat (length pixels) - s1)
      by (unfold first_; rewrite length_drop; unfold s2 in *; lia).
    assert (Ld2 : Z.of_nat (length second_) = Z.of_nat (length pixels) - s2)
      by (unfold second_; rewrite length_drop; lia).
    destruct (planar_painted d texture t rect pixels pitch_ Uplane uvsp
                Vplane uvsp block Ht Hin Hp HsY) as (b' & E' & L' & V' & F');
      try lia;
      try (cbn [rows len chroma]; fold uw uh; unfold Uplane, Vplane, s2 in *;
           destruct (format_is_YV12 texture); lia).
    rewrite E'. assert (b' = b) as ->; [|reflexivity].
    apply (painted_unique block [Yp; C1; C2]); [exact Hwf| |exact Hb].
    apply Forall_cons in V' as [VY V']. apply Forall_cons in V' as [VU V'].
    apply Forall_cons in V' as [VV _].
    split; [exact L'|]. split.
    + constructor; [exact VY|].
      unfold Uplane, Vplane in VU, VV.
      destruct (format_is_YV12 texture).
      * constructor; [|constructor; [|constructor]].
        -- apply (shows_drop b' _ s1 pixels) in VV;
             [exact VV|lia|cbn; lia|reflexivity|reflexivity].
        -- apply (shows_drop b' _ s2 pixels) in VU;
             [exact VU|unfold s2; lia|cbn; lia|reflexivity|reflexivity].
      * constructor; [|constructor; [|constructor]].
        -- apply (shows_drop b' _ s1 pixels) in VU;
             [exact VU|lia|cbn; lia|reflexivity|reflexivity].
        -- apply (shows_drop b' _ s2 pixels) in VV;
             [exact VV|unfold s2; lia|cbn; lia|reflexivity|reflexivity].
    + intros i Hi. apply F'.
      apply Forall_cons in Hi as [HiY Hi]. apply Forall_cons in Hi as [Hi1 Hi].
      apply Forall_cons in Hi as [Hi2 _].
      destruct (format_is_YV12 texture);
        (constructor; [exact HiY|constructor; [|constructor; [|constructor]]]);
        assumption.
Qed.

(** A 4x2 rectangle at (2, 0). *)
Lemma yuv_inside yv12 : inside yuv_cell (yuv_texture yv12) (mkRect 2 0 4 2) 48.
Proof. vm_compute. repeat split; first [reflexivity|discriminate]. Qed.

(** A YV12 texture: V goes to the first chroma plane, at 32, and U to the
    second, at 40. *)
Lemma update_yuv_fills_three_planes_witness :
  exists b,
    VITA_GXM_UpdateTextureYUV (yuv_texture true) (mkRect 2 0 4 2)
      [1; 2; 3; 4; 5; 6; 7; 8] 4 [101; 102] 2 [201; 202] 2 (repeat 0 48) yuv_data
    = Some ((true, b), yuv_data, [sceGxmSetYuvProfile SCE_GXM_YUV_PROFILE_BT601_STANDARD]) /\
    load b 2 = Some 1 /\ load b 13 = Some 8 /\
    load b 41 = Some 101 /\ load b 34 = Some 202 /\ load b 0 = Some 0.
Proof.
  destruct (update_yuv_fills_three_planes yuv_data (yuv_texture true) yuv_cell
              (mkRect 2 0 4 2) [1; 2; 3; 4; 5; 6; 7; 8] 4 [101; 102] 2 [201; 202] 2
              (repeat 0 48)) as (b & E & _ & VY & VU & VV & F);
    [vm_compute; reflexivity | exact (yuv_inside true)
    | vm_compute; discriminate .. | ].
  exists b. split; [exact E|]. split; [|split; [|split; [|split]]].
  - apply (VY 0 0); vm_compute; split; first [reflexivity|discriminate].
  - apply (VY 1 3); vm_compute; split; first [reflexivity|discriminate].
  - apply (VU 0 0); vm_compute; split; first [reflexivity|discriminate].
  - apply (VV 0 1); vm_compute; split; first [reflexivity|discriminate].
  - rewrite F; [reflexivity| | |]; intros Hi;
      (apply in_rows_range in Hi; [|vm_compute; split; discriminate]);
      vm_compute in Hi; destruct Hi as [H1 _]; apply H1; reflexivity.
Defined.

(** The same update from a packed YV12 image: Y, then V, then U. *)
Lemma packed_update_agrees_with_planar_witness :
  let pixels := [1; 2; 3; 4; 5; 6; 7; 8; 201; 202; 101; 102] in
  exists b,
    VITA_GXM_UpdateTexture (yuv_texture true) (mkRect 2 0 4 2) pixels 4 (repeat 0 48)
      yuv_data
    = Some ((true, b), yuv_data, [sceGxmSetYuvProfile SCE_GXM_YUV_PROFILE_BT601_STANDARD]) /\
    VITA_GXM_UpdateTextureYUV (yuv_texture true) (mkRect 2 0 4 2) pixels 4
      [101; 102] 2 [201; 202] 2 (repeat 0 48) yuv_data
    = Some ((true, b), yuv_data, [sceGxmSetYuvProfile SCE_GXM_YUV_PROFILE_BT601_STANDARD]).
Proof.
  cbv zeta.
  refine (packed_update_agrees_with_planar yuv_data (yuv_texture true) yuv_cell
            (mkRect 2 0 4 2) [1; 2; 3; 4; 5; 6; 7; 8; 201; 202; 101; 102] 4
            (repeat 0 48) _ _ _ (yuv_inside true) _ _ _ _);
    first [vm_compute; reflexivity | vm_compute; discriminate].
Defined.

End GxmUpdateSpec.

(** ** The PSP texture manager: creation, destruction and the order of use *)

Module PspTextureSpec.

Import Psp PspSpec.

(** A use of [t] moves it to the front of the list. *)
Definition touch (t : Z) (l : list Z) : list Z := t :: filter (fun x => x <> t) l.

(** A 4x16 static texture of 16-bit pixels: rows of 8 bytes. *)
Definition strip : @World FirstFit.allocators :=
  after (boot 100000)
    (PSP_CreateTexture 4096 4 16 SDL_PIXELFORMAT_BGR565 SDL_TEXTUREACCESS_STATIC).

Section Definitions.
Context `{Alloc : Allocators}.
Local Open Scope m_scope.

(** The targets [ts] used one after the other. *)
Fixpoint use_in_turn (ts : list Z) : P unit :=
  match ts with
  | [] => ret tt
  | t :: rest => LRUTargetBringFront t ;;; use_in_turn rest
  end.

End Definitions.

(** An [int] converted back to [unsigned] is the [unsigned] it came from. *)
Lemma wrap_uint_int z : wrap_uint (wrap_int z) = wrap_uint z.
Proof.
  unfold wrap_uint, wrap_int.
  change (2^32) with 4294967296. change (2^31) with 2147483648.
  Z.div_mod_to_equations. lia.
Qed.

(** From [n = 2^k] the loop stops at the first power of two that reaches
    [w], as long as [w] is at most 2^31. *)
Lemma next_pow2_loop_spec (fuel : nat) : forall w k,
  1 <= k <= 31 -> w <= 2^31 -> (k = 1 \/ 2^(k-1) < w) ->
  (32 - k <= Z.of_nat fuel) ->
  exists j, k <= j <= 31 /\ next_pow2_loop fuel w (2^k) = Some (2^j) /\
            w <= 2^j /\ (j = 1 \/ 2^(j-1) < w).
Proof.
  induction fuel as [|fuel IH]; intros w k Hk Hw Hlow Hfuel.
  - lia.
  - cbn [next_pow2_loop]. destruct (w >? 2^k) eqn:E.
    + apply Z.gtb_lt in E.
      assert (Hk31 : k < 31).
      { destruct (decide (k = 31)) as [->|]; [lia|lia]. }
      assert (Hsh : wrap_uint (Z.shiftl (2^k) 1) = 2^(k+1)).
      { rewrite Z.shiftl_mul_pow2 by lia. unfold wrap_uint.
        rewrite Z.pow_add_r by lia. change (2^1) with 2.
        apply Z.mod_small. split; [lia|].
        replace (2^k * 2) with (2^(k+1)) by (rewrite Z.pow_add_r by lia; lia).
        apply Z.pow_lt_mono_r; lia. }
      rewrite Hsh.
      destruct (IH w (k + 1)) as (j & Hj & Hr & Hle & Hmin); try lia.
      { right. replace (k + 1 - 1) with k by lia. exact E. }
      exists j. split; [lia|]. split; [exact Hr|]. split; assumption.
    + exists k. split; [lia|]. split; [reflexivity|].
      split; [|exact Hlow]. destruct (Z.gtb_spec w (2^k)); [discriminate|lia].
Qed.

(** [X1] For a width or a height between 1 and 2^30, [TextureNextPow2]
    returns the least power of two that is at least 2 and at least its
    argument; up to 2^30 the result fits the [int] it is returned as. *)
Theorem next_pow2_is_least_power_of_two w :
  0 < w <= 2^30 ->
  exists j, 1 <= j <= 30 /\ TextureNextPow2 w = Some (2^j) /\
            w <= 2^j /\ (j = 1 \/ 2^(j-1) < w).
Proof.
  intros Hw. unfold TextureNextPow2.
  destruct (w =? 0) eqn:E; [apply Z.eqb_eq in E; lia|].
  assert (H30 : 2^30 < 2^31) by reflexivity.
  destruct (next_pow2_loop_spec 33 w 1) as (j & Hj & Hr & Hle & Hmin); try lia.
  assert (Hj30 : j <= 30).
  { destruct Hmin as [->|Hlt]; [lia|].
    assert (j - 1 < 30); [|lia].
    apply (Z.pow_lt_mono_r_iff 2); lia. }
  exists j. split; [lia|]. split; [|split; assumption].
  change (2^1) with 2 in Hr. rewrite Hr.
  change (wrap_int <$> Some (2^j)) with (Some (wrap_int (2^j))).
  f_equal. apply wrap_int_small.
  assert (0 < 2^j) by (apply Z.pow_pos_nonneg; lia).
  assert (2^j <= 2^30) by (apply Z.pow_le_mono_r; lia).
  lia.
Qed.

(** Once [n] is 0 the loop cannot stop. *)
Lemma next_pow2_loop_zero (fuel : nat) w : 0 < w -> next_pow2_loop fuel w 0 = None.
Proof.
  intros Hw. induction fuel as [|fuel IH]; cbn [next_pow2_loop].
  - destruct (Z.gtb_spec w 0); [reflexivity|lia].
  - destruct (Z.gtb_spec w 0); [|lia]. exact IH.
Qed.

Lemma next_pow2_loop_diverges (fuel : nat) : forall w k,
  1 <= k <= 31 -> 2^31 < w -> next_pow2_loop fuel w (2^k) = None.
Proof.
  induction fuel as [|fuel IH]; intros w k Hk Hw; cbn [next_pow2_loop].
  - assert (2^k <= 2^31) by (apply Z.pow_le_mono_r; lia).
    destruct (Z.gtb_spec w (2^k)); [reflexivity|lia].
  - assert (2^k <= 2^31) by (apply Z.pow_le_mono_r; lia).
    destruct (Z.gtb_spec w (2^k)); [|lia].
    destruct (decide (k = 31)) as [->|Hne].
    + change (wrap_uint (Z.shiftl (2^31) 1)) with 0.
      apply next_pow2_loop_zero. lia.
    + assert (Hsh : wrap_uint (Z.shiftl (2^k) 1) = 2^(k+1)).
      { rewrite Z.shiftl_mul_pow2 by lia. unfold wrap_uint.
        change (2^1) with 2.
        replace (2^k * 2) with (2^(k+1)) by (rewrite Z.pow_add_r by lia; lia).
        apply Z.mod_small. split; [lia|].
        apply Z.pow_lt_mono_r; lia. }
      rewrite Hsh. apply IH; lia.
Qed.

(** [X2] Above 2^31 [TextureNextPow2] does not return: the doubling wraps
    to 0 and [while (w > n)] never ends, however many iterations are
    allowed. *)
Theorem next_pow2_never_returns_above_2_31 w :
  2^31 < w ->
  TextureNextPow2 w = None /\ forall fuel, next_pow2_loop fuel w 2 = None.
Proof.
  intros Hw. split.
  - unfold TextureNextPow2. destruct (w =? 0) eqn:E.
    + apply Z.eqb_eq in E. subst w. discriminate Hw.
    + pose proof (next_pow2_loop_diverges 33 w 1 ltac:(lia) Hw) as Hd.
      change (2^1) with 2 in Hd. rewrite Hd. reflexivity.
  - intros fuel. apply (next_pow2_loop_diverges fuel w 1); lia.
Qed.

(** Every word of a swizzled buffer is the image of one coordinate. *)
Lemma Q_surj rb hb p :
  0 < rb -> 0 <= p < 32 * rb * hb ->
  exists by_ jy i k,
    0 <= by_ < hb /\ 0 <= jy < 8 /\ 0 <= i < rb /\ 0 <= k < 4 /\ p = Q rb by_ jy i k.
Proof.
  intros Hrb Hp.
  exists (p / 32 / rb), (p mod 32 / 4), (p / 32 mod rb), (p mod 32 mod 4).
  pose proof (Z.div_mod p 32 ltac:(lia)) as Ep.
  pose proof (Z.mod_pos_bound p 32 ltac:(lia)) as Hlo.
  assert (Hblk : 0 <= p / 32 < rb * hb).
  { split; [apply Z.div_pos; lia|]. apply Z.div_lt_upper_bound; lia. }
  set (blk := p / 32) in *. set (off := p mod 32) in *.
  pose proof (Z.div_mod blk rb ltac:(lia)) as Eb.
  pose proof (Z.mod_pos_bound blk rb ltac:(lia)).
  pose proof (Z.div_mod off 4 ltac:(lia)) as Eo.
  pose proof (Z.mod_pos_bound off 4 ltac:(lia)).
  assert (0 <= blk / rb < hb).
  { split; [apply Z.div_pos; lia|]. apply Z.div_lt_upper_bound; lia. }
  assert (0 <= off / 4 < 8).
  { split; [apply Z.div_pos; lia|]. apply Z.div_lt_upper_bound; lia. }
  unfold Q. repeat split; lia.
Qed.

(** [X3] The codec the other way round: on a buffer of [rb] blocks a row
    and [hb] groups of 8 rows, unswizzling and then swizzling gives the
    buffer back. *)
Theorem unswizzle_swizzle_pixels rb hb (src junk1 junk2 : list Z) :
  0 < rb -> 0 <= hb -> 128 * rb < 2^31 -> 128 * rb * hb < 2^32 ->
  Z.of_nat (length src) = 32 * rb * hb ->
  Z.of_nat (length junk1) = 32 * rb * hb ->
  Z.of_nat (length junk2) = 32 * rb * hb ->
  exists lin, unswizzle_pixels (16 * rb) (8 * hb) src junk1 = Some lin /\
    length lin = length src /\
    swizzle_pixels (16 * rb) (8 * hb) lin junk2 = Some src.
Proof.
  intros Hrb Hhb Hrow Hsize Hsrc Hj1 Hj2.
  destruct (unswizzle_pixels_spec rb hb src junk1) as (lin & E1 & L1 & V1); try assumption.
  destruct (swizzle_pixels_spec rb hb lin junk2) as (out & E2 & L2 & V2);
    try assumption; [lia|].
  exists lin. split; [exact E1|]. split; [lia|]. rewrite E2. f_equal.
  apply load_ext; [lia|].
  intros p Hp.
  destruct (Q_surj rb hb p Hrb ltac:(lia)) as (by_ & jy & i & k & Hby & Hjy & Hi & Hk & ->).
  rewrite V2, V1 by assumption. reflexivity.
Qed.

(** One tile, its words numbered. *)
Lemma unswizzle_swizzle_pixels_witness :
  exists lin, unswizzle_pixels 16 8 (map Z.of_nat (seq 0 32)) (repeat 0 32) = Some lin /\
    swizzle_pixels 16 8 lin (repeat 7 32) = Some (map Z.of_nat (seq 0 32)).
Proof.
  destruct (unswizzle_swizzle_pixels 1 1 (map Z.of_nat (seq 0 32)) (repeat 0 32) (repeat 7 32))
    as (lin & E1 & _ & E2); [lia|lia|lia|lia|reflexivity|reflexivity|reflexivity|].
  exists lin. split; [exact E1|exact E2].
Defined.

(** Rows shorter than one block: no block is copied. *)
Lemma swizzle_rows_no_block (n : nat) : forall j rba src s dst ba,
  swizzle_rows n j 0 rba src s dst ba = Some dst.
Proof.
  induction n as [|n IH]; intros j rba src s dst ba; [reflexivity|].
  cbn [swizzle_rows]. change (Z.to_nat 0) with O. cbn [swizzle_row mbind option_bind].
  apply IH.
Qed.

Lemma swizzle_pixels_narrow bw h src dst :
  0 <= bw < 16 -> swizzle_pixels bw h src dst = Some dst.
Proof.
  intros Hbw. unfold swizzle_pixels.
  replace (Z.shiftr bw 4) with 0.
  - apply swizzle_rows_no_block.
  - rewrite Z.shiftr_div_pow2 by lia. change (2^4) with 16.
    symmetry. apply Z.div_small. lia.
Qed.

Section More.
Context `{Alloc : Allocators}.
Local Open Scope m_scope.

(** [X4] A texture whose rows are shorter than one 16-byte block, but that
    [TextureShouldSwizzle] accepts, is marked swizzled by [TextureActivate]
    without a word being copied: its pixels are now those of the block that
    [SDL_malloc] returned, and the old block is freed. *)
Theorem narrow_rows_are_not_copied W t c bw h :
  heap W !! t = Some c -> swizzled c = false -> TextureShouldSwizzle c = true ->
  codec_dims c = Some (bw, h) -> 0 <= bw < 16 ->
  fst (SDL_malloc (size c) (sram W)) <> NULL ->
  exists W' c',
    TextureActivate t W =
      Some (tt, W',
            [sceKernelDcacheWritebackRange (data c') (size c);
             sceGuTexMode (format c) true;
             sceGuTexImage (textureWidth c) (textureHeight c) (textureWidth c) (data c')]) /\
    heap W' !! t = Some c' /\ swizzled c' = true /\
    data c' = fst (SDL_malloc (size c) (sram W)) /\
    pixels c' = junk_block W (size c).
Proof.
  intros Hc Hsw Hsh Hdims Hbw Ha.
  set (a := fst (SDL_malloc (size c) (sram W))) in *.
  set (c' := set_swizzled true (set_data a (junk_block W (size c)) c)).
  set (W' := stored W t c' (free_vram (data c) (vram W))
               (free_sram (data c) (snd (SDL_malloc (size c) (sram W))))).
  assert (E : TextureSwizzle t (NULL, []) W
              = Some (true, W', [sceKernelDcacheWritebackRange a (size c)])).
  { rewrite (TextureSwizzle_eval _ _ _ _ Hc Hsw), Hdims. unfold dest.
    cbn [fst snd]. change (NULL =? NULL) with true. cbv iota beta.
    fold a. apply Z.eqb_neq in Ha. rewrite Ha.
    rewrite swizzle_pixels_narrow by exact Hbw. reflexivity. }
  assert (Hc' : heap W' !! t = Some c') by apply lookup_insert_eq.
  exists W', c'. split; [|split; [exact Hc'|split; [reflexivity|split; reflexivity]]].
  unfold TextureActivate. rewrite (bind_deref _ _ _ _ Hc), Hsh. cbn [when].
  unfold bind at 1. unfold bind at 1. rewrite E. unfold ret at 1.
  rewrite (bind_deref _ _ _ _ Hc'). unfold bind, emit. reflexivity.
Qed.

Lemma filter_all {A} (P : A -> Prop) `{forall x, Decision (P x)} (l : list A) :
  (forall x, x ∈ l -> P x) -> filter P l = l.
Proof.
  induction l as [|a l IH]; intros Hall; [reflexivity|].
  rewrite filter_cons_True by (apply Hall; left).
  f_equal. apply IH. intros x Hx. apply Hall. right. exact Hx.
Qed.

Lemma filter_out_mid (l1 l2 : list Z) t :
  NoDup (l1 ++ t :: l2) -> filter (fun x => x <> t) (l1 ++ t :: l2) = l1 ++ l2.
Proof.
  intros Hnd. apply NoDup_mid in Hnd as (_ & H1 & H2 & _).
  rewrite filter_app, filter_cons_False by (intros E; apply E; reflexivity).
  rewrite !filter_all; [reflexivity| |]; intros x Hx ->; contradiction.
Qed.

Lemma filter_out_absent (l : list Z) t :
  t ∉ l -> filter (fun x => x <> t) l = l.
Proof. intros Ht. apply filter_all. intros x Hx ->. contradiction. Qed.

Lemma touch_elem t l x : x ∈ touch t l <-> x = t \/ x ∈ l.
Proof.
  unfold touch. rewrite elem_of_cons, list_elem_of_filter.
  destruct (decide (x = t)); tauto.
Qed.

(** [X5] Using the listed targets [ts] one after the other moves each to
    the front: the list afterwards is the move-to-front order of the uses,
    and only links have changed. *)
Theorem lru_order_is_move_to_front (ts : list Z) : forall W l,
  lru_list W l -> (forall t, t ∈ ts -> t ∈ l) ->
  exists W', use_in_turn ts W = Some (tt, W', []) /\
    lru_list W' (foldl (fun l t => touch t l) l ts) /\ relinked W W'.
Proof.
  induction ts as [|t ts IH]; intros W l Hl Hin.
  - exists W. split; [reflexivity|]. split; [exact Hl|apply relinked_refl].
  - assert (Ht : t ∈ l) by (apply Hin; left).
    pose proof Hl as (Hnd & _).
    apply list_elem_of_split in Ht as (l1 & l2 & ->).
    destruct (LRUTargetBringFront_in W l1 t l2 Hl) as (W1 & E1 & Hl1 & Hr1).
    assert (Et : touch t (l1 ++ t :: l2) = t :: l1 ++ l2)
      by (unfold touch; rewrite filter_out_mid by exact Hnd; reflexivity).
    destruct (IH W1 (t :: l1 ++ l2) Hl1) as (W2 & E2 & Hl2 & Hr2).
    { intros x Hx. rewrite <- Et. apply touch_elem. right. apply Hin. right. exact Hx. }
    exists W2. cbn [use_in_turn foldl]. rewrite Et.
    rewrite (bind_eq _ _ _ _ _ _ E1), E2.
    split; [reflexivity|]. split; [exact Hl2|]. eapply relinked_trans; eassumption.
Qed.

(** [X6] [PSP_DestroyTexture] unlinks the texture, frees its block in the
    tier where it is, and removes the structure; the other textures keep
    their data and their order in the list. *)
Theorem destroy_releases_only_its_texture W l t c :
  lru_list W l -> heap W !! t = Some c -> t <> NULL ->
  exists W', PSP_DestroyTexture t W = Some (tt, W', []) /\
    lru_list W' (filter (fun x => x <> t) l) /\
    heap W' !! t = None /\
    (forall x, x <> t -> (unlinked <$> heap W' !! x) = (unlinked <$> heap W !! x)) /\
    vram W' = free_vram (data c) (vram W) /\
    sram W' = free_sram (data c) (sram W).
Proof.
  intros Hl Hc Ht0.
  assert (exists W1, LRUTargetRemove t W = Some (tt, W1, []) /\
            lru_list W1 (filter (fun x => x <> t) l) /\ relinked W W1)
    as (W1 & HR & Hl1 & Hr1).
  { destruct (decide (t ∈ l)) as [Htl|Htl].
    - pose proof Hl as (Hnd & _).
      apply list_elem_of_split in Htl as (l1 & l2 & ->).
      rewrite filter_out_mid by exact Hnd.
      apply LRUTargetRemove_in. exact Hl.
    - rewrite filter_out_absent by exact Htl.
      destruct (LRUTargetRemove_out _ _ _ _ Hl Htl Hc) as (W1 & HR & Hl1 & Hr1 & _).
      eauto. }
  destruct (relinked_lookup _ _ _ _ Hr1 Hc) as (c1 & Hc1 & Eu).
  assert (Ed : data c1 = data c) by (apply (f_equal data) in Eu; exact Eu).
  destruct Hr1 as (Ev & Es & Ej & Hx).
  assert (Htl' : t ∉ filter (fun x => x <> t) l).
  { intros E. apply list_elem_of_filter in E as [E _]. apply E. reflexivity. }
  set (W2 := if InVram (data c) then set_vram (vfree (data c) (vram W1)) W1
             else set_sram (SDL_free (data c) (sram W1)) W1).
  assert (Hfree : TextureStorageFree (data c1) W1 = Some (tt, W2, [])).
  { rewrite Ed. unfold TextureStorageFree, W2, do_vfree, do_SDL_free, modify.
    destruct (InVram (data c)); reflexivity. }
  assert (Eh2 : heap W2 = heap W1) by (unfold W2; destruct (InVram (data c)); reflexivity).
  assert (Em2 : most_recent_target W2 = most_recent_target W1)
    by (unfold W2; destruct (InVram (data c)); reflexivity).
  assert (El2 : least_recent_target W2 = least_recent_target W1)
    by (unfold W2; destruct (InVram (data c)); reflexivity).
  exists (set_heap (delete t (heap W2)) W2). split.
  { unfold PSP_DestroyTexture. apply Z.eqb_neq in Ht0. rewrite Ht0.
    rewrite (bind_eq _ _ _ _ _ _ HR). rewrite (bind_deref _ _ _ _ Hc1).
    rewrite (bind_eq _ _ _ _ _ _ Hfree). reflexivity. }
  split.
  { apply lru_list_delete; [|exact Htl'].
    eapply lru_list_ext; [exact Hl1|exact Em2|exact El2|].
    intros x. rewrite Eh2. reflexivity. }
  split; [cbn [heap set_heap]; apply lookup_delete_eq|].
  split.
  { intros x Hxt. cbn [heap set_heap]. rewrite lookup_delete_ne by congruence.
    rewrite Eh2. apply Hx. }
  unfold W2, free_vram, free_sram.
  destruct (InVram (data c)); cbn; rewrite ?Ev, ?Es; split; reflexivity.
Qed.

(** [X8] Binding again the target that was just bound changes nothing: no
    eviction, no copy, no relink; only the draw buffer calls are issued
    again. *)
Theorem rebinding_the_bound_target_is_free W t c W1 tr1 :
  Inv W -> heap W !! t = Some c -> sdl_access c = SDL_TEXTUREACCESS_TARGET ->
  TextureBindAsTarget t W = Some (true, W1, tr1) ->
  exists c1, heap W1 !! t = Some c1 /\
    TextureBindAsTarget t W1 =
      Some (true, W1,
            sceGuDrawBufferList (format c1) (data c1) (textureWidth c1) ::
            (if format c1 =? GU_PSM_5551
             then [sceGuEnable GU_STENCIL_TEST; sceGuStencilOp; sceGuStencilFunc;
                   sceGuEnable GU_ALPHA_TEST; sceGuAlphaFunc]
             else [sceGuDisable GU_STENCIL_TEST; sceGuDisable GU_ALPHA_TEST])).
Proof.
  intros HI Hc Hacc H.
  destruct (TextureBindAsTarget_spec _ _ _ _ _ _ HI Hc Hacc H)
    as (_ & c1 & rest & Hc1 & Hv & Hm & _).
  exists c1. split; [exact Hc1|].
  unfold TextureBindAsTarget. rewrite (bind_deref _ _ _ _ Hc1), Hv. cbn [negb].
  unfold bind at 1. unfold ret at 1. cbn [negb].
  unfold bind at 1. unfold LRUTargetBringFront at 1. rewrite bind_get, Hm, Z.eqb_refl.
  unfold ret at 1. rewrite (bind_deref _ _ _ _ Hc1).
  destruct (format c1 =? GU_PSM_5551); reflexivity.
Qed.

(** [X7] A texture that is not a render target is created in system
    memory, with power-of-two dimensions and zeroed pixels ([SDL_calloc]):
    nothing is evicted, the list and video memory are untouched, and when
    the allocation fails nothing of the texture is left. *)
Theorem plain_texture_starts_zeroed W l p w h fmt acc :
  lru_list W l -> heap W !! p = None -> p <> NULL ->
  acc <> SDL_TEXTUREACCESS_TARGET ->
  0 < w < 2^31 -> 0 < h < 2^31 ->
  exists jw jh W',
    1 <= jw <= 31 /\ w <= 2^jw /\ (jw = 1 \/ 2^(jw-1) < w) /\
    1 <= jh <= 31 /\ h <= 2^jh /\ (jh = 1 \/ 2^(jh-1) < h) /\
    let c0 := new_texture w h fmt acc (2^jw) (2^jh) in
    let a := fst (SDL_malloc (size c0) (sram W)) in
    PSP_CreateTexture p w h fmt acc W = Some (negb (a =? NULL), W', []) /\
    lru_list W' l /\ vram W' = vram W /\
    sram W' = snd (SDL_malloc (size c0) (sram W)) /\
    heap W' =
      if a =? NULL then heap W
      else <[p := set_data a (repeat 0 (Z.to_nat (size c0 / 4))) c0]> (heap W).
Proof.
  intros Hl Hp Hp0 Hacc Hw Hh.
  assert (Hpow : forall v, 0 < v < 2^31 ->
            exists j, 1 <= j <= 31 /\
                      wrap_uint <$> TextureNextPow2 v = Some (2^j) /\
                      v <= 2^j /\ (j = 1 \/ 2^(j-1) < v)).
  { intros v Hv. unfold TextureNextPow2.
    destruct (v =? 0) eqn:E; [apply Z.eqb_eq in E; lia|].
    destruct (next_pow2_loop_spec 33 v 1) as (j & Hj & Hr & Hle & Hmin); try lia.
    exists j. split; [lia|]. split; [|split; assumption].
    change (2^1) with 2 in Hr. rewrite Hr.
    change (wrap_uint <$> (wrap_int <$> Some (2^j)))
      with (Some (wrap_uint (wrap_int (2^j)))).
    f_equal. rewrite wrap_uint_int. apply wrap_uint_small.
    assert (0 < 2^j) by (apply Z.pow_pos_nonneg; lia).
    assert (2^j <= 2^31) by (apply Z.pow_le_mono_r; lia).
    assert (2^31 < 2^32) by reflexivity. lia. }
  destruct (Hpow w Hw) as (jw & Hjw & Ew & Hwle & Hwmin).
  destruct (Hpow h Hh) as (jh & Hjh & Eh & Hhle & Hhmin). clear Hpow.
  exists jw, jh.
  set (c0 := new_texture w h fmt acc (2^jw) (2^jh)).
  set (a := fst (SDL_malloc (size c0) (sram W))).
  set (s' := snd (SDL_malloc (size c0) (sram W))).
  set (c1 := set_data a (repeat 0 (Z.to_nat (size c0 / 4))) c0).
  set (W1 := set_sram s' (set_heap (<[p := c0]> (heap W)) W)).
  set (W2 := set_heap (<[p := c1]> (heap W1)) W1).
  exists (if a =? NULL then set_heap (delete p (heap W2)) W2 else W2).
  do 6 (split; [assumption|]). cbv zeta. fold c0 a.
  assert (Hrun : PSP_CreateTexture p w h fmt acc W
                 = Some (negb (a =? NULL),
                         if a =? NULL then set_heap (delete p (heap W2)) W2 else W2, [])).
  { assert (Ew' : wrap_uint <$> TextureNextPow2 (wrap_uint w) = Some (2^jw))
      by (rewrite wrap_uint_small by lia; exact Ew).
    assert (Eh' : wrap_uint <$> TextureNextPow2 (wrap_uint h) = Some (2^jh))
      by (rewrite wrap_uint_small by lia; exact Eh).
    set (W0 := set_heap (<[p := c0]> (heap W)) W).
    assert (Hcal : do_SDL_calloc (size c0) W0
                   = Some ((a, repeat 0 (Z.to_nat (size c0 / 4))), W1, [])).
    { unfold do_SDL_calloc, W1, a, s'. change (sram W0) with (sram W).
      destruct (SDL_malloc (size c0) (sram W)); reflexivity. }
    assert (Hc0 : heap W1 !! p = Some c0) by apply lookup_insert_eq.
    assert (Hc1 : heap W2 !! p = Some c1) by apply lookup_insert_eq.
    unfold PSP_CreateTexture. apply Z.eqb_neq in Hp0. rewrite Hp0.
    rewrite Eh', Ew'.
    unfold lift at 1. rewrite bind_eq with (a := 2^jh) (s1 := W) (t1 := [])
      by reflexivity.
    unfold lift at 1. rewrite bind_eq with (a := 2^jw) (s1 := W) (t1 := [])
      by reflexivity.
    cbv zeta. fold (new_texture w h fmt acc (2^jw) (2^jh)). fold c0.
    change (wrap_uint (2^jh * wrap_uint (2^jw * SDL_BYTESPERPIXEL fmt))) with (size c0).
    rewrite bind_eq with (a := tt) (s1 := W0) (t1 := []) by reflexivity.
    rewrite decide_False by exact Hacc.
    rewrite bind_eq with (a := true) (s1 := W2) (t1 := []).
    2:{ rewrite (bind_eq _ _ _ _ _ _ Hcal). cbn [fst snd].
        rewrite bind_eq with (a := tt) (s1 := W2) (t1 := [])
          by (apply assign_eq; exact Hc0).
        reflexivity. }
    rewrite (bind_deref _ _ _ _ Hc1). cbn [negb orb]. change (data c1) with a.
    destruct (a =? NULL); reflexivity. }
  split; [exact Hrun|].
  assert (Hlk : links c1 = (NULL, NULL)) by reflexivity.
  assert (Hl2 : lru_list W2 l).
  { unfold W2, W1.
    assert (E : set_heap (<[p := c1]> (heap (set_sram s' (set_heap (<[p := c0]> (heap W)) W))))
                  (set_sram s' (set_heap (<[p := c0]> (heap W)) W))
                = set_sram s' (set_heap (<[p := c1]> (heap W)) W)).
    { unfold set_heap, set_sram. cbn. rewrite insert_insert_eq. reflexivity. }
    rewrite E.
    eapply lru_list_ext; [apply (lru_list_fresh W l p c1 Hl Hp Hlk)|reflexivity|reflexivity|].
    intros x. reflexivity. }
  assert (Hpl : p ∉ l).
  { intros E. destruct (lru_list_elem _ _ _ Hl E) as [_ [c Hc]]. congruence. }
  destruct (a =? NULL).
  - split; [apply lru_list_delete; assumption|]. split; [reflexivity|].
    split; [reflexivity|]. cbn [heap set_heap W2 W1 set_sram].
    unfold W2, W1. cbn [heap set_heap set_sram].
    rewrite insert_insert_eq, delete_insert_eq. apply delete_id. exact Hp.
  - split; [exact Hl2|]. split; [reflexivity|]. split; [reflexivity|].
    unfold W2, W1. cbn [heap set_heap set_sram]. apply insert_insert_eq.
Qed.

(** [X9] Evicting an aligned linear target and promoting it back for a
    bind returns its pixels word for word: swizzled on the way out,
    unswizzled on the way in. *)
Theorem eviction_preserves_pixels W t c W1 tr1 :
  heap W !! t = Some c -> aligned c = true -> swizzled c = false ->
  TextureSpillToSram t W = Some (true, W1, tr1) ->
  fst (vramalloc (size c) (vram W1)) <> NULL ->
  exists c1 W2 tr2 c2,
    heap W1 !! t = Some c1 /\ InVram (data c1) = false /\ swizzled c1 = true /\
    TexturePromoteToVram t true W1 = Some (true, W2, tr2) /\
    heap W2 !! t = Some c2 /\ InVram (data c2) = true /\ swizzled c2 = false /\
    pixels c2 = pixels c.
Proof.
  intros Hc Ha Hsw Hspill Hv.
  destruct (aligned_spec c Ha) as (rb & hb & Hrb & Hhb & Hrow & Hsz & Hd & Hs & Hp).
  assert (Hw : size c / 4 = 32 * rb * hb).
  { rewrite Hs. replace (128 * rb * hb) with (32 * rb * hb * 4) by lia.
    apply Z.div_mul. lia. }
  rewrite (TextureSpillToSram_eval _ _ _ Hc), Hsw in Hspill.
  rewrite (TextureSwizzle_eval _ _ _ _ Hc Hsw), Hd in Hspill.
  unfold dest in Hspill. cbn [fst snd] in Hspill.
  change (NULL =? NULL) with true in Hspill. cbv iota beta in Hspill.
  pose proof (SDL_malloc_range (size c) (sram W)) as Hr.
  set (a := fst (SDL_malloc (size c) (sram W))) in *.
  destruct (a =? NULL) eqn:Ea; [discriminate|]. apply Z.eqb_neq in Ea.
  destruct (swizzle_unswizzle_pixels rb hb (pixels c) (junk_block W (size c))
              (junk_block W (size c))) as (mid & E1 & Hlen & E2);
    try assumption; try (rewrite junk_block_length; lia).
  rewrite E1 in Hspill. injection Hspill as <- <-.
  set (c1 := set_swizzled true (set_data a mid c)).
  match goal with |- context [heap ?X !! t] => set (W1 := X) in * end.
  assert (Hc1 : heap W1 !! t = Some c1) by apply lookup_insert_eq.
  assert (Hv1 : InVram (data c1) = false).
  { cbn [data c1 set_swizzled set_data]. apply Z.ltb_ge.
    destruct Hr; [contradiction|assumption]. }
  pose proof (vramalloc_range (size c) (vram W1)) as Hvr.
  exists c1. rewrite (TexturePromoteToVram_eval _ _ _ Hc1 Hv1 Hv). cbv zeta.
  change (swizzled c1) with true. cbv iota.
  change (codec_dims c1) with (codec_dims c). rewrite Hd. cbn [mbind option_bind].
  change (pixels c1) with mid. change (size c1) with (size c).
  change (junk_block W1 (size c)) with (junk_block W (size c)). rewrite E2.
  do 3 eexists. split; [exact Hc1|]. split; [exact Hv1|]. split; [reflexivity|].
  split; [reflexivity|]. split; [apply lookup_insert_eq|].
  cbn [data pixels swizzled set_data set_swizzled].
  split; [apply Z.ltb_lt; lia|]. split; reflexivity.
Qed.

End More.

Import FirstFit.

(** 100 pixels make 128. *)
Lemma next_pow2_is_least_power_of_two_witness :
  exists j, 1 <= j <= 30 /\ TextureNextPow2 100 = Some (2^j) /\
            100 <= 2^j /\ (j = 1 \/ 2^(j-1) < 100).
Proof.
  apply (next_pow2_is_least_power_of_two 100).
  change (2^30) with 1073741824. lia.
Defined.

Lemma next_pow2_never_returns_above_2_31_witness :
  TextureNextPow2 2147483649 = None /\
  forall fuel, next_pow2_loop fuel 2147483649 2 = None.
Proof.
  apply (next_pow2_never_returns_above_2_31 2147483649).
  change (2^31) with 2147483648. lia.
Defined.

(** The strip has rows of 8 bytes and is 16 pixels high. *)
Lemma narrow_rows_are_not_copied_witness :
  let c := cell strip 4096 in
  (sdl_w c = 4 /\ sdl_h c = 16 /\ codec_dims c = Some (8, 16)) /\
  exists W' c',
    TextureActivate 4096 strip =
      Some (tt, W',
            [sceKernelDcacheWritebackRange (data c') (size c);
             sceGuTexMode (format c) true;
             sceGuTexImage (textureWidth c) (textureHeight c) (textureWidth c) (data c')]) /\
    heap W' !! 4096 = Some c' /\ swizzled c' = true /\
    data c' = fst (SDL_malloc (size c) (sram strip)) /\
    pixels c' = junk_block strip (size c).
Proof.
  cbv zeta. split; [repeat split; vm_compute; reflexivity|].
  refine (narrow_rows_are_not_copied strip 4096 (cell strip 4096) 8 16 _ _ _ _ _ _);
    try (vm_compute; reflexivity); [lia|vm_compute; discriminate].
Defined.

(** Three uses of the two targets of the scenario. *)
Lemma lru_order_is_move_to_front_witness :
  exists W', use_in_turn [4096; 8192; 4096] (scene 100000) = Some (tt, W', []) /\
    lru_list W' [4096; 8192] /\ relinked (scene 100000) W'.
Proof.
  refine (lru_order_is_move_to_front [4096; 8192; 4096] (scene 100000) [8192; 4096] _ _).
  - apply lru_check_sound. vm_compute. reflexivity.
  - intros t. rewrite !elem_of_cons, !elem_of_nil. tauto.
Defined.

(** Destroying the 8x8 target of the scenario leaves the 8x16 one. *)
Lemma destroy_releases_only_its_texture_witness :
  let W := scene 100000 in
  exists W', PSP_DestroyTexture 4096 W = Some (tt, W', []) /\
    lru_list W' [8192] /\ heap W' !! 4096 = None /\
    (forall x, x <> 4096 -> (unlinked <$> heap W' !! x) = (unlinked <$> heap W !! x)) /\
    vram W' = free_vram (data (cell W 4096)) (vram W) /\
    sram W' = free_sram (data (cell W 4096)) (sram W).
Proof.
  cbv zeta.
  refine (destroy_releases_only_its_texture (scene 100000) [8192; 4096] 4096
            (cell (scene 100000) 4096) _ _ _).
  - apply lru_check_sound. vm_compute. reflexivity.
  - vm_compute. reflexivity.
  - discriminate.
Defined.

(** A 5x3 static texture: 8x4 texels. *)
Lemma plain_texture_starts_zeroed_witness :
  let W := scene 100000 in
  exists jw jh W',
    1 <= jw <= 31 /\ 5 <= 2^jw /\ (jw = 1 \/ 2^(jw-1) < 5) /\
    1 <= jh <= 31 /\ 3 <= 2^jh /\ (jh = 1 \/ 2^(jh-1) < 3) /\
    let c0 := new_texture 5 3 SDL_PIXELFORMAT_ABGR8888 SDL_TEXTUREACCESS_STATIC
                (2^jw) (2^jh) in
    let a := fst (SDL_malloc (size c0) (sram W)) in
    PSP_CreateTexture 28672 5 3 SDL_PIXELFORMAT_ABGR8888 SDL_TEXTUREACCESS_STATIC W
      = Some (negb (a =? NULL), W', []) /\
    lru_list W' [8192; 4096] /\ vram W' = vram W /\
    sram W' = snd (SDL_malloc (size c0) (sram W)) /\
    heap W' =
      if a =? NULL then heap W
      else <[28672 := set_data a (repeat 0 (Z.to_nat (size c0 / 4))) c0]> (heap W).
Proof.
  cbv zeta.
  refine (plain_texture_starts_zeroed (scene 100000) [8192; 4096] 28672 5 3
            SDL_PIXELFORMAT_ABGR8888 SDL_TEXTUREACCESS_STATIC _ _ _ _ _ _).
  - apply lru_check_sound. vm_compute. reflexivity.
  - vm_compute. reflexivity.
  - discriminate.
  - discriminate.
  - change (2^31) with 2147483648. lia.
  - change (2^31) with 2147483648. lia.
Defined.

(** The 8x8 target is in system memory once the 16x8 one is created;
    binding it brings it back, and binding it again is free. *)
Lemma rebinding_the_bound_target_is_free_witness :
  let W := crowded 100000 in
  let W1 := after W (TextureBindAsTarget 4096) in
  InVram (data (cell W 4096)) = false /\
  exists c1, heap W1 !! 4096 = Some c1 /\
    TextureBindAsTarget 4096 W1 =
      Some (true, W1,
            sceGuDrawBufferList (format c1) (data c1) (textureWidth c1) ::
            (if format c1 =? GU_PSM_5551
             then [sceGuEnable GU_STENCIL_TEST; sceGuStencilOp; sceGuStencilFunc;
                   sceGuEnable GU_ALPHA_TEST; sceGuAlphaFunc]
             else [sceGuDisable GU_STENCIL_TEST; sceGuDisable GU_ALPHA_TEST])).
Proof.
  cbv zeta. split; [vm_compute; reflexivity|].
  refine (rebinding_the_bound_target_is_free (crowded 100000) 4096
            (cell (crowded 100000) 4096)
            (after (crowded 100000) (TextureBindAsTarget 4096))
            (calls (crowded 100000) (TextureBindAsTarget 4096)) _ _ _ _).
  - apply reachable_Inv. exact crowded_reachable.
  - vm_compute. reflexivity.
  - vm_compute. reflexivity.
  - apply run_eq. vm_compute. reflexivity.
Defined.

(** The 8x8 target of the scenario, out and back. *)
Lemma eviction_preserves_pixels_witness :
  let W := scene 100000 in
  let W1 := after W (TextureSpillToSram 4096) in
  exists c1 W2 tr2 c2,
    heap W1 !! 4096 = Some c1 /\ InVram (data c1) = false /\ swizzled c1 = true /\
    TexturePromoteToVram 4096 true W1 = Some (true, W2, tr2) /\
    heap W2 !! 4096 = Some c2 /\ InVram (data c2) = true /\ swizzled c2 = false /\
    pixels c2 = pixels (cell W 4096).
Proof.
  cbv zeta.
  refine (eviction_preserves_pixels (scene 100000) 4096 (cell (scene 100000) 4096)
            (after (scene 100000) (TextureSpillToSram 4096))
            (calls (scene 100000) (TextureSpillToSram 4096)) _ _ _ _ _).
  - vm_compute. reflexivity.
  - vm_compute. reflexivity.
  - vm_compute. reflexivity.
  - apply run_eq. vm_compute. reflexivity.
  - vm_compute. discriminate.
Defined.

End PspTextureSpec.

(** ** The PSP drawing path *)

Module PspDrawSpec.

Import Psp PspSpec PspDraw.

(** The draw calls of a trace, as (primitive, vertex count). *)
Definition draws (tr : list GuDrawCall) : list (GuPrimitive * Z) :=
  omap (fun e => match e with
                 | sceGuDrawArray p _ n _ => Some (p, n)
                 | _ => None
                 end) tr.

Definition is_draw_array (e : GuDrawCall) : bool :=
  match e with sceGuDrawArray _ _ _ _ => true | _ => false end.

(** The draw call a command of the queue stands for. *)
Definition draw_of (c : SDL_RenderCommand) : option (GuPrimitive * Z) :=
  let n := Gxm.count (draw c) in
  match command c with
  | Gxm.SDL_RENDERCMD_DRAW_POINTS => Some (GU_POINTS, n)
  | Gxm.SDL_RENDERCMD_DRAW_LINES => Some (GU_LINE_STRIP, n)
  | Gxm.SDL_RENDERCMD_FILL_RECTS => Some (GU_SPRITES, wrap_uint (2 * n))
  | Gxm.SDL_RENDERCMD_COPY => Some (GU_SPRITES, wrap_uint (2 * n))
  | Gxm.SDL_RENDERCMD_COPY_EX => Some (GU_TRIANGLE_FAN, 4)
  | Gxm.SDL_RENDERCMD_GEOMETRY => Some (GU_TRIANGLES, n)
  | _ => None
  end.

(** The calls [PSP_SetBlendState] makes for a texture whatever the cache
    holds. *)
Definition texture_mode_calls (st : PSP_BlendState) : list GuDrawCall :=
  if texture st =? NULL then []
  else
    match texture_scale_mode st with
    | Gxm.SDL_SCALEMODE_PIXELART | Gxm.SDL_SCALEMODE_NEAREST =>
        [sceGuTexFilter GU_NEAREST GU_NEAREST]
    | Gxm.SDL_SCALEMODE_LINEAR => [sceGuTexFilter GU_LINEAR GU_LINEAR]
    | _ => []
    end ++
    [sceGuTexWrap (TranslateAddressMode (texture_address_mode_u st))
       (TranslateAddressMode (texture_address_mode_v st))].

Definition is_draw_buffer (e : GuDrawCall) : bool :=
  match e with residency (sceGuDrawBufferList _ _ _) => true | _ => false end.

Definition sets_draw_buffer (e : GuCall) : bool :=
  match e with sceGuDrawBufferList _ _ _ => true | _ => false end.

Section Definitions.
Context `{Alloc : Allocators}.

(** [quiet m]: [m] does not set the draw buffer. *)
Definition quiet {A} (m : P A) : Prop := frame (fun _ : World => tt) sets_draw_buffer m.

(** The state a call on the renderer leaves, the value it returns and the
    calls it issues. *)
Definition after_r {A} (r : PSP_RenderData) (m : R A) : PSP_RenderData :=
  match m r with Some (_, r', _) => r' | None => r end.
Definition result_r {A} (r : PSP_RenderData) (m : R A) : option A :=
  match m r with Some (a, _, _) => Some a | None => None end.
Definition calls_r {A} (r : PSP_RenderData) (m : R A) : list GuDrawCall :=
  match m r with Some (_, _, tr) => tr | None => [] end.

(** A renderer on the world [W] with no display list open, the screen
    bound, and [target_] as [renderer->target]. *)
Definition studio (W : World) (target_ : ptr) : PSP_RenderData :=
  mkRender W 67108864 67665920 NULL false GU_PSM_8888 true
    (mkBlendState Gxm.SDL_BLENDMODE_INVALID 4294967295 GU_SMOOTH NULL
       Gxm.SDL_SCALEMODE_INVALID Gxm.SDL_TEXTURE_ADDRESS_INVALID
       Gxm.SDL_TEXTURE_ADDRESS_INVALID)
    false target_.

End Definitions.

(** A command of each kind, and a frame. *)
Definition psp_draw (ty : Gxm.SDL_RenderCommandType) (n : Z) (mode : Gxm.SDL_BlendMode)
    (tex : ptr) : SDL_RenderCommand :=
  mkCmd ty (Gxm.mkRect 0 0 480 272) true (Gxm.mkRect 10 10 100 100) 4278255360 255
    (Gxm.mkDraw 64 n mode tex Gxm.SDL_SCALEMODE_LINEAR
       Gxm.SDL_TEXTURE_ADDRESS_CLAMP Gxm.SDL_TEXTURE_ADDRESS_WRAP).

Definition psp_queue : list SDL_RenderCommand :=
  [psp_draw Gxm.SDL_RENDERCMD_SETDRAWCOLOR 0 Gxm.SDL_BLENDMODE_BLEND NULL;
   psp_draw Gxm.SDL_RENDERCMD_CLEAR 0 Gxm.SDL_BLENDMODE_BLEND NULL;
   psp_draw Gxm.SDL_RENDERCMD_FILL_RECTS 2 Gxm.SDL_BLENDMODE_BLEND NULL;
   psp_draw Gxm.SDL_RENDERCMD_FILL_RECTS 3 Gxm.SDL_BLENDMODE_BLEND NULL;
   psp_draw Gxm.SDL_RENDERCMD_COPY 1 Gxm.SDL_BLENDMODE_BLEND 12288;
   psp_draw Gxm.SDL_RENDERCMD_GEOMETRY 3 Gxm.SDL_BLENDMODE_ADD NULL;
   psp_draw Gxm.SDL_RENDERCMD_DRAW_LINES 4 Gxm.SDL_BLENDMODE_ADD NULL].

Lemma run_r_eq `{Alloc : Allocators} {A} (r : PSP_RenderData) (m : R A) a :
  result_r r m = Some a -> m r = Some (a, after_r r m, calls_r r m).
Proof.
  unfold result_r, after_r, calls_r. destruct (m r) as [[[a' r'] tr]|]; [|discriminate].
  intros [= <-]. reflexivity.
Qed.

Section Draw.
Context `{Alloc : Allocators}.
Local Open Scope m_scope.

(** The draw calls of a trace, and the computations that make none. *)
Lemma draws_app t1 t2 : draws (t1 ++ t2) = draws t1 ++ draws t2.
Proof. unfold draws. apply omap_app. Qed.

Lemma draws_quiet tr : Forall (fun e => is_draw_array e = false) tr -> draws tr = [].
Proof.
  induction 1 as [|e tr He _ IH]; [reflexivity|].
  destruct e; try discriminate He; exact IH.
Qed.

Lemma frame_in_world {A X} (f : PSP_RenderData -> X) phi (m : P A) :
  (forall W r, f (set_world W r) = f r) -> (forall e, phi (residency e) = false) ->
  frame f phi (in_world m).
Proof.
  intros Hf Hphi r a r' tr H. unfold in_world in H.
  destruct (m (world r)) as [[[a' W'] t]|]; [|discriminate]. injection H as <- <- <-.
  split; [apply Hf|]. apply Forall_forall. intros e He.
  apply list_elem_of_fmap in He as (e' & -> & _). apply Hphi.
Qed.

Lemma frame_emit_all {X} (f : PSP_RenderData -> X) phi l :
  Forall (fun e => phi e = false) l -> frame f phi (emit_all l).
Proof.
  induction 1 as [|e l He _ IH]; cbn [emit_all]; [apply frame_ret|].
  apply frame_bind; [apply frame_emit; exact He|intros _; exact IH].
Qed.

End Draw.

(** One step of a [frame] proof on the renderer. *)
Ltac frame_r :=
  first
  [ apply frame_ret | apply frame_get
  | apply frame_emit; reflexivity
  | apply frame_modify; intros; reflexivity
  | apply frame_in_world; [intros; reflexivity|intros; reflexivity]
  | apply frame_emit_all; unfold blend_mode_calls;
    repeat (match goal with |- context [if ?b then _ else _] => destruct b end);
    repeat constructor
  | apply frame_bind; [|intros ?]
  | apply frame_when; intros ?
  | lazymatch goal with
    | |- frame _ _ (if ?b then _ else _) => destruct b
    | |- frame _ _ (match ?x with _ => _ end) => destruct x
    | |- frame _ _ (let _ := _ in _) => cbv zeta
    end ].

Section Quiet.
Context `{Alloc : Allocators}.
Local Open Scope m_scope.

Lemma quiet_deref p : quiet (deref p).
Proof.
  intros W a W' tr H. unfold deref in H. destruct (heap W !! p); [|discriminate].
  injection H as <- <- <-. split; [reflexivity|constructor].
Qed.

Lemma quiet_lift {A} (o : option A) : quiet (lift o).
Proof.
  intros W a W' tr H. unfold lift in H. destruct o; [|discriminate].
  injection H as <- <- <-. split; [reflexivity|constructor].
Qed.

Lemma quiet_vramalloc n : quiet (do_vramalloc n).
Proof.
  intros W a W' tr H. unfold do_vramalloc in H. destruct (vramalloc n (vram W)).
  injection H as <- <- <-. split; [reflexivity|constructor].
Qed.

Lemma quiet_malloc n : quiet (do_SDL_malloc n).
Proof.
  intros W a W' tr H. unfold do_SDL_malloc in H. destruct (SDL_malloc n (sram W)).
  injection H as <- <- <-. split; [reflexivity|constructor].
Qed.

End Quiet.

(** One step of a [quiet] proof. *)
Ltac quiet_step :=
  first
  [ apply frame_ret | apply frame_get | apply frame_undefined
  | apply quiet_deref | apply quiet_lift | apply quiet_vramalloc | apply quiet_malloc
  | apply frame_emit; reflexivity
  | apply frame_modify; intros; reflexivity
  | apply frame_bind; [|intros ?]
  | apply frame_when; intros ?
  | lazymatch goal with
    | |- frame _ _ (if ?b then _ else _) => destruct b
    | |- frame _ _ (match ?x with _ => _ end) => destruct x
    | |- frame _ _ (let _ := _ in _) => cbv zeta
    end ].

Section Quiet2.
Context `{Alloc : Allocators}.
Local Open Scope m_scope.

Lemma quiet_LRUTargetRemove t : quiet (LRUTargetRemove t).
Proof.
  unfold quiet, LRUTargetRemove, LRUTargetRelink, assign, do_vfree. repeat quiet_step.
Qed.

Lemma quiet_TextureSwizzle t dst : quiet (TextureSwizzle t dst).
Proof.
  unfold quiet, TextureSwizzle, TextureStorageFree, assign, do_vfree, do_SDL_free.
  repeat quiet_step.
Qed.

Lemma quiet_TextureUnswizzle t dst : quiet (TextureUnswizzle t dst).
Proof.
  unfold quiet, TextureUnswizzle, TextureStorageFree, assign, do_vfree, do_SDL_free.
  repeat quiet_step.
Qed.

Lemma quiet_TextureSpillLRU n : quiet (TextureSpillLRU n).
Proof.
  unfold quiet, TextureSpillLRU, TextureSpillToSram. cbv zeta.
  repeat first [apply quiet_LRUTargetRemove | apply quiet_TextureSwizzle
               | unfold assign, do_vfree; quiet_step].
Qed.

Lemma quiet_spill_loop (fuel : nat) n : quiet (TextureSpillTargetsForSpace fuel n).
Proof.
  induction fuel as [|fuel IH]; cbn [TextureSpillTargetsForSpace].
  - unfold quiet. repeat quiet_step.
  - apply frame_bind; [apply frame_get|intros W].
    destruct (vlargestblock (vram W) <? n); [|apply frame_ret].
    apply frame_bind; [apply quiet_TextureSpillLRU|intros ok].
    destruct (negb ok); [apply frame_ret|exact IH].
Qed.

Lemma quiet_TexturePromoteToVram t b : quiet (TexturePromoteToVram t b).
Proof.
  unfold quiet, TexturePromoteToVram.
  repeat first [apply quiet_TextureUnswizzle | unfold assign, do_SDL_free; quiet_step].
Qed.

Lemma failed_bind_is_quiet t W W' tr :
  TextureBindAsTarget t W = Some (false, W', tr) ->
  Forall (fun e => sets_draw_buffer e = false) tr.
Proof.
  unfold TextureBindAsTarget. intros H.
  step_as H c W1 t1 Hd. destruct (quiet_deref _ _ _ _ _ Hd) as [_ Q1].
  step_as H ok W2 t2 Hres.
  assert (Q2 : Forall (fun e => sets_draw_buffer e = false) t2).
  { assert (Hq : quiet
              (if negb (InVram (data c)) then
                 W0 <- get ;;
                 ok0 <- TextureSpillTargetsForSpace (spill_fuel W0) (size c) ;;
                 if negb ok0 then ret false else TexturePromoteToVram t true
               else ret true)).
    { destruct (negb (InVram (data c))); [|apply frame_ret].
      apply frame_bind; [apply frame_get|intros W0].
      apply frame_bind; [apply quiet_spill_loop|intros ok0].
      destruct (negb ok0); [apply frame_ret|apply quiet_TexturePromoteToVram]. }
    exact (proj2 (Hq _ _ _ _ Hres)). }
  destruct ok; cbn [negb] in H.
  - exfalso. repeat (step_m H; clear Hs). unfold ret in H. discriminate.
  - unfold ret in H. injection H as <- <-. rewrite app_nil_r. apply Forall_app. split; assumption.
Qed.

End Quiet2.

Section Draw2.
Context `{Alloc : Allocators}.
Local Open Scope m_scope.

Lemma SetBlendState_no_draw st :
  frame (fun r => (displayListAvail r, boundTarget r, target r))
    is_draw_array (PSP_SetBlendState st).
Proof.
  unfold PSP_SetBlendState, SetTextureScaleMode, SetTextureAddressMode. cbv zeta.
  repeat frame_r.
Qed.

Lemma StartDrawing_no_draw :
  frame (fun r => target r) is_draw_array StartDrawing.
Proof. unfold StartDrawing. cbv zeta. repeat frame_r. Qed.

Lemma run_command_draw gpumem col c r col' r' tr :
  run_command gpumem col c r = Some (col', r', tr) ->
  draws tr = option_list (draw_of c) /\
  displayListAvail r' = displayListAvail r /\ boundTarget r' = boundTarget r /\
  target r' = target r.
Proof.
  unfold run_command, draw_of. cbv zeta. intros H.
  destruct (command c).
  all: try (prim_m H; repeat split; reflexivity).
  all: try (repeat (step_m H; try prim_m Hs); prim_m H; repeat split; reflexivity).
  all: try (step_as H u r1 t1 HS; step_as H u2 r2 t2 He; prim_m He; prim_m H;
            destruct (SetBlendState_no_draw _ _ _ _ _ HS) as [Ef Hq];
            injection Ef as E1 E2 E3;
            rewrite !draws_app, (draws_quiet _ Hq); repeat split; assumption).
  - step_as H u r1 t1 HS. prim_m H. destruct (cliprect_enabled c).
    + repeat (step_m HS; try prim_m Hs). prim_m HS. repeat split; reflexivity.
    + prim_m HS. repeat split; reflexivity.
  - step_as H u r1 t1 HS. prim_m H. rewrite app_nil_r.
    destruct (Gxm.texture (draw c) =? NULL).
    + repeat (step_m HS; try prim_m Hs). prim_m HS. repeat split; reflexivity.
    + step_as HS u1 r2 t2 HB. prim_m HS.
      destruct (SetBlendState_no_draw _ _ _ _ _ HB) as [Ef Hq].
      injection Ef as E1 E2 E3.
      rewrite !draws_app, (draws_quiet _ Hq). repeat split; assumption.
Qed.

Lemma run_commands_draw gpumem q : forall col r u r' tr,
  run_commands gpumem col q r = Some (u, r', tr) ->
  draws tr = omap draw_of q /\
  displayListAvail r' = displayListAvail r /\ boundTarget r' = boundTarget r /\
  target r' = target r.
Proof.
  induction q as [|c q IH]; intros col r u r' tr H.
  - prim_m H. repeat split; reflexivity.
  - cbn [run_commands] in H. step_as H col1 r1 t1 Hc.
    destruct (run_command_draw _ _ _ _ _ _ _ Hc) as (Hd & E1 & E2 & E3).
    destruct (IH _ _ _ _ _ H) as (Hd' & E1' & E2' & E3').
    rewrite draws_app, Hd, Hd'. cbn [omap list_omap].
    split; [destruct (draw_of c); reflexivity|].
    repeat split; congruence.
Qed.

(** [X16] The PSP translator does not batch: a run that has its vertex
    buffer returns true, and its draw calls are, in order, one for each
    draw command of the queue, with the primitive and the count of that
    command. *)
Theorem every_draw_command_is_one_draw_call q gpumem vertsize r ok r' tr :
  PSP_RunCommandQueue q gpumem vertsize r = Some (ok, r', tr) ->
  gpumem <> NULL ->
  ok = true /\ draws tr = omap draw_of q.
Proof.
  unfold PSP_RunCommandQueue. intros H Hg.
  step_as H u r1 t1 HS. step_as H u2 r2 t2 He. prim_m He.
  apply Z.eqb_neq in Hg. rewrite Hg in H.
  step_as H u3 r3 t3 HR. prim_m H.
  destruct (StartDrawing_no_draw _ _ _ _ HS) as [_ Hq].
  destruct (run_commands_draw _ _ _ _ _ _ _ HR) as (Hd & _).
  split; [reflexivity|].
  rewrite !draws_app, (draws_quiet _ Hq), Hd, app_nil_r. reflexivity.
Qed.

Lemma SetBlendState_state st r u r1 tr1 :
  PSP_SetBlendState st r = Some (u, r1, tr1) -> blendState r1 = st.
Proof.
  unfold PSP_SetBlendState. cbv zeta. intros H.
  repeat (step_m H; clear Hs). prim_m H. reflexivity.
Qed.

Lemma emit_all_eq l (r : PSP_RenderData) : emit_all l r = Some (tt, r, l).
Proof.
  induction l as [|e l IH]; [reflexivity|]. cbn [emit_all].
  unfold bind, emit. rewrite IH. reflexivity.
Qed.

Lemma SetBlendState_cached r :
  PSP_SetBlendState (blendState r) r = Some (tt, r, texture_mode_calls (blendState r)).
Proof.
  unfold PSP_SetBlendState, texture_mode_calls. cbv zeta. rewrite bind_get.
  rewrite !Z.eqb_refl. cbn [negb when].
  rewrite bool_decide_eq_false_2 by (intros E; apply E; reflexivity). cbn [when].
  assert (Er : set_blendState (blendState r) r = r) by (destruct r; reflexivity).
  destruct (texture (blendState r) =? NULL); cbn [negb when].
  - unfold bind, ret, modify. rewrite Er. reflexivity.
  - unfold SetTextureScaleMode, SetTextureAddressMode.
    destruct (texture_scale_mode (blendState r));
      unfold bind, ret, modify, emit; rewrite Er; reflexivity.
Qed.

(** [X17] [PSP_SetBlendState] caches: after a call the cached state is the
    one asked for, and the same request again issues only the filter and
    wrap calls of a textured state, which are not cached. *)
Theorem blend_state_is_cached st r u r1 tr1 :
  PSP_SetBlendState st r = Some (u, r1, tr1) ->
  blendState r1 = st /\
  PSP_SetBlendState st r1 = Some (tt, r1, texture_mode_calls st).
Proof.
  intros H. pose proof (SetBlendState_state _ _ _ _ _ H) as E.
  split; [exact E|]. rewrite <- E. apply SetBlendState_cached.
Qed.

Lemma in_world_Some {A} (m : P A) r a r1 tr :
  in_world m r = Some (a, r1, tr) ->
  exists W' t, m (world r) = Some (a, W', t) /\ r1 = set_world W' r /\ tr = map residency t.
Proof.
  unfold in_world. destruct (m (world r)) as [[[a' W'] t]|]; [|discriminate].
  intros [= <- <- <-]. eauto.
Qed.

Lemma StartDrawing_state r u r1 tr :
  StartDrawing r = Some (u, r1, tr) ->
  displayListAvail r1 = true /\ boundTarget r1 = target r /\ target r1 = target r.
Proof.
  unfold StartDrawing. intros H. rewrite bind_get in H.
  step_as H u1 ra t1 Ha.
  assert (Hra : displayListAvail ra = true /\ target ra = target r
                /\ boundTarget ra = boundTarget r).
  { destruct (displayListAvail r) eqn:E; cbn [negb when] in Ha.
    - prim_m Ha. auto.
    - step_as Ha u2 rb t2 He. prim_m He. prim_m Ha. auto. }
  destruct Hra as (Ed & Et & Eb). rewrite bind_get in H. cbv zeta in H.
  destruct (target ra =? boundTarget ra) eqn:E; cbn [negb when] in H.
  - prim_m H. apply Z.eqb_eq in E. repeat split; congruence.
  - step_as H u2 rb t2 Hb. prim_m H. cbn [displayListAvail boundTarget target set_boundTarget].
    destruct (target ra =? NULL); cbn [negb] in Hb.
    + prim_m Hb. repeat split; congruence.
    + step_as Hb b rc t3 Hw. prim_m Hb.
      apply in_world_Some in Hw as (W' & t & _ & -> & _).
      cbn [displayListAvail target set_world]. repeat split; congruence.
Qed.

Lemma StartDrawing_settled r :
  displayListAvail r = true -> boundTarget r = target r ->
  StartDrawing r = Some (tt, r, []).
Proof.
  intros Ed Eb. unfold StartDrawing. rewrite bind_get, Ed. cbn [negb when].
  unfold bind at 1. unfold ret at 1. rewrite bind_get, Eb, Z.eqb_refl. reflexivity.
Qed.

(** [X18] [StartDrawing] is idempotent: after it a display list is open
    and the bound target is the target of the renderer, and a second call
    does nothing. *)
Theorem start_drawing_is_idempotent r u r1 tr :
  StartDrawing r = Some (u, r1, tr) ->
  displayListAvail r1 = true /\ boundTarget r1 = target r /\
  StartDrawing r1 = Some (tt, r1, []).
Proof.
  intros H. destruct (StartDrawing_state _ _ _ _ H) as (Ed & Eb & Et).
  split; [exact Ed|]. split; [exact Eb|]. apply StartDrawing_settled; congruence.
Qed.

(** [X20] After a run of the translator, [PSP_RenderPresent] finishes and
    syncs the display list, waits for the vertical blank only when vsync is
    on and the blank was not reached, and swaps the buffers; a second
    present with no run in between returns false and does nothing. *)
Theorem present_closes_the_display_list q gpumem vertsize r ok r1 tr1 swapped :
  PSP_RunCommandQueue q gpumem vertsize r = Some (ok, r1, tr1) ->
  exists r2,
    PSP_RenderPresent swapped r1 =
      Some (true, r2,
            [sceGuFinish; sceGuSync] ++
            (if vsync r1 && vblank_not_reached r1 then [sceDisplayWaitVblankStart] else []) ++
            [sceGuSwapBuffers]) /\
    frontbuffer r2 = swapped /\ backbuffer r2 = frontbuffer r1 /\
    forall swapped', PSP_RenderPresent swapped' r2 = Some (false, r2, []).
Proof.
  unfold PSP_RunCommandQueue. intros H.
  step_as H u ra t1 HS. destruct (StartDrawing_state _ _ _ _ HS) as (Ed & _).
  step_as H u2 rb t2 He. prim_m He.
  assert (Hd : displayListAvail r1 = true).
  { destruct (gpumem =? NULL).
    - step_as H u3 rc t3 He. prim_m He. prim_m H. exact Ed.
    - step_as H u3 rc t3 HR. prim_m H.
      destruct (run_commands_draw _ _ _ _ _ _ _ HR) as (_ & E & _). congruence. }
  clear H HS.
  exists (set_buffers swapped (frontbuffer r1)
            (set_vblank_not_reached true (set_displayListAvail false r1))).
  split; [|split; [reflexivity|split; [reflexivity|]]].
  - unfold PSP_RenderPresent. rewrite bind_get, Hd. cbn [negb].
    destruct (vsync r1 && vblank_not_reached r1); reflexivity.
  - intros swapped'. unfold PSP_RenderPresent. rewrite bind_get. reflexivity.
Qed.


(** [X19] When the bind of the render target fails in [StartDrawing] the
    result is dropped: no draw buffer is set, yet the target is recorded as
    bound, so the next [StartDrawing] does not try again. *)
Theorem failed_bind_is_recorded_as_bound r W' trb :
  target r <> NULL -> target r <> boundTarget r ->
  TextureBindAsTarget (target r) (world r) = Some (false, W', trb) ->
  exists r1 tr,
    StartDrawing r = Some (tt, r1, tr) /\
    world r1 = W' /\ boundTarget r1 = target r /\
    Forall (fun e => is_draw_buffer e = false) tr /\
    StartDrawing r1 = Some (tt, r1, []).
Proof.
  intros Ht Hb Hbind.
  set (ra := if displayListAvail r then r else set_displayListAvail true r).
  set (r1 := set_boundTarget (target r) (set_world W' ra)).
  set (tr := (if displayListAvail r then [] else [sceGuStart]) ++ map residency trb).
  assert (Hra : world ra = world r /\ target ra = target r /\ boundTarget ra = boundTarget r
                /\ displayListAvail ra = true).
  { unfold ra. destruct (displayListAvail r) eqn:E; auto. }
  destruct Hra as (Ew & Et & Eb & Ed).
  assert (Hrun : StartDrawing r = Some (tt, r1, tr)).
  { unfold StartDrawing. rewrite bind_get.
    rewrite bind_eq with (a := tt) (s1 := ra)
                         (t1 := if displayListAvail r then [] else [sceGuStart]).
    2:{ unfold ra. destruct (displayListAvail r); reflexivity. }
    rewrite bind_get. cbv zeta. rewrite Et, Eb.
    apply Z.eqb_neq in Ht, Hb. rewrite Hb, Ht. cbn [negb when].
    unfold bind, in_world, modify, ret. rewrite Ew, Hbind.
    unfold tr, r1. rewrite !app_nil_r. reflexivity. }
  exists r1, tr. split; [exact Hrun|]. split; [reflexivity|]. split; [reflexivity|].
  split.
  - unfold tr. apply Forall_app. split.
    + destruct (displayListAvail r); repeat constructor.
    + apply Forall_forall. intros e He.
      apply list_elem_of_fmap in He as (e' & -> & He).
      pose proof (failed_bind_is_quiet _ _ _ _ Hbind) as Hq.
      rewrite Forall_forall in Hq. apply (Hq e' He).
  - apply StartDrawing_settled; [exact Ed|]. unfold r1.
    cbn [boundTarget target set_boundTarget set_world]. symmetry. exact Et.
Qed.

End Draw2.

Import FirstFit.

(** The frame of the example: five draw commands, five draw calls. *)
Lemma every_draw_command_is_one_draw_call_witness :
  draws (calls_r (studio (scene 100000) NULL) (PSP_RunCommandQueue psp_queue 1000000 4096))
  = [(GU_SPRITES, 4); (GU_SPRITES, 6); (GU_SPRITES, 2); (GU_TRIANGLES, 3);
     (GU_LINE_STRIP, 4)].
Proof.
  refine (proj2 (every_draw_command_is_one_draw_call psp_queue 1000000 4096
                   (studio (scene 100000) NULL) true
                   (after_r (studio (scene 100000) NULL)
                      (PSP_RunCommandQueue psp_queue 1000000 4096))
                   (calls_r (studio (scene 100000) NULL)
                      (PSP_RunCommandQueue psp_queue 1000000 4096)) _ _)).
  - apply run_r_eq. vm_compute. reflexivity.
  - discriminate.
Defined.

(** The blend state of a copy of the streaming texture. *)
Lemma blend_state_is_cached_witness :
  let r := studio (scene 100000) NULL in
  let st := textured_state 4278255360
              (psp_draw Gxm.SDL_RENDERCMD_COPY 1 Gxm.SDL_BLENDMODE_BLEND 12288) in
  let r1 := after_r r (PSP_SetBlendState st) in
  blendState r1 = st /\
  PSP_SetBlendState st r1 =
    Some (tt, r1, [sceGuTexFilter GU_LINEAR GU_LINEAR; sceGuTexWrap GU_CLAMP GU_REPEAT]).
Proof.
  cbv zeta.
  refine (blend_state_is_cached _ (studio (scene 100000) NULL) tt _
            (calls_r (studio (scene 100000) NULL) (PSP_SetBlendState _)) _).
  apply run_r_eq. vm_compute. reflexivity.
Defined.

(** The evicted 8x8 target as the target of the renderer. *)
Lemma start_drawing_is_idempotent_witness :
  let r := studio (crowded 100000) 4096 in
  let r1 := after_r r StartDrawing in
  displayListAvail r1 = true /\ boundTarget r1 = 4096 /\
  StartDrawing r1 = Some (tt, r1, []).
Proof.
  cbv zeta.
  refine (start_drawing_is_idempotent (studio (crowded 100000) 4096) tt _
            (calls_r (studio (crowded 100000) 4096) StartDrawing) _).
  apply run_r_eq. vm_compute. reflexivity.
Defined.

(** Presenting the frame of the example. *)
Lemma present_closes_the_display_list_witness :
  let r1 := after_r (studio (scene 100000) NULL)
              (PSP_RunCommandQueue psp_queue 1000000 4096) in
  exists r2,
    PSP_RenderPresent 67665920 r1 =
      Some (true, r2,
            [sceGuFinish; sceGuSync] ++
            (if vsync r1 && vblank_not_reached r1 then [sceDisplayWaitVblankStart] else []) ++
            [sceGuSwapBuffers]) /\
    frontbuffer r2 = 67665920 /\ backbuffer r2 = frontbuffer r1 /\
    forall swapped', PSP_RenderPresent swapped' r2 = Some (false, r2, []).
Proof.
  cbv zeta.
  refine (present_closes_the_display_list psp_queue 1000000 4096
            (studio (scene 100000) NULL) true _
            (calls_r (studio (scene 100000) NULL)
               (PSP_RunCommandQueue psp_queue 1000000 4096)) 67665920 _).
  apply run_r_eq. vm_compute. reflexivity.
Defined.

(** With no system memory left, the bind of the evicted 8x8 target fails. *)
Lemma failed_bind_is_recorded_as_bound_witness :
  let r := studio (packed 512) 4096 in
  result (packed 512) (TextureBindAsTarget 4096) = Some false /\
  exists r1 tr,
    StartDrawing r = Some (tt, r1, tr) /\
    world r1 = after (packed 512) (TextureBindAsTarget 4096) /\
    boundTarget r1 = 4096 /\
    Forall (fun e => is_draw_buffer e = false) tr /\
    StartDrawing r1 = Some (tt, r1, []).
Proof.
  cbv zeta. split; [vm_compute; reflexivity|].
  refine (failed_bind_is_recorded_as_bound (studio (packed 512) 4096)
            (after (packed 512) (TextureBindAsTarget 4096))
            (calls (packed 512) (TextureBindAsTarget 4096)) _ _ _).
  - discriminate.
  - discriminate.
  - apply run_eq. vm_compute. reflexivity.
Defined.

End PspDrawSpec.

(** ** Updating a PSP texture *)

Module PspUpdateSpec.

Import Psp PspSpec Bytes BytesSpec PspDraw PspDrawSpec.

Section Update.
Context `{Alloc : Allocators}.
Local Open Scope m_scope.

Lemma in_world_eq {A} (m : P A) (r : PSP_RenderData) a :
  m (world r) = Some (a, world r, []) -> in_world m r = Some (a, r, []).
Proof. unfold in_world. intros ->. destruct r; reflexivity. Qed.

(** [X21] [PSP_UpdateTexture] copies the rectangle: within bounds, row
    [row] of the source lands on row [y + row] of the texture from column
    [x], and no byte outside the rectangle changes; the single
    [SDL_memcpy] and the row loop give the same block. *)
Theorem update_copies_the_rectangle r t c rect pixels pitch block :
  let bpp := SDL_BYTESPERPIXEL (sdl_format c) in
  let len := Gxm.w rect * bpp in
  let dst := Gxm.y rect * Psp.pitch c + Gxm.x rect * bpp in
  heap (world r) !! t = Some c ->
  0 <= Gxm.x rect -> 0 <= Gxm.y rect -> 0 <= Gxm.w rect -> 0 < Gxm.h rect ->
  0 <= bpp -> (Gxm.x rect + Gxm.w rect) * bpp <= Psp.pitch c -> Psp.pitch c < 2^31 ->
  (Gxm.y rect + Gxm.h rect) * Psp.pitch c <= Z.of_nat (length block) ->
  0 <= data c -> data c + Z.of_nat (length block) < 2^32 ->
  0 <= pitch ->
  (Gxm.h rect - 1) * pitch + len <= Z.of_nat (length pixels) ->
  len * Gxm.h rect < 2^31 ->
  exists b,
    PSP_UpdateTexture t rect pixels pitch block r
      = Some ((true, b), r, [sceKernelDcacheWritebackAll]) /\
    length b = length block /\
    (forall row col, 0 <= row < Gxm.h rect -> 0 <= col < len ->
       load b ((Gxm.y rect + row) * Psp.pitch c + Gxm.x rect * bpp + col)
       = load pixels (row * pitch + col)) /\
    (forall i, ~ in_rows dst (Psp.pitch c) len (Gxm.h rect) i -> load b i = load block i).
Proof.
  intros bpp len dst Hc Hx Hy Hw Hh Hbpp Hrow Hp31 Hblock Hd0 Hd32 Hpitch Hsrc Hlen31.
  destruct rect as [rx ry rw rh]. cbn [Gxm.x Gxm.y Gxm.w Gxm.h] in *.
  set (P := Psp.pitch c) in *.
  assert (H0P : 0 <= P) by nia.
  assert (Hxb : 0 <= rx * bpp) by nia.
  assert (Hlen0 : 0 <= len) by (unfold len; nia).
  assert (HyP : 0 <= ry * P) by nia.
  assert (Hdst : 0 <= dst /\ dst + (rh - 1) * P + len <= Z.of_nat (length block)).
  { unfold dst, len. split; [lia|]. nia. }
  assert (Hlenle : len <= P) by (unfold len; nia).
  assert (Hlock : PSP_LockTexture t rx ry (world r)
                  = Some ((data c + dst, P), world r, [])).
  { rewrite (PSP_LockTexture_eval _ _ _ _ _ Hc). fold bpp P.
    assert (ry * P <= Z.of_nat (length block)) by nia.
    assert (dst <= Z.of_nat (length block)).
    { unfold dst. nia. }
    assert (rx * bpp <= P) by nia.
    rewrite (wrap_uint_small (ry * P)) by lia.
    rewrite (wrap_uint_small (rx * bpp)) by lia.
    rewrite wrap_uint_small by (unfold dst in *; lia).
    rewrite wrap_int_small by lia.
    replace (data c + ry * P + rx * bpp) with (data c + dst) by (unfold dst; lia).
    reflexivity. }
  assert (Hcopy : exists b,
            (if (len =? pitch) && (len =? P) then
               SDL_memcpy block dst pixels 0 (wrap_int (len * rh))
             else copy_rows (Z.to_nat rh) block dst P pixels 0 pitch len) = Some b /\
            length b = length block /\
            (forall row col, 0 <= row < rh -> 0 <= col < len ->
               load b (dst + row * P + col) = load pixels (0 + row * pitch + col)) /\
            (forall i, ~ in_rows dst P len rh i -> load b i = load block i)).
  { destruct ((len =? pitch) && (len =? P)) eqn:Efast.
    - apply andb_true_iff in Efast as [E1 E2]. apply Z.eqb_eq in E1, E2.
      assert (Hlh : 0 <= len * rh) by nia.
      rewrite wrap_int_small by lia.
      assert (Hd1 : dst + len * rh <= Z.of_nat (length block)).
      { destruct Hdst as [_ Hdst]. rewrite <- E2 in Hdst.
        replace (dst + len * rh) with (dst + (rh - 1) * len + len) by ring. exact Hdst. }
      assert (Hs1 : 0 + len * rh <= Z.of_nat (length pixels)).
      { rewrite <- E1 in Hsrc.
        replace (0 + len * rh) with ((rh - 1) * len + len) by ring. exact Hsrc. }
      destruct (SDL_memcpy_spec block dst pixels 0 (len * rh) (proj1 Hdst) (Z.le_refl 0)
                  Hlh Hd1 Hs1) as (b & E & Lb & V & F).
      exists b. split; [exact E|]. split; [exact Lb|]. split.
      + intros row col Hr Hcol. rewrite <- E1, <- E2.
        replace (dst + row * len + col) with (dst + (row * len + col)) by lia.
        apply V. nia.
      + intros i Hi. apply F. intros Hin. apply Hi.
        assert (0 < len) by nia.
        exists ((i - dst) / len), ((i - dst) mod len).
        pose proof (Z.div_mod (i - dst) len ltac:(lia)).
        pose proof (Z.mod_pos_bound (i - dst) len ltac:(lia)).
        assert (0 <= (i - dst) / len < rh).
        { split; [apply Z.div_pos; lia|]. apply Z.div_lt_upper_bound; lia. }
        rewrite <- E2. split; [assumption|]. split; [assumption|]. lia.
    - assert (Hb' : Z.to_nat rh <> O ->
                    dst + (Z.of_nat (Z.to_nat rh) - 1) * P + len <= Z.of_nat (length block))
        by (intros _; rewrite Z2Nat.id by lia; apply Hdst).
      assert (Hs' : Z.to_nat rh <> O ->
                    0 + (Z.of_nat (Z.to_nat rh) - 1) * pitch + len
                    <= Z.of_nat (length pixels))
        by (intros _; rewrite Z2Nat.id by lia; rewrite Z.add_0_l; exact Hsrc).
      destruct (copy_rows_spec pixels pitch P len (Z.to_nat rh) block dst 0 Hlen0 Hlenle
                  Hpitch (proj1 Hdst) (Z.le_refl 0) Hb' Hs') as (b & E & Lb & V & F).
      rewrite Z2Nat.id in V, F by lia.
      exists b. split; [exact E|]. split; [exact Lb|]. split; assumption. }
  destruct Hcopy as (b & Ecopy & Lb & V & F).
  exists b. split; [|split; [exact Lb|split]].
  - unfold PSP_UpdateTexture. cbn [Gxm.x Gxm.y Gxm.w Gxm.h].
    rewrite (bind_eq _ _ _ _ _ _ (in_world_eq _ r _ Hlock)).
    rewrite (bind_eq _ _ _ _ _ _ (in_world_eq _ r _ (deref_eq _ _ _ Hc))).
    cbv zeta. cbn [fst snd]. fold bpp. fold len.
    replace (data c + dst - data c) with dst by lia.
    rewrite (wrap_int_small len) by nia. fold P. rewrite Ecopy.
    unfold bind, emit, ret. reflexivity.
  - intros row col Hr Hcol.
    replace ((ry + row) * P + rx * bpp + col) with (dst + row * P + col)
      by (unfold dst; lia).
    rewrite V by assumption. f_equal.
  - exact F.
Qed.

End Update.

Import FirstFit.

(** The 8x8 streaming texture of the scenario, 32 bytes a row: a 3x2
    rectangle at (2, 1), from rows of 12 bytes. *)
Lemma update_copies_the_rectangle_witness :
  let r := studio (scene 100000) NULL in
  let pixels := map Z.of_nat (seq 1 24) in
  exists b,
    PSP_UpdateTexture 12288 (Gxm.mkRect 2 1 3 2) pixels 12 (repeat 0 256) r
      = Some ((true, b), r, [sceKernelDcacheWritebackAll]) /\
    load b (1 * 32 + 2 * 4) = Some 1 /\ load b (2 * 32 + 2 * 4 + 11) = Some 24 /\
    load b (1 * 32 + 2 * 4 + 12) = Some 0.
Proof.
  cbv zeta.
  destruct (update_copies_the_rectangle (studio (scene 100000) NULL) 12288
              (cell (scene 100000) 12288) (Gxm.mkRect 2 1 3 2)
              (map Z.of_nat (seq 1 24)) 12 (repeat 0 256))
    as (b & E & _ & V & F);
    [vm_compute; first [reflexivity|discriminate] ..|].
  exists b. split; [exact E|]. split; [|split].
  - apply (V 0 0); vm_compute; split; first [reflexivity|discriminate].
  - apply (V 1 11); vm_compute; split; first [reflexivity|discriminate].
  - rewrite F; [reflexivity|].
    intros (row & col & Hr & Hc & Ei). revert Hc Ei.
    change (Psp.pitch (cell (scene 100000) 12288)) with 32.
    change (SDL_BYTESPERPIXEL (sdl_format (cell (scene 100000) 12288))) with 4.
    cbn [Gxm.x Gxm.y Gxm.w Gxm.h]. lia.
Defined.

End PspUpdateSpec.
